(** * HasChain: a shallow embedding of the execution stack

    The development follows the TypeScript sources of the node.  Some files
    of the source tree have lost their names; they are cited by the name
    their imports give them, with their place in the tree after it.

    - [evm/utils.ts] ([unnamed/part_005]), [evm/worldState.ts]
                       bytes, hex keys, the in-memory world state
    - [evm/executionContext.ts] ([unnamed/part_006]), [evm/opcodes.ts],
      [evm/core.ts]    the virtual machine
    - [evm/transaction.ts]
                       the transaction executor
    - [blockchain/utils.ts]
                       length-prefix encoding, header (de)serialisation, and
                       the block processor, which follows in the same file
    - [consensus/poa.ts]
                       fork choice and signing
    - [pool/txPool.ts] the transaction pool
    - [blockchain/manager.ts] (in [unnamed/part_001])
                       the chain manager

    JavaScript [bigint] is [Z]; a [Uint8Array] is a list of [Z] in [0, 256);
    a string is the sequence of its code units, which are below 256 here; a
    JavaScript [Map] is an insertion-ordered association list; objects that
    the code shares by reference live in an explicit store and are named by
    locations.  What the virtual machine keeps on its stack and in storage is
    typed as a bigint but need not be one: it is a [Value]. *)

From Stdlib Require Import ZArith List String Ascii Bool Lia Arith.
From Stdlib Require Import Recdef DecimalString Zpow_facts RelationClasses.
From Stdlib Require Import Sorted Permutation.
Import ListNotations.

Set Implicit Arguments.
Local Open Scope string_scope.
Local Open Scope list_scope.
Local Open Scope Z_scope.

(* ================================================================== *)
(** * Results and the state-and-exception monad *)
(* ================================================================== *)

(** A JavaScript computation either returns or throws; what it did to the
    mutable state before throwing stays done.  [OutOfFuel] is not a
    JavaScript outcome: it marks a model loop that was cut off by its
    iteration bound, and is never caught.  The loop of the virtual machine
    is shown never to end that way; the walk back of the chain manager can go
    round for ever in the code, and the model then ends with [OutOfFuel]. *)
Inductive Exn : Type :=
| Error (msg : string)          (* [throw new Error(msg)] *)
| TypeError (msg : string)
| RangeError (msg : string)
| SyntaxError (msg : string).

Inductive Res (A : Type) : Type :=
| Ok (a : A)
| Throw (e : Exn)
| OutOfFuel.
Arguments Ok {A} a.
Arguments Throw {A} e.
Arguments OutOfFuel {A}.

(** The text of [`${error}`]. *)
Definition exnToString (e : Exn) : string :=
  match e with
  | Error msg => "Error: " ++ msg
  | TypeError msg => "TypeError: " ++ msg
  | RangeError msg => "RangeError: " ++ msg
  | SyntaxError msg => "SyntaxError: " ++ msg
  end%string.

Definition M (S A : Type) : Type := S -> Res A * S.

Definition ret {S A} (a : A) : M S A := fun s => (Ok a, s).
Definition throw {S A} (e : Exn) : M S A := fun s => (Throw e, s).
Definition bind {S A B} (c : M S A) (k : A -> M S B) : M S B :=
  fun s => match c s with
           | (Ok a, s') => k a s'
           | (Throw e, s') => (Throw e, s')
           | (OutOfFuel, s') => (OutOfFuel, s')
           end.
Definition get {S} : M S S := fun s => (Ok s, s).
Definition gets {S A} (f : S -> A) : M S A := fun s => (Ok (f s), s).
Definition modify {S} (f : S -> S) : M S unit := fun s => (Ok tt, f s).
(** [try { c } catch (e) { h e }] *)
Definition try_catch {S A} (c : M S A) (h : Exn -> M S A) : M S A :=
  fun s => match c s with
           | (Ok a, s') => (Ok a, s')
           | (Throw e, s') => h e s'
           | (OutOfFuel, s') => (OutOfFuel, s')
           end.

Declare Scope js_scope.
Delimit Scope js_scope with js.
Notation "x <- c ;; k" := (bind c (fun x => k))
  (at level 61, c at next level, right associativity) : js_scope.
Notation "c ;;; k" := (bind c (fun _ => k))
  (at level 61, right associativity) : js_scope.

(* ================================================================== *)
(** * JavaScript [Map]: insertion-ordered association lists *)
(* ================================================================== *)

Class EqKey (K : Type) : Type := {
  keqb : K -> K -> bool;
  keqb_spec : forall a b, keqb a b = true <-> a = b
}.

#[export] Instance EqKey_string : EqKey string :=
  {| keqb := String.eqb; keqb_spec := String.eqb_eq |}.
#[export] Instance EqKey_Z : EqKey Z :=
  {| keqb := Z.eqb; keqb_spec := Z.eqb_eq |}.

Module JsMap.
Section JsMap.
Context {K V : Type} `{EqKey K}.

Definition t := list (K * V).

Fixpoint get (k : K) (m : list (K * V)) : option V :=
  match m with
  | [] => None
  | (k', v) :: m' => if keqb k k' then Some v else get k m'
  end.

Definition has (k : K) (m : list (K * V)) : bool :=
  match get k m with Some _ => true | None => false end.

(** [m.set(k, v)]: an existing key keeps its position, a new key goes last. *)
Fixpoint set (k : K) (v : V) (m : list (K * V)) : list (K * V) :=
  match m with
  | [] => [(k, v)]
  | (k', v') :: m' => if keqb k k' then (k', v) :: m' else (k', v') :: set k v m'
  end.

Fixpoint delete (k : K) (m : list (K * V)) : list (K * V) :=
  match m with
  | [] => []
  | (k', v') :: m' => if keqb k k' then m' else (k', v') :: delete k m'
  end.

Definition keys (m : list (K * V)) : list K := map fst m.
Definition values (m : list (K * V)) : list V := map snd m.
Definition size (m : list (K * V)) : Z := Z.of_nat (List.length m).
End JsMap.
End JsMap.

(* ================================================================== *)
(** * Bytes and hexadecimal strings ([evm/utils.ts]) *)
(* ================================================================== *)

Definition Bytes := list Z.
Definition Address := Bytes.
Definition Hash := Bytes.
Definition Word := Z.

(** What an entry of the operand stack or a storage slot holds when the code
    runs.  The handlers are typed for bigints and nothing checks the type at
    run time: [swap] can put [undefined] on the stack, the quotient or the
    remainder of two values that are not bigints is the number [NaN], and a
    shift or a bitwise operation on two such values is the number [0].  These
    four kinds are closed under the handlers. *)
Inductive Value : Type :=
| BigInt (n : Z)
| Undefined
| NumberNaN
| NumberZero.

(** [Number(value)]; [None] is [NaN]. *)
Definition toNumber (v : Value) : option Z :=
  match v with
  | BigInt n => Some n
  | NumberZero => Some 0
  | Undefined | NumberNaN => None
  end.

(** [value === 0n] *)
Definition isBigZero (v : Value) : bool :=
  match v with
  | BigInt n => n =? 0
  | _ => false
  end.

Definition hexDigit (d : Z) : ascii :=
  match d with
  | 0 => "0" | 1 => "1" | 2 => "2" | 3 => "3" | 4 => "4" | 5 => "5" | 6 => "6" | 7 => "7"
  | 8 => "8" | 9 => "9" | 10 => "a" | 11 => "b" | 12 => "c" | 13 => "d" | 14 => "e"
  | _ => "f"
  end%char.

(** [b.toString(16).padStart(2, '0')] for a byte [b]. *)
Definition byteToHex (b : Z) : string :=
  String (hexDigit (b / 16)) (String (hexDigit (b mod 16)) EmptyString).

(** [Array.from(bytes).map(b => b.toString(16).padStart(2, '0')).join('')] *)
Fixpoint hexOfBytes (bytes : Bytes) : string :=
  match bytes with
  | [] => EmptyString
  | b :: bs => (byteToHex b ++ hexOfBytes bs)%string
  end.

Definition bytesToHex (bytes : Bytes) : string := ("0x" ++ hexOfBytes bytes)%string.

(** Hexadecimal digits of a number that is not negative, most significant
    first, in front of [acc]. *)
Function hexOfPos (n : Z) (acc : string) {measure (fun n => Z.to_nat (Z.log2 n)) n}
  : string :=
  if n <? 16 then String (hexDigit n) acc
  else hexOfPos (n / 16) (String (hexDigit (n mod 16)) acc).
Proof.
  intros n _ Hbig. apply Z.ltb_ge in Hbig.
  assert (Hlog : 4 <= Z.log2 n) by (change 4 with (Z.log2 16); now apply Z.log2_le_mono).
  change 16 with (2 ^ 4). rewrite <- Z.shiftr_div_pow2 by lia.
  rewrite Z.log2_shiftr by lia.
  apply Z2Nat.inj_lt; lia.
Defined.

(** [value.toString(16)] on a bigint: a minus sign, then the digits of the
    absolute value. *)
Definition toString16 (value : Z) : string :=
  if value <? 0
  then String "-"%char (hexOfPos (- value) EmptyString)
  else hexOfPos value EmptyString.

Fixpoint repeatChar (c : ascii) (n : nat) : string :=
  match n with
  | O => EmptyString
  | S n' => String c (repeatChar c n')
  end.

(** [s.padStart(n, '0')] *)
Definition padStart0 (s : string) (n : nat) : string :=
  (repeatChar "0"%char (n - String.length s) ++ s)%string.

(** [storageKeyToString] *)
Definition storageKeyToString (key : Word) : string :=
  padStart0 (toString16 key) 64.

(** [value.toString(16)] on what is not known to be a bigint; [undefined]
    has no [toString], which is a [TypeError]. *)
Definition toString16Any (value : Value) : option string :=
  match value with
  | BigInt n => Some (toString16 n)
  | NumberNaN => Some "NaN"
  | NumberZero => Some "0"
  | Undefined => None
  end.

(** [storageKeyToString] on whatever it is passed. *)
Definition storageKeyToStringAny (key : Value) : option string :=
  option_map (fun s => padStart0 s 64) (toString16Any key).

(** [n.toString()] for an integral JavaScript number below [1e21], which
    is printed in full: the numbers printed here are positions in a string,
    indices of an array and snapshot ids, all of them below [2^53]. *)
Definition numberToString (n : Z) : string :=
  DecimalString.NilZero.string_of_int (Z.to_int n).

(* ================================================================== *)
(** * The in-memory world state ([evm/worldState.ts]) *)
(* ================================================================== *)

(** An account object.  The [storage] field is a [Map] that the world state
    only ever copies ([new Map(account.storage)]), so it is kept by value. *)
Record Account : Type := mkAccount {
  address : Address;
  nonce : Z;
  balance : Z;
  code : Bytes;
  storage : list (string * Word)
}.

Definition set_balance (a : Account) (b : Z) : Account :=
  mkAccount (address a) (nonce a) b (code a) (storage a).
Definition set_nonce (a : Account) (n : Z) : Account :=
  mkAccount (address a) n (balance a) (code a) (storage a).
Definition set_code (a : Account) (c : Bytes) : Account :=
  mkAccount (address a) (nonce a) (balance a) c (storage a).

(** The object literal built by the mutators when the account is missing. *)
Definition freshAccount (addr : Address) : Account :=
  mkAccount addr 0 0 [] [].

(** Account objects and inner storage [Map]s are JavaScript objects: the maps
    of the world state and of its snapshots hold references to them.  A
    location names an object; [upd] is an assignment to it. *)
Definition loc := nat.

Definition upd {A : Type} (h : loc -> A) (l : loc) (a : A) : loc -> A :=
  fun l' => if Nat.eqb l' l then a else h l'.

Record Snapshot : Type := mkSnapshot {
  snap_accounts : list (string * loc);
  snap_storages : list (string * loc);
  snap_nextSnapshotId : Z
}.

Record InMemoryWorldState : Type := mkWorld {
  objs : loc -> Account;                 (* the account objects *)
  objs_next : loc;                       (* next unused account location *)
  maps : loc -> list (string * Value);   (* the inner storage Map objects *)
  maps_next : loc;                       (* next unused Map location *)
  accounts : list (string * loc);        (* this.accounts *)
  storages : list (string * loc);        (* this.storages *)
  snapshots : list (Z * Snapshot);       (* this.snapshots *)
  nextSnapshotId : Z;                    (* this.nextSnapshotId *)
  currentSnapshotId : option Z           (* this.currentSnapshotId *)
}.

Definition emptyWorld : InMemoryWorldState :=
  mkWorld (fun _ => freshAccount []) O (fun _ => []) O [] [] [] 1 None.

Module World.

Definition addressToKey (addr : Address) : string := hexOfBytes addr.

(** [getAccount] returns the stored object itself, not a copy. *)
Definition getAccount (addr : Address) (w : InMemoryWorldState) : option loc :=
  JsMap.get (addressToKey addr) (accounts w).

(** Assignment to a field of the object at [l]. *)
Definition writeObj (l : loc) (a : Account) (w : InMemoryWorldState) : InMemoryWorldState :=
  mkWorld (upd (objs w) l a) (objs_next w) (maps w) (maps_next w)
          (accounts w) (storages w) (snapshots w) (nextSnapshotId w) (currentSnapshotId w).

(** [putAccount(account)]: a copy of [account] becomes a new object and the
    map entry of its address points to the copy. *)
Definition putAccount (account : Account) (w : InMemoryWorldState) : InMemoryWorldState :=
  let l := objs_next w in
  mkWorld (upd (objs w) l account) (S l) (maps w) (maps_next w)
          (JsMap.set (addressToKey (address account)) l (accounts w))
          (storages w) (snapshots w) (nextSnapshotId w) (currentSnapshotId w).

Definition accountExists (addr : Address) (w : InMemoryWorldState) : bool :=
  JsMap.has (addressToKey addr) (accounts w).

(** [x || 0n]: a bigint other than [0n] is truthy; [0n], [undefined], [NaN]
    and the number [0] are not. *)
Definition orZero (x : option Value) : Word :=
  match x with
  | Some (BigInt v) => v
  | _ => 0
  end.

(** [getStorage] from the point where the key is a string. *)
Definition getStorageAt (addr : Address) (storageKey : string) (w : InMemoryWorldState)
  : Word :=
  match JsMap.get (addressToKey addr) (storages w) with
  | None => 0
  | Some l => orZero (JsMap.get storageKey (maps w l))
  end.

(** [getStorage] on a bigint key, as the interface types it. *)
Definition getStorage (addr : Address) (key : Word) (w : InMemoryWorldState) : Word :=
  getStorageAt addr (storageKeyToString key) w.

(** [getStorage] on whatever key the caller passes. *)
Definition getStorageAny (addr : Address) (key : Value) : M InMemoryWorldState Word :=
  match storageKeyToStringAny key with
  | Some storageKey => gets (getStorageAt addr storageKey)
  | None => throw (TypeError "Cannot read properties of undefined (reading 'toString')")
  end.

Definition writeMap (l : loc) (m : list (string * Value)) (w : InMemoryWorldState)
  : InMemoryWorldState :=
  mkWorld (objs w) (objs_next w) (upd (maps w) l m) (maps_next w)
          (accounts w) (storages w) (snapshots w) (nextSnapshotId w) (currentSnapshotId w).

(** [this.storages.set(addressKey, new Map())] *)
Definition newStorageMap (addressKey : string) (w : InMemoryWorldState) : InMemoryWorldState :=
  let l := maps_next w in
  mkWorld (objs w) (objs_next w) (upd (maps w) l []) (S l)
          (accounts w) (JsMap.set addressKey l (storages w))
          (snapshots w) (nextSnapshotId w) (currentSnapshotId w).

(** [setStorage] from the point where the key is a string. *)
Definition setStorageAt (addr : Address) (storageKey : string) (value : Value)
           (w : InMemoryWorldState) : InMemoryWorldState :=
  let addressKey := addressToKey addr in
  let w1 := if JsMap.has addressKey (storages w) then w else newStorageMap addressKey w in
  match JsMap.get addressKey (storages w1) with
  | Some l =>
      if isBigZero value
      then writeMap l (JsMap.delete storageKey (maps w1 l)) w1
      else writeMap l (JsMap.set storageKey value (maps w1 l)) w1
  | None => w1
  end.

(** [setStorage] on bigints, as the interface types it. *)
Definition setStorage (addr : Address) (key value : Word) (w : InMemoryWorldState)
  : InMemoryWorldState :=
  setStorageAt addr (storageKeyToString key) (BigInt value) w.

(** [setStorage] on whatever the caller passes: the key is turned into a
    string before anything is changed, and a value that is not [0n] is
    stored as it is. *)
Definition setStorageAny (addr : Address) (key value : Value) : M InMemoryWorldState unit :=
  match storageKeyToStringAny key with
  | Some storageKey => modify (setStorageAt addr storageKey value)
  | None => throw (TypeError "Cannot read properties of undefined (reading 'toString')")
  end.

Definition getBalance (addr : Address) (w : InMemoryWorldState) : Z :=
  match getAccount addr w with
  | Some l => balance (objs w l)
  | None => 0
  end.

(** The mutators change the object they fetched in place and then store a
    copy of it: [account.balance += amount; this.putAccount(account)]. *)
Definition addBalance (addr : Address) (amount : Z) (w : InMemoryWorldState)
  : InMemoryWorldState :=
  if amount =? 0 then w
  else match getAccount addr w with
       | Some l =>
           let account := set_balance (objs w l) (balance (objs w l) + amount) in
           putAccount account (writeObj l account w)
       | None =>
           putAccount (set_balance (freshAccount addr) (0 + amount)) w
       end.

Definition subBalance (addr : Address) (amount : Z) : M InMemoryWorldState unit :=
  fun w =>
    if amount =? 0 then (Ok tt, w)
    else match getAccount addr w with
         | Some l =>
             if balance (objs w l) <? amount
             then (Throw (Error "Insufficient balance"), w)
             else
               let account := set_balance (objs w l) (balance (objs w l) - amount) in
               (Ok tt, putAccount account (writeObj l account w))
         | None => (Throw (Error "Insufficient balance"), w)
         end.

Definition getNonce (addr : Address) (w : InMemoryWorldState) : Z :=
  match getAccount addr w with
  | Some l => nonce (objs w l)
  | None => 0
  end.

Definition incrementNonce (addr : Address) (w : InMemoryWorldState) : InMemoryWorldState :=
  match getAccount addr w with
  | Some l =>
      let account := set_nonce (objs w l) (nonce (objs w l) + 1) in
      putAccount account (writeObj l account w)
  | None => putAccount (set_nonce (freshAccount addr) (0 + 1)) w
  end.

Definition setNonce (addr : Address) (n : Z) (w : InMemoryWorldState) : InMemoryWorldState :=
  match getAccount addr w with
  | Some l =>
      let account := set_nonce (objs w l) n in
      putAccount account (writeObj l account w)
  | None => putAccount (set_nonce (freshAccount addr) n) w
  end.

Definition getCode (addr : Address) (w : InMemoryWorldState) : Bytes :=
  match getAccount addr w with
  | Some l => code (objs w l)
  | None => []
  end.

Definition setCode (addr : Address) (c : Bytes) (w : InMemoryWorldState) : InMemoryWorldState :=
  match getAccount addr w with
  | Some l =>
      let account := set_code (objs w l) c in
      putAccount account (writeObj l account w)
  | None => putAccount (set_code (freshAccount addr) c) w
  end.

(** The deep copy of [snapshot()]: every entry of the source map gets a new
    object holding the same field values, under the same key and in the same
    order (the keys of a [Map] are distinct, so each [set] appends). *)
Fixpoint copyEntries {A : Type} (src : list (string * loc)) (h : loc -> A) (next : loc)
  : list (string * loc) * (loc -> A) * loc :=
  match src with
  | [] => ([], h, next)
  | (key, l) :: rest =>
      let '(copied, h', next') := copyEntries rest (upd h next (h l)) (S next) in
      ((key, next) :: copied, h', next')
  end.

Definition snapshot : M InMemoryWorldState Z :=
  fun w =>
    let snapshotId := nextSnapshotId w in
    let nextId := snapshotId + 1 in
    let '(accountsCopy, objs', objs_next') := copyEntries (accounts w) (objs w) (objs_next w) in
    let '(storagesCopy, maps', maps_next') := copyEntries (storages w) (maps w) (maps_next w) in
    (Ok snapshotId,
     mkWorld objs' objs_next' maps' maps_next' (accounts w) (storages w)
             (JsMap.set snapshotId (mkSnapshot accountsCopy storagesCopy nextId) (snapshots w))
             nextId (Some snapshotId)).

(** [revert] installs [new Map(snapshot.accounts)]: a new map with the
    snapshot's keys that points to the snapshot's own objects. *)
Definition revert (snapshotId : Z) : M InMemoryWorldState unit :=
  fun w =>
    match JsMap.get snapshotId (snapshots w) with
    | None =>
        (Throw (Error ("Snapshot " ++ numberToString snapshotId ++ " not found")%string), w)
    | Some snap =>
        (Ok tt,
         mkWorld (objs w) (objs_next w) (maps w) (maps_next w)
                 (snap_accounts snap) (snap_storages snap)
                 (filter (fun e => negb (fst e >? snapshotId)) (snapshots w))
                 (snap_nextSnapshotId snap) (Some snapshotId))
    end.

Definition commit (snapshotId : option Z) (w : InMemoryWorldState) : InMemoryWorldState :=
  match snapshotId with
  | Some id =>
      mkWorld (objs w) (objs_next w) (maps w) (maps_next w) (accounts w) (storages w)
              (filter (fun e => negb (fst e >=? id)) (snapshots w))
              (nextSnapshotId w) (currentSnapshotId w)
  | None =>
      match currentSnapshotId w with
      | Some cur =>
          mkWorld (objs w) (objs_next w) (maps w) (maps_next w) (accounts w) (storages w)
                  (JsMap.delete cur (snapshots w)) (nextSnapshotId w) None
      | None => w
      end
  end.

(** What a client can read back: every account and every storage map,
    by key, with the contents of the object behind the reference. *)
Definition observableAccounts (w : InMemoryWorldState) : list (string * Account) :=
  map (fun e => (fst e, objs w (snd e))) (accounts w).
Definition observableStorages (w : InMemoryWorldState) : list (string * list (string * Value)) :=
  map (fun e => (fst e, maps w (snd e))) (storages w).
Definition observable (w : InMemoryWorldState) :=
  (observableAccounts w, observableStorages w).

End World.

(* ================================================================== *)
(** * Byte helpers shared by the VM and the encoders ([evm/utils.ts]) *)
(* ================================================================== *)

(** Big-endian value of a byte string. *)
Fixpoint beValue (acc : Z) (bytes : Bytes) : Z :=
  match bytes with
  | [] => acc
  | b :: bs => beValue (acc * 256 + b) bs
  end.

(** [bytesToBigint]: [BigInt('0x' + hex)]; on the empty array the literal is
    ['0x'], which [BigInt] rejects with a [SyntaxError]. *)
Definition bytesToBigint {S : Type} (bytes : Bytes) : M S Z :=
  match bytes with
  | [] => throw (SyntaxError "Cannot convert 0x to a BigInt")
  | _ => ret (beValue 0 bytes)
  end.

Definition zeros (n : nat) : Bytes := repeat 0 n.

(** [padBytes(bytes, length)]: zero bytes in front, up to [length]. *)
Definition padBytes (bytes : Bytes) (len : nat) : Bytes :=
  if (len <=? List.length bytes)%nat then bytes
  else zeros (len - List.length bytes) ++ bytes.

(** [a.slice(start, end)] for [0 <= start]. *)
Definition slice {A : Type} (a : list A) (start stop : Z) : list A :=
  firstn (Z.to_nat (stop - start)) (skipn (Z.to_nat start) a).

(** [target.set(data, offset)] when [offset + data.length <= target.length]. *)
Definition setBytes (target : Bytes) (data : Bytes) (offset : Z) : Bytes :=
  firstn (Z.to_nat offset) target ++ data
    ++ skipn (Z.to_nat offset + List.length data) target.

Definition len {A : Type} (a : list A) : Z := Z.of_nat (List.length a).

(* ================================================================== *)
(** * The virtual machine *)
(* ================================================================== *)

Module Env.
Record t : Type := mk {
    address : Address;
    caller : Address;
    origin : Address;
    value : Z;
    gasPrice : Z;
    block_number : Z;
    block_timestamp : Z;
    block_coinbase : Address;
    block_gasLimit : Z;
    chainId : Z
  }.
Definition with_address (e : t) (a : Address) : t :=
  mk a (caller e) (origin e) (value e) (gasPrice e) (block_number e)
     (block_timestamp e) (block_coinbase e) (block_gasLimit e) (chainId e).
End Env.

Record ExecutionResult : Type := mkResult {
  success : bool;
  gasUsed : Z;
  returnData : Bytes
}.

(** ** Opcodes and gas costs ([evm/opcodes.ts]) *)

Module OPCODES.
Definition STOP := 0x00.
Definition ADD := 0x01.
Definition MUL := 0x02.
Definition SUB := 0x03.
Definition DIV := 0x04.
Definition SDIV := 0x05.
Definition MOD := 0x06.
Definition SMOD := 0x07.
Definition ADDMOD := 0x08.
Definition MULMOD := 0x09.
Definition EXP := 0x0a.
Definition SIGNEXTEND := 0x0b.
Definition LT := 0x10.
Definition GT := 0x11.
Definition SLT := 0x12.
Definition SGT := 0x13.
Definition EQ := 0x14.
Definition ISZERO := 0x15.
Definition AND := 0x16.
Definition OR := 0x17.
Definition XOR := 0x18.
Definition NOT := 0x19.
Definition BYTE := 0x1a.
Definition SHL := 0x1b.
Definition SHR := 0x1c.
Definition SAR := 0x1d.
Definition KECCAK256 := 0x20.
Definition ADDRESS := 0x30.
Definition BALANCE := 0x31.
Definition ORIGIN := 0x32.
Definition CALLER := 0x33.
Definition CALLVALUE := 0x34.
Definition CALLDATALOAD := 0x35.
Definition CALLDATASIZE := 0x36.
Definition CALLDATACOPY := 0x37.
Definition CODESIZE := 0x38.
Definition CODECOPY := 0x39.
Definition GASPRICE := 0x3a.
Definition EXTCODESIZE := 0x3b.
Definition EXTCODECOPY := 0x3c.
Definition RETURNDATASIZE := 0x3d.
Definition RETURNDATACOPY := 0x3e.
Definition BLOCKHASH := 0x40.
Definition COINBASE := 0x41.
Definition TIMESTAMP := 0x42.
Definition NUMBER := 0x43.
Definition DIFFICULTY := 0x44.
Definition GASLIMIT := 0x45.
Definition POP := 0x50.
Definition MLOAD := 0x51.
Definition MSTORE := 0x52.
Definition MSTORE8 := 0x53.
Definition SLOAD := 0x54.
Definition SSTORE := 0x55.
Definition JUMP := 0x56.
Definition JUMPI := 0x57.
Definition PC := 0x58.
Definition MSIZE := 0x59.
Definition GAS := 0x5a.
Definition JUMPDEST := 0x5b.
Definition PUSH0 := 0x5f.
Definition PUSH1 := 0x60.
Definition PUSH32 := 0x7f.
Definition DUP1 := 0x80.
Definition DUP16 := 0x8f.
Definition SWAP1 := 0x90.
Definition SWAP16 := 0x9f.
Definition LOG0 := 0xa0.
Definition LOG1 := 0xa1.
Definition LOG2 := 0xa2.
Definition LOG3 := 0xa3.
Definition LOG4 := 0xa4.
Definition CREATE := 0xf0.
Definition CALL := 0xf1.
Definition CALLCODE := 0xf2.
Definition RETURN := 0xf3.
Definition DELEGATECALL := 0xf4.
Definition CREATE2 := 0xf5.
Definition STATICCALL := 0xfa.
Definition REVERT := 0xfd.
Definition SELFDESTRUCT := 0xff.
End OPCODES.

(** The [GAS_COSTS] table; [None] is JavaScript's [undefined] for an opcode
    that has no entry. *)
Definition GAS_COSTS (opcode : Z) : option Z :=
  if (0x60 <=? opcode) && (opcode <=? 0x7f) then Some 3        (* PUSH1..PUSH32 *)
  else if (0x80 <=? opcode) && (opcode <=? 0x9f) then Some 3   (* DUPn, SWAPn *)
  else match opcode with
  | 0x00 => Some 0  | 0x01 => Some 3  | 0x02 => Some 5  | 0x03 => Some 3
  | 0x04 => Some 5  | 0x05 => Some 5  | 0x06 => Some 5  | 0x07 => Some 5
  | 0x08 => Some 8  | 0x09 => Some 8  | 0x0a => Some 10 | 0x0b => Some 5
  | 0x10 => Some 3  | 0x11 => Some 3  | 0x12 => Some 3  | 0x13 => Some 3
  | 0x14 => Some 3  | 0x15 => Some 3  | 0x16 => Some 3  | 0x17 => Some 3
  | 0x18 => Some 3  | 0x19 => Some 3  | 0x1a => Some 3  | 0x1b => Some 3
  | 0x1c => Some 3  | 0x1d => Some 3
  | 0x20 => Some 30
  | 0x30 => Some 2  | 0x31 => Some 20 | 0x32 => Some 2  | 0x33 => Some 2
  | 0x34 => Some 2  | 0x35 => Some 3  | 0x36 => Some 2  | 0x37 => Some 3
  | 0x38 => Some 2  | 0x39 => Some 3  | 0x3a => Some 2  | 0x3b => Some 20
  | 0x3c => Some 20 | 0x3d => Some 2  | 0x3e => Some 3
  | 0x40 => Some 20 | 0x41 => Some 2  | 0x42 => Some 2  | 0x43 => Some 2
  | 0x44 => Some 2  | 0x45 => Some 2
  | 0x50 => Some 2  | 0x51 => Some 3  | 0x52 => Some 3  | 0x53 => Some 3
  | 0x54 => Some 50 | 0x55 => Some 0  | 0x56 => Some 8  | 0x57 => Some 10
  | 0x58 => Some 2  | 0x59 => Some 2  | 0x5a => Some 2  | 0x5b => Some 1
  | 0x5f => Some 2
  | 0xa0 => Some 375 | 0xa1 => Some 750 | 0xa2 => Some 1125 | 0xa3 => Some 1500
  | 0xa4 => Some 1875
  | 0xf0 => Some 32000 | 0xf1 => Some 40 | 0xf2 => Some 40 | 0xf3 => Some 0
  | 0xf4 => Some 40 | 0xf5 => Some 32000 | 0xfa => Some 40 | 0xfd => Some 0
  | 0xff => Some 0
  | _ => None
  end.

(** [Number(n)] of a bigint: the double nearest to [n], the one with the
    even mantissa when two are as near.  Up to [2^53] it is [n] itself.
    Beyond the largest double it is [Infinity], for which this function
    answers [2^1024]: a typed array keeps 0 of both. *)
Definition numberOfBigint (n : Z) : Z :=
  let magnitude := Z.abs n in
  let dropped := Z.log2 magnitude - 52 in
  if dropped <=? 0 then n
  else
    let mantissa := Z.shiftr magnitude dropped in
    let remainder := magnitude - Z.shiftl mantissa dropped in
    let half := Z.shiftl 1 (dropped - 1) in
    let roundUp := (remainder >? half) || ((remainder =? half) && Z.odd mantissa) in
    Z.sgn n * Z.shiftl (if roundUp then mantissa + 1 else mantissa) dropped.

(** [1n << 256n] and the word mask [(1n << 256n) - 1n]. *)
Definition TWO256 : Z := Z.shiftl 1 256.
Definition WORD_MASK : Z := Z.shiftl 1 256 - 1.

(** ** [expmod]: square-and-multiply.  [%] is the truncating remainder and
    [>>] the arithmetic shift of bigints. *)
Definition expmod_multiply (modulus result b e : Z) : Z :=
  if Z.rem e 2 =? 1 then Z.rem (result * b) modulus else result.

Function expmod_loop (modulus result b e : Z)
         {measure (fun e => Z.to_nat (Z.log2 (2 * e))) e} : Z :=
  if e >? 0 then
    expmod_loop modulus
      (expmod_multiply modulus result b e)
      (Z.rem (b * b) modulus)
      (Z.shiftr e 1)
  else result.
Proof.
  intros _ _ _ e He.
  apply Z.gtb_lt in He.
  destruct (Z.eq_dec e 1) as [-> | Hbig]; [simpl; lia |].
  assert (Hhalf : 0 < Z.shiftr e 1).
  { rewrite Z.shiftr_div_pow2 by lia. change (2 ^ 1) with 2.
    apply Z.div_str_pos. lia. }
  rewrite !Z.log2_double by lia.
  rewrite Z.log2_shiftr by lia.
  assert (1 <= Z.log2 e) by (change 1 with (Z.log2 2); apply Z.log2_le_mono; lia).
  apply Z2Nat.inj_lt; lia.
Defined.

Definition expmod (base exponent modulus : Z) : Z :=
  if modulus =? 1 then 0
  else expmod_loop modulus 1 (Z.rem base modulus) exponent.

(** ** [hexToBytes] and [bigintToBytes] ([evm/utils.ts]) *)

Definition dquote : ascii := ascii_of_nat 34.

Definition hexVal (c : ascii) : option Z :=
  let n := Z.of_nat (nat_of_ascii c) in
  if (48 <=? n) && (n <=? 57) then Some (n - 48)            (* 0-9 *)
  else if (97 <=? n) && (n <=? 102) then Some (n - 87)      (* a-f *)
  else if (65 <=? n) && (n <=? 70) then Some (n - 55)       (* A-F *)
  else None.

(** [parseInt(pair, 16)] on a two-character string without white space:
    an optional sign, an optional [0x], then the longest run of hexadecimal
    digits; [None] is [NaN]. *)
Definition parseHexPair (c1 c2 : ascii) : option Z :=
  if Ascii.eqb c1 "-" then option_map Z.opp (hexVal c2)
  else if Ascii.eqb c1 "+" then hexVal c2
  else match hexVal c1 with
       | None => None
       | Some v1 =>
           if Ascii.eqb c1 "0" && (Ascii.eqb c2 "x" || Ascii.eqb c2 "X") then None
           else match hexVal c2 with
                | Some v2 => Some (16 * v1 + v2)
                | None => Some v1
                end
       end.

(** What [\s] matches among the code units below 256: tab, line feed,
    vertical tab, form feed, carriage return, space and the no-break space. *)
Definition isWhitespace (c : ascii) : bool :=
  let n := nat_of_ascii c in
  ((9 <=? n) && (n <=? 13))%nat || (n =? 32)%nat || (n =? 160)%nat.

Fixpoint removeWhitespace (s : string) : string :=
  match s with
  | EmptyString => EmptyString
  | String c s' => if isWhitespace c then removeWhitespace s' else String c (removeWhitespace s')
  end.

(** The loop of [hexToBytes]; an element assigned to a [Uint8Array] is
    reduced modulo 256. *)
Fixpoint parseHexPairs {S : Type} (pos : Z) (hex : string) : M S Bytes :=
  match hex with
  | String c1 (String c2 rest) =>
      match parseHexPair c1 c2 with
      | None =>
          throw (Error ("Invalid hex string at position " ++ numberToString pos ++ ": "
                   ++ String dquote (String c1 (String c2 (String dquote EmptyString))))%string)
      | Some v =>
          fun s => match parseHexPairs (pos + 2) rest s with
                   | (Ok bytes, s') => (Ok (v mod 256 :: bytes), s')
                   | other => other
                   end
      end
  | _ => ret []
  end.

Definition stripHexPrefix (hex : string) : string :=
  match hex with
  | String "0" (String "x" rest) => rest
  | _ => hex
  end.

Definition hexToBytes {S : Type} (hex : string) : M S Bytes :=
  let hex := removeWhitespace (stripHexPrefix hex) in
  let hex := if Nat.even (String.length hex) then hex else String "0" hex in
  parseHexPairs 0 hex.

(** [bigintToBytes(value, length)] *)
Definition bigintToBytes {S : Type} (value : Z) (length : nat) : M S Bytes :=
  hexToBytes (padStart0 (toString16 value) (length * 2)).

(** [bigintToBytes(value, length)] on what is not known to be a bigint. *)
Definition bigintToBytesAny {S : Type} (value : Value) (length : nat) : M S Bytes :=
  match toString16Any value with
  | Some digits => hexToBytes (padStart0 digits (length * 2))
  | None => throw (TypeError "Cannot read properties of undefined (reading 'toString')")
  end.

(** ** The execution context ([evm/executionContext.ts])

    The operand stack is a JavaScript array that grows at its end; here the
    head of the list is the top of the stack.  An array is an object: [swap]
    can read and write its property [-1], which is no element and does not
    count for [length]; [stackMinus1] is that property, [Undefined] as long
    as it has not been written.  [Number(x)] of a popped bigint is taken as
    [x] itself: the conversion is exact below [2^53], and beyond that both
    sides of every comparison with an array length agree.  The largest length
    [new Uint8Array(n)] accepts depends on the engine and is the parameter
    [maxByteLength]; a larger [n] is a [RangeError]. *)

Module Ctx.

Record t : Type := mk {
    code : Bytes;
    pc : Z;
    stack : list Value;
    stackMinus1 : Value;
    memory : Bytes;
    gasLeft : Z;
    returnData : Bytes;
    calldata : Bytes;
    world : InMemoryWorldState;
    env : Env.t;
    stopped : bool;
    reverted : bool
  }.

Definition with_pc (c : t) (x : Z) : t :=
  mk (code c) x (stack c) (stackMinus1 c) (memory c) (gasLeft c) (returnData c) (calldata c)
     (world c) (env c) (stopped c) (reverted c).
Definition with_stack (c : t) (x : list Value) : t :=
  mk (code c) (pc c) x (stackMinus1 c) (memory c) (gasLeft c) (returnData c) (calldata c)
     (world c) (env c) (stopped c) (reverted c).
Definition with_stackMinus1 (c : t) (x : Value) : t :=
  mk (code c) (pc c) (stack c) x (memory c) (gasLeft c) (returnData c) (calldata c)
     (world c) (env c) (stopped c) (reverted c).
Definition with_memory (c : t) (x : Bytes) : t :=
  mk (code c) (pc c) (stack c) (stackMinus1 c) x (gasLeft c) (returnData c) (calldata c)
     (world c) (env c) (stopped c) (reverted c).
Definition with_gasLeft (c : t) (x : Z) : t :=
  mk (code c) (pc c) (stack c) (stackMinus1 c) (memory c) x (returnData c) (calldata c)
     (world c) (env c) (stopped c) (reverted c).
Definition with_world (c : t) (x : InMemoryWorldState) : t :=
  mk (code c) (pc c) (stack c) (stackMinus1 c) (memory c) (gasLeft c) (returnData c)
     (calldata c) x (env c) (stopped c) (reverted c).

(** The constructor: [pc = 0], empty stack, memory and return data. *)
Definition new (code : Bytes) (world : InMemoryWorldState) (env : Env.t)
           (gasLimit : Z) (calldata : Bytes) : t :=
  mk code 0 [] Undefined [] gasLimit [] calldata world env false false.

(** A method of [this.world]: the world state is an object the context
    refers to, and what the method did to it stays done when it throws. *)
Definition onWorld {A : Type} (c : M InMemoryWorldState A) : M t A :=
  fun ctx => let '(r, w) := c (world ctx) in (r, with_world ctx w).

Section Memory.
Variable maxByteLength : Z.

Definition newUint8Array (n : Z) : M t Bytes :=
  if n >? maxByteLength then throw (RangeError "Invalid typed array length")
  else ret (zeros (Z.to_nat n)).

Local Open Scope js_scope.

    (** [value < 0n || value > (1n << 256n) - 1n]: a comparison with
        [undefined] or [NaN] is false, and the number [0] is within the
        range. *)
Definition outOfRange (value : Value) : bool :=
  match value with
  | BigInt n => (n <? 0) || (n >? WORD_MASK)
  | Undefined | NumberNaN | NumberZero => false
  end.

Definition push (value : Value) : M t unit :=
  fun ctx =>
    if len (stack ctx) >=? 1024 then (Throw (Error "Stack overflow"), ctx)
    else if outOfRange value then (Throw (Error "Invalid stack value"), ctx)
    else (Ok tt, with_stack ctx (value :: stack ctx)).

Definition pop : M t Value :=
  fun ctx =>
    match stack ctx with
    | [] => (Throw (Error "Stack underflow"), ctx)
    | v :: rest => (Ok v, with_stack ctx rest)
    end.

    (** [swap(index)], for the indices [0] to [15] the handlers pass.  The
        guard is [index >= length], so [index = length - 1] gets through with
        [target = -1]: the top of the stack takes what the property [-1] of
        the array holds, and the property takes the old top. *)
Definition swap (index : Z) : M t unit :=
  fun ctx =>
    if index >=? len (stack ctx) then (Throw (Error "Stack underflow"), ctx)
    else
      match stack ctx with
      | top :: below =>
          match nth_error below (Z.to_nat index) with
          | Some target =>
              (Ok tt,
               with_stack ctx
                 (target :: firstn (Z.to_nat index) below ++ top
                         :: skipn (S (Z.to_nat index)) below))
          | None =>
              (Ok tt, with_stackMinus1 (with_stack ctx (stackMinus1 ctx :: below)) top)
          end
      | [] => (Throw (Error "Stack underflow"), ctx)
      end.

Definition dup (index : Z) : M t unit :=
  fun ctx =>
    if index >=? len (stack ctx) then (Throw (Error "Stack underflow"), ctx)
    else push (nth (Z.to_nat index) (stack ctx) Undefined) ctx.

    (** Grow [this.memory] to [requiredSize] bytes when it is shorter. *)
Definition expandMemory (requiredSize : Z) : M t unit :=
  fun ctx =>
    if len (memory ctx) <? requiredSize then
      match newUint8Array requiredSize ctx with
      | (Ok newMemory, ctx') =>
          (Ok tt, with_memory ctx' (setBytes newMemory (memory ctx') 0))
      | (Throw e, ctx') => (Throw e, ctx')
      | (OutOfFuel, ctx') => (OutOfFuel, ctx')
      end
    else (Ok tt, ctx).

Definition readMemory (offset size : Z) : M t Bytes :=
  if size =? 0 then ret []
  else
    expandMemory (offset + size) ;;;
    (fun ctx => (Ok (slice (memory ctx) offset (offset + size)), ctx)).

    (** [readMemory] when [offset] or [size] may be [NaN].  With a [NaN]
        among them [size === 0] is false unless [size] is [0],
        [requiredSize] is [NaN], to which no length compares as smaller, and
        [slice] reads a [NaN] bound as [0]: nothing is read. *)
Definition readMemoryAny (offset size : option Z) : M t Bytes :=
  match offset, size with
  | Some offset, Some size => readMemory offset size
  | _, _ => ret []
  end.

Definition writeMemory (offset : Z) (data : Bytes) : M t unit :=
  if len data =? 0 then ret tt
  else
    expandMemory (offset + len data) ;;;
    modify (fun ctx => with_memory ctx (setBytes (memory ctx) data offset)).

    (** [writeMemory] when [offset] may be [NaN]: the memory is not grown,
        and [this.memory.set(data, NaN)] writes at [0], a [RangeError] when
        [data] is longer than the memory. *)
Definition writeMemoryAny (offset : option Z) (data : Bytes) : M t unit :=
  match offset with
  | Some offset => writeMemory offset data
  | None =>
      if len data =? 0 then ret tt
      else
        fun ctx =>
          if len data >? len (memory ctx)
          then (Throw (RangeError "offset is out of bounds"), ctx)
          else (Ok tt, with_memory ctx (setBytes (memory ctx) data 0))
  end.

Definition writeMemoryWord (offset : Z) (value : Word) : M t unit :=
  bytes <- bigintToBytes value 32 ;;
  writeMemory offset bytes.

    (** [writeMemoryWord] on what [MSTORE] pops. *)
Definition writeMemoryWordAny (offset : option Z) (value : Value) : M t unit :=
  bytes <- bigintToBytesAny value 32 ;;
  writeMemoryAny offset bytes.

Definition useGas (amount : Z) : M t unit :=
  fun ctx =>
    if amount <? 0 then (Throw (Error "Negative gas consumption"), ctx)
    else if gasLeft ctx <? amount then (Throw (Error "Out of gas"), ctx)
    else (Ok tt, with_gasLeft ctx (gasLeft ctx - amount)).

Definition jump (destination : Z) : M t unit :=
  fun ctx =>
    if (destination <? 0) || (destination >=? len (code ctx))
    then (Throw (Error "Invalid jump destination"), ctx)
    else if negb (nth (Z.to_nat destination) (code ctx) 0 =? 0x5b)
    then (Throw (Error "Invalid jump destination"), ctx)
    else (Ok tt, with_pc ctx destination).

    (** [jump] when the destination may be [NaN]: [NaN] passes the range
        test, and [this.code[NaN]] is [undefined], which is not [0x5b]. *)
Definition jumpAny (destination : option Z) : M t unit :=
  match destination with
  | Some destination => jump destination
  | None => throw (Error "Invalid jump destination")
  end.

Definition readCalldata (offset size : Z) (ctx : t) : Bytes :=
  if offset >=? len (calldata ctx) then []
  else slice (calldata ctx) offset (Z.min (offset + size) (len (calldata ctx))).

    (** [readCalldata] when [offset] or [size] may be [NaN]: [end] is then
        [NaN], which [slice] reads as [0]. *)
Definition readCalldataAny (offset size : option Z) (ctx : t) : Bytes :=
  match offset, size with
  | Some offset, Some size => readCalldata offset size ctx
  | _, _ => []
  end.

Definition stop (data : Bytes) : M t unit :=
  modify (fun c => mk (code c) (pc c) (stack c) (stackMinus1 c) (memory c) (gasLeft c) data
                      (calldata c) (world c) (env c) true (reverted c)).

Definition revert (data : Bytes) : M t unit :=
  modify (fun c => mk (code c) (pc c) (stack c) (stackMinus1 c) (memory c) (gasLeft c) data
                      (calldata c) (world c) (env c) true true).

Definition getCurrentOpcode (ctx : t) : Z :=
  if pc ctx >=? len (code ctx) then 0x00
  else nth (Z.to_nat (pc ctx)) (code ctx) 0x00.

Definition readBytes (count : Z) : M t Bytes :=
  fun ctx =>
    if pc ctx + count >? len (code ctx) then (Throw (Error "Code out of bounds"), ctx)
    else (Ok (slice (code ctx) (pc ctx) (pc ctx + count)),
          with_pc ctx (pc ctx + count)).

Definition readPushData : M t Bytes :=
  fun ctx =>
    let opcode := getCurrentOpcode ctx in
    if (opcode <? 0x60) || (opcode >? 0x7f) then (Throw (Error "Not a PUSH instruction"), ctx)
    else
      let pushBytes := opcode - 0x60 + 1 in
      readBytes pushBytes (with_pc ctx (pc ctx + 1)).
End Memory.

End Ctx.

(** ** The opcode handlers ([createOpcodeHandlers], [evm/opcodes.ts])

    The operators of the handlers are those of JavaScript.  On two bigints
    they are the bigint operations.  An arithmetic, shift or bitwise operator
    on a bigint and a value that is not one is a [TypeError]; on two values
    that are not bigints it is the operation on numbers, [undefined] counting
    as [NaN].  A comparison holds when both sides are numeric and compare as
    it says. *)

Module Evm.
Section Evm.
Variable maxByteLength : Z.

Import Ctx.
Local Open Scope js_scope.

Definition mixedTypes {A : Type} : M Ctx.t A :=
  throw (TypeError "Cannot mix BigInt and other types, use explicit conversions").

(** [ctx.useGas(GAS_COSTS[opcode]!)]; subtracting [undefined] from a bigint
    is a [TypeError]. *)
Definition useGasOf (opcode : Z) : M Ctx.t unit :=
  match GAS_COSTS opcode with
  | Some amount => useGas amount
  | None => throw (TypeError "Cannot mix BigInt and other types, use explicit conversions")
  end.

(** [Number(ctx.pop())] *)
Definition popNumber : M Ctx.t (option Z) :=
  value <- pop ;;
  ret (toNumber value).

(** The value of an operand in a comparison: a bigint and the number [0]
    compare by their value, [undefined] and [NaN] compare with nothing. *)
Definition numeric (v : Value) : option Z :=
  match v with
  | BigInt n => Some n
  | NumberZero => Some 0
  | Undefined | NumberNaN => None
  end.

(** [a < b], [a > b] and [a >= b] *)
Definition lessThan (a b : Value) : bool :=
  match numeric a, numeric b with
  | Some x, Some y => x <? y
  | _, _ => false
  end.
Definition greaterThan (a b : Value) : bool := lessThan b a.
Definition atLeast (a b : Value) : bool :=
  match numeric a, numeric b with
  | Some x, Some y => x >=? y
  | _, _ => false
  end.

(** [a === b]: values of one type that are equal, [NaN] being equal to
    nothing. *)
Definition strictEquals (a b : Value) : bool :=
  match a, b with
  | BigInt x, BigInt y => x =? y
  | Undefined, Undefined => true
  | NumberZero, NumberZero => true
  | _, _ => false
  end.

(** A handler that takes two operands and leaves one result. *)
Definition binaryOp (opcode : Z) (f : Value -> Value -> M Ctx.t Value) : M Ctx.t unit :=
  useGasOf opcode ;;;
  a <- pop ;;
  b <- pop ;;
  result <- f a b ;;
  push result.

(** [(a op b) & ((1n << 256n) - 1n)]: the mask is a bigint, so the result of
    [op] has to be one. *)
Definition masked (f : Z -> Z -> Z) (a b : Value) : M Ctx.t Value :=
  match a, b with
  | BigInt x, BigInt y => ret (BigInt (Z.land (f x y) WORD_MASK))
  | _, _ => mixedTypes
  end.

(** [b === 0n ? 0n : a op b] for [/] and [%]: on two values that are not
    bigints the operation is on numbers among [NaN] and [0], and gives
    [NaN]. *)
Definition unlessZero (f : Z -> Z -> Z) (a b : Value) : M Ctx.t Value :=
  match b with
  | BigInt y =>
      if y =? 0 then ret (BigInt 0)
      else match a with
           | BigInt x => ret (BigInt (f x y))
           | _ => mixedTypes
           end
  | _ =>
      match a with
      | BigInt _ => mixedTypes
      | _ => ret NumberNaN
      end
  end.

(** [a & b], [a | b] and [a ^ b]: on two values that are not bigints, each
    of them is [0] as a 32-bit integer, and so is the result. *)
Definition bitwise (f : Z -> Z -> Z) (a b : Value) : M Ctx.t Value :=
  match a, b with
  | BigInt x, BigInt y => ret (BigInt (f x y))
  | BigInt _, _ | _, BigInt _ => mixedTypes
  | _, _ => ret NumberZero
  end.

Definition truth (b : bool) : M Ctx.t Value := ret (BigInt (if b then 1 else 0)).

Definition op_STOP : M Ctx.t unit := useGasOf OPCODES.STOP ;;; stop [].

Definition op_ADD := binaryOp OPCODES.ADD (masked Z.add).
Definition op_MUL := binaryOp OPCODES.MUL (masked Z.mul).
Definition op_SUB := binaryOp OPCODES.SUB (masked Z.sub).
Definition op_DIV := binaryOp OPCODES.DIV (unlessZero Z.quot).
Definition op_MOD := binaryOp OPCODES.MOD (unlessZero Z.rem).

(** [expmod(base, exponent, 1n << 256n)]: [base % modulus] comes first and
    needs a bigint; the loop runs while [e > 0], which is false at once for
    an exponent that is not a bigint. *)
Definition op_EXP : M Ctx.t unit :=
  useGasOf OPCODES.EXP ;;;
  base <- pop ;;
  exponent <- pop ;;
  match base with
  | BigInt b =>
      match exponent with
      | BigInt e => push (BigInt (expmod b e TWO256))
      | _ => push (BigInt 1)
      end
  | _ => mixedTypes
  end.

Definition op_LT := binaryOp OPCODES.LT (fun a b => truth (lessThan a b)).
Definition op_GT := binaryOp OPCODES.GT (fun a b => truth (greaterThan a b)).
Definition op_EQ := binaryOp OPCODES.EQ (fun a b => truth (strictEquals a b)).

Definition op_ISZERO : M Ctx.t unit :=
  useGasOf OPCODES.ISZERO ;;;
  value <- pop ;;
  push (BigInt (if isBigZero value then 1 else 0)).

Definition op_AND := binaryOp OPCODES.AND (bitwise Z.land).
Definition op_OR := binaryOp OPCODES.OR (bitwise Z.lor).
Definition op_XOR := binaryOp OPCODES.XOR (bitwise Z.lxor).

(** [~value & ((1n << 256n) - 1n)] *)
Definition op_NOT : M Ctx.t unit :=
  useGasOf OPCODES.NOT ;;;
  value <- pop ;;
  match value with
  | BigInt v => push (BigInt (Z.land (Z.lnot v) WORD_MASK))
  | _ => mixedTypes
  end.

Definition op_SHL : M Ctx.t unit :=
  useGasOf OPCODES.SHL ;;;
  shift <- pop ;;
  value <- pop ;;
  if atLeast shift (BigInt 256) then push (BigInt 0)
  else match value, shift with
       | BigInt v, BigInt s => push (BigInt (Z.land (Z.shiftl v s) WORD_MASK))
       | _, _ => mixedTypes
       end.

(** [value >> shift] is pushed without a mask: on two values that are not
    bigints it is the number [0]. *)
Definition op_SHR : M Ctx.t unit :=
  useGasOf OPCODES.SHR ;;;
  shift <- pop ;;
  value <- pop ;;
  if atLeast shift (BigInt 256) then push (BigInt 0)
  else match value, shift with
       | BigInt v, BigInt s => push (BigInt (Z.shiftr v s))
       | BigInt _, _ | _, BigInt _ => mixedTypes
       | _, _ => push NumberZero
       end.

Definition op_SAR : M Ctx.t unit :=
  useGasOf OPCODES.SAR ;;;
  shift <- pop ;;
  value <- pop ;;
  let isNegative := atLeast value (BigInt (Z.shiftl 1 255)) in
  if atLeast shift (BigInt 256) then push (BigInt (if isNegative then WORD_MASK else 0))
  else
    match value, shift with
    | BigInt v, BigInt s =>
        let result := Z.shiftr v s in
        let result :=
          if isNegative
          then Z.lor result (Z.shiftl (Z.shiftl 1 s - 1) (256 - s))
          else result in
        push (BigInt (Z.land result WORD_MASK))
    | _, _ => mixedTypes
    end.

Definition op_ADDRESS : M Ctx.t unit :=
  useGasOf OPCODES.ADDRESS ;;;
  ctx <- get ;;
  v <- bytesToBigint (Env.address (env ctx)) ;;
  push (BigInt v).

Definition op_CALLER : M Ctx.t unit :=
  useGasOf OPCODES.CALLER ;;;
  ctx <- get ;;
  v <- bytesToBigint (Env.caller (env ctx)) ;;
  push (BigInt v).

Definition op_CALLVALUE : M Ctx.t unit :=
  useGasOf OPCODES.CALLVALUE ;;;
  ctx <- get ;;
  push (BigInt (Env.value (env ctx))).

Definition op_CALLDATALOAD : M Ctx.t unit :=
  useGasOf OPCODES.CALLDATALOAD ;;;
  offset <- popNumber ;;
  ctx <- get ;;
  let data := readCalldataAny offset (Some 32) ctx in
  let padded := zeros 32 in
  v <- bytesToBigint (setBytes padded data 0) ;;
  push (BigInt v).

Definition op_CALLDATASIZE : M Ctx.t unit :=
  useGasOf OPCODES.CALLDATASIZE ;;;
  ctx <- get ;;
  push (BigInt (len (calldata ctx))).

Definition op_CALLDATACOPY : M Ctx.t unit :=
  useGasOf OPCODES.CALLDATACOPY ;;;
  destOffset <- popNumber ;;
  offset <- popNumber ;;
  size <- popNumber ;;
  ctx <- get ;;
  writeMemoryAny maxByteLength destOffset (readCalldataAny offset size ctx).

Definition op_CODESIZE : M Ctx.t unit :=
  useGasOf OPCODES.CODESIZE ;;;
  ctx <- get ;;
  push (BigInt (len (code ctx))).

(** With a [NaN] among [offset] and [size], [end] and [actualSize] are
    [NaN], the slice is empty and [actualSize < size] is false: the empty
    slice is written, which writes nothing. *)
Definition op_CODECOPY : M Ctx.t unit :=
  useGasOf OPCODES.CODECOPY ;;;
  destOffset <- popNumber ;;
  offset <- popNumber ;;
  size <- popNumber ;;
  ctx <- get ;;
  match offset, size with
  | Some offset, Some size =>
      let stop_ := Z.min (offset + size) (len (code ctx)) in
      let actualSize := Z.max 0 (stop_ - offset) in
      let data := slice (code ctx) offset stop_ in
      if actualSize <? size then
        padded <- newUint8Array maxByteLength size ;;
        writeMemoryAny maxByteLength destOffset (setBytes padded data 0)
      else writeMemoryAny maxByteLength destOffset data
  | _, _ => writeMemoryAny maxByteLength destOffset []
  end.

Definition op_POP : M Ctx.t unit :=
  useGasOf OPCODES.POP ;;;
  _ <- pop ;;
  ret tt.

Definition op_MLOAD : M Ctx.t unit :=
  useGasOf OPCODES.MLOAD ;;;
  offset <- popNumber ;;
  data <- readMemoryAny maxByteLength offset (Some 32) ;;
  v <- bytesToBigint (padBytes data 32) ;;
  push (BigInt v).

Definition op_MSTORE : M Ctx.t unit :=
  useGasOf OPCODES.MSTORE ;;;
  offset <- popNumber ;;
  value <- pop ;;
  writeMemoryWordAny maxByteLength offset value.

(** [Number(value & 0xffn)] *)
Definition op_MSTORE8 : M Ctx.t unit :=
  useGasOf OPCODES.MSTORE8 ;;;
  offset <- popNumber ;;
  value <- pop ;;
  match value with
  | BigInt v => writeMemoryAny maxByteLength offset [Z.land v 0xff]
  | _ => mixedTypes
  end.

Definition op_SLOAD : M Ctx.t unit :=
  useGasOf OPCODES.SLOAD ;;;
  key <- pop ;;
  ctx <- get ;;
  value <- onWorld (World.getStorageAny (Env.address (env ctx)) key) ;;
  push (BigInt value).

Definition op_SSTORE : M Ctx.t unit :=
  useGas 20000 ;;;
  key <- pop ;;
  value <- pop ;;
  ctx <- get ;;
  onWorld (World.setStorageAny (Env.address (env ctx)) key value).

Definition op_JUMP : M Ctx.t unit :=
  useGasOf OPCODES.JUMP ;;;
  destination <- popNumber ;;
  jumpAny destination.

(** [condition !== 0n] holds of every value other than the bigint [0n]. *)
Definition op_JUMPI : M Ctx.t unit :=
  useGasOf OPCODES.JUMPI ;;;
  destination <- popNumber ;;
  condition <- pop ;;
  if negb (isBigZero condition) then jumpAny destination
  else modify (fun ctx => with_pc ctx (pc ctx + 1)).

Definition op_PC : M Ctx.t unit :=
  useGasOf OPCODES.PC ;;;
  ctx <- get ;;
  push (BigInt (pc ctx)).

Definition op_MSIZE : M Ctx.t unit :=
  useGasOf OPCODES.MSIZE ;;;
  ctx <- get ;;
  push (BigInt (len (memory ctx))).

Definition op_GAS : M Ctx.t unit :=
  useGasOf OPCODES.GAS ;;;
  ctx <- get ;;
  push (BigInt (gasLeft ctx)).

Definition op_JUMPDEST : M Ctx.t unit := useGasOf OPCODES.JUMPDEST.

Definition op_PUSH0 : M Ctx.t unit :=
  useGasOf OPCODES.PUSH0 ;;;
  push (BigInt 0).

Definition op_PUSH (opcode : Z) : M Ctx.t unit :=
  useGasOf opcode ;;;
  data <- readPushData ;;
  value <- bytesToBigint (padBytes data 32) ;;
  push (BigInt value).

Definition op_DUP (opcode : Z) : M Ctx.t unit :=
  useGasOf opcode ;;;
  dup (opcode - OPCODES.DUP1).

Definition op_SWAP (opcode : Z) : M Ctx.t unit :=
  useGasOf opcode ;;;
  swap (opcode - OPCODES.SWAP1).

Definition op_RETURN : M Ctx.t unit :=
  useGasOf OPCODES.RETURN ;;;
  offset <- popNumber ;;
  size <- popNumber ;;
  data <- readMemoryAny maxByteLength offset size ;;
  stop data.

Definition op_REVERT : M Ctx.t unit :=
  useGasOf OPCODES.REVERT ;;;
  offset <- popNumber ;;
  size <- popNumber ;;
  data <- readMemoryAny maxByteLength offset size ;;
  revert data.

(** The handler map: [None] when the opcode has no handler. *)
Definition opcodeHandlers (opcode : Z) : option (M Ctx.t unit) :=
  if (OPCODES.PUSH1 <=? opcode) && (opcode <=? OPCODES.PUSH32) then Some (op_PUSH opcode)
  else if (OPCODES.DUP1 <=? opcode) && (opcode <=? OPCODES.DUP16) then Some (op_DUP opcode)
  else if (OPCODES.SWAP1 <=? opcode) && (opcode <=? OPCODES.SWAP16) then Some (op_SWAP opcode)
  else match opcode with
  | 0x00 => Some op_STOP  | 0x01 => Some op_ADD   | 0x02 => Some op_MUL
  | 0x03 => Some op_SUB   | 0x04 => Some op_DIV   | 0x06 => Some op_MOD
  | 0x0a => Some op_EXP
  | 0x10 => Some op_LT    | 0x11 => Some op_GT    | 0x14 => Some op_EQ
  | 0x15 => Some op_ISZERO | 0x16 => Some op_AND  | 0x17 => Some op_OR
  | 0x18 => Some op_XOR   | 0x19 => Some op_NOT
  | 0x1b => Some op_SHL   | 0x1c => Some op_SHR   | 0x1d => Some op_SAR
  | 0x30 => Some op_ADDRESS | 0x33 => Some op_CALLER | 0x34 => Some op_CALLVALUE
  | 0x35 => Some op_CALLDATALOAD | 0x36 => Some op_CALLDATASIZE
  | 0x37 => Some op_CALLDATACOPY | 0x38 => Some op_CODESIZE | 0x39 => Some op_CODECOPY
  | 0x50 => Some op_POP   | 0x51 => Some op_MLOAD | 0x52 => Some op_MSTORE
  | 0x53 => Some op_MSTORE8 | 0x54 => Some op_SLOAD | 0x55 => Some op_SSTORE
  | 0x56 => Some op_JUMP  | 0x57 => Some op_JUMPI | 0x58 => Some op_PC
  | 0x59 => Some op_MSIZE | 0x5a => Some op_GAS   | 0x5b => Some op_JUMPDEST
  | 0x5f => Some op_PUSH0
  | 0xf3 => Some op_RETURN | 0xfd => Some op_REVERT
  | _ => None
  end.

  (** ** The execution loop ([Evm.execute], [evm/core.ts]) *)

(** One turn of the [while] loop; the result says whether the loop goes on
    ([false] is the [break] after an opcode without handler). *)
Definition step : M Ctx.t bool :=
  fun ctx =>
    let opcode := getCurrentOpcode ctx in
    match opcodeHandlers opcode with
    | None => (Ok false, snd (revert [] ctx))
    | Some handler =>
        match handler ctx with
        | (Ok _, ctx') =>
            let isPush := (0x60 <=? opcode) && (opcode <=? 0x7f) in
            if negb (opcode =? OPCODES.JUMP) && negb (opcode =? OPCODES.JUMPI)
               && negb isPush && negb (stopped ctx')
            then (Ok true, with_pc ctx' (pc ctx' + 1))
            else (Ok true, ctx')
        | (Throw e, ctx') => (Throw e, ctx')
        | (OutOfFuel, ctx') => (OutOfFuel, ctx')
        end
    end.

Fixpoint loop (fuel : nat) (ctx : Ctx.t) : Res unit * Ctx.t :=
  if negb (stopped ctx) && (pc ctx <? len (code ctx)) then
    match fuel with
    | O => (OutOfFuel, ctx)
    | S fuel' =>
        match step ctx with
        | (Ok true, ctx') => loop fuel' ctx'
        | (Ok false, ctx') => (Ok tt, ctx')
        | (Throw e, ctx') => (Throw e, ctx')
        | (OutOfFuel, ctx') => (OutOfFuel, ctx')
        end
    end
  else (Ok tt, ctx).

(** Every turn that neither halts nor throws pays at least one unit of gas,
    so [gasLimit + 1] turns are enough. *)
Definition execute (code : Bytes) (env : Env.t) (gasLimit : Z) (calldata : Bytes)
  : M InMemoryWorldState ExecutionResult :=
  fun world =>
    let ctx := Ctx.new code world env gasLimit calldata in
    let initialGas := gasLimit in
    match loop (S (Z.to_nat gasLimit)) ctx with
    | (Ok _, ctx') =>
        (Ok (mkResult (negb (reverted ctx')) (initialGas - gasLeft ctx') (Ctx.returnData ctx')),
         Ctx.world ctx')
    | (Throw _, ctx') =>
        (Ok (mkResult false (initialGas - gasLeft ctx') []), Ctx.world ctx')
    | (OutOfFuel, ctx') => (OutOfFuel, Ctx.world ctx')
    end.

End Evm.
End Evm.

(* ================================================================== *)
(** * The transaction executor ([evm/transaction.ts]) *)
(* ================================================================== *)

Module Tx.
Record t : Type := mk {
    from : Address;
    to : option Address;       (* [null] for contract creation *)
    value : Z;
    gasLimit : Z;
    gasPrice : Z;
    nonce : Z;
    data : Bytes
  }.
End Tx.

Module TransactionExecutor.
Section TransactionExecutor.
Variable maxByteLength : Z.
  (** [generateContractAddress] hashes with keccak-256, an external library. *)
Variable generateContractAddress : Address -> Z -> Address.

Local Open Scope js_scope.

Definition validateTransaction (tx : Tx.t) : M InMemoryWorldState unit :=
  fun world =>
    match World.getAccount (Tx.from tx) world with
    | None => (Throw (Error "Sender account does not exist"), world)
    | Some sender =>
        if negb (Tx.nonce tx =? nonce (objs world sender))
        then (Throw (Error "Invalid nonce"), world)
        else
          let cost := Tx.value tx + Tx.gasLimit tx * Tx.gasPrice tx in
          if balance (objs world sender) <? cost
          then (Throw (Error "Insufficient balance"), world)
          else if Tx.gasLimit tx <=? 0
          then (Throw (Error "Gas limit must be positive"), world)
          else (Ok tt, world)
    end.

Definition executeCreate (tx : Tx.t) (env : Env.t) : M InMemoryWorldState ExecutionResult :=
  world <- get ;;
  match World.getAccount (Tx.from tx) world with
  | None => throw (TypeError "undefined is not an object")   (* [sender!.nonce] *)
  | Some sender =>
      let contractAddress :=
        generateContractAddress (Tx.from tx) (nonce (objs world sender) - 1) in
      if World.accountExists contractAddress world
      then throw (Error "Contract address already exists")
      else
        modify (World.putAccount (mkAccount contractAddress 1 0 [] [])) ;;;
        (if Tx.value tx >? 0
         then modify (World.addBalance contractAddress (Tx.value tx))
         else ret tt) ;;;
        let env := Env.with_address env contractAddress in
        result <- Evm.execute maxByteLength (Tx.data tx) env (Tx.gasLimit tx) [] ;;
        (if success result
         then modify (World.setCode contractAddress (returnData result))
         else
           world' <- get ;;
           World.subBalance contractAddress (World.getBalance contractAddress world')) ;;;
        ret result
  end.

Definition executeCall (tx : Tx.t) (env : Env.t) : M InMemoryWorldState ExecutionResult :=
  world <- get ;;
  match Tx.to tx with
  | None => throw (TypeError "undefined is not an object")   (* [tx.to!] *)
  | Some to =>
      let code := World.getCode to world in
      if len code =? 0
      then ret (mkResult true 0 [])
      else Evm.execute maxByteLength code env (Tx.gasLimit tx) (Tx.data tx)
  end.

(** The body of the [try] block. *)
Definition executeTransaction_try (tx : Tx.t) (block_number block_timestamp : Z)
           (block_coinbase : Address) (block_gasLimit : Z) (chainId : Z) (snapshotId : Z)
  : M InMemoryWorldState ExecutionResult :=
  validateTransaction tx ;;;
  let gasCost := Tx.gasLimit tx * Tx.gasPrice tx in
  World.subBalance (Tx.from tx) gasCost ;;;
  (match Tx.to tx with
   | Some to =>
       if Tx.value tx >? 0
       then World.subBalance (Tx.from tx) (Tx.value tx) ;;;
            modify (World.addBalance to (Tx.value tx))
       else ret tt
   | None => ret tt
   end) ;;;
  modify (World.incrementNonce (Tx.from tx)) ;;;
  let env :=
    Env.mk (match Tx.to tx with Some to => to | None => zeros 20 end)
           (Tx.from tx) (Tx.from tx) (Tx.value tx) (Tx.gasPrice tx)
           block_number block_timestamp block_coinbase block_gasLimit chainId in
  result <- match Tx.to tx with
            | None => executeCreate tx env
            | Some _ => executeCall tx env
            end ;;
  let gasUsed := gasUsed result in
  let gasRefund := (Tx.gasLimit tx - gasUsed) * Tx.gasPrice tx in
  modify (World.addBalance (Tx.from tx) gasRefund) ;;;
  (if success result
   then modify (World.commit (Some snapshotId))
   else World.revert snapshotId) ;;;
  ret result.

Definition executeTransaction (tx : Tx.t) (block_number block_timestamp : Z)
           (block_coinbase : Address) (block_gasLimit : Z) (chainId : Z)
  : M InMemoryWorldState ExecutionResult :=
  snapshotId <- World.snapshot ;;
  try_catch
    (executeTransaction_try tx block_number block_timestamp block_coinbase
                            block_gasLimit chainId snapshotId)
    (fun _ =>
       World.revert snapshotId ;;;
       ret (mkResult false (Tx.gasLimit tx) [])).

End TransactionExecutor.
End TransactionExecutor.

(* ================================================================== *)
(** * Length-prefix encoding and serialisation ([blockchain/utils.ts]) *)
(* ================================================================== *)

(** [target.set(data, offset)] in general: a [RangeError] when the data does
    not fit. *)
Definition typedArraySet {S : Type} (target data : Bytes) (offset : Z) : M S Bytes :=
  if offset + len data >? len target then throw (RangeError "offset is out of bounds")
  else ret (setBytes target data offset).

Module RLP.

  (** [ToInt32], the conversion the bitwise operators apply to a number. *)
Definition toInt32 (n : Z) : Z := (n + 2 ^ 31) mod 2 ^ 32 - 2 ^ 31.

(** [while (length > 0) { bytes.unshift(length & 0xff); length >>= 8; }] *)
Function lengthToBytes_loop (length : Z) (bytes : Bytes) {measure Z.to_nat length} : Bytes :=
  if length >? 0 then
    lengthToBytes_loop (Z.shiftr (toInt32 length) 8) (Z.land (toInt32 length) 0xff :: bytes)
  else bytes.
Proof.
  intros length _ Hpos.
  apply Z.gtb_lt in Hpos.
  assert (Hle : toInt32 length <= length).
  { unfold toInt32.
    pose proof (Z.mod_le (length + 2 ^ 31) (2 ^ 32) ltac:(lia) ltac:(lia)). lia. }
  rewrite Z.shiftr_div_pow2 by lia.
  assert (Hlt : toInt32 length / 2 ^ 8 < length).
  { destruct (Z_lt_le_dec (toInt32 length) 1) as [Hneg | Hge].
    - assert (toInt32 length / 2 ^ 8 <= 0) by (apply Z.div_le_upper_bound; lia). lia.
    - assert (toInt32 length / 2 ^ 8 < toInt32 length) by (apply Z.div_lt; lia). lia. }
  lia.
Defined.

Definition lengthToBytes (length : Z) : Bytes := lengthToBytes_loop length [].

Definition concatBytes (arrays : list Bytes) : Bytes := List.concat arrays.

  (** A [Uint8Array] element holds its value modulo 256. *)
Definition u8 (n : Z) : Z := n mod 256.

Definition encodeBytes (bytes : Bytes) : Bytes :=
  if (len bytes =? 1) && (nth 0 bytes 0 <? 0x80) then bytes
  else
    let length := len bytes in
    if length <? 56 then u8 (0x80 + length) :: bytes
    else
      let lengthBytes := lengthToBytes length in
      u8 (0xb7 + len lengthBytes) :: lengthBytes ++ bytes.

(** [encodeList] concatenates the items as they are (it does not encode
    them one by one) and puts a list prefix in front. *)
Definition encodeList (items : list Bytes) : Bytes :=
  let concatenated := concatBytes items in
  let length := len concatenated in
  if length <? 56 then u8 (0xc0 + length) :: concatenated
  else
    let lengthBytes := lengthToBytes length in
    u8 (0xf7 + len lengthBytes) :: lengthBytes ++ concatenated.

End RLP.

Module Header.
Record t : Type := mk {
    parentHash : Hash;
    number : Z;
    timestamp : Z;
    stateRoot : Hash;
    transactionsRoot : Hash;
    receiptsRoot : Hash;
    validator : Address;
    signature : Bytes;
    gasLimit : Z;
    gasUsed : Z;
    extraData : Bytes
  }.
Definition with_signature (h : t) (sig : Bytes) : t :=
  mk (parentHash h) (number h) (timestamp h) (stateRoot h) (transactionsRoot h)
     (receiptsRoot h) (validator h) sig (gasLimit h) (gasUsed h) (extraData h).
End Header.

(** What [deserializeBlockHeader] builds: the byte fields are taken from an
    array by index, and an index past its end gives [undefined] ([None]). *)
Record DecodedHeader : Type := mkDecoded {
  d_parentHash : option Bytes;
  d_number : Z;
  d_timestamp : Z;
  d_stateRoot : option Bytes;
  d_transactionsRoot : option Bytes;
  d_receiptsRoot : option Bytes;
  d_validator : option Bytes;
  d_signature : option Bytes;
  d_gasLimit : Z;
  d_gasUsed : Z;
  d_extraData : option Bytes
}.

(** The decoded header that equals [h] field by field. *)
Definition decodedOf (h : Header.t) : DecodedHeader :=
  mkDecoded (Some (Header.parentHash h)) (Header.number h) (Header.timestamp h)
            (Some (Header.stateRoot h)) (Some (Header.transactionsRoot h))
            (Some (Header.receiptsRoot h)) (Some (Header.validator h))
            (Some (Header.signature h)) (Header.gasLimit h) (Header.gasUsed h)
            (Some (Header.extraData h)).

Record Block : Type := mkBlock {
  header : Header.t;
  transactions : list Tx.t
}.

Module Serialize.
Section Serialize.
Context {S : Type}.
Local Open Scope js_scope.

Definition serializeBlockHeader (h : Header.t) : M S Bytes :=
  number <- bigintToBytes (Header.number h) 32 ;;
  timestamp <- bigintToBytes (Header.timestamp h) 32 ;;
  gasLimit <- bigintToBytes (Header.gasLimit h) 32 ;;
  gasUsed <- bigintToBytes (Header.gasUsed h) 32 ;;
  ret (RLP.encodeList
         [ Header.parentHash h; number; timestamp; Header.stateRoot h;
           Header.transactionsRoot h; Header.receiptsRoot h; Header.validator h;
           Header.signature h; gasLimit; gasUsed; Header.extraData h ]).

Definition fieldSizes : list Z := [32; 32; 32; 32; 32; 32; 20; 65; 32; 32].

(** [for (i = 0; i < fieldSizes.length - 1; i++)
      { fields.push(listData.slice(offset, offset + fieldSizes[i])); offset += fieldSizes[i]; }] *)
Fixpoint sliceFields (sizes : list Z) (listData : Bytes) (offset : Z) : list Bytes * Z :=
  match sizes with
  | [] => ([], offset)
  | size :: rest =>
      let '(fields, offset') := sliceFields rest listData (offset + size) in
      (slice listData offset (offset + size) :: fields, offset')
  end.

Definition decodeRLPList (data : Bytes) : M S (list Bytes) :=
  match data with
  | b0 :: _ =>
      if b0 >=? 0xc0 then
        let length := b0 - 0xc0 in
        let listData := slice data 1 (1 + length) in
        let '(fields, offset) := sliceFields (removelast fieldSizes) listData 0 in
        ret (fields ++ [skipn (Z.to_nat offset) listData])
      else throw (Error "Expected RLP list")
  | [] => throw (Error "Expected RLP list")
  end.

(** [bytesToBigint(fields[i] as Uint8Array)]; [Array.from(undefined)] is a
    [TypeError]. *)
Definition fieldToBigint (field : option Bytes) : M S Z :=
  match field with
  | Some bytes => bytesToBigint bytes
  | None => throw (TypeError "undefined is not iterable")
  end.

Definition deserializeBlockHeader (data : Bytes) : M S DecodedHeader :=
  fields <- decodeRLPList data ;;
  number <- fieldToBigint (nth_error fields 1) ;;
  timestamp <- fieldToBigint (nth_error fields 2) ;;
  gasLimit <- fieldToBigint (nth_error fields 8) ;;
  gasUsed <- fieldToBigint (nth_error fields 9) ;;
  ret (mkDecoded (nth_error fields 0) number timestamp (nth_error fields 3)
                 (nth_error fields 4) (nth_error fields 5) (nth_error fields 6)
                 (nth_error fields 7) gasLimit gasUsed (nth_error fields 10)).

Definition serializeTransaction (tx : Tx.t) : M S Bytes :=
  value <- bigintToBytes (Tx.value tx) 32 ;;
  gasLimit <- bigintToBytes (Tx.gasLimit tx) 32 ;;
  gasPrice <- bigintToBytes (Tx.gasPrice tx) 32 ;;
  nonce <- bigintToBytes (Tx.nonce tx) 32 ;;
  ret (RLP.encodeList
         [ Tx.from tx; match Tx.to tx with Some to => to | None => zeros 20 end;
           value; gasLimit; gasPrice; nonce; Tx.data tx ]).

  (** keccak-256 comes from an external library. *)
Variable keccak_256 : Bytes -> Bytes.

Definition calculateBlockHash (block : Block) : M S Hash :=
  headerBytes <- serializeBlockHeader (header block) ;;
  ret (keccak_256 headerBytes).

Definition calculateTransactionHash (tx : Tx.t) : M S Hash :=
  txBytes <- serializeTransaction tx ;;
  ret (keccak_256 txBytes).

(** [transactions.reduce((acc, tx) => [...acc, ...serializeTransaction(tx)], [])] *)
Fixpoint concatSerialized {A : Type} (ser : A -> M S Bytes) (items : list A) (acc : Bytes)
  : M S Bytes :=
  match items with
  | [] => ret acc
  | x :: rest => bytes <- ser x ;; concatSerialized ser rest (acc ++ bytes)
  end.

Definition calculateTransactionsRoot (txs : list Tx.t) : M S Hash :=
  match txs with
  | [] => ret (zeros 32)
  | _ => concatenated <- concatSerialized serializeTransaction txs [] ;;
         ret (keccak_256 concatenated)
  end.
End Serialize.
End Serialize.

(* ================================================================== *)
(** * Proof-of-authority fork choice and signing ([consensus/poa.ts]) *)
(* ================================================================== *)

Inductive ForkAction : Type := Extend | Reorg | Ignore.

Record ForkChoiceResult : Type := mkForkChoice {
  action : ForkAction;
  newChain : option (list Block);
  commonAncestor : option Block
}.

Module PoAConsensus.

Definition shouldReorg (newBlock currentTip : Block) : ForkChoiceResult :=
  let newBlockNumber := Header.number (header newBlock) in
  let currentTipNumber := Header.number (header currentTip) in
  if newBlockNumber <=? currentTipNumber then mkForkChoice Ignore None None
  else if newBlockNumber >? currentTipNumber + 1 then mkForkChoice Reorg None None
  else mkForkChoice Extend None None.

Section Sign.
Context {S : Type}.
Variable keccak_256 : Bytes -> Bytes.
Local Open Scope js_scope.

Definition signBlockHeader (h : Header.t) (signerAddress : Address) : M S Header.t :=
  if Header.number h =? 0 then ret h
  else
    headerBytes <- Serialize.serializeBlockHeader h ;;
    let hash := keccak_256 headerBytes in
    signature <- typedArraySet (zeros 65) hash 0 ;;
    ret (Header.with_signature h signature).
End Sign.

End PoAConsensus.

(* ================================================================== *)
(** * The transaction pool ([pool/txPool.ts]) *)
(* ================================================================== *)

(** [Array.prototype.sort] with a comparator: a stable insertion sort.  Where
    the comparator is a consistent order on the elements, as [blockOrder] is
    on entries of different priority, every engine returns this list.  Where
    it is not, the language leaves the result to the engine, and this is one
    possible result: [evictionOrder] answers [-1] both ways for two entries
    of one gas price and one second of arrival, and which of the two comes
    first is the engine's choice. *)
Section JsSort.
Context {A : Type}.
Variable compare : A -> A -> Z.

Fixpoint insertSorted (x : A) (sorted : list A) : list A :=
  match sorted with
  | [] => [x]
  | y :: rest => if compare y x >? 0 then x :: y :: rest else y :: insertSorted x rest
  end.

Definition jsSort (l : list A) : list A :=
  fold_left (fun acc x => insertSorted x acc) l [].
End JsSort.

Module Pool.

Record PoolTransaction : Type := mkPoolTx {
    transaction : Tx.t;
    hash : string;
    addedTime : Z;
    gasPrice : Z;
    gasLimit : Z;
    sender : Address;
    nonce : Z;
    priority : Z
  }.

Record TxPoolConfig : Type := mkConfig {
    maxPoolSize : Z;
    maxAccountTransactions : Z;
    minGasPrice : Z;
    blockGasLimit : Z;
    transactionTimeout : Z
  }.

Record TransactionPool : Type := mkPool {
    config : TxPoolConfig;
    pending : list (string * PoolTransaction);
    queued : list (string * PoolTransaction);
    accountTransactions : list (string * list PoolTransaction);
    nextPriority : Z
  }.

Definition newPool (cfg : TxPoolConfig) : TransactionPool := mkPool cfg [] [] [] 0.

Definition with_pending (p : TransactionPool) (x : list (string * PoolTransaction)) :=
  mkPool (config p) x (queued p) (accountTransactions p) (nextPriority p).
Definition with_queued (p : TransactionPool) (x : list (string * PoolTransaction)) :=
  mkPool (config p) (pending p) x (accountTransactions p) (nextPriority p).
Definition with_accountTransactions (p : TransactionPool)
           (x : list (string * list PoolTransaction)) :=
  mkPool (config p) (pending p) (queued p) x (nextPriority p).

Record AddResult : Type := mkAdd { added : bool; reason : option string }.

(** [{ valid, reason }]; [x && x < y] on a bigint [x] is false when [x] is
    [0n].  The sender is typed as a byte array, which is never falsy, so the
    'Missing sender address' test cannot fire. *)
Definition validateTransaction (cfg : TxPoolConfig) (tx : Tx.t) : option string :=
  if negb (Tx.gasPrice tx =? 0) && (Tx.gasPrice tx <? minGasPrice cfg)
  then Some "Gas price too low"
  else if negb (Tx.gasLimit tx =? 0) && (Tx.gasLimit tx >? blockGasLimit cfg)
  then Some "Gas limit exceeds block gas limit"
  else if negb (Tx.gasLimit tx =? 0) && (Tx.gasLimit tx <=? 0)
  then Some "Gas limit must be positive"
  else if Tx.nonce tx <? 0
  then Some "Invalid nonce"
  else if negb (Tx.value tx =? 0) && (Tx.value tx <? 0)
  then Some "Invalid value"
  else None.

Definition accountTxsOf (senderHex : string) (p : TransactionPool) : list PoolTransaction :=
  match JsMap.get senderHex (accountTransactions p) with
  | Some txs => txs
  | None => []
  end.

(** [getCurrentNonce]: one more than the highest nonce the sender has in the
    pool, and [0n] when it has none. *)
Definition getCurrentNonce (sender : Address) (p : TransactionPool) : Z :=
  let accountTxs := accountTxsOf (bytesToHex sender) p in
  match accountTxs with
  | [] => 0
  | _ => fold_left (fun maxNonce tx => if nonce tx >? maxNonce then nonce tx else maxNonce)
                   accountTxs 0 + 1
  end.

(** [accountTxs.splice(accountTxs.findIndex(t => t.hash === hash), 1)] *)
Fixpoint spliceByHash (h : string) (txs : list PoolTransaction) : list PoolTransaction :=
  match txs with
  | [] => []
  | t :: rest => if String.eqb (hash t) h then rest else t :: spliceByHash h rest
  end.

Definition promoteQueuedTransactions (sender : Address) (p : TransactionPool)
  : TransactionPool :=
  let accountTxs := accountTxsOf (bytesToHex sender) p in
  let currentNonce := getCurrentNonce sender p in
  let toPromote :=
    map hash (filter (fun tx => JsMap.has (hash tx) (queued p) && (nonce tx =? currentNonce))
                     accountTxs) in
  fold_left
    (fun p h =>
       match JsMap.get h (queued p) with
       | Some tx => with_pending (with_queued p (JsMap.delete h (queued p)))
                                 (JsMap.set h tx (pending p))
       | None => p
       end)
    toPromote p.

Definition removeTransaction (h : string) (p : TransactionPool) : TransactionPool :=
  let found := match JsMap.get h (pending p) with
               | Some tx => Some tx
               | None => JsMap.get h (queued p)
               end in
  match found with
  | Some tx =>
      let senderHex := bytesToHex (sender tx) in
      let accountTxs := spliceByHash h (accountTxsOf senderHex p) in
      let p1 := with_accountTransactions p
                  (match accountTxs with
                   | [] => JsMap.delete senderHex (accountTransactions p)
                   | _ => JsMap.set senderHex accountTxs (accountTransactions p)
                   end) in
      let p2 := with_queued (with_pending p1 (JsMap.delete h (pending p1)))
                            (JsMap.delete h (queued p1)) in
      promoteQueuedTransactions (sender tx) p2
  | None => p
  end.

Definition removeTransactions (hashes : list string) (p : TransactionPool) : TransactionPool :=
  fold_left (fun p h => removeTransaction h p) hashes p.

(** The eviction of one entry in [enforcePoolSizeLimit]; the account array
    is spliced in place, so the map sees the shorter array without a [set]. *)
Definition evict (tx : PoolTransaction) (p : TransactionPool) : TransactionPool :=
  let p1 := with_queued (with_pending p (JsMap.delete (hash tx) (pending p)))
                        (JsMap.delete (hash tx) (queued p)) in
  let senderHex := bytesToHex (sender tx) in
  match JsMap.get senderHex (accountTransactions p1) with
  | Some txs =>
      let accountTxs := spliceByHash (hash tx) txs in
      with_accountTransactions p1
        (match accountTxs with
         | [] => JsMap.delete senderHex (accountTransactions p1)
         | _ => JsMap.set senderHex accountTxs (accountTransactions p1)
         end)
  | None => p1
  end.

Definition evictionOrder (a b : PoolTransaction) : Z :=
  if negb (gasPrice a =? gasPrice b)
  then (if gasPrice a >? gasPrice b then 1 else -1)
  else (if addedTime a >? addedTime b then 1 else -1).

Definition enforcePoolSizeLimit (p : TransactionPool) : TransactionPool :=
  let totalSize := JsMap.size (pending p) + JsMap.size (queued p) in
  if totalSize <=? maxPoolSize (config p) then p
  else
    let allTransactions :=
      jsSort evictionOrder (JsMap.values (pending p) ++ JsMap.values (queued p)) in
    let toRemove := totalSize - maxPoolSize (config p) in
    fold_left (fun p tx => evict tx p) (firstn (Z.to_nat toRemove) allTransactions) p.

Definition blockOrder (a b : PoolTransaction) : Z :=
  if negb (gasPrice a =? gasPrice b)
  then (if gasPrice b >? gasPrice a then 1 else -1)
  else priority a - priority b.

(** [for (tx of sorted) { if (totalGas + tx.gasLimit > gasLimit) break; ... }] *)
Fixpoint takeWhileGasFits (sorted : list PoolTransaction) (totalGas gasLimit_ : Z)
  : list PoolTransaction :=
  match sorted with
  | [] => []
  | tx :: rest =>
      if totalGas + gasLimit tx >? gasLimit_ then []
      else tx :: takeWhileGasFits rest (totalGas + gasLimit tx) gasLimit_
  end.

Definition getTransactionsForBlock (gasLimit_ : Z) (p : TransactionPool)
  : list PoolTransaction :=
  takeWhileGasFits (jsSort blockOrder (JsMap.values (pending p))) 0 gasLimit_.

Section AddTransaction.
Variable keccak_256 : Bytes -> Bytes.
Local Open Scope js_scope.

    (** The steps of [addTransaction] after the hash is known and the pool
        has no entry for it. *)
Definition place (tx : Tx.t) (h : string) (now : Z) (p : TransactionPool)
  : AddResult * TransactionPool :=
  let sender_ := Tx.from tx in
  let senderHex := bytesToHex sender_ in
  let poolTx := mkPoolTx tx h now (Tx.gasPrice tx) (Tx.gasLimit tx) sender_
                         (Tx.nonce tx) (nextPriority p) in
  let p := mkPool (config p) (pending p) (queued p) (accountTransactions p)
                  (nextPriority p + 1) in
  let accountTxs := accountTxsOf senderHex p in
  if len accountTxs >=? maxAccountTransactions (config p)
  then (mkAdd false (Some "Too many transactions for this account"), p)
  else
    let currentNonce := getCurrentNonce sender_ p in
    if Tx.nonce tx =? currentNonce then
      let p := with_pending p (JsMap.set h poolTx (pending p)) in
      let p := with_accountTransactions p
                 (JsMap.set senderHex (accountTxs ++ [poolTx]) (accountTransactions p)) in
      (mkAdd true None, enforcePoolSizeLimit p)
    else if Tx.nonce tx >? currentNonce then
      let p := with_queued p (JsMap.set h poolTx (queued p)) in
      let p := with_accountTransactions p
                 (JsMap.set senderHex (accountTxs ++ [poolTx]) (accountTransactions p)) in
      (mkAdd true None, enforcePoolSizeLimit p)
    else (mkAdd false (Some "Transaction nonce too old"), p).

    (** [now] is [BigInt(Math.floor(Date.now() / 1000))]. *)
Definition addTransaction (tx : Tx.t) (now : Z) : M TransactionPool AddResult :=
  try_catch
    (p <- get ;;
     match validateTransaction (config p) tx with
     | Some why => ret (mkAdd false (Some why))
     | None =>
         txHash <- Serialize.calculateTransactionHash keccak_256 tx ;;
         let h := bytesToHex txHash in
         if JsMap.has h (pending p) || JsMap.has h (queued p)
         then ret (mkAdd false (Some "Transaction already exists in pool"))
         else fun p => let '(r, p') := place tx h now p in (Ok r, p')
     end)
    (fun e => ret (mkAdd false (Some ("Error adding transaction: " ++ exnToString e)%string))).
End AddTransaction.

End Pool.

(* ================================================================== *)
(** * The block processor ([BlockProcessor], second half of [blockchain/utils.ts]) *)
(* ================================================================== *)

Record Log : Type := mkLog {
  log_address : Address;
  log_topics : list Hash;
  log_data : Bytes
}.

Module Receipt.
Record t : Type := mk {
    transactionHash : Hash;
    blockNumber : Z;
    blockHash : Hash;
    transactionIndex : Z;
    gasUsed : Z;
    cumulativeGasUsed : Z;
    contractAddress : option Address;
    logs : list Log;
    status : Z
  }.
End Receipt.

(** [TransactionExecutionResult] *)
Module TxResult.
Record t : Type := mk {
    success : bool;
    receipt : option Receipt.t;
    error : option string;
    gasUsed : option Z
  }.
End TxResult.

(** [BlockProcessingResult] *)
Module BlockResult.
Record t : Type := mk {
    success : bool;
    block : option Block;
    receipts : option (list Receipt.t);
    error : option string;
    gasUsed : option Z;
    stateRoot : option Hash
  }.
End BlockResult.

Module BlockProcessor.

Record BlockProcessingOptions : Type := mkOptions {
    maxTransactions : Z;
    gasLimit : Z;
    blockTime : Z;
    reward : Z
  }.

  (** The processor holds references to the world state and to the pool. *)
Record State : Type := mkState {
    worldState : InMemoryWorldState;
    txPool : Pool.TransactionPool
  }.

Definition liftWorld {A : Type} (c : M InMemoryWorldState A) : M State A :=
  fun s => let '(r, w) := c (worldState s) in (r, mkState w (txPool s)).

Section Processor.
Variable keccak_256 : Bytes -> Bytes.
Variable options : BlockProcessingOptions.
Local Open Scope js_scope.

Definition serializeLogs {S : Type} (logs : list Log) : Bytes :=
  RLP.encodeList
    (map (fun log => RLP.encodeList (log_address log :: log_topics log ++ [log_data log]))
         logs).

Definition serializeReceipt {S : Type} (r : Receipt.t) : M S Bytes :=
  blockNumber <- bigintToBytes (Receipt.blockNumber r) 32 ;;
  transactionIndex <- bigintToBytes (Receipt.transactionIndex r) 4 ;;
  gasUsed <- bigintToBytes (Receipt.gasUsed r) 32 ;;
  cumulativeGasUsed <- bigintToBytes (Receipt.cumulativeGasUsed r) 32 ;;
  status <- bigintToBytes (Receipt.status r) 1 ;;
  ret (RLP.encodeList
         [ Receipt.transactionHash r; blockNumber; Receipt.blockHash r; transactionIndex;
           gasUsed; cumulativeGasUsed;
           match Receipt.contractAddress r with Some a => a | None => zeros 20 end;
           serializeLogs (S := S) (Receipt.logs r); status ]).

Definition calculateReceiptsRoot {S : Type} (receipts : list Receipt.t) : M S Hash :=
  match receipts with
  | [] => ret (zeros 32)
  | _ => concatenated <- Serialize.concatSerialized serializeReceipt receipts [] ;;
         ret (keccak_256 concatenated)
  end.

    (** [hash[i % 32] ^= combined[i]] over [combined = [...sender, Number(nonce)]],
        then the last 20 bytes.  The number becomes an element of a
        [Uint8Array], which keeps it modulo 256. *)
Fixpoint xorFold (combined : Bytes) (i : nat) (hash : Bytes) : Bytes :=
  match combined with
  | [] => hash
  | b :: rest =>
      let j := (i mod 32)%nat in
      xorFold rest (S i)
              (firstn j hash ++ Z.lxor (nth j hash 0) b :: skipn (S j) hash)
  end.

Definition generateContractAddress (sender : Address) (nonce_ : Z) : Address :=
  let combined := sender ++ [numberOfBigint nonce_ mod 256] in
  let hash := xorFold combined 0 (zeros 32) in
  skipn (List.length hash - 20) hash.

Record Simulated : Type := mkSimulated {
    sim_success : bool;
    sim_gasUsed : Z;
    sim_contractAddress : option Address;
    sim_logs : option (list Log);
    sim_error : option string
  }.

    (** The placeholder for the VM: half of the gas, always a success. *)
Definition simulateTransactionExecution (tx : Tx.t) (gasLimit_ : Z) : Simulated :=
  let gasUsed := Z.quot gasLimit_ 2 in
  let success := true in
  match Tx.to tx with
  | Some _ =>
      mkSimulated success gasUsed None None
                  (if success then None else Some "Execution failed")
  | None =>
      let contractAddress := generateContractAddress (Tx.from tx) (Tx.nonce tx) in
      mkSimulated success gasUsed (Some contractAddress) None
                  (if success then None else Some "Contract creation failed")
  end.

Definition executeTransaction (tx : Tx.t) (blockNumber : Z)
  : M InMemoryWorldState TxResult.t :=
  try_catch
    (snapshotId <- World.snapshot ;;
     let sender := Tx.from tx in
     w <- get ;;
     let balance := World.getBalance sender w in
     let nonce_ := World.getNonce sender w in
     let gasCost := Tx.gasLimit tx * Tx.gasPrice tx in
     let totalCost := gasCost + Tx.value tx in
     if negb (Tx.nonce tx =? nonce_) then
       World.revert snapshotId ;;;
       ret (TxResult.mk false None (Some "Invalid nonce") (Some 0))
     else if balance <? totalCost then
       World.revert snapshotId ;;;
       ret (TxResult.mk false None (Some "Insufficient balance") (Some 0))
     else
       World.subBalance sender gasCost ;;;
       modify (World.incrementNonce sender) ;;;
       let gasLimit_ := Tx.gasLimit tx in
       let gasPrice := Tx.gasPrice tx in
       let executionResult := simulateTransactionExecution tx gasLimit_ in
       transactionHash <- Serialize.calculateTransactionHash keccak_256 tx ;;
       let receipt :=
         Receipt.mk transactionHash blockNumber (zeros 32) 0
                    (sim_gasUsed executionResult) 0
                    (sim_contractAddress executionResult)
                    (match sim_logs executionResult with Some l => l | None => [] end)
                    (if sim_success executionResult then 1 else 0) in
       let unusedGas := gasLimit_ - sim_gasUsed executionResult in
       let refundAmount := unusedGas * gasPrice in
       modify (World.addBalance sender refundAmount) ;;;
       (if negb (sim_success executionResult) then
          World.revert snapshotId ;;;
          World.subBalance sender gasCost ;;;
          modify (World.incrementNonce sender)
        else ret tt) ;;;
       ret (TxResult.mk (sim_success executionResult) (Some receipt)
                        (sim_error executionResult)
                        (Some (sim_gasUsed executionResult))))
    (fun e =>
       ret (TxResult.mk false None
              (Some ("Transaction execution error: " ++ exnToString e)%string)
              (Some 0))).

Definition calculateStateRoot : Hash := repeat 1 32.

    (** The [for] loop of [createBlock] over the selected pool entries. *)
Fixpoint executeAll (poolTransactions : list Pool.PoolTransaction) (blockNumber : Z)
         (executionResults : list TxResult.t) (receipts : list Receipt.t)
         (totalGasUsed : Z)
  : M InMemoryWorldState (list TxResult.t * list Receipt.t * Z) :=
  match poolTransactions with
  | [] => ret (executionResults, receipts, totalGasUsed)
  | poolTx :: rest =>
      if totalGasUsed + Pool.gasLimit poolTx >? gasLimit options
      then ret (executionResults, receipts, totalGasUsed)           (* break *)
      else
        result <- executeTransaction (Pool.transaction poolTx) blockNumber ;;
        let executionResults := executionResults ++ [result] in
        match TxResult.success result, TxResult.receipt result with
        | true, Some receipt =>
            executeAll rest blockNumber executionResults (receipts ++ [receipt])
                       (totalGasUsed
                        + match TxResult.gasUsed result with Some g => g | None => 0 end)
        | _, _ =>
            executeAll rest blockNumber executionResults receipts totalGasUsed
        end
  end.

    (** [now] is [BigInt(Math.floor(Date.now() / 1000))]. *)
Definition createBlock (parentBlock : Block) (validator : Address) (now : Z)
  : M State BlockResult.t :=
  try_catch
    (s <- get ;;
     let poolTransactions := Pool.getTransactionsForBlock (gasLimit options) (txPool s) in
     snapshotId <- liftWorld World.snapshot ;;
     executed <- liftWorld
                   (executeAll poolTransactions (Header.number (header parentBlock) + 1)
                               [] [] 0) ;;
     let '(executionResults, receipts, totalGasUsed) := executed in
     let stateRoot := calculateStateRoot in
     parentHash <- Serialize.calculateBlockHash keccak_256 parentBlock ;;
     transactionsRoot <-
       Serialize.calculateTransactionsRoot keccak_256
         (map Pool.transaction poolTransactions) ;;
     receiptsRoot <- calculateReceiptsRoot receipts ;;
     let header :=
       Header.mk parentHash (Header.number (header parentBlock) + 1) now stateRoot
                 transactionsRoot receiptsRoot validator [] (gasLimit options)
                 totalGasUsed [] in
     signedHeader <- PoAConsensus.signBlockHeader keccak_256 header validator ;;
     let block := mkBlock signedHeader (map Pool.transaction poolTransactions) in
     liftWorld (modify (World.commit (Some snapshotId))) ;;;
     let processedHashes := map Pool.hash poolTransactions in
     modify (fun s => mkState (worldState s)
                              (Pool.removeTransactions processedHashes (txPool s))) ;;;
     ret (BlockResult.mk true (Some block) (Some receipts) None (Some totalGasUsed)
                         (Some stateRoot)))
    (fun e =>
       ret (BlockResult.mk false None None
              (Some ("Block creation failed: " ++ exnToString e)%string) None None)).
End Processor.

End BlockProcessor.

(* ================================================================== *)
(** * The chain manager ([BlockchainManager], in [unnamed/part_001]) *)
(* ================================================================== *)

Module BlockchainManager.
Section Manager.
  (** The block store is backed by LevelDB and the validator bookkeeping is
      not what fork handling is about: both are taken as they come, with the
      operations [handleReorg] calls on them.  The manager's private hashes
      run [JSON.stringify] over their argument, which can throw. *)
Variable Storage : Type.
Variable Consensus : Type.
Variable getChainTip : M Storage (option Block).
Variable deleteBlock : string -> M Storage unit.
Variable getBlock : string -> M Storage (option Block).
Variable storeBlock : Block -> M Storage unit.
Variable updateValidatorState : Block -> M Consensus unit.
Variable calculateBlockHash : Block -> Res string.
Variable calculateTransactionHash : Tx.t -> Res string.

Record State : Type := mkState {
    storage : Storage;
    consensus : Consensus;
    txPool : Pool.TransactionPool
  }.

Local Open Scope js_scope.

Definition liftStorage {A : Type} (c : M Storage A) : M State A :=
  fun s => let '(r, st) := c (storage s) in (r, mkState st (consensus s) (txPool s)).
Definition liftConsensus {A : Type} (c : M Consensus A) : M State A :=
  fun s => let '(r, cs) := c (consensus s) in (r, mkState (storage s) cs (txPool s)).
Definition liftRes {A : Type} (r : Res A) : M State A := fun s => (r, s).

(** [transactions.map(tx => this.calculateTransactionHash(tx))] *)
Fixpoint hashAll (txs : list Tx.t) : M State (list string) :=
  match txs with
  | [] => ret []
  | tx :: rest =>
      h <- liftRes (calculateTransactionHash tx) ;;
      hs <- hashAll rest ;;
      ret (h :: hs)
  end.

Definition removeFromPool (txs : list Tx.t) : M State unit :=
  hashes <- hashAll txs ;;
  modify (fun s => mkState (storage s) (consensus s)
                           (Pool.removeTransactions hashes (txPool s))).

(** The [while] loop that walks back from the current tip. *)
Fixpoint walkBack (fuel : nat) (currentBlock commonAncestor_ : Block) : M State unit :=
  if Header.number (header currentBlock) >? Header.number (header commonAncestor_) then
    match fuel with
    | O => fun s => (OutOfFuel, s)
    | S fuel' =>
        blockHash <- liftRes (calculateBlockHash currentBlock) ;;
        liftStorage (deleteBlock blockHash) ;;;
        (* "Add transactions back to pool" *)
        removeFromPool (transactions currentBlock) ;;;
        parentHash <- liftRes (calculateBlockHash (mkBlock (header currentBlock) [])) ;;
        parentBlock <- liftStorage (getBlock parentHash) ;;
        walkBack fuel' (match parentBlock with Some b => b | None => currentBlock end)
                 commonAncestor_
    end
  else ret tt.

Fixpoint addNewChain (chain : list Block) : M State unit :=
  match chain with
  | [] => ret tt
  | block :: rest =>
      liftStorage (storeBlock block) ;;;
      liftConsensus (updateValidatorState block) ;;;
      removeFromPool (transactions block) ;;;
      addNewChain rest
  end.

Definition handleReorg (fuel : nat) (newBlock : Block) (forkChoice : ForkChoiceResult)
  : M State unit :=
  match newChain forkChoice, commonAncestor forkChoice with
  | Some newChain_, Some commonAncestor_ =>
      currentTip <- liftStorage getChainTip ;;
      (match currentTip with
       | Some tip => walkBack fuel tip commonAncestor_
       | None => ret tt
       end) ;;;
      addNewChain newChain_
  | _, _ => throw (Error "Invalid fork choice for reorg")
  end.

End Manager.
End BlockchainManager.

(* ================================================================== *)
(** * Proof-of-authority: the header rules ([consensus/poa.ts]) *)
(* ================================================================== *)

(** [addressEquals] ([blockchain/utils.ts]): the same length and the same
    element at every index. *)
Fixpoint addressEquals (a b : Bytes) : bool :=
  match a, b with
  | [], [] => true
  | x :: a', y :: b' => (x =? y) && addressEquals a' b'
  | _, _ => false
  end.

(** [array[i]] for a JavaScript number that is an integer: [undefined]
    ([None]) outside the array. *)
Definition at_index {A : Type} (l : list A) (i : Z) : option A :=
  if i <? 0 then None else nth_error l (Z.to_nat i).

Module ValidatorInfo.
Record t : Type := mk {
    address : Address;
    isActive : bool;
    lastBlockNumber : Z;
    lastBlockTime : Z;
    missedBlocks : Z
  }.

(** The object literal of the constructor. *)
Definition fresh (a : Address) : t := mk a true 0 0 0.
End ValidatorInfo.

(** [{ valid, error }] *)
Record Validation : Type := mkValidation {
  valid : bool;
  error : option string
}.

Module Consensus.
Import ValidatorInfo.

Record ConsensusState : Type := mkState {
    validators : list (string * ValidatorInfo.t);
    currentValidatorIndex : Z;
    lastBlockNumber : Z;
    lastBlockTime : Z;
    inactivityThreshold : Z;
    blockTime : Z
  }.

(** The constructor, from [config.validators] and [config.blockTime]. *)
Definition new (configValidators : list Address) (configBlockTime : Z) : ConsensusState :=
  mkState (fold_left (fun m a => JsMap.set (bytesToHex a) (fresh a) m) configValidators [])
          0 0 0 10 configBlockTime.

Definition getActiveValidators (st : ConsensusState) : list ValidatorInfo.t :=
  filter isActive (JsMap.values (validators st)).

Definition isValidValidator (validator : Address) (blockNumber : Z) (st : ConsensusState)
  : bool :=
  let activeValidators := getActiveValidators st in
  if len activeValidators =? 0 then false
  else if blockNumber =? 0 then true
  else
    match at_index activeValidators (Z.rem blockNumber (len activeValidators)) with
    | Some expectedValidator => addressEquals validator (address expectedValidator)
    | None => false
    end.

Definition validateBlockSignature (h : Header.t) : bool :=
  if Header.number h =? 0 then true
  else len (Header.signature h) >? 0.

(** [now] is [BigInt(Math.floor(Date.now() / 1000))].  Nothing in the [try]
    block throws. *)
Definition validateBlockHeader (h : Header.t) (parentHeader : option Header.t) (now : Z)
           (st : ConsensusState) : Validation :=
  if negb (isValidValidator (Header.validator h) (Header.number h) st)
  then mkValidation false (Some "Invalid validator for this block number")
  else if Header.timestamp h >? now + 60
  then mkValidation false (Some "Block timestamp too far in future")
  else
    let parentCheck :=
      match parentHeader with
      | Some parent =>
          if Header.timestamp h <=? Header.timestamp parent
          then Some "Block timestamp must be greater than parent"
          else if Header.timestamp h - Header.timestamp parent <? blockTime st
          then Some "Block created too quickly"
          else None
      | None => None
      end in
    match parentCheck with
    | Some why => mkValidation false (Some why)
    | None =>
        if negb (validateBlockSignature h)
        then mkValidation false (Some "Invalid block signature")
        else mkValidation true None
    end.

End Consensus.

(* ================================================================== *)
(** * Block validation ([BlockProcessor.validateBlock], [blockchain/utils.ts]) *)
(* ================================================================== *)

Record BlockValidationResult : Type := mkBlockValidation {
  bv_valid : bool;
  bv_error : option string;
  bv_gasUsed : option Z;
  bv_stateRoot : option Hash;
  bv_receiptsRoot : option Hash
}.

Module BlockValidation.
Section BlockValidation.
Variable keccak_256 : Bytes -> Bytes.
Local Open Scope js_scope.

Definition invalid (why : string) : BlockValidationResult :=
  mkBlockValidation false (Some why) None None None.

(** The reads of the world state do not throw, so the [catch] block of
    [validateTransactionAgainstState] is never entered. *)
Definition validateTransactionAgainstState (tx : Tx.t) (blockNumber : Z)
           (w : InMemoryWorldState) : Validation :=
  let sender := Tx.from tx in
  if negb (World.accountExists sender w)
  then mkValidation false (Some "Sender account does not exist")
  else
    let currentNonce := World.getNonce sender w in
    if negb (Tx.nonce tx =? currentNonce)
    then mkValidation false (Some "Invalid nonce")
    else
      let balance := World.getBalance sender w in
      let gasCost := Tx.gasLimit tx * Tx.gasPrice tx in
      let totalCost := gasCost + Tx.value tx in
      if balance <? totalCost
      then mkValidation false (Some "Insufficient balance")
      else if negb (Tx.gasLimit tx =? 0) && (Tx.gasLimit tx <=? 0)
      then mkValidation false (Some "Invalid gas limit")
      else mkValidation true None.

(** The [for] loop over [block.transactions]: the result is the error of a
    [return] inside the loop, or the total when the loop ran to its end.  The
    elements of [block.transactions] are transactions, none of them
    [undefined], so the first test of the loop cannot fire. *)
Fixpoint validateTransactions (txs : list Tx.t) (i : Z) (blockNumber : Z)
         (totalGasUsed : Z) (transactionHashes : list string)
  : M BlockProcessor.State (string + Z) :=
  match txs with
  | [] => ret (inr totalGasUsed)
  | tx :: rest =>
      txHashBytes <- Serialize.calculateTransactionHash keccak_256 tx ;;
      let txHash := bytesToHex txHashBytes in
      if existsb (String.eqb txHash) transactionHashes
      then ret (inl "Duplicate transaction in block")
      else
        s <- get ;;
        let validation :=
          validateTransactionAgainstState tx blockNumber (BlockProcessor.worldState s) in
        if negb (valid validation)
        then ret (inl ("Invalid transaction at index " ++ numberToString i ++ ": "
                       ++ match error validation with Some e => e | None => "undefined" end)%string)
        else validateTransactions rest (i + 1) blockNumber (totalGasUsed + Tx.gasLimit tx)
                                  (transactionHashes ++ [txHash])
  end.

(** [validateBlock(block, parentBlock)] with the state of the consensus
    engine it asks and the time it reads. *)
Definition validateBlock (consensus : Consensus.ConsensusState) (now : Z)
           (block : Block) (parentBlock : option Block)
  : M BlockProcessor.State BlockValidationResult :=
  try_catch
    (let headerValidation :=
       Consensus.validateBlockHeader (header block) (option_map header parentBlock) now
                                     consensus in
     if negb (valid headerValidation)
     then ret (mkBlockValidation false (error headerValidation) None None None)
     else
       _ <- Serialize.calculateBlockHash keccak_256 block ;;
       checked <- validateTransactions (transactions block) 0 (Header.number (header block))
                                       0 [] ;;
       match checked with
       | inl why => ret (invalid why)
       | inr totalGasUsed =>
           if negb (totalGasUsed =? Header.gasUsed (header block))
           then ret (invalid "Block gas used mismatch")
           else if totalGasUsed >? Header.gasLimit (header block)
           then ret (invalid "Block gas limit exceeded")
           else
             expectedTransactionsRoot <-
               Serialize.calculateTransactionsRoot keccak_256 (transactions block) ;;
             let transactionsRootHex := bytesToHex (Header.transactionsRoot (header block)) in
             let expectedRootHex := bytesToHex expectedTransactionsRoot in
             if negb (String.eqb transactionsRootHex expectedRootHex)
             then ret (invalid "Invalid transactions root")
             else ret (mkBlockValidation true None (Some totalGasUsed)
                                         (Some (Header.stateRoot (header block)))
                                         (Some (Header.receiptsRoot (header block))))
       end)
    (fun e => ret (invalid ("Block validation error: " ++ exnToString e)%string)).

End BlockValidation.
End BlockValidation.

(* ================================================================== *)
(** * Notions the statements below need *)
(* ================================================================== *)

(** A change a client can make to the world state. *)
Inductive Mutation : Type :=
| PutAccount (account : Account)
| AddBalance (addr : Address) (amount : Z)
| SubBalance (addr : Address) (amount : Z)
| IncrementNonce (addr : Address)
| SetNonce (addr : Address) (n : Z)
| SetCode (addr : Address) (c : Bytes)
| SetStorage (addr : Address) (key value : Value).

(** A mutation that throws ([subBalance] on a short balance, [setStorage]
    on a key without [toString]) has changed nothing, and the sequence goes
    on. *)
Definition applyMutation (m : Mutation) (w : InMemoryWorldState) : InMemoryWorldState :=
  match m with
  | PutAccount account => World.putAccount account w
  | AddBalance addr amount => World.addBalance addr amount w
  | SubBalance addr amount => snd (World.subBalance addr amount w)
  | IncrementNonce addr => World.incrementNonce addr w
  | SetNonce addr n => World.setNonce addr n w
  | SetCode addr c => World.setCode addr c w
  | SetStorage addr key value => snd (World.setStorageAny addr key value w)
  end.

Definition applyMutations (ms : list Mutation) (w : InMemoryWorldState) : InMemoryWorldState :=
  fold_left (fun w m => applyMutation m w) ms w.

(** Every reference held by the maps of the world state and of its snapshots
    names an object that exists. *)
Definition refsBelow (bound : loc) (m : list (string * loc)) : Prop :=
  Forall (fun e => (snd e < bound)%nat) m.

Definition wellFormed (w : InMemoryWorldState) : Prop :=
  refsBelow (objs_next w) (accounts w)
  /\ refsBelow (maps_next w) (storages w)
  /\ Forall (fun e => refsBelow (objs_next w) (snap_accounts (snd e))
                      /\ refsBelow (maps_next w) (snap_storages (snd e)))
            (snapshots w).

(** Instruction boundaries: whether the byte at [target] is immediate data
    of a PUSH when the code is read from offset 0.  [skip] counts the data
    bytes still to pass. *)
Fixpoint inPushDataFrom (code : Bytes) (skip pos target : nat) : bool :=
  match code with
  | [] => false
  | b :: rest =>
      match skip with
      | S skip' => if Nat.eqb pos target then true
                   else inPushDataFrom rest skip' (S pos) target
      | O => if Nat.eqb pos target then false
             else if (0x60 <=? b) && (b <=? 0x7f)
                  then inPushDataFrom rest (Z.to_nat (b - 0x60 + 1)) (S pos) target
                  else inPushDataFrom rest O (S pos) target
      end
  end.

Definition inPushData (code : Bytes) (target : Z) : bool :=
  (0 <=? target) && inPushDataFrom code 0 0 (Z.to_nat target).

(** A 256-bit word. *)
Definition isWord (x : Z) : Prop := 0 <= x < 2 ^ 256.

(** [pushes h cost args result]: wherever the handler [h] finds the bigints
    [args] on top of a stack of legal depth ([args] listed from the top,
    whatever lies below them) and [cost] units of gas, it takes the gas,
    removes [args] and leaves the bigint [result] on top, and does nothing
    else. *)
Definition pushes (h : M Ctx.t unit) (cost : Z) (args : list Word) (result : Word) : Prop :=
  forall (ctx : Ctx.t) (rest : list Value),
    Ctx.stack ctx = map BigInt args ++ rest ->
    len (Ctx.stack ctx) <= 1024 ->
    cost <= Ctx.gasLeft ctx ->
    h ctx = (Ok tt, Ctx.with_stack (Ctx.with_gasLeft ctx (Ctx.gasLeft ctx - cost))
                                   (BigInt result :: rest)).

(** What [jump] accepts: an offset inside the code whose byte is [0x5b]. *)
Definition validJumpTarget (code : Bytes) (destination : Z) : bool :=
  (0 <=? destination) && (destination <? len code)
  && (nth (Z.to_nat destination) code 0 =? 0x5b).

(** The hashes of the transactions the pool holds, pending first. *)
Definition poolHashes (p : Pool.TransactionPool) : list string :=
  JsMap.keys (Pool.pending p) ++ JsMap.keys (Pool.queued p).

(** The gas a transaction result reports ([result.gasUsed || 0n]). *)
Definition reportedGas (r : TxResult.t) : Z :=
  match TxResult.gasUsed r with Some g => g | None => 0 end.

(** The results [createBlock] counts: those with [success] and a receipt. *)
Definition counted (r : TxResult.t) : bool :=
  TxResult.success r && match TxResult.receipt r with Some _ => true | None => false end.

(** A pool entry records the gas limit of its transaction, as the entries
    that [addTransaction] builds do. *)
Definition consistentEntry (e : Pool.PoolTransaction) : Prop :=
  Pool.gasLimit e = Tx.gasLimit (Pool.transaction e).

Definition sumReportedGas (results : list TxResult.t) : Z :=
  fold_right (fun r acc => reportedGas r + acc) 0 results.

Definition sumCountedGas (results : list TxResult.t) : Z :=
  fold_right (fun r acc => (if counted r then reportedGas r else 0) + acc) 0 results.

(** The gas limits that pool entries record, summed. *)
Definition sumGasLimit (entries : list Pool.PoolTransaction) : Z :=
  fold_right (fun e acc => Pool.gasLimit e + acc) 0 entries.


(** Between [snapshot()] and the next [revert] or [commit], the objects of
    the copy occupy a block of locations.  The live maps never point into
    that block, and new objects are made above it. *)
Record Framed (lo hi mlo mhi : loc) (w0 w : InMemoryWorldState) : Prop := mkFramed {
    fr_objs : forall l, (lo <= l < hi)%nat -> objs w l = objs w0 l;
    fr_maps : forall l, (mlo <= l < mhi)%nat -> maps w l = maps w0 l;
    fr_objs_next : (hi <= objs_next w)%nat;
    fr_maps_next : (mhi <= maps_next w)%nat;
    fr_accounts : Forall (fun e => (snd e < lo \/ hi <= snd e)%nat) (accounts w);
    fr_storages : Forall (fun e => (snd e < mlo \/ mhi <= snd e)%nat) (storages w);
    fr_snapshots : snapshots w = snapshots w0
  }.

(** The accounts and the storage maps that a map of references names. *)
Definition derefAccounts (w : InMemoryWorldState) (m : list (string * loc)) :=
  map (fun e => (fst e, objs w (snd e))) m.
Definition derefStorages (w : InMemoryWorldState) (m : list (string * loc)) :=
  map (fun e => (fst e, maps w (snd e))) m.

(** [poolShrinks c]: whatever [c] does and however it ends, the pool holds no
    hash afterwards that it did not hold before. *)
Definition poolShrinks {Storage Consensus A : Type}
           (c : M (BlockchainManager.State Storage Consensus) A) : Prop :=
  forall s, incl (poolHashes (BlockchainManager.txPool (snd (c s))))
                 (poolHashes (BlockchainManager.txPool s)).

(** The pool right after the placement step of [addTransaction], before the
    size limit is enforced. *)
Definition entryFor (tx : Tx.t) (h : string) (now : Z) (p : Pool.TransactionPool)
  : Pool.PoolTransaction :=
  Pool.mkPoolTx tx h now (Tx.gasPrice tx) (Tx.gasLimit tx) (Tx.from tx) (Tx.nonce tx)
                (Pool.nextPriority p).

Definition withEntry (inPending : bool) (tx : Tx.t) (h : string) (now : Z)
           (p : Pool.TransactionPool) : Pool.TransactionPool :=
  let entry := entryFor tx h now p in
  let senderHex := bytesToHex (Tx.from tx) in
  Pool.mkPool (Pool.config p)
         (if inPending then JsMap.set h entry (Pool.pending p) else Pool.pending p)
         (if inPending then Pool.queued p else JsMap.set h entry (Pool.queued p))
         (JsMap.set senderHex (Pool.accountTxsOf senderHex p ++ [entry])
                    (Pool.accountTransactions p))
         (Pool.nextPriority p + 1).

(** [returns c]: from every state [c] ends with a value or an exception. *)
Definition returns {S A : Type} (c : M S A) : Prop :=
  forall s, fst (c s) <> OutOfFuel.

(** [w'] is reached from [w] by changes a client can make. *)
Definition worldReach (w w' : InMemoryWorldState) : Prop :=
  exists ms, w' = applyMutations ms w.

(** From [ctx] to [ctx'] no gas is gained, the gas does not become negative,
    and the world changes by such changes only. *)
Definition ctxReach (ctx ctx' : Ctx.t) : Prop :=
  Ctx.gasLeft ctx' <= Ctx.gasLeft ctx
  /\ (0 <= Ctx.gasLeft ctx -> 0 <= Ctx.gasLeft ctx')
  /\ worldReach (Ctx.world ctx) (Ctx.world ctx').

(** [preserves R c]: from every state [c] ends with a value or an exception,
    in a state related by [R] to the one it started from. *)
Definition preserves {S A : Type} (R : S -> S -> Prop) (c : M S A) : Prop :=
  forall s, fst (c s) <> OutOfFuel /\ R s (snd (c s)).

(** [pays h]: when the handler [h] returns and the frame goes on, at least
    one unit of gas is gone and the gas left is not negative. *)
Definition pays (h : M Ctx.t unit) : Prop :=
  forall ctx ctx', h ctx = (Ok tt, ctx') -> Ctx.stopped ctx' = false ->
                   0 <= Ctx.gasLeft ctx' /\ Ctx.gasLeft ctx' + 1 <= Ctx.gasLeft ctx.

(** [stops c]: when [c] returns, the frame has stopped. *)
Definition stops {A : Type} (c : M Ctx.t A) : Prop :=
  forall ctx a ctx', c ctx = (Ok a, ctx') -> Ctx.stopped ctx' = true.

(** How the [try] block of [executeTransaction] can end, started in a world
    reached from [w1]: with a result, after a commit when the result is a
    success and after a revert when it is not; or with an exception, in a
    world reached from [w1]. *)
Definition tryOutcome (w1 : InMemoryWorldState) (snapshotId : Z)
           (out : Res ExecutionResult * InMemoryWorldState) : Prop :=
  match out with
  | (Ok result, w') =>
      exists w2, worldReach w1 w2
                 /\ if success result
                    then w' = World.commit (Some snapshotId) w2
                    else World.revert snapshotId w2 = (Ok tt, w')
  | (Throw _, w') => worldReach w1 w'
  | (OutOfFuel, _) => False
  end.

(** Every entry of the pool records the gas limit of its transaction. *)
Definition poolConsistent (p : Pool.TransactionPool) : Prop :=
  Forall (fun e => consistentEntry (snd e)) (Pool.pending p)
  /\ Forall (fun e => consistentEntry (snd e)) (Pool.queued p).

(** A byte: what an element of a [Uint8Array] can hold. *)
Definition isByte (b : Z) : Prop := 0 <= b < 256.

(** The number a string of hexadecimal digits denotes, continuing from
    [acc]; a character that is no digit counts as zero. *)
Fixpoint hexNumber (acc : Z) (s : string) : Z :=
  match s with
  | EmptyString => acc
  | String c rest =>
      hexNumber (acc * 16 + match hexVal c with Some d => d | None => 0 end) rest
  end.

(** Strings made of the digits [hexDigit] writes. *)
Fixpoint lowerHex (s : string) : Prop :=
  match s with
  | EmptyString => True
  | String c rest => (exists d, 0 <= d < 16 /\ c = hexDigit d) /\ lowerHex rest
  end.

(** The world state keeps its maps in order: every account object is filed
    under the key of the address it holds, also in the snapshots; no two
    entries of a map of storages name the same inner [Map]; and an inner
    [Map], being a [Map], has no key twice. *)
Definition keyedByAddress (h : loc -> Account) (m : list (string * loc)) : Prop :=
  Forall (fun e => fst e = World.addressToKey (address (h (snd e)))) m.

Definition distinctRefs (m : list (string * loc)) : Prop := NoDup (map snd m).

Definition coherent (w : InMemoryWorldState) : Prop :=
  wellFormed w
  /\ keyedByAddress (objs w) (accounts w)
  /\ distinctRefs (storages w)
  /\ Forall (fun e => keyedByAddress (objs w) (snap_accounts (snd e))
                      /\ distinctRefs (snap_storages (snd e)))
            (snapshots w)
  /\ forall l, NoDup (JsMap.keys (maps w l)).

(** The address a mutation is aimed at. *)
Definition target (m : Mutation) : Address :=
  match m with
  | PutAccount account => address account
  | AddBalance addr _ | SubBalance addr _ | IncrementNonce addr
  | SetNonce addr _ | SetCode addr _ | SetStorage addr _ _ => addr
  end.

(** The account [getAccount] finds, by value. *)
Definition accountAt (addr : Address) (w : InMemoryWorldState) : option Account :=
  option_map (objs w) (World.getAccount addr w).

(** The shape the mutators of one account share: change the object that is
    there, or a new one, and store a copy. *)
Definition updateAccount (addr : Address) (f : Account -> Account) (w : InMemoryWorldState)
  : InMemoryWorldState :=
  match World.getAccount addr w with
  | Some l => World.putAccount (f (objs w l)) (World.writeObj l (f (objs w l)) w)
  | None => World.putAccount (f (freshAccount addr)) w
  end.

Definition orFresh (addr : Address) (w : InMemoryWorldState) : Account :=
  match accountAt addr w with Some a => a | None => freshAccount addr end.

(** Storage writes to one address, oldest first: the key as [setStorage]
    has turned it into a string, and what is stored under it. *)
Definition applyWrites (addr : Address) (writes : list (string * Value))
           (w : InMemoryWorldState) : InMemoryWorldState :=
  fold_left (fun w kv => World.setStorageAt addr (fst kv) (snd kv) w) writes w.

(** What [push] lets through: a bigint that is a word, and whatever is not
    a bigint. *)
Definition legalValue (v : Value) : Prop :=
  match v with
  | BigInt n => isWord n
  | Undefined | NumberNaN | NumberZero => True
  end.

(** An operand stack within the limits: at most 1024 entries, and every
    bigint among them a word. *)
Definition legalStack (stack : list Value) : Prop :=
  len stack <= 1024 /\ Forall legalValue stack.

(** The same of the stack array with its property [-1]. *)
Definition legalContext (ctx : Ctx.t) : Prop :=
  legalStack (Ctx.stack ctx) /\ legalValue (Ctx.stackMinus1 ctx).

(** From [ctx] to [ctx'] inside one frame: code, call data and environment
    are the same, a stack within the limits stays within them, and the world
    changes by storage writes to the executing address only, each paid with
    20000 units of gas. *)
Definition frameReach (ctx ctx' : Ctx.t) : Prop :=
  Ctx.code ctx' = Ctx.code ctx
  /\ Ctx.calldata ctx' = Ctx.calldata ctx
  /\ Ctx.env ctx' = Ctx.env ctx
  /\ (legalContext ctx -> legalContext ctx')
  /\ exists writes,
       Ctx.world ctx' = applyWrites (Env.address (Ctx.env ctx)) writes (Ctx.world ctx)
       /\ Ctx.gasLeft ctx' + 20000 * len writes <= Ctx.gasLeft ctx.

(** [changed addr db dn v v']: from [v] to [v'] the balance at [addr] has
    gone up by [db] and the nonce by [dn]; the code there, the snapshots and
    the accounts at all other addresses are as they were; and the maps are
    still in order. *)
Definition changed (addr : Address) (db dn : Z) (v v' : InMemoryWorldState) : Prop :=
  coherent v'
  /\ snapshots v' = snapshots v
  /\ World.getBalance addr v' = World.getBalance addr v + db
  /\ World.getNonce addr v' = World.getNonce addr v + dn
  /\ World.getCode addr v' = World.getCode addr v
  /\ (World.accountExists addr v = true -> World.accountExists addr v' = true)
  /\ forall a, World.addressToKey a <> World.addressToKey addr ->
               accountAt a v' = accountAt a v.

(** Highest gas price first. *)
Definition byPriceDown (a b : Pool.PoolTransaction) : Prop :=
  Pool.gasPrice b <= Pool.gasPrice a.

(** The gas limits of a list of transactions, added up. *)
Definition sumTxGasLimit (txs : list Tx.t) : Z :=
  fold_right (fun tx acc => Tx.gasLimit tx + acc) 0 txs.

(** What [validateTransactionAgainstState] asks of a transaction. *)
Definition payable (tx : Tx.t) (w : InMemoryWorldState) : Prop :=
  World.accountExists (Tx.from tx) w = true
  /\ Tx.nonce tx = World.getNonce (Tx.from tx) w
  /\ Tx.gasLimit tx * Tx.gasPrice tx + Tx.value tx <= World.getBalance (Tx.from tx) w
  /\ 0 <= Tx.gasLimit tx.

(** Half of the gas limit of every transaction, which is what the
    placeholder for the VM reports for a transaction that succeeds. *)
Definition halfGas (txs : list Tx.t) : Z :=
  fold_right (fun tx acc => Z.max 0 (Z.quot (Tx.gasLimit tx) 2) + acc) 0 txs.

(* ================================================================== *)
(** * Example data *)
(* ================================================================== *)

Module Examples.

(** [PUSH1 4; JUMP; PUSH1 0x5b; STOP].  Offset 4 holds the byte [0x5b] as the
    operand of the second PUSH1. *)
Definition jumpIntoPushData : Bytes := [0x60; 0x04; 0x56; 0x60; 0x5b; 0x00].

Definition exampleEnv : Env.t := Env.mk (zeros 20) (zeros 20) (zeros 20) 0 1 1 1 (zeros 20) 1 1.

(** The 'revert isolation' scenario: a contract that stores 42 in slot 0
    and then executes REVERT: [PUSH1 42; PUSH1 0; SSTORE; PUSH1 0; PUSH1 0;
    REVERT]. *)
Definition alice : Address := repeat 0xaa 20.
Definition contract : Address := repeat 0xcc 20.
Definition revertingCode : Bytes :=
  [0x60; 0x2a; 0x60; 0x00; 0x55; 0x60; 0x00; 0x60; 0x00; 0xfd].

Definition world0 : InMemoryWorldState :=
  World.putAccount (mkAccount contract 1 0 revertingCode [])
    (World.putAccount (mkAccount alice 0 1000000 [] []) emptyWorld).

(** A call to the contract: gas limit 100000 at price 1, nonce 0. *)
Definition callTx : Tx.t := Tx.mk alice (Some contract) 0 100000 1 0 [].

(** A genesis header: zero hashes, number and timestamp 0, the gas limit
    of the development configuration, no signature, no extra data. *)
Definition genesisHeader : Header.t :=
  Header.mk (zeros 32) 0 0 (zeros 32) (zeros 32) (zeros 32) (repeat 0x11 20) []
            30000000 0 [].

Definition genesis : Block := mkBlock genesisHeader [].

(** A chain tip at height 5. *)
Definition tipHeader : Header.t :=
  Header.mk (zeros 32) 5 1000 (zeros 32) (zeros 32) (zeros 32) (repeat 0x11 20)
            (zeros 65) 30000000 0 [].
Definition tip : Block := mkBlock tipHeader [].

(** Two blocks at height 6 that name different parents. *)
Definition childOf (parent : Hash) : Block :=
  mkBlock (Header.mk parent 6 1010 (zeros 32) (zeros 32) (zeros 32) (repeat 0x11 20)
                     (zeros 65) 30000000 0 []) [].

(** A stand-in for keccak-256 where an example has to be evaluated: the
    first 32 bytes of the zero-padded input.  The hash only names
    transactions and blocks; no gas or balance depends on it. *)
Definition stubHash (b : Bytes) : Bytes := firstn 32 (b ++ zeros 32).

(** Block creation with a transaction that cannot pay: [poor] holds 100 and
    offers 21000 units of gas at price 1; [rich] can pay for the same gas at
    price 2.  Both transactions are added to an empty pool. *)
Definition poor : Address := repeat 0xaa 20.
Definition rich : Address := repeat 0xbb 20.
Definition recipient : Address := repeat 0xdd 20.
Definition validator : Address := repeat 0x11 20.

Definition blockWorld : InMemoryWorldState :=
  World.putAccount (mkAccount rich 0 1000000 [] [])
    (World.putAccount (mkAccount poor 0 100 [] []) emptyWorld).

Definition poorTx : Tx.t := Tx.mk poor (Some recipient) 0 21000 1 0 [].
Definition richTx : Tx.t := Tx.mk rich (Some recipient) 0 21000 2 0 [].

Definition poolConfig : Pool.TxPoolConfig := Pool.mkConfig 100 10 1 30000000 3600.

Definition blockPool : Pool.TransactionPool :=
  snd (Pool.addTransaction stubHash richTx 1000
         (snd (Pool.addTransaction stubHash poorTx 1000 (Pool.newPool poolConfig)))).

Definition blockOptions : BlockProcessor.BlockProcessingOptions :=
  BlockProcessor.mkOptions 100 30000000 5 0.

Definition blockState : BlockProcessor.State := BlockProcessor.mkState blockWorld blockPool.


(** The 'nonce gap queue' scenario: a pool that has been given the
    transaction of [alice] with nonce 1, and her transaction with nonce 0,
    which arrives after it.  The two differ at the end of their encoding
    only, so the stand-in for their hash is its last 32 bytes. *)
Definition stubHashOfEnd (b : Bytes) : Bytes := skipn (List.length b) (zeros 32 ++ b).

Definition nonceOneTx : Tx.t := Tx.mk alice (Some recipient) 0 21000 1 1 [].
Definition nonceZeroTx : Tx.t := Tx.mk alice (Some recipient) 0 21000 1 0 [].

Definition hashOf (tx : Tx.t) : Bytes :=
  match Serialize.calculateTransactionHash stubHashOfEnd tx tt with
  | (Ok txHash, _) => txHash
  | _ => []
  end.

Definition gapPool : Pool.TransactionPool :=
  snd (Pool.addTransaction stubHashOfEnd nonceOneTx 1000 (Pool.newPool poolConfig)).


End Examples.

Module Scenarios.

(** A pool for one transaction that holds [richTx], which offers price 2. *)
Definition fullPool : Pool.TransactionPool :=
  snd (Pool.addTransaction Examples.stubHash Examples.richTx 1000
         (Pool.newPool (Pool.mkConfig 1 10 1 30000000 3600))).

End Scenarios.

(* ================================================================== *)
(** * Facts about maps *)
(* ================================================================== *)

Module JsMapFacts.
Section JsMapFacts.
Context {K V : Type} `{EqKey K}.

Lemma keqb_refl (k : K) : keqb k k = true.
Proof. apply keqb_spec. reflexivity. Qed.

Lemma get_set_same (k : K) (v : V) (m : list (K * V)) :
  JsMap.get k (JsMap.set k v m) = Some v.
Proof.
  induction m as [| [k' v'] m IH]; simpl.
  - rewrite keqb_refl. reflexivity.
  - destruct (keqb k k') eqn:E; simpl; rewrite E; auto.
Qed.

Lemma get_In (k : K) (v : V) (m : list (K * V)) :
  JsMap.get k m = Some v -> In (k, v) m.
Proof.
  induction m as [| [k' v'] m IH]; simpl; [discriminate |].
  destruct (keqb k k') eqn:E.
  - intros [= ->]. apply keqb_spec in E. subst. now left.
  - intros Hg. right. auto.
Qed.

Lemma Forall_set (P : K * V -> Prop) (k : K) (v : V) (m : list (K * V)) :
  Forall P m -> P (k, v) -> Forall P (JsMap.set k v m).
Proof.
  intros Hm Hkv. induction Hm as [| [k' v'] m Hx Hm IH]; simpl.
  - constructor; auto.
  - destruct (keqb k k') eqn:E.
    + apply keqb_spec in E. subst. constructor; auto.
    + constructor; auto.
Qed.

Lemma Forall_delete (P : K * V -> Prop) (k : K) (m : list (K * V)) :
  Forall P m -> Forall P (JsMap.delete k m).
Proof.
  intros Hm. induction Hm as [| [k' v'] m Hx Hm IH]; simpl; [constructor |].
  destruct (keqb k k'); auto.
Qed.

Lemma get_filter_none (f : K * V -> bool) (k : K) (m : list (K * V)) :
  (forall v, f (k, v) = false) -> JsMap.get k (filter f m) = None.
Proof.
  intros Hf. induction m as [| [k' v'] m IH]; simpl; [reflexivity |].
  destruct (f (k', v')) eqn:Ef; [| exact IH].
  simpl. destruct (keqb k k') eqn:E; [| exact IH].
  apply keqb_spec in E. subst. rewrite Hf in Ef. discriminate.
Qed.

Lemma get_delete_subset (k k' : K) (v : V) (m : list (K * V)) :
  JsMap.get k (JsMap.delete k' m) = Some v -> exists v', JsMap.get k m = Some v'.
Proof.
  induction m as [| [k0 v0] m IH]; simpl; [discriminate |].
  destruct (keqb k' k0) eqn:E'.
  - intros Hg. destruct (keqb k k0); eauto.
  - simpl. destruct (keqb k k0); eauto.
Qed.

Lemma get_keys (k : K) (v : V) (m : list (K * V)) :
  JsMap.get k m = Some v -> In k (JsMap.keys m).
Proof.
  intros Hg. apply get_In in Hg. unfold JsMap.keys.
  change k with (fst (k, v)). now apply in_map.
Qed.

Lemma keys_delete (k : K) (m : list (K * V)) :
  incl (JsMap.keys (JsMap.delete k m)) (JsMap.keys m).
Proof.
  induction m as [| [k' v'] m IH]; simpl; [apply incl_refl |].
  destruct (keqb k k'); simpl.
  - apply incl_tl, incl_refl.
  - apply incl_cons; [now left |]. now apply incl_tl.
Qed.

Lemma keys_set (k : K) (v : V) (m : list (K * V)) :
  incl (JsMap.keys (JsMap.set k v m)) (k :: JsMap.keys m).
Proof.
  induction m as [| [k' v'] m IH]; simpl.
  - apply incl_refl.
  - destruct (keqb k k') eqn:E; simpl.
    + apply incl_tl, incl_refl.
    + apply incl_cons; [right; now left |].
      intros x Hx. destruct (IH x Hx) as [<- | Hin]; [now left | right; now right].
Qed.
Lemma has_none (k : K) (m : list (K * V)) :
  JsMap.has k m = false -> JsMap.get k m = None.
Proof. unfold JsMap.has. now destruct (JsMap.get k m). Qed.

Lemma none_has (k : K) (m : list (K * V)) :
  JsMap.get k m = None -> JsMap.has k m = false.
Proof. unfold JsMap.has. now intros ->. Qed.

Lemma delete_absent (k : K) (m : list (K * V)) :
  JsMap.get k m = None -> JsMap.delete k m = m.
Proof.
  induction m as [| [k' v] m IH]; simpl; [reflexivity |].
  destruct (keqb k k'); [discriminate |]. intros Hnone. now rewrite IH.
Qed.

Lemma size_set_absent (k : K) (v : V) (m : list (K * V)) :
  JsMap.get k m = None -> JsMap.size (JsMap.set k v m) = JsMap.size m + 1.
Proof.
  unfold JsMap.size. induction m as [| [k' v'] m IH]; simpl; [reflexivity |].
  destruct (keqb k k'); [discriminate |]. intros Hnone. specialize (IH Hnone).
  cbn [List.length]. lia.
Qed.

End JsMapFacts.
End JsMapFacts.

Lemma filter_idempotent_weaker {A : Type} (f g : A -> bool) (l : list A) :
  (forall x, f x = true -> g x = true) -> filter g (filter f l) = filter f l.
Proof.
  intros Hfg. induction l as [| x l IH]; simpl; [reflexivity |].
  destruct (f x) eqn:Ef; simpl; [rewrite (Hfg _ Ef), IH |]; auto.
Qed.

(* ================================================================== *)
(** * The world state: snapshots, revert and commit *)
(* ================================================================== *)

Module WorldFacts.
Import World.

  (** ** The deep copy *)

Lemma upd_same {A : Type} (h : loc -> A) (l : loc) (a : A) : upd h l a l = a.
Proof. unfold upd. now rewrite Nat.eqb_refl. Qed.

Lemma upd_other {A : Type} (h : loc -> A) (l l' : loc) (a : A) :
  l' <> l -> upd h l a l' = h l'.
Proof. intros Hne. unfold upd. apply Nat.eqb_neq in Hne. now rewrite Hne. Qed.

Lemma copyEntries_spec {A : Type} (src : list (string * loc)) :
  forall (h : loc -> A) (next : loc),
    refsBelow next src ->
    let '(copied, h', next') := copyEntries src h next in
    next' = (next + List.length src)%nat
    /\ Forall (fun e => (next <= snd e < next')%nat) copied
    /\ (forall l, (l < next)%nat -> h' l = h l)
    /\ map (fun e => (fst e, h' (snd e))) copied = map (fun e => (fst e, h (snd e))) src.
Proof.
  induction src as [| [key l] rest IH]; intros h next Hrefs; simpl.
  - repeat split; auto; lia.
  - inversion Hrefs as [| ? ? Hl Hrest]; subst. simpl in Hl.
    assert (Hrest' : refsBelow (S next) rest).
    { eapply Forall_impl; [| exact Hrest]. simpl. intros; lia. }
    specialize (IH (upd h next (h l)) (S next) Hrest').
    destruct (copyEntries rest (upd h next (h l)) (S next)) as [[copied h'] next'].
    destruct IH as (Hnext & Hrange & Hold & Hview).
    repeat split.
    + lia.
    + constructor; [simpl; lia |].
      eapply Forall_impl; [| exact Hrange]. simpl. intros; lia.
    + intros l0 Hl0. rewrite Hold by lia. apply upd_other. lia.
    + simpl. f_equal.
      * rewrite Hold by lia. now rewrite upd_same.
      * rewrite Hview. apply map_ext_in. intros [k0 l0] Hin. simpl.
        f_equal. apply upd_other.
        unfold refsBelow in Hrest. rewrite Forall_forall in Hrest.
        specialize (Hrest _ Hin). simpl in Hrest. lia.
Qed.


Section Frame.
Variables (lo hi mlo mhi : loc) (w0 : InMemoryWorldState).

Lemma framed_putAccount (a : Account) (w : InMemoryWorldState) :
  Framed lo hi mlo mhi w0 w -> Framed lo hi mlo mhi w0 (putAccount a w).
Proof.
  intros [Ho Hm Hon Hmn Ha Hs Hsn]. constructor; simpl; auto.
  - intros l Hl. rewrite upd_other by lia. auto.
  - apply JsMapFacts.Forall_set; auto; simpl; lia.
Qed.

Lemma framed_writeObj (addr : Address) (l : loc) (a : Account) (w : InMemoryWorldState) :
  getAccount addr w = Some l ->
  Framed lo hi mlo mhi w0 w -> Framed lo hi mlo mhi w0 (writeObj l a w).
Proof.
  intros Hg [Ho Hm Hon Hmn Ha Hs Hsn]. constructor; simpl; auto.
  intros l' Hl'. rewrite upd_other; auto.
  apply JsMapFacts.get_In in Hg. rewrite Forall_forall in Ha.
  specialize (Ha _ Hg). simpl in Ha. lia.
Qed.

Lemma framed_setStorageAt (addr : Address) (storageKey : string) (value : Value)
      (w : InMemoryWorldState) :
  Framed lo hi mlo mhi w0 w -> Framed lo hi mlo mhi w0 (setStorageAt addr storageKey value w).
Proof.
  intros Hw. unfold setStorageAt.
  set (w1 := if JsMap.has (addressToKey addr) (storages w) then w
             else newStorageMap (addressToKey addr) w).
  assert (Hw1 : Framed lo hi mlo mhi w0 w1).
  { subst w1. destruct (JsMap.has (addressToKey addr) (storages w)); [exact Hw |].
    destruct Hw as [Ho Hm Hon Hmn Ha Hs Hsn]. constructor; simpl; auto.
    - intros l Hl. rewrite upd_other by lia. auto.
    - apply JsMapFacts.Forall_set; auto; simpl; lia. }
  clearbody w1.
  destruct (JsMap.get (addressToKey addr) (storages w1)) as [l |] eqn:Hg; [| exact Hw1].
  assert (Hout : forall m, Framed lo hi mlo mhi w0 (writeMap l m w1)).
  { intros m. destruct Hw1 as [Ho Hm Hon Hmn Ha Hs Hsn]. constructor; simpl; auto.
    intros l' Hl'. rewrite upd_other; auto.
    apply JsMapFacts.get_In in Hg. rewrite Forall_forall in Hs.
    specialize (Hs _ Hg). simpl in Hs. lia. }
  destruct (isBigZero value); apply Hout.
Qed.

Lemma framed_setStorageAny (addr : Address) (key value : Value) (w : InMemoryWorldState) :
  Framed lo hi mlo mhi w0 w ->
  Framed lo hi mlo mhi w0 (snd (setStorageAny addr key value w)).
Proof.
  intros Hw. unfold setStorageAny.
  destruct (storageKeyToStringAny key); [now apply framed_setStorageAt | exact Hw].
Qed.

Lemma framed_applyMutation (m : Mutation) (w : InMemoryWorldState) :
  Framed lo hi mlo mhi w0 w -> Framed lo hi mlo mhi w0 (applyMutation m w).
Proof.
  intros Hw. destruct m as [a | addr amount | addr amount | addr | addr n | addr c
                           | addr key value]; simpl.
  - now apply framed_putAccount.
  - unfold addBalance. destruct (amount =? 0); [exact Hw |].
    destruct (getAccount addr w) as [l |] eqn:Hg.
    + apply framed_putAccount. eapply framed_writeObj; eauto.
    + now apply framed_putAccount.
  - unfold subBalance. destruct (amount =? 0); [exact Hw |].
    destruct (getAccount addr w) as [l |] eqn:Hg; [| exact Hw].
    destruct (balance (objs w l) <? amount); [exact Hw |]. simpl.
    apply framed_putAccount. eapply framed_writeObj; eauto.
  - unfold incrementNonce. destruct (getAccount addr w) as [l |] eqn:Hg.
    + apply framed_putAccount. eapply framed_writeObj; eauto.
    + now apply framed_putAccount.
  - unfold setNonce. destruct (getAccount addr w) as [l |] eqn:Hg.
    + apply framed_putAccount. eapply framed_writeObj; eauto.
    + now apply framed_putAccount.
  - unfold setCode. destruct (getAccount addr w) as [l |] eqn:Hg.
    + apply framed_putAccount. eapply framed_writeObj; eauto.
    + now apply framed_putAccount.
  - now apply framed_setStorageAny.
Qed.

Lemma framed_applyMutations (ms : list Mutation) :
  forall w, Framed lo hi mlo mhi w0 w -> Framed lo hi mlo mhi w0 (applyMutations ms w).
Proof.
  unfold applyMutations.
  induction ms as [| m ms IH]; intros w Hw; simpl; [exact Hw |].
  apply IH. now apply framed_applyMutation.
Qed.
End Frame.

  (** ** [snapshot()] *)


Lemma deref_ext {A : Type} (h h' : loc -> A) (m : list (string * loc)) (P : loc -> Prop) :
  Forall (fun e => P (snd e)) m -> (forall l, P l -> h' l = h l) ->
  map (fun e => (fst e, h' (snd e))) m = map (fun e => (fst e, h (snd e))) m.
Proof.
  intros Hm Heq. apply map_ext_in. intros e Hin. f_equal. apply Heq.
  rewrite Forall_forall in Hm. now apply Hm.
Qed.

Lemma snapshot_spec (w : InMemoryWorldState) :
  wellFormed w ->
  exists w1 snap,
    snapshot w = (Ok (nextSnapshotId w), w1)
    /\ JsMap.get (nextSnapshotId w) (snapshots w1) = Some snap
    /\ Framed (objs_next w) (objs_next w1) (maps_next w) (maps_next w1) w1 w1
    /\ Forall (fun e => (objs_next w <= snd e < objs_next w1)%nat) (snap_accounts snap)
    /\ Forall (fun e => (maps_next w <= snd e < maps_next w1)%nat) (snap_storages snap)
    /\ derefAccounts w1 (snap_accounts snap) = observableAccounts w
    /\ derefStorages w1 (snap_storages snap) = observableStorages w
    /\ observable w1 = observable w.
Proof.
  intros (Hacc & Hsto & _). unfold snapshot.
  pose proof (@copyEntries_spec _ (accounts w) (objs w) (objs_next w) Hacc) as Ha.
  pose proof (@copyEntries_spec _ (storages w) (maps w) (maps_next w) Hsto) as Hs.
  destruct (copyEntries (accounts w) (objs w) (objs_next w)) as [[accountsCopy objs'] on'].
  destruct (copyEntries (storages w) (maps w) (maps_next w)) as [[storagesCopy maps'] mn'].
  destruct Ha as (Hon & Harange & Haold & Haview).
  destruct Hs as (Hmn & Hsrange & Hsold & Hsview).
  eexists. eexists. split; [reflexivity |]. simpl.
  split; [apply JsMapFacts.get_set_same |]. simpl.
  split; [| split; [exact Harange | split; [exact Hsrange | split; [exact Haview |
            split; [exact Hsview |]]]]].
  - constructor; simpl; auto; try lia.
    + unfold refsBelow in Hacc. rewrite Forall_forall in *.
      intros e Hin. specialize (Hacc e Hin). lia.
    + unfold refsBelow in Hsto. rewrite Forall_forall in *.
      intros e Hin. specialize (Hsto e Hin). lia.
  - unfold observable, observableAccounts, observableStorages. simpl. f_equal.
    + apply (deref_ext (objs w) objs' (fun l => (l < objs_next w)%nat)); [exact Hacc | exact Haold].
    + apply (deref_ext (maps w) maps' (fun l => (l < maps_next w)%nat)); [exact Hsto | exact Hsold].
Qed.

(** What is reverted to is what was copied. *)
Lemma revert_restores (lo hi mlo mhi : loc) (w1 w2 : InMemoryWorldState)
      (id : Z) (snap : Snapshot) :
  Framed lo hi mlo mhi w1 w2 ->
  JsMap.get id (snapshots w1) = Some snap ->
  Forall (fun e => (lo <= snd e < hi)%nat) (snap_accounts snap) ->
  Forall (fun e => (mlo <= snd e < mhi)%nat) (snap_storages snap) ->
  exists w3,
    revert id w2 = (Ok tt, w3)
    /\ observable w3 = (derefAccounts w1 (snap_accounts snap),
                        derefStorages w1 (snap_storages snap)).
Proof.
  intros [Ho Hm _ _ _ _ Hsn] Hget Ha Hs. unfold revert. rewrite Hsn, Hget.
  eexists. split; [reflexivity |].
  unfold observable, observableAccounts, observableStorages, derefAccounts, derefStorages.
  simpl. f_equal.
  - apply (deref_ext (objs w1) (objs w2) (fun l => (lo <= l < hi)%nat)); [exact Ha | exact Ho].
  - apply (deref_ext (maps w1) (maps w2) (fun l => (mlo <= l < mhi)%nat)); [exact Hs | exact Hm].
Qed.

  (** ** Targeted commit *)

Lemma commit_keeps_state (id : Z) (w : InMemoryWorldState) :
  objs (commit (Some id) w) = objs w
  /\ maps (commit (Some id) w) = maps w
  /\ accounts (commit (Some id) w) = accounts w
  /\ storages (commit (Some id) w) = storages w.
Proof. repeat split. Qed.

Lemma commit_deletes_from (id id' : Z) (w : InMemoryWorldState) :
  id <= id' -> JsMap.get id' (snapshots (commit (Some id) w)) = None.
Proof.
  intros Hle. simpl. apply JsMapFacts.get_filter_none.
  intros snap. simpl. apply negb_false_iff, Z.geb_le. exact Hle.
Qed.

  (** ** Well-formedness is an invariant of the interface *)

Lemma refsBelow_mono (n n' : loc) (m : list (string * loc)) :
  (n <= n')%nat -> refsBelow n m -> refsBelow n' m.
Proof.
  intros Hle Hm. unfold refsBelow in *. rewrite Forall_forall in *.
  intros e Hin. specialize (Hm e Hin). lia.
Qed.

Lemma snapshotsBelow_mono (n n' k k' : loc) (snaps : list (Z * Snapshot)) :
  (n <= n')%nat -> (k <= k')%nat ->
  Forall (fun e => refsBelow n (snap_accounts (snd e))
                   /\ refsBelow k (snap_storages (snd e))) snaps ->
  Forall (fun e => refsBelow n' (snap_accounts (snd e))
                   /\ refsBelow k' (snap_storages (snd e))) snaps.
Proof.
  intros Hn Hk Hs. rewrite Forall_forall in *. intros e Hin.
  destruct (Hs e Hin). split; eauto using refsBelow_mono.
Qed.

Lemma wellFormed_emptyWorld : wellFormed emptyWorld.
Proof. repeat split; constructor. Qed.

Lemma wellFormed_putAccount (a : Account) (w : InMemoryWorldState) :
  wellFormed w -> wellFormed (putAccount a w).
Proof.
  intros (Ha & Hs & Hsn). repeat split; simpl; auto.
  - apply JsMapFacts.Forall_set; [| simpl; lia].
    apply (refsBelow_mono (n := objs_next w)); auto.
  - apply (snapshotsBelow_mono (n := objs_next w) (k := maps_next w)); auto.
Qed.

Lemma wellFormed_writeObj (l : loc) (a : Account) (w : InMemoryWorldState) :
  wellFormed w -> wellFormed (writeObj l a w).
Proof. intros (Ha & Hs & Hsn). repeat split; simpl; auto. Qed.

Lemma wellFormed_setStorageAt (addr : Address) (storageKey : string) (value : Value)
      (w : InMemoryWorldState) :
  wellFormed w -> wellFormed (setStorageAt addr storageKey value w).
Proof.
  intros Hw. unfold setStorageAt.
  set (w1 := if JsMap.has (addressToKey addr) (storages w) then w
             else newStorageMap (addressToKey addr) w).
  assert (Hw1 : wellFormed w1).
  { subst w1. destruct (JsMap.has (addressToKey addr) (storages w)); [exact Hw |].
    destruct Hw as (Ha & Hs & Hsn). repeat split; simpl; auto.
    - apply JsMapFacts.Forall_set; [| simpl; lia].
      apply (refsBelow_mono (n := maps_next w)); auto.
    - apply (snapshotsBelow_mono (n := objs_next w) (k := maps_next w)); auto. }
  clearbody w1.
  destruct (JsMap.get (addressToKey addr) (storages w1)); [| exact Hw1].
  destruct Hw1 as (Ha & Hs & Hsn).
  destruct (isBigZero value); repeat split; simpl; auto.
Qed.

Lemma wellFormed_setStorageAny (addr : Address) (key value : Value) (w : InMemoryWorldState) :
  wellFormed w -> wellFormed (snd (setStorageAny addr key value w)).
Proof.
  intros Hw. unfold setStorageAny.
  destruct (storageKeyToStringAny key); [now apply wellFormed_setStorageAt | exact Hw].
Qed.

Lemma wellFormed_applyMutation (m : Mutation) (w : InMemoryWorldState) :
  wellFormed w -> wellFormed (applyMutation m w).
Proof.
  intros Hw. destruct m as [a | addr amount | addr amount | addr | addr n | addr c
                           | addr key value]; simpl;
    unfold addBalance, subBalance, incrementNonce, setNonce, setCode;
    repeat match goal with
           | |- context [if ?b then _ else _] => destruct b
           | |- context [match getAccount ?a ?w with _ => _ end] => destruct (getAccount a w)
           end; simpl;
    auto using wellFormed_putAccount, wellFormed_writeObj, wellFormed_setStorageAny.
Qed.

Lemma wellFormed_snapshot (w : InMemoryWorldState) :
  wellFormed w -> wellFormed (snd (snapshot w)).
Proof.
  intros Hw. pose proof Hw as (Hacc & Hsto & Hsn). unfold snapshot.
  pose proof (@copyEntries_spec _ (accounts w) (objs w) (objs_next w) Hacc) as Ha.
  pose proof (@copyEntries_spec _ (storages w) (maps w) (maps_next w) Hsto) as Hs.
  destruct (copyEntries (accounts w) (objs w) (objs_next w)) as [[accountsCopy objs'] on'].
  destruct (copyEntries (storages w) (maps w) (maps_next w)) as [[storagesCopy maps'] mn'].
  destruct Ha as (Hon & Harange & _). destruct Hs as (Hmn & Hsrange & _).
  repeat split; simpl.
  - apply (refsBelow_mono (n := objs_next w)); auto. lia.
  - apply (refsBelow_mono (n := maps_next w)); auto. lia.
  - apply JsMapFacts.Forall_set.
    + apply (snapshotsBelow_mono (n := objs_next w) (k := maps_next w)); auto; lia.
    + simpl. split; unfold refsBelow; rewrite Forall_forall in *; intros e Hin;
        [specialize (Harange e Hin) | specialize (Hsrange e Hin)]; lia.
Qed.

Lemma wellFormed_revert (id : Z) (w : InMemoryWorldState) :
  wellFormed w -> wellFormed (snd (revert id w)).
Proof.
  intros Hw. pose proof Hw as (Hacc & Hsto & Hsn). unfold revert.
  destruct (JsMap.get id (snapshots w)) as [snap |] eqn:Hg; [| exact Hw]. simpl.
  apply JsMapFacts.get_In in Hg.
  rewrite Forall_forall in Hsn. destruct (Hsn _ Hg) as [Hsa Hss].
  repeat split; simpl; auto.
  rewrite Forall_forall. intros e Hin. apply filter_In in Hin. apply Hsn, Hin.
Qed.

Lemma wellFormed_commit (id : option Z) (w : InMemoryWorldState) :
  wellFormed w -> wellFormed (commit id w).
Proof.
  intros Hw. pose proof Hw as (Hacc & Hsto & Hsn). unfold commit.
  destruct id as [id |].
  - repeat split; simpl; auto.
    rewrite Forall_forall in *. intros e Hin. apply filter_In in Hin. apply Hsn, Hin.
  - destruct (currentSnapshotId w); [| exact Hw].
    repeat split; simpl; auto. now apply JsMapFacts.Forall_delete.
Qed.

End WorldFacts.

(** C2.  A snapshot, any sequence of balance, nonce, code, account and
    storage changes, then [revert(id)]: every account and every storage map
    reads as it did before the snapshot.  With [commit(id)] in place of the
    revert, what the changes left stays exactly as they left it. *)
Theorem snapshot_mutate_revert_or_commit (w : InMemoryWorldState) (ms : list Mutation) :
  wellFormed w ->
  exists id w1,
    World.snapshot w = (Ok id, w1)
    /\ (exists w3,
          World.revert id (applyMutations ms w1) = (Ok tt, w3)
          /\ World.observable w3 = World.observable w)
    /\ World.observable (World.commit (Some id) (applyMutations ms w1))
       = World.observable (applyMutations ms w1).
Proof.
  intros Hwf.
  destruct (WorldFacts.snapshot_spec Hwf)
    as (w1 & snap & Hsnap & Hget & Hframe & Ha & Hs & Hva & Hvs & _).
  exists (nextSnapshotId w), w1. split; [exact Hsnap |]. split.
  - pose proof (WorldFacts.framed_applyMutations ms Hframe) as Hframe'.
    destruct (@WorldFacts.revert_restores _ _ _ _ w1 _ (nextSnapshotId w) snap
                Hframe' Hget Ha Hs) as (w3 & Hrev & Hobs).
    exists w3. split; [exact Hrev |].
    rewrite Hobs, Hva, Hvs. reflexivity.
  - reflexivity.
Qed.

(** C10.  [commit(id)] touches no account and no storage map, and removes
    every snapshot whose id is [id] or greater: a [revert] to such an id then
    throws, and a commit of such an id has nothing left to remove. *)
Theorem commit_discards_inner_snapshots (w : InMemoryWorldState) (id : Z) :
  World.observable (World.commit (Some id) w) = World.observable w
  /\ forall id', id <= id' ->
       JsMap.get id' (snapshots (World.commit (Some id) w)) = None
       /\ World.revert id' (World.commit (Some id) w)
          = (Throw (Error ("Snapshot " ++ numberToString id' ++ " not found")%string),
             World.commit (Some id) w)
       /\ World.commit (Some id') (World.commit (Some id) w) = World.commit (Some id) w.
Proof.
  split; [reflexivity |].
  intros id' Hle.
  pose proof (WorldFacts.commit_deletes_from w Hle) as Hnone.
  split; [exact Hnone |]. split.
  - unfold World.revert. rewrite Hnone. reflexivity.
  - unfold World.commit. simpl. f_equal.
    apply filter_idempotent_weaker.
    intros [i s]. simpl. rewrite !negb_true_iff, !Z.geb_leb, !Z.leb_gt. lia.
Qed.

(* ================================================================== *)
(** * The virtual machine: arithmetic *)
(* ================================================================== *)

Module EvmFacts.
Import Ctx.

Lemma WORD_MASK_ones : WORD_MASK = Z.ones 256.
Proof. reflexivity. Qed.

Lemma TWO256_pow : TWO256 = 2 ^ 256.
Proof. reflexivity. Qed.

Lemma land_mask (x : Z) : Z.land x WORD_MASK = x mod 2 ^ 256.
Proof. rewrite WORD_MASK_ones. apply Z.land_ones. lia. Qed.

Lemma mask_value : WORD_MASK = 2 ^ 256 - 1.
Proof. reflexivity. Qed.

  (** ** Square-and-multiply computes the power *)

Lemma expmod_loop_spec (m r b e : Z) :
  1 < m -> 0 <= r < m -> 0 <= b < m -> 0 <= e ->
  expmod_loop m r b e = (r * b ^ e) mod m.
Proof.
  intros Hm. functional induction (expmod_loop m r b e) as [r b e Hpos IH | r b e Hzero];
    intros Hr Hb He.
  - apply Z.gtb_lt in Hpos.
    assert (Hhalf : Z.shiftr e 1 = e / 2) by (rewrite Z.shiftr_div_pow2 by lia; reflexivity).
    assert (Hb' : 0 <= Z.rem (b * b) m < m).
    { rewrite Z.rem_mod_nonneg by nia. apply Z.mod_pos_bound. lia. }
    assert (Hr' : 0 <= expmod_multiply m r b e < m).
    { unfold expmod_multiply. destruct (Z.rem e 2 =? 1); [| exact Hr].
      rewrite Z.rem_mod_nonneg by nia. apply Z.mod_pos_bound. lia. }
    rewrite IH; [| exact Hr' | exact Hb' | rewrite Hhalf; apply Z.div_pos; lia].
    rewrite Hhalf. rewrite (Z.rem_mod_nonneg (b * b)) by nia.
    rewrite <- Z.mul_mod_idemp_r by lia.
    rewrite <- Zpower_mod by lia.
    rewrite Z.mul_mod_idemp_r by lia.
    rewrite <- Z.pow_2_r, <- Z.pow_mul_r by (try apply Z.div_pos; lia).
    pose proof (Z.div_mod e 2 ltac:(lia)) as Hdm.
    pose proof (Z.mod_pos_bound e 2 ltac:(lia)) as Hbound.
    unfold expmod_multiply. rewrite (Z.rem_mod_nonneg e 2) by lia.
    destruct (e mod 2 =? 1) eqn:Hodd.
    + apply Z.eqb_eq in Hodd.
      rewrite (Z.rem_mod_nonneg (r * b)) by nia.
      rewrite Z.mul_mod_idemp_l by lia.
      assert (Hsplit : b ^ e = b ^ (2 * (e / 2)) * b).
      { replace e with (2 * (e / 2) + 1) at 1 by lia.
        rewrite Z.pow_add_r by (try apply Z.mul_nonneg_nonneg; try apply Z.div_pos; lia).
        now rewrite Z.pow_1_r. }
      rewrite Hsplit. f_equal. ring.
    + apply Z.eqb_neq in Hodd.
      assert (Hsplit : b ^ e = b ^ (2 * (e / 2))) by (f_equal; lia).
      rewrite Hsplit. reflexivity.
  - assert (e = 0) by (rewrite Z.gtb_ltb, Z.ltb_ge in Hzero; lia).
    subst e. rewrite Z.pow_0_r, Z.mul_1_r. symmetry. apply Z.mod_small. exact Hr.
Qed.

Lemma expmod_spec (base exponent : Z) :
  0 <= base -> 0 <= exponent ->
  expmod base exponent TWO256 = base ^ exponent mod 2 ^ 256.
Proof.
  intros Hb He. unfold expmod. rewrite TWO256_pow.
  change (2 ^ 256 =? 1) with false. cbv iota.
  assert (Hm : 1 < 2 ^ 256) by reflexivity.
  rewrite expmod_loop_spec; try lia.
  - rewrite Z.rem_mod_nonneg by lia. rewrite Z.mul_1_l. symmetry. apply Zpower_mod. lia.
  - rewrite Z.rem_mod_nonneg by lia. apply Z.mod_pos_bound. lia.
Qed.
  (** ** The stack and gas primitives on their good path *)

Lemma useGas_ok (ctx : Ctx.t) (amount : Z) :
  0 <= amount <= gasLeft ctx ->
  useGas amount ctx = (Ok tt, with_gasLeft ctx (gasLeft ctx - amount)).
Proof.
  intros [Hlo Hhi]. unfold useGas.
  destruct (amount <? 0) eqn:E1; [apply Z.ltb_lt in E1; lia |].
  destruct (gasLeft ctx <? amount) eqn:E2; [apply Z.ltb_lt in E2; lia |].
  reflexivity.
Qed.

Lemma pop_cons (ctx : Ctx.t) (v : Value) (rest : list Value) :
  stack ctx = v :: rest -> pop ctx = (Ok v, with_stack ctx rest).
Proof. intros Hs. unfold pop. now rewrite Hs. Qed.

Lemma push_ok (ctx : Ctx.t) (v : Word) :
  len (stack ctx) < 1024 -> isWord v ->
  push (BigInt v) ctx = (Ok tt, with_stack ctx (BigInt v :: stack ctx)).
Proof.
  intros Hlen [Hlo Hhi]. unfold push, outOfRange.
  destruct (len (stack ctx) >=? 1024) eqn:E1; [apply Z.geb_le in E1; lia |].
  destruct (v <? 0) eqn:E2; [apply Z.ltb_lt in E2; lia |].
  destruct (v >? WORD_MASK) eqn:E3.
  - rewrite Z.gtb_ltb in E3. apply Z.ltb_lt in E3. rewrite mask_value in E3. lia.
  - reflexivity.
Qed.

Lemma len_cons {A : Type} (x : A) (l : list A) : len (x :: l) = len l + 1.
Proof. unfold len. simpl List.length. lia. Qed.

(** Gas, two operands off the stack, one result on it. *)
Ltac two_operands Hst Hlen Hgas :=
  unfold bind, Evm.useGasOf;
  match goal with
  | |- context [GAS_COSTS ?op] =>
      let v := eval vm_compute in (GAS_COSTS op) in change (GAS_COSTS op) with v
  end;
  cbv iota;
  rewrite useGas_ok by lia;
  erewrite pop_cons by (simpl; exact Hst);
  erewrite pop_cons by (simpl; reflexivity);
  rewrite Hst in Hlen; simpl app in Hlen; rewrite !len_cons in Hlen.

Lemma binaryOp_pushes (opcode cost : Z) (f : Value -> Value -> M Ctx.t Value)
      (a b r : Word) :
  GAS_COSTS opcode = Some cost -> 0 <= cost ->
  f (BigInt a) (BigInt b) = ret (BigInt r) -> isWord r ->
  pushes (Evm.binaryOp opcode f) cost [a; b] r.
Proof.
  intros Hcost Hnonneg Hf Hres ctx rest Hst Hlen Hgas.
  unfold Evm.binaryOp, bind, Evm.useGasOf. rewrite Hcost.
  rewrite useGas_ok by lia.
  erewrite pop_cons by (simpl; exact Hst).
  erewrite pop_cons by (simpl; reflexivity).
  rewrite Hst in Hlen; simpl app in Hlen; rewrite !len_cons in Hlen.
  rewrite Hf. unfold ret.
  rewrite push_ok; [reflexivity | simpl; lia | exact Hres].
Qed.

Lemma masked_words (f : Z -> Z -> Z) (a b : Word) :
  Evm.masked f (BigInt a) (BigInt b) = ret (BigInt (f a b mod 2 ^ 256)).
Proof. unfold Evm.masked. now rewrite land_mask. Qed.

Lemma atLeast_words (a b : Word) : Evm.atLeast (BigInt a) (BigInt b) = (a >=? b).
Proof. reflexivity. Qed.

Lemma mod_isWord (x : Z) : isWord (x mod 2 ^ 256).
Proof. unfold isWord. apply Z.mod_pos_bound. reflexivity. Qed.

Lemma zero_isWord : isWord 0.
Proof. unfold isWord. split; [lia | reflexivity]. Qed.

Lemma sign_bit (v : Z) :
  isWord v -> (v >=? Z.shiftl 1 255) = Z.testbit v 255.
Proof.
  intros [Hlo Hhi]. change (Z.shiftl 1 255) with (2 ^ 255).
  assert (Hpow : 2 ^ 256 = 2 * 2 ^ 255) by reflexivity.
  assert (Hpos : 0 < 2 ^ 255) by reflexivity.
  destruct (v >=? 2 ^ 255) eqn:E.
  - apply Z.geb_le in E. symmetry. apply Z.testbit_true; [lia |].
    assert (v / 2 ^ 255 = 1); [| now replace (v / 2 ^ 255) with 1].
    symmetry. apply Z.div_unique with (r := v - 2 ^ 255); lia.
  - rewrite Z.geb_leb in E. apply Z.leb_gt in E. symmetry.
    apply Z.bits_above_log2; [lia |].
    destruct (Z.eq_dec v 0) as [-> | Hnz]; [simpl; lia |].
    apply Z.log2_lt_pow2; lia.
Qed.

End EvmFacts.

(** C6.  On 256-bit words: ADD, MUL and SUB leave their result modulo
    [2^256]; DIV and MOD by zero leave zero; SHL and SHR by 256 or more
    leave zero; SAR by 256 or more leaves all ones when bit 255 of the value
    is set and zero when it is not; EXP leaves the power modulo [2^256]. *)
Theorem word_arithmetic (a b : Z) :
  isWord a -> isWord b ->
  pushes Evm.op_ADD 3 [a; b] ((a + b) mod 2 ^ 256)
  /\ pushes Evm.op_MUL 5 [a; b] ((a * b) mod 2 ^ 256)
  /\ pushes Evm.op_SUB 3 [a; b] ((a - b) mod 2 ^ 256)
  /\ pushes Evm.op_DIV 5 [a; 0] 0
  /\ pushes Evm.op_MOD 5 [a; 0] 0
  /\ (256 <= a ->
      pushes Evm.op_SHL 3 [a; b] 0
      /\ pushes Evm.op_SHR 3 [a; b] 0
      /\ pushes Evm.op_SAR 3 [a; b] (if Z.testbit b 255 then 2 ^ 256 - 1 else 0))
  /\ pushes Evm.op_EXP 10 [a; b] (a ^ b mod 2 ^ 256).
Proof.
  intros Ha Hb.
  assert (Hbin : forall opcode cost f,
             GAS_COSTS opcode = Some cost -> 0 <= cost ->
             pushes (Evm.binaryOp opcode (Evm.masked f)) cost [a; b] (f a b mod 2 ^ 256)).
  { intros opcode cost f Hc Hn.
    apply EvmFacts.binaryOp_pushes;
      [exact Hc | exact Hn | apply EvmFacts.masked_words | apply EvmFacts.mod_isWord]. }
  repeat split.
  - apply Hbin; [reflexivity | lia].
  - apply Hbin; [reflexivity | lia].
  - apply Hbin; [reflexivity | lia].
  - apply (@EvmFacts.binaryOp_pushes OPCODES.DIV 5 (Evm.unlessZero Z.quot) a 0 0);
      [reflexivity | lia | reflexivity | apply EvmFacts.zero_isWord].
  - apply (@EvmFacts.binaryOp_pushes OPCODES.MOD 5 (Evm.unlessZero Z.rem) a 0 0);
      [reflexivity | lia | reflexivity | apply EvmFacts.zero_isWord].
  - intros ctx rest Hst Hlen Hgas. unfold Evm.op_SHL.
    EvmFacts.two_operands Hst Hlen Hgas. rewrite EvmFacts.atLeast_words.
    destruct (a >=? 256) eqn:E; [| rewrite Z.geb_leb in E; apply Z.leb_gt in E; lia].
    rewrite EvmFacts.push_ok; [reflexivity | simpl; lia | apply EvmFacts.zero_isWord].
  - intros ctx rest Hst Hlen Hgas. unfold Evm.op_SHR.
    EvmFacts.two_operands Hst Hlen Hgas. rewrite EvmFacts.atLeast_words.
    destruct (a >=? 256) eqn:E; [| rewrite Z.geb_leb in E; apply Z.leb_gt in E; lia].
    rewrite EvmFacts.push_ok; [reflexivity | simpl; lia | apply EvmFacts.zero_isWord].
  - intros ctx rest Hst Hlen Hgas. unfold Evm.op_SAR.
    EvmFacts.two_operands Hst Hlen Hgas. rewrite !EvmFacts.atLeast_words.
    destruct (a >=? 256) eqn:E; [| rewrite Z.geb_leb in E; apply Z.leb_gt in E; lia].
    rewrite (EvmFacts.sign_bit Hb), EvmFacts.mask_value.
    rewrite EvmFacts.push_ok; [reflexivity | simpl; lia |].
    destruct (Z.testbit b 255); [| apply EvmFacts.zero_isWord].
    unfold isWord. split; [apply Z.leb_le | apply Z.ltb_lt]; reflexivity.
  - intros ctx rest Hst Hlen Hgas. unfold Evm.op_EXP.
    EvmFacts.two_operands Hst Hlen Hgas. cbv beta iota.
    rewrite EvmFacts.expmod_spec by (unfold isWord in *; lia).
    rewrite EvmFacts.push_ok; [reflexivity | simpl; lia | apply EvmFacts.mod_isWord].
Qed.

(* ================================================================== *)
(** * The virtual machine: jumps *)
(* ================================================================== *)

Module JumpFacts.
Import Ctx.

Lemma jump_spec (ctx : Ctx.t) (destination : Z) :
  jump destination ctx =
  if validJumpTarget (code ctx) destination
  then (Ok tt, with_pc ctx destination)
  else (Throw (Error "Invalid jump destination"), ctx).
Proof.
  unfold jump, validJumpTarget.
  destruct (destination <? 0) eqn:E1; destruct (0 <=? destination) eqn:E0;
    try (apply Z.ltb_lt in E1; apply Z.leb_le in E0; lia);
    try (apply Z.ltb_ge in E1; apply Z.leb_gt in E0; lia); simpl; [reflexivity |].
  rewrite Z.geb_leb.
  destruct (len (code ctx) <=? destination) eqn:E2;
    destruct (destination <? len (code ctx)) eqn:E3;
    try (apply Z.leb_le in E2; apply Z.ltb_lt in E3; lia);
    try (apply Z.leb_gt in E2; apply Z.ltb_ge in E3; lia); simpl; [reflexivity |].
  destruct (nth (Z.to_nat destination) (code ctx) 0 =? 91); reflexivity.
Qed.

End JumpFacts.

(** C5, as the code has it.  A JUMP, and a JUMPI whose condition is not
    the bigint zero, goes to its target exactly when the target lies inside
    the code and the byte there is [0x5b]; otherwise it throws 'Invalid jump
    destination', which ends the frame without success.  Whether the byte is
    an instruction or PUSH data plays no part. *)
Theorem jump_target_is_checked_by_byte (ctx : Ctx.t) (destination : Z) (rest : list Value) :
  Ctx.stack ctx = BigInt destination :: rest ->
  (8 <= Ctx.gasLeft ctx ->
   Evm.op_JUMP ctx =
   let ctx' := Ctx.with_stack (Ctx.with_gasLeft ctx (Ctx.gasLeft ctx - 8)) rest in
   if validJumpTarget (Ctx.code ctx) destination
   then (Ok tt, Ctx.with_pc ctx' destination)
   else (Throw (Error "Invalid jump destination"), ctx'))
  /\ (forall condition rest',
        rest = condition :: rest' -> condition <> BigInt 0 -> 10 <= Ctx.gasLeft ctx ->
        Evm.op_JUMPI ctx =
        let ctx' := Ctx.with_stack (Ctx.with_gasLeft ctx (Ctx.gasLeft ctx - 10)) rest' in
        if validJumpTarget (Ctx.code ctx) destination
        then (Ok tt, Ctx.with_pc ctx' destination)
        else (Throw (Error "Invalid jump destination"), ctx'))
  /\ (forall maxByteLength fuel,
        8 <= Ctx.gasLeft ctx ->
        Ctx.stopped ctx = false ->
        0 <= Ctx.pc ctx < len (Ctx.code ctx) ->
        nth (Z.to_nat (Ctx.pc ctx)) (Ctx.code ctx) 0 = OPCODES.JUMP ->
        validJumpTarget (Ctx.code ctx) destination = false ->
        fst (Evm.loop maxByteLength (S fuel) ctx) = Throw (Error "Invalid jump destination")).
Proof.
  intros Hst. split; [| split].
  - intros Hgas. unfold Evm.op_JUMP, Evm.popNumber, bind, Evm.useGasOf.
    change (GAS_COSTS OPCODES.JUMP) with (Some 8). cbv iota.
    rewrite EvmFacts.useGas_ok by lia.
    erewrite EvmFacts.pop_cons by (simpl; exact Hst).
    cbn [ret toNumber Ctx.jumpAny]. rewrite JumpFacts.jump_spec. reflexivity.
  - intros condition rest' -> Hcond Hgas.
    unfold Evm.op_JUMPI, Evm.popNumber, bind, Evm.useGasOf.
    change (GAS_COSTS OPCODES.JUMPI) with (Some 10). cbv iota.
    rewrite EvmFacts.useGas_ok by lia.
    erewrite EvmFacts.pop_cons by (simpl; exact Hst).
    cbn [ret toNumber].
    erewrite EvmFacts.pop_cons by (simpl; reflexivity).
    assert (E : isBigZero condition = false).
    { destruct condition as [n | | |]; try reflexivity.
      apply Z.eqb_neq. intros ->. now apply Hcond. }
    rewrite E. cbv [negb]. cbn [Ctx.jumpAny]. rewrite JumpFacts.jump_spec. reflexivity.
  - intros maxByteLength fuel Hgas Hrun Hpc Hop Hbad.
    cbn [Evm.loop]. rewrite Hrun.
    destruct (Ctx.pc ctx <? len (Ctx.code ctx)) eqn:E; [| apply Z.ltb_ge in E; lia].
    cbn [negb andb]. unfold Evm.step, Ctx.getCurrentOpcode.
    destruct (Ctx.pc ctx >=? len (Ctx.code ctx)) eqn:E'; [apply Z.geb_le in E'; lia |].
    rewrite Hop.
    change (Evm.opcodeHandlers maxByteLength OPCODES.JUMP) with (Some Evm.op_JUMP).
    cbv iota. unfold Evm.op_JUMP, Evm.popNumber, bind, Evm.useGasOf.
    change (GAS_COSTS OPCODES.JUMP) with (Some 8). cbv iota.
    rewrite EvmFacts.useGas_ok by lia.
    erewrite EvmFacts.pop_cons by (simpl; exact Hst).
    cbn [ret toNumber Ctx.jumpAny].
    rewrite JumpFacts.jump_spec. cbn [Ctx.code Ctx.with_stack Ctx.with_gasLeft].
    rewrite Hbad. reflexivity.
Qed.

(** C5, read as it is stated, does not hold: the code [PUSH1 4; JUMP;
    PUSH1 0x5b; STOP] jumps to offset 4, which is the operand of a PUSH1, and
    the frame goes on to STOP and succeeds. *)
Lemma jump_into_push_data_is_accepted :
  inPushData Examples.jumpIntoPushData 4 = true
  /\ nth 4 Examples.jumpIntoPushData 0 = 0x5b
  /\ forall maxByteLength,
       fst (Evm.execute maxByteLength Examples.jumpIntoPushData Examples.exampleEnv 100 []
                        emptyWorld)
       = Ok (mkResult true 12 []).
Proof.
  split; [reflexivity |]. split; [reflexivity |].
  intros maxByteLength. reflexivity.
Qed.

(* ================================================================== *)
(** * Computations that always return *)
(* ================================================================== *)


Module ReturnsFacts.

Lemma returns_ret {S A : Type} (a : A) : returns (ret (S := S) a).
Proof. intros s. discriminate. Qed.

Lemma returns_throw {S A : Type} (e : Exn) : returns (throw (S := S) (A := A) e).
Proof. intros s. discriminate. Qed.

Lemma returns_bind {S A B : Type} (c : M S A) (k : A -> M S B) :
  returns c -> (forall a, returns (k a)) -> returns (bind c k).
Proof.
  intros Hc Hk s. unfold bind. specialize (Hc s).
  destruct (c s) as [[a | e |] s']; simpl in *; try discriminate.
  - apply Hk.
  - congruence.
Qed.

(** Induction on a string two characters at a time. *)
Lemma string_pairs_ind (P : string -> Prop) :
  P EmptyString -> (forall c, P (String c EmptyString)) ->
  (forall c1 c2 rest, P rest -> P (String c1 (String c2 rest))) ->
  forall s, P s.
Proof.
  intros Hnil Hone Hstep s.
  assert (Hboth : P s /\ forall c, P (String c s)).
  { induction s as [| c' s [IH1 IH2]]; [split; auto |]. split; [apply IH2 |].
    intros c. now apply Hstep. }
  exact (proj1 Hboth).
Qed.

Lemma returns_parseHexPairs {S : Type} (hex : string) :
  forall pos : Z, returns (parseHexPairs (S := S) pos hex).
Proof.
  induction hex as [| c | c1 c2 rest IH] using string_pairs_ind; intros pos s;
    cbn [parseHexPairs]; try discriminate.
  destruct (parseHexPair c1 c2); [| discriminate].
  specialize (IH (pos + 2) s).
  destruct (parseHexPairs (pos + 2) rest s) as [[bytes | e |] s']; simpl in *;
    congruence.
Qed.

Lemma returns_bigintToBytes {S : Type} (value : Z) (length : nat) :
  returns (bigintToBytes (S := S) value length).
Proof. unfold bigintToBytes, hexToBytes. apply returns_parseHexPairs. Qed.

Lemma returns_serializeTransaction {S : Type} (tx : Tx.t) :
  returns (Serialize.serializeTransaction (S := S) tx).
Proof.
  unfold Serialize.serializeTransaction.
  repeat (apply returns_bind; [apply returns_bigintToBytes | intros ?]).
  apply returns_ret.
Qed.

Lemma returns_calculateTransactionHash {S : Type} (keccak_256 : Bytes -> Bytes) (tx : Tx.t) :
  returns (Serialize.calculateTransactionHash (S := S) keccak_256 tx).
Proof.
  unfold Serialize.calculateTransactionHash.
  apply returns_bind; [apply returns_serializeTransaction | intros ?; apply returns_ret].
Qed.

Lemma returns_serializeBlockHeader {S : Type} (h : Header.t) :
  returns (Serialize.serializeBlockHeader (S := S) h).
Proof.
  unfold Serialize.serializeBlockHeader.
  repeat (apply returns_bind; [apply returns_bigintToBytes | intros ?]).
  apply returns_ret.
Qed.

Lemma returns_calculateBlockHash {S : Type} (keccak_256 : Bytes -> Bytes) (b : Block) :
  returns (Serialize.calculateBlockHash (S := S) keccak_256 b).
Proof.
  unfold Serialize.calculateBlockHash.
  apply returns_bind; [apply returns_serializeBlockHeader | intros ?; apply returns_ret].
Qed.

Lemma returns_concatSerialized {S A : Type} (ser : A -> M S Bytes) (items : list A) :
  (forall x, returns (ser x)) ->
  forall acc, returns (Serialize.concatSerialized ser items acc).
Proof.
  intros Hser. induction items as [| x rest IH]; intros acc; cbn [Serialize.concatSerialized].
  - apply returns_ret.
  - apply returns_bind; [apply Hser | intros bytes; apply IH].
Qed.

Lemma returns_calculateTransactionsRoot {S : Type} (keccak_256 : Bytes -> Bytes)
      (txs : list Tx.t) :
  returns (Serialize.calculateTransactionsRoot (S := S) keccak_256 txs).
Proof.
  unfold Serialize.calculateTransactionsRoot. destruct txs as [| tx rest].
  - apply returns_ret.
  - apply returns_bind; [| intros ?; apply returns_ret].
    apply returns_concatSerialized. intros x. apply returns_serializeTransaction.
Qed.

Lemma returns_typedArraySet {S : Type} (target data : Bytes) (offset : Z) :
  returns (typedArraySet (S := S) target data offset).
Proof.
  unfold typedArraySet.
  destruct (offset + len data >? len target); [apply returns_throw | apply returns_ret].
Qed.

Lemma returns_signBlockHeader {S : Type} (keccak_256 : Bytes -> Bytes) (h : Header.t)
      (signer : Address) :
  returns (PoAConsensus.signBlockHeader (S := S) keccak_256 h signer).
Proof.
  unfold PoAConsensus.signBlockHeader. destruct (Header.number h =? 0).
  - apply returns_ret.
  - apply returns_bind; [apply returns_serializeBlockHeader | intros headerBytes].
    apply returns_bind; [apply returns_typedArraySet | intros ?; apply returns_ret].
Qed.

Lemma returns_serializeReceipt {S : Type} (r : Receipt.t) :
  returns (BlockProcessor.serializeReceipt (S := S) r).
Proof.
  unfold BlockProcessor.serializeReceipt.
  repeat (apply returns_bind; [apply returns_bigintToBytes | intros ?]).
  apply returns_ret.
Qed.

Lemma returns_calculateReceiptsRoot {S : Type} (keccak_256 : Bytes -> Bytes)
      (receipts : list Receipt.t) :
  returns (BlockProcessor.calculateReceiptsRoot (S := S) keccak_256 receipts).
Proof.
  unfold BlockProcessor.calculateReceiptsRoot. destruct receipts as [| r rest].
  - apply returns_ret.
  - apply returns_bind; [| intros ?; apply returns_ret].
    apply returns_concatSerialized. intros x. apply returns_serializeReceipt.
Qed.

Lemma snapshot_returns_id (w : InMemoryWorldState) :
  exists w1, World.snapshot w = (Ok (nextSnapshotId w), w1).
Proof.
  unfold World.snapshot.
  destruct (World.copyEntries (accounts w) (objs w) (objs_next w)) as [[? ?] ?].
  destruct (World.copyEntries (storages w) (maps w) (maps_next w)) as [[? ?] ?].
  eexists. reflexivity.
Qed.

Lemma returns_revert (snapshotId : Z) : returns (World.revert snapshotId).
Proof.
  intros w. unfold World.revert. destruct (JsMap.get snapshotId (snapshots w)); discriminate.
Qed.

Lemma returns_subBalance (addr : Address) (amount : Z) :
  returns (World.subBalance addr amount).
Proof.
  intros w. unfold World.subBalance.
  destruct (amount =? 0); [discriminate |].
  destruct (World.getAccount addr w); [| discriminate].
  destruct (balance (objs w l) <? amount); discriminate.
Qed.

End ReturnsFacts.

(* ================================================================== *)
(** * What a computation leaves related *)
(* ================================================================== *)

Module PreservesFacts.
Section PreservesFacts.
Context {S : Type} (R : S -> S -> Prop) `{!PreOrder R}.

Lemma preserves_ret {A : Type} (a : A) : preserves R (ret a).
Proof. intros s. split; [discriminate | reflexivity]. Qed.

Lemma preserves_throw {A : Type} (e : Exn) : preserves R (throw (A := A) e).
Proof. intros s. split; [discriminate | reflexivity]. Qed.

Lemma preserves_get : preserves R get.
Proof. intros s. split; [discriminate | reflexivity]. Qed.

Lemma preserves_modify (f : S -> S) : (forall s, R s (f s)) -> preserves R (modify f).
Proof. intros Hf s. split; [discriminate | apply Hf]. Qed.

Lemma preserves_bind {A B : Type} (c : M S A) (k : A -> M S B) :
  preserves R c -> (forall a, preserves R (k a)) -> preserves R (bind c k).
Proof.
  intros Hc Hk s. unfold bind. destruct (Hc s) as [Hfuel Hreach].
  destruct (c s) as [[a | e |] s1]; simpl in *.
  - destruct (Hk a s1) as [Hfuel' Hreach']. split; [exact Hfuel' |].
    etransitivity; eassumption.
  - split; [discriminate | exact Hreach].
  - congruence.
Qed.

Lemma preserves_try_catch {A : Type} (c : M S A) (h : Exn -> M S A) :
  preserves R c -> (forall e, preserves R (h e)) -> preserves R (try_catch c h).
Proof.
  intros Hc Hh s. unfold try_catch. destruct (Hc s) as [Hfuel Hreach].
  destruct (c s) as [[a | e |] s1]; simpl in *.
  - split; [discriminate | exact Hreach].
  - destruct (Hh e s1) as [Hfuel' Hreach']. split; [exact Hfuel' |].
    etransitivity; eassumption.
  - congruence.
Qed.

(** A computation that leaves the state as it is preserves every preorder. *)
Lemma preserves_unchanged {A : Type} (c : M S A) : preserves eq c -> preserves R c.
Proof.
  intros Hc s. destruct (Hc s) as [Hfuel Heq]. split; [exact Hfuel |].
  rewrite <- Heq. reflexivity.
Qed.
End PreservesFacts.

Lemma unchanged_parseHexPairs {S : Type} (hex : string) :
  forall pos : Z, preserves eq (parseHexPairs (S := S) pos hex).
Proof.
  induction hex as [| c | c1 c2 rest IH] using ReturnsFacts.string_pairs_ind; intros pos s;
    cbn [parseHexPairs]; try (split; [discriminate | reflexivity]).
  destruct (parseHexPair c1 c2); [| split; [discriminate | reflexivity]].
  destruct (IH (pos + 2) s) as [Hfuel Heq].
  destruct (parseHexPairs (pos + 2) rest s) as [[bytes | e |] s']; simpl in *;
    (split; [congruence | exact Heq]).
Qed.

Lemma unchanged_bigintToBytes {S : Type} (value : Z) (length : nat) :
  preserves eq (bigintToBytes (S := S) value length).
Proof. unfold bigintToBytes, hexToBytes. apply unchanged_parseHexPairs. Qed.

Lemma unchanged_bigintToBytesAny {S : Type} (value : Value) (length : nat) :
  preserves eq (bigintToBytesAny (S := S) value length).
Proof.
  unfold bigintToBytesAny. destruct (toString16Any value).
  - unfold hexToBytes. apply unchanged_parseHexPairs.
  - intros s. split; [discriminate | reflexivity].
Qed.

Lemma unchanged_bytesToBigint {S : Type} (bytes : Bytes) :
  preserves eq (bytesToBigint (S := S) bytes).
Proof. intros s. destruct bytes; (split; [discriminate | reflexivity]). Qed.

End PreservesFacts.

(* ================================================================== *)
(** * The virtual machine changes the world by mutations only, and pays *)
(* ================================================================== *)

Module ReachFacts.

Lemma applyMutations_app (ms1 ms2 : list Mutation) (w : InMemoryWorldState) :
  applyMutations (ms1 ++ ms2) w = applyMutations ms2 (applyMutations ms1 w).
Proof. unfold applyMutations. apply fold_left_app. Qed.

#[global] Instance worldReach_PreOrder : PreOrder worldReach.
Proof.
  split.
  - intros w. exists []. reflexivity.
  - intros w1 w2 w3 [ms1 H1] [ms2 H2]. exists (ms1 ++ ms2).
    rewrite applyMutations_app, <- H1. exact H2.
Qed.

#[global] Instance ctxReach_PreOrder : PreOrder ctxReach.
Proof.
  split.
  - intros ctx. split; [lia | split; [auto | reflexivity]].
  - intros c1 c2 c3 (Hg1 & Hn1 & Hw1) (Hg2 & Hn2 & Hw2).
    split; [lia | split; [auto | etransitivity; eassumption]].
Qed.

Lemma worldReach_one (m : Mutation) (w : InMemoryWorldState) :
  worldReach w (applyMutation m w).
Proof. exists [m]. reflexivity. Qed.

(** A step that keeps gas and world is within [ctxReach]. *)
Lemma ctxReach_same (ctx ctx' : Ctx.t) :
  Ctx.gasLeft ctx' = Ctx.gasLeft ctx -> Ctx.world ctx' = Ctx.world ctx -> ctxReach ctx ctx'.
Proof. intros Hg Hw. split; [lia | split; [lia | rewrite Hw; reflexivity]]. Qed.

(** ** The operations of the execution context *)

Ltac same_ctx :=
  intros ctx;
  repeat match goal with
         | |- context [if ?b then _ else _] => destruct b
         | |- context [match ?x with _ => _ end] => destruct x
         end;
  (split; [discriminate | apply ctxReach_same; reflexivity]).

Lemma preserves_push (value : Value) : preserves ctxReach (Ctx.push value).
Proof. unfold Ctx.push. same_ctx. Qed.

Lemma preserves_pop : preserves ctxReach Ctx.pop.
Proof. unfold Ctx.pop. same_ctx. Qed.

Lemma preserves_swap (index : Z) : preserves ctxReach (Ctx.swap index).
Proof. unfold Ctx.swap. same_ctx. Qed.

Lemma preserves_dup (index : Z) : preserves ctxReach (Ctx.dup index).
Proof.
  intros ctx. unfold Ctx.dup.
  destruct (index >=? len (Ctx.stack ctx)); [| apply preserves_push].
  split; [discriminate | reflexivity].
Qed.

Lemma preserves_useGas (amount : Z) : preserves ctxReach (Ctx.useGas amount).
Proof.
  intros ctx. unfold Ctx.useGas.
  destruct (amount <? 0) eqn:Hneg; [split; [discriminate | reflexivity] |].
  destruct (Ctx.gasLeft ctx <? amount) eqn:Hshort; [split; [discriminate | reflexivity] |].
  apply Z.ltb_ge in Hneg. apply Z.ltb_ge in Hshort.
  split; [discriminate |]. split; [simpl; lia | split; [simpl; lia | reflexivity]].
Qed.

Lemma preserves_jump (destination : Z) : preserves ctxReach (Ctx.jump destination).
Proof. unfold Ctx.jump. same_ctx. Qed.

Lemma preserves_jumpAny (destination : option Z) :
  preserves ctxReach (Ctx.jumpAny destination).
Proof.
  destruct destination; [apply preserves_jump |]. intros ctx.
  split; [discriminate | reflexivity].
Qed.

Lemma preserves_stop (data : Bytes) : preserves ctxReach (Ctx.stop data).
Proof. unfold Ctx.stop, modify. same_ctx. Qed.

Lemma preserves_revert (data : Bytes) : preserves ctxReach (Ctx.revert data).
Proof. unfold Ctx.revert, modify. same_ctx. Qed.

Lemma preserves_readBytes (count : Z) : preserves ctxReach (Ctx.readBytes count).
Proof. unfold Ctx.readBytes. same_ctx. Qed.

Lemma preserves_readPushData : preserves ctxReach Ctx.readPushData.
Proof. unfold Ctx.readPushData, Ctx.readBytes. same_ctx. Qed.

(** Apply a rule of [PreservesFacts]; the preorder is found by instance
    resolution. *)
Tactic Notation "rule" uconstr(lemma) := apply lemma; try exact _.

Section Memory.
Variable maxByteLength : Z.

Lemma preserves_newUint8Array (n : Z) :
  preserves ctxReach (Ctx.newUint8Array maxByteLength n).
Proof. unfold Ctx.newUint8Array, throw, ret. same_ctx. Qed.

Lemma preserves_expandMemory (requiredSize : Z) :
  preserves ctxReach (Ctx.expandMemory maxByteLength requiredSize).
Proof. unfold Ctx.expandMemory, Ctx.newUint8Array, throw, ret. same_ctx. Qed.

Lemma preserves_readMemory (offset size : Z) :
  preserves ctxReach (Ctx.readMemory maxByteLength offset size).
Proof.
  unfold Ctx.readMemory. destruct (size =? 0); [rule PreservesFacts.preserves_ret |].
  rule PreservesFacts.preserves_bind; [apply preserves_expandMemory |].
  intros _ ctx. split; [discriminate | reflexivity].
Qed.

Lemma preserves_writeMemory (offset : Z) (data : Bytes) :
  preserves ctxReach (Ctx.writeMemory maxByteLength offset data).
Proof.
  unfold Ctx.writeMemory.
  destruct (len data =? 0); [rule PreservesFacts.preserves_ret |].
  rule PreservesFacts.preserves_bind; [apply preserves_expandMemory |].
  intros _. rule PreservesFacts.preserves_modify.
  intros ctx. apply ctxReach_same; reflexivity.
Qed.

Lemma preserves_writeMemoryWord (offset : Z) (value : Word) :
  preserves ctxReach (Ctx.writeMemoryWord maxByteLength offset value).
Proof.
  unfold Ctx.writeMemoryWord.
  rule PreservesFacts.preserves_bind.
  - rule PreservesFacts.preserves_unchanged.
    apply PreservesFacts.unchanged_bigintToBytes.
  - intros bytes. apply preserves_writeMemory.
Qed.

Lemma preserves_readMemoryAny (offset size : option Z) :
  preserves ctxReach (Ctx.readMemoryAny maxByteLength offset size).
Proof.
  destruct offset, size; cbn [Ctx.readMemoryAny];
    first [apply preserves_readMemory | rule PreservesFacts.preserves_ret].
Qed.

Lemma preserves_writeMemoryAny (offset : option Z) (data : Bytes) :
  preserves ctxReach (Ctx.writeMemoryAny maxByteLength offset data).
Proof.
  destruct offset; cbn [Ctx.writeMemoryAny]; [apply preserves_writeMemory |].
  destruct (len data =? 0); [rule PreservesFacts.preserves_ret |]. same_ctx.
Qed.

Lemma preserves_writeMemoryWordAny (offset : option Z) (value : Value) :
  preserves ctxReach (Ctx.writeMemoryWordAny maxByteLength offset value).
Proof.
  unfold Ctx.writeMemoryWordAny.
  rule PreservesFacts.preserves_bind; [| intros bytes; apply preserves_writeMemoryAny].
  rule PreservesFacts.preserves_unchanged.
  apply PreservesFacts.unchanged_bigintToBytesAny.
Qed.

(** ** The handlers *)

Lemma preserves_useGasOf (opcode : Z) : preserves ctxReach (Evm.useGasOf opcode).
Proof.
  unfold Evm.useGasOf. destruct (GAS_COSTS opcode); [apply preserves_useGas |].
  rule PreservesFacts.preserves_throw.
Qed.

Lemma preserves_bytesToBigint (bytes : Bytes) :
  preserves ctxReach (bytesToBigint (S := Ctx.t) bytes).
Proof. rule PreservesFacts.preserves_unchanged. apply PreservesFacts.unchanged_bytesToBigint. Qed.

Lemma preserves_popNumber : preserves ctxReach Evm.popNumber.
Proof.
  unfold Evm.popNumber. rule PreservesFacts.preserves_bind; [apply preserves_pop |].
  intros value. rule PreservesFacts.preserves_ret.
Qed.

Lemma preserves_mixedTypes {A : Type} : preserves ctxReach (Evm.mixedTypes (A := A)).
Proof. rule PreservesFacts.preserves_throw. Qed.

Lemma preserves_truth (b : bool) : preserves ctxReach (Evm.truth b).
Proof. rule PreservesFacts.preserves_ret. Qed.

Lemma preserves_getStorageAny (addr : Address) (key : Value) :
  preserves ctxReach (Ctx.onWorld (World.getStorageAny addr key)).
Proof.
  intros ctx. unfold Ctx.onWorld, World.getStorageAny.
  destruct (storageKeyToStringAny key);
    (split; [discriminate | apply ctxReach_same; reflexivity]).
Qed.

Lemma preserves_setStorageAny (addr : Address) (key value : Value) :
  preserves ctxReach (Ctx.onWorld (World.setStorageAny addr key value)).
Proof.
  intros ctx. unfold Ctx.onWorld.
  pose proof (worldReach_one (SetStorage addr key value) (Ctx.world ctx)) as Hreach.
  cbn [applyMutation] in Hreach.
  assert (Hfuel : fst (World.setStorageAny addr key value (Ctx.world ctx)) <> OutOfFuel).
  { unfold World.setStorageAny. destruct (storageKeyToStringAny key); discriminate. }
  destruct (World.setStorageAny addr key value (Ctx.world ctx)) as [r w'].
  split; [exact Hfuel |]. split; [simpl; lia | split; [auto | exact Hreach]].
Qed.

Lemma ctxReach_with_pc (ctx : Ctx.t) (pc : Z) : ctxReach ctx (Ctx.with_pc ctx pc).
Proof. apply ctxReach_same; reflexivity. Qed.

Create HintDb reach.
#[local] Hint Resolve preserves_push preserves_pop preserves_swap preserves_dup
  preserves_useGas preserves_jump preserves_jumpAny preserves_stop preserves_revert
  preserves_readBytes preserves_readPushData preserves_newUint8Array preserves_expandMemory
  preserves_readMemory preserves_writeMemory preserves_writeMemoryWord
  preserves_readMemoryAny preserves_writeMemoryAny preserves_writeMemoryWordAny
  preserves_useGasOf preserves_bytesToBigint preserves_popNumber preserves_mixedTypes
  preserves_truth preserves_getStorageAny preserves_setStorageAny ctxReach_with_pc : reach.

(** Rules first, then the operations from the hint database. *)
Ltac keeps :=
  repeat match goal with
         | |- preserves _ (bind _ _) => rule PreservesFacts.preserves_bind; [| intros ?]
         | |- preserves _ (ret _) => rule PreservesFacts.preserves_ret
         | |- preserves _ (throw _) => rule PreservesFacts.preserves_throw
         | |- preserves _ get => rule PreservesFacts.preserves_get
         | |- preserves _ (modify _) => rule PreservesFacts.preserves_modify; intros ?
         | |- preserves _ (if ?b then _ else _) => destruct b
         | |- preserves _ (match ?x with _ => _ end) => destruct x
         | |- _ => solve [auto with reach]
         end.

Lemma preserves_handler (opcode : Z) (handler : M Ctx.t unit) :
  Evm.opcodeHandlers maxByteLength opcode = Some handler -> preserves ctxReach handler.
Proof.
  unfold Evm.opcodeHandlers.
  destruct ((OPCODES.PUSH1 <=? opcode) && (opcode <=? OPCODES.PUSH32));
    [intros [= <-]; unfold Evm.op_PUSH; keeps |].
  destruct ((OPCODES.DUP1 <=? opcode) && (opcode <=? OPCODES.DUP16));
    [intros [= <-]; unfold Evm.op_DUP; keeps |].
  destruct ((OPCODES.SWAP1 <=? opcode) && (opcode <=? OPCODES.SWAP16));
    [intros [= <-]; unfold Evm.op_SWAP; keeps |].
  destruct opcode as [| p | p]; try discriminate;
    [intros [= <-]; unfold Evm.op_STOP; keeps |].
  do 8 (try (destruct p as [p | p |]; try discriminate));
    intros [= <-];
    unfold Evm.op_ADD, Evm.op_MUL, Evm.op_SUB, Evm.op_DIV, Evm.op_MOD, Evm.op_EXP, Evm.op_LT,
           Evm.op_GT, Evm.op_EQ, Evm.op_ISZERO, Evm.op_AND, Evm.op_OR, Evm.op_XOR, Evm.op_NOT,
           Evm.op_SHL, Evm.op_SHR, Evm.op_SAR, Evm.op_ADDRESS, Evm.op_CALLER,
           Evm.op_CALLVALUE, Evm.op_CALLDATALOAD, Evm.op_CALLDATASIZE, Evm.op_CALLDATACOPY,
           Evm.op_CODESIZE, Evm.op_CODECOPY, Evm.op_POP, Evm.op_MLOAD, Evm.op_MSTORE,
           Evm.op_MSTORE8, Evm.op_SLOAD, Evm.op_SSTORE, Evm.op_JUMP, Evm.op_JUMPI, Evm.op_PC,
           Evm.op_MSIZE, Evm.op_GAS, Evm.op_JUMPDEST, Evm.op_PUSH0, Evm.op_RETURN,
           Evm.op_REVERT, Evm.binaryOp, Evm.masked, Evm.unlessZero, Evm.bitwise;
    keeps.
Qed.

(** ** Every turn pays *)

Lemma pays_useGas (amount : Z) (k : unit -> M Ctx.t unit) :
  1 <= amount -> (forall u, preserves ctxReach (k u)) ->
  pays (bind (Ctx.useGas amount) k).
Proof.
  intros Hcost Hk ctx ctx' Hrun _. unfold bind, Ctx.useGas in Hrun.
  destruct (amount <? 0); [discriminate |].
  destruct (Ctx.gasLeft ctx <? amount) eqn:Hshort; [discriminate |].
  apply Z.ltb_ge in Hshort.
  destruct (Hk tt (Ctx.with_gasLeft ctx (Ctx.gasLeft ctx - amount))) as (_ & Hgas & Hnn & _).
  rewrite Hrun in Hgas, Hnn. simpl in Hgas, Hnn. lia.
Qed.

Lemma pays_useGasOf (opcode amount : Z) (k : unit -> M Ctx.t unit) :
  GAS_COSTS opcode = Some amount -> 1 <= amount ->
  (forall u, preserves ctxReach (k u)) ->
  pays (bind (Evm.useGasOf opcode) k).
Proof.
  intros Hcost Hpos Hk. unfold Evm.useGasOf. rewrite Hcost. now apply pays_useGas.
Qed.

Lemma pays_useGasOf_only (opcode amount : Z) :
  GAS_COSTS opcode = Some amount -> 1 <= amount -> pays (Evm.useGasOf opcode).
Proof.
  intros Hcost Hpos ctx ctx' Hrun _. unfold Evm.useGasOf, Ctx.useGas in Hrun.
  rewrite Hcost in Hrun.
  destruct (amount <? 0); [discriminate |].
  destruct (Ctx.gasLeft ctx <? amount) eqn:Hshort; [discriminate |].
  apply Z.ltb_ge in Hshort. injection Hrun as <-. simpl. lia.
Qed.

Lemma GAS_COSTS_stack_range (opcode : Z) :
  (0x60 <=? opcode) && (opcode <=? 0x7f) = true
  \/ (0x80 <=? opcode) && (opcode <=? 0x8f) = true
  \/ (0x90 <=? opcode) && (opcode <=? 0x9f) = true ->
  GAS_COSTS opcode = Some 3.
Proof.
  intros Hrange. unfold GAS_COSTS.
  destruct ((0x60 <=? opcode) && (opcode <=? 0x7f)) eqn:Hpush; [reflexivity |].
  destruct ((0x80 <=? opcode) && (opcode <=? 0x9f)) eqn:Hdup; [reflexivity |].
  exfalso. apply andb_false_iff in Hdup.
  destruct Hrange as [H | [H | H]]; [discriminate | |];
    apply andb_true_iff in H; destruct H as [H1 H2];
    apply Z.leb_le in H1; apply Z.leb_le in H2;
    (destruct Hdup as [Hd | Hd]; apply Z.leb_gt in Hd; lia).
Qed.

Lemma stops_bind {A B : Type} (c : M Ctx.t A) (k : A -> M Ctx.t B) :
  (forall a, stops (k a)) -> stops (bind c k).
Proof.
  intros Hk ctx b ctx' Hrun. unfold bind in Hrun.
  destruct (c ctx) as [[a | e |] ctx1]; try discriminate.
  exact (Hk a ctx1 b ctx' Hrun).
Qed.

Lemma stops_stop (data : Bytes) : stops (Ctx.stop data).
Proof. intros ctx [] ctx' [= <-]. reflexivity. Qed.

Lemma stops_revert (data : Bytes) : stops (Ctx.revert data).
Proof. intros ctx [] ctx' [= <-]. reflexivity. Qed.

Lemma pays_of_stops (h : M Ctx.t unit) : stops h -> pays h.
Proof. intros Hstops ctx ctx' Hrun Hgo. rewrite (Hstops ctx tt ctx' Hrun) in Hgo. discriminate. Qed.

Ltac stopping :=
  apply pays_of_stops;
  repeat (apply stops_bind; intros ?);
  first [apply stops_stop | apply stops_revert].

Ltac paying :=
  first [ eapply pays_useGasOf_only; [reflexivity | lia]
        | eapply pays_useGasOf; [reflexivity | lia | intros ?; keeps]
        | apply pays_useGas; [lia | intros ?; keeps]
        | stopping ].

Lemma pays_handler (opcode : Z) (handler : M Ctx.t unit) :
  Evm.opcodeHandlers maxByteLength opcode = Some handler -> pays handler.
Proof.
  unfold Evm.opcodeHandlers, OPCODES.PUSH1, OPCODES.PUSH32, OPCODES.DUP1, OPCODES.DUP16,
         OPCODES.SWAP1, OPCODES.SWAP16.
  destruct ((0x60 <=? opcode) && (opcode <=? 0x7f)) eqn:Hpush.
  { intros [= <-]. unfold Evm.op_PUSH.
    eapply pays_useGasOf; [apply GAS_COSTS_stack_range; auto | lia | intros ?; keeps]. }
  destruct ((0x80 <=? opcode) && (opcode <=? 0x8f)) eqn:Hdup.
  { intros [= <-]. unfold Evm.op_DUP.
    eapply pays_useGasOf; [apply GAS_COSTS_stack_range; auto | lia | intros ?; keeps]. }
  destruct ((0x90 <=? opcode) && (opcode <=? 0x9f)) eqn:Hswap.
  { intros [= <-]. unfold Evm.op_SWAP.
    eapply pays_useGasOf; [apply GAS_COSTS_stack_range; auto | lia | intros ?; keeps]. }
  clear Hpush Hdup Hswap.
  destruct opcode as [| p | p]; try discriminate;
    [intros [= <-]; unfold Evm.op_STOP; stopping |].
  do 8 (try (destruct p as [p | p |]; try discriminate));
    intros [= <-];
    unfold Evm.op_ADD, Evm.op_MUL, Evm.op_SUB, Evm.op_DIV, Evm.op_MOD, Evm.op_EXP, Evm.op_LT,
           Evm.op_GT, Evm.op_EQ, Evm.op_ISZERO, Evm.op_AND, Evm.op_OR, Evm.op_XOR, Evm.op_NOT,
           Evm.op_SHL, Evm.op_SHR, Evm.op_SAR, Evm.op_ADDRESS, Evm.op_CALLER,
           Evm.op_CALLVALUE, Evm.op_CALLDATALOAD, Evm.op_CALLDATASIZE, Evm.op_CALLDATACOPY,
           Evm.op_CODESIZE, Evm.op_CODECOPY, Evm.op_POP, Evm.op_MLOAD, Evm.op_MSTORE,
           Evm.op_MSTORE8, Evm.op_SLOAD, Evm.op_SSTORE, Evm.op_JUMP, Evm.op_JUMPI, Evm.op_PC,
           Evm.op_MSIZE, Evm.op_GAS, Evm.op_JUMPDEST, Evm.op_PUSH0, Evm.op_RETURN,
           Evm.op_REVERT, Evm.binaryOp, Evm.masked, Evm.unlessZero, Evm.bitwise;
    paying.
Qed.

(** ** The loop *)

Lemma preserves_step : preserves ctxReach (Evm.step maxByteLength).
Proof.
  intros ctx. unfold Evm.step.
  destruct (Evm.opcodeHandlers maxByteLength (Ctx.getCurrentOpcode ctx)) as [handler |] eqn:Hh.
  - destruct (preserves_handler _ Hh ctx) as [Hfuel Hreach].
    destruct (handler ctx) as [[[] | e |] ctx1]; simpl in *; try congruence.
    + match goal with |- context [if ?b then _ else _] => destruct b end;
        (split; [discriminate |]); simpl; [| exact Hreach].
      etransitivity; [exact Hreach | apply ctxReach_with_pc].
    + split; [discriminate | exact Hreach].
  - split; [discriminate | apply ctxReach_same; reflexivity].
Qed.

Lemma step_pays (ctx ctx' : Ctx.t) :
  Evm.step maxByteLength ctx = (Ok true, ctx') -> Ctx.stopped ctx' = false ->
  0 <= Ctx.gasLeft ctx' /\ Ctx.gasLeft ctx' + 1 <= Ctx.gasLeft ctx.
Proof.
  unfold Evm.step.
  destruct (Evm.opcodeHandlers maxByteLength (Ctx.getCurrentOpcode ctx)) as [handler |] eqn:Hh;
    [| discriminate].
  pose proof (pays_handler _ Hh ctx) as Hpays.
  destruct (handler ctx) as [[[] | e |] ctx1]; try discriminate.
  specialize (Hpays ctx1 eq_refl).
  match goal with |- context [if ?b then _ else _] => destruct b end;
    intros [= <-]; simpl; exact Hpays.
Qed.

Lemma loop_reach (fuel : nat) :
  forall ctx, ctxReach ctx (snd (Evm.loop maxByteLength fuel ctx)).
Proof.
  induction fuel as [| fuel IH]; intros ctx; cbn [Evm.loop];
    destruct (negb (Ctx.stopped ctx) && (Ctx.pc ctx <? len (Ctx.code ctx)));
    try reflexivity.
  destruct (preserves_step ctx) as [_ Hreach].
  destruct (Evm.step maxByteLength ctx) as [[[|] | e |] ctx1]; simpl in *; try exact Hreach.
  etransitivity; [exact Hreach | apply IH].
Qed.

(** [gasLeft + 1] turns are enough. *)
Lemma loop_stopped (fuel : nat) (ctx : Ctx.t) :
  Ctx.stopped ctx = true -> Evm.loop maxByteLength fuel ctx = (Ok tt, ctx).
Proof. intros Hstopped. destruct fuel; cbn [Evm.loop]; rewrite Hstopped; reflexivity. Qed.

Lemma loop_turn (fuel : nat) (ctx : Ctx.t) :
  (forall ctx1, 0 <= Ctx.gasLeft ctx1 -> Ctx.gasLeft ctx1 + 1 <= Ctx.gasLeft ctx ->
                fst (Evm.loop maxByteLength fuel ctx1) <> OutOfFuel) ->
  fst (Evm.loop maxByteLength (S fuel) ctx) <> OutOfFuel.
Proof.
  intros Hnext. cbn [Evm.loop].
  destruct (negb (Ctx.stopped ctx) && (Ctx.pc ctx <? len (Ctx.code ctx))); [| discriminate].
  destruct (preserves_step ctx) as [Hfuel _].
  pose proof (step_pays ctx) as Hpays.
  destruct (Evm.step maxByteLength ctx) as [[[|] | e |] ctx1];
    try discriminate; try (simpl in Hfuel; congruence).
  destruct (Ctx.stopped ctx1) eqn:Hstopped;
    [rewrite loop_stopped by exact Hstopped; discriminate |].
  destruct (Hpays ctx1 eq_refl Hstopped) as [Hnn Hless]. now apply Hnext.
Qed.

Lemma loop_returns (fuel : nat) :
  forall ctx, Ctx.gasLeft ctx < Z.of_nat (S fuel) ->
              fst (Evm.loop maxByteLength (S fuel) ctx) <> OutOfFuel.
Proof.
  induction fuel as [| fuel IH]; intros ctx Hgas; apply loop_turn; intros ctx1 Hnn Hless.
  - simpl in Hgas. lia.
  - apply IH. rewrite Nat2Z.inj_succ in *. lia.
Qed.

(** [execute] always returns, and what it does to the world a client could
    have done. *)
Lemma preserves_execute (code : Bytes) (env : Env.t) (gasLimit : Z) (calldata : Bytes) :
  preserves worldReach (Evm.execute maxByteLength code env gasLimit calldata).
Proof.
  intros world. unfold Evm.execute.
  assert (Hfuel : fst (Evm.loop maxByteLength (S (Z.to_nat gasLimit))
                                (Ctx.new code world env gasLimit calldata)) <> OutOfFuel).
  { apply loop_returns. rewrite Nat2Z.inj_succ. cbn [Ctx.new Ctx.gasLeft].
    destruct (Z_lt_le_dec gasLimit 0); [lia |]. rewrite Z2Nat.id; lia. }
  pose proof (loop_reach (S (Z.to_nat gasLimit)) (Ctx.new code world env gasLimit calldata))
    as (_ & _ & Hreach).
  destruct (Evm.loop maxByteLength (S (Z.to_nat gasLimit))
                     (Ctx.new code world env gasLimit calldata)) as [[[] | e |] ctx'];
    [split; [discriminate | exact Hreach] .. |].
  exfalso. apply Hfuel. reflexivity.
Qed.
End Memory.
End ReachFacts.

(* ================================================================== *)
(** * The transaction executor after a failed execution *)
(* ================================================================== *)


Module ObservableFacts.

Lemma get_map_snd {A B : Type} (f : A -> B) (k : string) (m : list (string * A)) :
  JsMap.get k (map (fun e => (fst e, f (snd e))) m) = option_map f (JsMap.get k m).
Proof.
  induction m as [| [k' a] m IH]; simpl; [reflexivity |].
  destruct (String.eqb k k'); [reflexivity | exact IH].
Qed.

(** What [getAccount] finds is decided by what can be observed. *)
Lemma account_observable (addr : Address) (w : InMemoryWorldState) :
  option_map (objs w) (World.getAccount addr w)
  = JsMap.get (World.addressToKey addr) (World.observableAccounts w).
Proof. unfold World.getAccount, World.observableAccounts. now rewrite get_map_snd. Qed.

Lemma getNonce_observable (addr : Address) (w w' : InMemoryWorldState) :
  World.observable w' = World.observable w -> World.getNonce addr w' = World.getNonce addr w.
Proof.
  intros [= Hacc _]. pose proof (account_observable addr w) as H.
  pose proof (account_observable addr w') as H'. rewrite Hacc, <- H in H'.
  unfold World.getNonce.
  destruct (World.getAccount addr w), (World.getAccount addr w'); simpl in H';
    congruence.
Qed.

Lemma getBalance_observable (addr : Address) (w w' : InMemoryWorldState) :
  World.observable w' = World.observable w ->
  World.getBalance addr w' = World.getBalance addr w.
Proof.
  intros [= Hacc _]. pose proof (account_observable addr w) as H.
  pose proof (account_observable addr w') as H'. rewrite Hacc, <- H in H'.
  unfold World.getBalance.
  destruct (World.getAccount addr w), (World.getAccount addr w'); simpl in H';
    congruence.
Qed.

(** A snapshot, any changes a client can make, and the way back. *)
Lemma revert_after_reach (w : InMemoryWorldState) :
  wellFormed w ->
  exists w1,
    World.snapshot w = (Ok (nextSnapshotId w), w1)
    /\ forall w2, worldReach w1 w2 ->
         exists w3, World.revert (nextSnapshotId w) w2 = (Ok tt, w3)
                    /\ World.observable w3 = World.observable w.
Proof.
  intros Hwf.
  destruct (WorldFacts.snapshot_spec Hwf)
    as (w1 & snap & Hsnap & Hget & Hframe & Ha & Hs & Hva & Hvs & _).
  exists w1. split; [exact Hsnap |]. intros w2 [ms ->].
  pose proof (WorldFacts.framed_applyMutations ms Hframe) as Hframe'.
  destruct (@WorldFacts.revert_restores _ _ _ _ w1 _ (nextSnapshotId w) snap
              Hframe' Hget Ha Hs) as (w3 & Hrev & Hobs).
  exists w3. split; [exact Hrev |]. rewrite Hobs, Hva, Hvs. reflexivity.
Qed.
End ObservableFacts.

Module ExecutorFacts.
Section ExecutorFacts.
Variable maxByteLength : Z.
Variable generateContractAddress : Address -> Z -> Address.
Import TransactionExecutor.

Tactic Notation "rule" uconstr(lemma) := apply lemma; try exact _.

Lemma preserves_validateTransaction (tx : Tx.t) :
  preserves worldReach (validateTransaction tx).
Proof.
  rule PreservesFacts.preserves_unchanged. intros w. unfold validateTransaction.
  repeat match goal with
         | |- context [if ?b then _ else _] => destruct b
         | |- context [match ?x with _ => _ end] => destruct x
         end; (split; [discriminate | reflexivity]).
Qed.

Lemma preserves_subBalance (addr : Address) (amount : Z) :
  preserves worldReach (World.subBalance addr amount).
Proof.
  intros w. split; [apply ReturnsFacts.returns_subBalance |].
  apply (ReachFacts.worldReach_one (SubBalance addr amount)).
Qed.

Lemma reach_addBalance (addr : Address) (amount : Z) (w : InMemoryWorldState) :
  worldReach w (World.addBalance addr amount w).
Proof. apply (ReachFacts.worldReach_one (AddBalance addr amount)). Qed.

Lemma reach_incrementNonce (addr : Address) (w : InMemoryWorldState) :
  worldReach w (World.incrementNonce addr w).
Proof. apply (ReachFacts.worldReach_one (IncrementNonce addr)). Qed.

Lemma reach_putAccount (account : Account) (w : InMemoryWorldState) :
  worldReach w (World.putAccount account w).
Proof. apply (ReachFacts.worldReach_one (PutAccount account)). Qed.

Lemma reach_setCode (addr : Address) (c : Bytes) (w : InMemoryWorldState) :
  worldReach w (World.setCode addr c w).
Proof. apply (ReachFacts.worldReach_one (SetCode addr c)). Qed.

Create HintDb world.
#[local] Hint Resolve preserves_validateTransaction preserves_subBalance reach_addBalance
  reach_incrementNonce reach_putAccount reach_setCode ReachFacts.preserves_execute : world.

Ltac keeps_world :=
  repeat match goal with
         | |- preserves _ (bind _ _) => rule PreservesFacts.preserves_bind; [| intros ?]
         | |- preserves _ (ret _) => rule PreservesFacts.preserves_ret
         | |- preserves _ (throw _) => rule PreservesFacts.preserves_throw
         | |- preserves _ get => rule PreservesFacts.preserves_get
         | |- preserves _ (modify _) => rule PreservesFacts.preserves_modify; intros ?
         | |- preserves _ (if ?b then _ else _) => destruct b
         | |- preserves _ (match ?x with _ => _ end) => destruct x
         | |- _ => solve [auto with world]
         end.

Lemma preserves_executeCreate (tx : Tx.t) (env : Env.t) :
  preserves worldReach (executeCreate maxByteLength generateContractAddress tx env).
Proof. unfold executeCreate. keeps_world. Qed.

Lemma preserves_executeCall (tx : Tx.t) (env : Env.t) :
  preserves worldReach (executeCall maxByteLength tx env).
Proof. unfold executeCall. keeps_world. Qed.

Lemma tryOutcome_bind {A : Type} (w1 : InMemoryWorldState) (snapshotId : Z)
      (c : M InMemoryWorldState A) (k : A -> M InMemoryWorldState ExecutionResult) :
  preserves worldReach c ->
  (forall a w, worldReach w1 w -> tryOutcome w1 snapshotId (k a w)) ->
  forall w, worldReach w1 w -> tryOutcome w1 snapshotId (bind c k w).
Proof.
  intros Hc Hk w Hw. unfold bind. destruct (Hc w) as [Hfuel Hreach].
  destruct (c w) as [[a | e |] w']; simpl in *.
  - apply Hk. etransitivity; eassumption.
  - etransitivity; eassumption.
  - congruence.
Qed.

Lemma revert_throws_unchanged (snapshotId : Z) (w w' : InMemoryWorldState) (e : Exn) :
  World.revert snapshotId w = (Throw e, w') -> w' = w.
Proof.
  unfold World.revert. destruct (JsMap.get snapshotId (snapshots w)); [discriminate |].
  intros [= _ <-]. reflexivity.
Qed.

Lemma executeTransaction_try_outcome (tx : Tx.t) (block_number block_timestamp : Z)
      (block_coinbase : Address) (block_gasLimit chainId snapshotId : Z)
      (w1 : InMemoryWorldState) :
  tryOutcome w1 snapshotId
    (executeTransaction_try maxByteLength generateContractAddress tx block_number
       block_timestamp block_coinbase block_gasLimit chainId snapshotId w1).
Proof.
  unfold executeTransaction_try.
  assert (Hstart : worldReach w1 w1) by reflexivity. revert Hstart. generalize w1 at 2 4.
  apply tryOutcome_bind; [keeps_world |]. intros _.
  apply tryOutcome_bind; [keeps_world |]. intros _.
  apply tryOutcome_bind; [keeps_world |]. intros _.
  apply tryOutcome_bind; [keeps_world |]. intros _.
  apply tryOutcome_bind;
    [destruct (Tx.to tx); [apply preserves_executeCall | apply preserves_executeCreate] |].
  intros result.
  apply tryOutcome_bind; [keeps_world |]. intros _ w2 Hw2.
  unfold bind, modify, ret.
  destruct (success result) eqn:Hsuccess; simpl.
  - exists w2. rewrite Hsuccess. split; [exact Hw2 | reflexivity].
  - destruct (World.revert snapshotId w2) as [[[] | e |] w3] eqn:Hrevert; simpl.
    + exists w2. rewrite Hsuccess. split; [exact Hw2 | exact Hrevert].
    + apply revert_throws_unchanged in Hrevert. subst w3. exact Hw2.
    + exact (ReturnsFacts.returns_revert snapshotId w2 (f_equal fst Hrevert)).
Qed.
End ExecutorFacts.
End ExecutorFacts.

(** C1 does not hold of [executeTransaction].  Whatever the transaction
    and the world, the executor returns a result; and when that result is a
    failure, the world reads as it did before the call: the sender's nonce
    and balance are what they were, so neither the nonce increment nor any
    payment for gas survives the failure. *)
Theorem failed_execution_charges_nothing
        (maxByteLength : Z) (generateContractAddress : Address -> Z -> Address)
        (tx : Tx.t) (block_number block_timestamp : Z) (block_coinbase : Address)
        (block_gasLimit chainId : Z) (w : InMemoryWorldState) :
  wellFormed w ->
  exists result w',
    TransactionExecutor.executeTransaction maxByteLength generateContractAddress tx
      block_number block_timestamp block_coinbase block_gasLimit chainId w
    = (Ok result, w')
    /\ (success result = false ->
        World.observable w' = World.observable w
        /\ World.getNonce (Tx.from tx) w' = World.getNonce (Tx.from tx) w
        /\ World.getBalance (Tx.from tx) w' = World.getBalance (Tx.from tx) w).
Proof.
  intros Hwf. destruct (ObservableFacts.revert_after_reach Hwf) as (w1 & Hsnap & Hback).
  unfold TransactionExecutor.executeTransaction. unfold bind at 1. rewrite Hsnap.
  unfold try_catch.
  pose proof (ExecutorFacts.executeTransaction_try_outcome maxByteLength
                generateContractAddress tx block_number block_timestamp block_coinbase
                block_gasLimit chainId (nextSnapshotId w) w1) as Hout.
  destruct (TransactionExecutor.executeTransaction_try maxByteLength generateContractAddress
              tx block_number block_timestamp block_coinbase block_gasLimit chainId
              (nextSnapshotId w) w1) as [[result | e |] w2]; simpl in Hout.
  - destruct Hout as (w2' & Hreach & Hend). exists result, w2. split; [reflexivity |].
    intros Hfail. rewrite Hfail in Hend.
    destruct (Hback w2' Hreach) as (w3 & Hrev & Hobs).
    rewrite Hrev in Hend. injection Hend as <-.
    split; [exact Hobs |].
    split; [now apply ObservableFacts.getNonce_observable
           | now apply ObservableFacts.getBalance_observable].
  - destruct (Hback w2 Hout) as (w3 & Hrev & Hobs).
    exists (mkResult false (Tx.gasLimit tx) []), w3.
    split; [unfold bind; rewrite Hrev; reflexivity |]. intros _.
    split; [exact Hobs |].
    split; [now apply ObservableFacts.getNonce_observable
           | now apply ObservableFacts.getBalance_observable].
  - contradiction.
Qed.

(** The 'revert isolation' call: it passes validation, the VM reverts after
    using 20012 units of gas, and the sender's nonce is still 0 and the
    balance still 1000000. *)
Lemma reverting_call_charges_nothing :
  forall (maxByteLength : Z) (generateContractAddress : Address -> Z -> Address),
    let run := TransactionExecutor.executeTransaction maxByteLength generateContractAddress
                 Examples.callTx 1 1 (zeros 20) 30000000 1 Examples.world0 in
    fst (TransactionExecutor.validateTransaction Examples.callTx Examples.world0)
      = Ok tt
    /\ fst run = Ok (mkResult false 20012 [])
    /\ World.getNonce Examples.alice (snd run) = 0
    /\ World.getBalance Examples.alice (snd run) = 1000000
    /\ World.getStorage Examples.contract 0 (snd run) = 0
    /\ World.observable (snd run) = World.observable Examples.world0.
Proof.
  intros maxByteLength generateContractAddress run.
  repeat split; reflexivity.
Qed.

(* ================================================================== *)
(** * Header serialisation and back *)
(* ================================================================== *)

Module HeaderFacts.

(** The decoder hands back ten fields, so [fields[10]], the [extraData] of
    the header it builds, is [undefined] whatever the input was. *)
Lemma decoded_extraData_undefined {S : Type} (data : Bytes) (d : DecodedHeader) (st st' : S) :
  Serialize.deserializeBlockHeader data st = (Ok d, st') -> d_extraData d = None.
Proof.
  unfold Serialize.deserializeBlockHeader, Serialize.decodeRLPList, bind.
  destruct data as [| b0 rest]; [discriminate |].
  destruct (b0 >=? 0xc0); [| discriminate].
  cbn [Serialize.fieldSizes removelast Serialize.sliceFields ret app nth_error].
  repeat match goal with
         | |- context [Serialize.fieldToBigint ?f ?s] =>
             destruct (Serialize.fieldToBigint f s) as [[? | ? |] ?]; try discriminate
         end.
  intros [= <- _]. reflexivity.
Qed.

(** So no header at all comes back from its own serialisation. *)
Lemma round_trip_never_holds {S : Type} (h : Header.t) (bytes : Bytes) (st : S) :
  fst (Serialize.deserializeBlockHeader bytes st) <> Ok (decodedOf h).
Proof.
  destruct (Serialize.deserializeBlockHeader bytes st) as [[d | e |] st'] eqn:Hd;
    simpl; try discriminate.
  intros [= ->]. apply decoded_extraData_undefined in Hd. discriminate.
Qed.

End HeaderFacts.

(** C8 does not hold of [deserializeBlockHeader]: the genesis header
    serialises to 279 bytes with the prefix [0xf9 0x01 0x14], the decoder
    takes [0xf9 - 0xc0 = 57] bytes after the first byte as the whole list,
    the third field comes out empty, and [bytesToBigint] throws on it.  And
    for no header does the decoder return the header that was encoded. *)
Theorem header_round_trip_throws :
  (exists bytes : Bytes,
      Serialize.serializeBlockHeader Examples.genesisHeader tt = (Ok bytes, tt)
      /\ len bytes = 279
      /\ firstn 3 bytes = [0xf9; 0x01; 0x14]
      /\ Serialize.deserializeBlockHeader bytes tt
         = (Throw (SyntaxError "Cannot convert 0x to a BigInt"), tt))
  /\ forall (h : Header.t) (bytes : Bytes),
       fst (Serialize.serializeBlockHeader h tt) = Ok bytes ->
       fst (Serialize.deserializeBlockHeader bytes tt) <> Ok (decodedOf h).
Proof.
  split.
  - eexists. split; [vm_compute; reflexivity |].
    split; [reflexivity |]. split; [reflexivity |].
    vm_compute. reflexivity.
  - intros h bytes _. apply HeaderFacts.round_trip_never_holds.
Qed.

(* ================================================================== *)
(** * Fork choice *)
(* ================================================================== *)

Module ForkFacts.

Lemma shouldReorg_by_number_only (newBlock currentTip : Block) :
  Header.number (header newBlock) = Header.number (header currentTip) + 1 ->
  PoAConsensus.shouldReorg newBlock currentTip = mkForkChoice Extend None None.
Proof.
  intros Hnum. unfold PoAConsensus.shouldReorg. rewrite Hnum.
  destruct (Header.number (header currentTip) + 1 <=? Header.number (header currentTip))
    eqn:E1; [apply Z.leb_le in E1; lia |].
  destruct (Header.number (header currentTip) + 1 >? Header.number (header currentTip) + 1)
    eqn:E2; [rewrite Z.gtb_ltb in E2; apply Z.ltb_lt in E2; lia |].
  reflexivity.
Qed.
End ForkFacts.

(** C3 does not hold of [shouldReorg]: it never looks at [parentHash].  Two
    blocks one above the tip that name different parents are both answered
    with 'extend', whatever the hash of the tip's header is; at most one of
    them can name the tip. *)
Theorem shouldReorg_extends_any_parent :
  forall hashOfHeader : Header.t -> Hash,
    action (PoAConsensus.shouldReorg (Examples.childOf (zeros 32)) Examples.tip) = Extend
    /\ action (PoAConsensus.shouldReorg (Examples.childOf (repeat 1 32)) Examples.tip) = Extend
    /\ (Header.parentHash (header (Examples.childOf (zeros 32)))
          <> hashOfHeader (header Examples.tip)
        \/ Header.parentHash (header (Examples.childOf (repeat 1 32)))
          <> hashOfHeader (header Examples.tip)).
Proof.
  intros hashOfHeader. split; [reflexivity |]. split; [reflexivity |].
  destruct (list_eq_dec Z.eq_dec (hashOfHeader (header Examples.tip)) (zeros 32)) as [E | E].
  - right. rewrite E. discriminate.
  - left. intros Heq. apply E. symmetry. exact Heq.
Qed.

(* ================================================================== *)
(** * The pool only shrinks under [removeTransactions] *)
(* ================================================================== *)

Module PoolShrinks.
Import Pool.

Lemma promote_step (h : string) (p : TransactionPool) :
  incl (poolHashes
          (match JsMap.get h (queued p) with
           | Some tx => with_pending (with_queued p (JsMap.delete h (queued p)))
                                     (JsMap.set h tx (pending p))
           | None => p
           end))
       (poolHashes p).
Proof.
  destruct (JsMap.get h (queued p)) as [tx |] eqn:Hg; [| apply incl_refl].
  unfold poolHashes. simpl. intros x Hx. apply in_app_or in Hx.
  apply in_or_app. destruct Hx as [Hx | Hx].
  - apply JsMapFacts.keys_set in Hx. destruct Hx as [<- | Hx]; [| now left].
    right. eapply JsMapFacts.get_keys; eauto.
  - right. eapply JsMapFacts.keys_delete; eauto.
Qed.

Lemma promote_shrinks (sender_ : Address) (p : TransactionPool) :
  incl (poolHashes (promoteQueuedTransactions sender_ p)) (poolHashes p).
Proof.
  unfold promoteQueuedTransactions.
  generalize (map hash
                (filter (fun tx => JsMap.has (hash tx) (queued p)
                                   && (nonce tx =? getCurrentNonce sender_ p))
                        (accountTxsOf (bytesToHex sender_) p))).
  intros toPromote. revert p.
  induction toPromote as [| h hs IH]; intros p; simpl; [apply incl_refl |].
  eapply incl_tran; [apply IH | apply promote_step].
Qed.

Lemma removeTransaction_shrinks (h : string) (p : TransactionPool) :
  incl (poolHashes (removeTransaction h p)) (poolHashes p).
Proof.
  unfold removeTransaction.
  destruct (match JsMap.get h (pending p) with
            | Some tx => Some tx
            | None => JsMap.get h (queued p)
            end) as [tx |]; [| apply incl_refl].
  eapply incl_tran; [apply promote_shrinks |].
  unfold poolHashes. simpl.
  apply incl_app; [apply incl_appl | apply incl_appr]; apply JsMapFacts.keys_delete.
Qed.

Lemma removeTransactions_shrinks (hashes : list string) (p : TransactionPool) :
  incl (poolHashes (removeTransactions hashes p)) (poolHashes p).
Proof.
  unfold removeTransactions. revert p.
  induction hashes as [| h hs IH]; intros p; simpl; [apply incl_refl |].
  eapply incl_tran; [apply IH | apply removeTransaction_shrinks].
Qed.
End PoolShrinks.

(* ================================================================== *)
(** * Reorganisation *)
(* ================================================================== *)

Module ReorgFacts.
Section ReorgFacts.
Import BlockchainManager.
Variables (Storage Consensus : Type).
Variable getChainTip : M Storage (option Block).
Variable deleteBlock : string -> M Storage unit.
Variable getBlock : string -> M Storage (option Block).
Variable storeBlock : Block -> M Storage unit.
Variable updateValidatorState : Block -> M Consensus unit.
Variable calculateBlockHash : Block -> Res string.
Variable calculateTransactionHash : Tx.t -> Res string.

Let State := BlockchainManager.State Storage Consensus.
Local Abbreviation shrinks := (@poolShrinks Storage Consensus _).


Lemma shrinks_ret {A : Type} (a : A) : shrinks (ret a).
Proof. intros s. apply incl_refl. Qed.

Lemma shrinks_throw {A : Type} (e : Exn) : shrinks (throw (A := A) e).
Proof. intros s. apply incl_refl. Qed.

Lemma shrinks_bind {A B : Type} (c : M State A) (k : A -> M State B) :
  shrinks c -> (forall a, shrinks (k a)) -> shrinks (bind c k).
Proof.
  intros Hc Hk s. unfold bind. specialize (Hc s).
  destruct (c s) as [[a | e |] s']; simpl in *; auto.
  eapply incl_tran; [apply Hk | exact Hc].
Qed.

Lemma shrinks_liftStorage {A : Type} (c : M Storage A) : shrinks (liftStorage (Consensus := Consensus) c).
Proof. intros s. unfold liftStorage. destruct (c (storage s)). apply incl_refl. Qed.

Lemma shrinks_liftConsensus {A : Type} (c : M Consensus A) : shrinks (liftConsensus (Storage := Storage) c).
Proof. intros s. unfold liftConsensus. destruct (c (consensus s)). apply incl_refl. Qed.

Lemma shrinks_liftRes {A : Type} (r : Res A) : shrinks (liftRes (Storage := Storage) (Consensus := Consensus) r).
Proof. intros s. apply incl_refl. Qed.

Lemma shrinks_hashAll (txs : list Tx.t) :
  shrinks (hashAll (Storage := Storage) (Consensus := Consensus) calculateTransactionHash txs).
Proof.
  induction txs as [| tx rest IH]; simpl; [apply shrinks_ret |].
  apply shrinks_bind; [apply shrinks_liftRes |]. intros h.
  apply shrinks_bind; [exact IH |]. intros hs. apply shrinks_ret.
Qed.

Lemma shrinks_removeFromPool (txs : list Tx.t) :
  shrinks (removeFromPool (Storage := Storage) (Consensus := Consensus)
                          calculateTransactionHash txs).
Proof.
  unfold removeFromPool. apply shrinks_bind; [apply shrinks_hashAll |].
  intros hashes s. simpl. apply PoolShrinks.removeTransactions_shrinks.
Qed.

Lemma shrinks_walkBack (fuel : nat) :
  forall currentBlock ancestor,
    shrinks (walkBack deleteBlock getBlock calculateBlockHash calculateTransactionHash
                      (Consensus := Consensus) fuel currentBlock ancestor).
Proof.
  induction fuel as [| fuel IH]; intros currentBlock ancestor; simpl;
    destruct (Header.number (header currentBlock) >? Header.number (header ancestor));
    try apply shrinks_ret.
  - intros s. apply incl_refl.
  - apply shrinks_bind; [apply shrinks_liftRes |]. intros blockHash.
    apply shrinks_bind; [apply shrinks_liftStorage |]. intros _.
    apply shrinks_bind; [apply shrinks_removeFromPool |]. intros _.
    apply shrinks_bind; [apply shrinks_liftRes |]. intros parentHash.
    apply shrinks_bind; [apply shrinks_liftStorage |]. intros parentBlock.
    apply IH.
Qed.

Lemma shrinks_addNewChain (chain : list Block) :
  shrinks (addNewChain storeBlock updateValidatorState calculateTransactionHash chain).
Proof.
  induction chain as [| block rest IH]; simpl; [apply shrinks_ret |].
  apply shrinks_bind; [apply shrinks_liftStorage |]. intros _.
  apply shrinks_bind; [apply shrinks_liftConsensus |]. intros _.
  apply shrinks_bind; [apply shrinks_removeFromPool |]. intros _.
  exact IH.
Qed.

Lemma shrinks_handleReorg (fuel : nat) (newBlock : Block) (forkChoice : ForkChoiceResult) :
  shrinks (handleReorg getChainTip deleteBlock getBlock storeBlock updateValidatorState
                       calculateBlockHash calculateTransactionHash fuel newBlock forkChoice).
Proof.
  unfold handleReorg.
  destruct (newChain forkChoice) as [chain |]; [| apply shrinks_throw].
  destruct (commonAncestor forkChoice) as [ancestor |]; [| apply shrinks_throw].
  apply shrinks_bind; [apply shrinks_liftStorage |]. intros currentTip.
  apply shrinks_bind; [| intros _; apply shrinks_addNewChain].
  destruct currentTip; [apply shrinks_walkBack | apply shrinks_ret].
Qed.
End ReorgFacts.
End ReorgFacts.

(** C4 does not hold of the chain manager.  The answer of [shouldReorg]
    carries neither a new chain nor a common ancestor, so [handleReorg]
    throws on it before it reads the tip: nothing is walked back, restored
    or applied.  And whatever fork choice it is given, [handleReorg] hands
    the transactions of the displaced blocks to [removeTransactions]: the
    pool afterwards holds no hash that it did not hold before. *)
Theorem reorg_restores_nothing :
  forall (Storage Consensus : Type)
         (getChainTip : M Storage (option Block))
         (deleteBlock : string -> M Storage unit)
         (getBlock : string -> M Storage (option Block))
         (storeBlock : Block -> M Storage unit)
         (updateValidatorState : Block -> M Consensus unit)
         (calculateBlockHash : Block -> Res string)
         (calculateTransactionHash : Tx.t -> Res string)
         (fuel : nat) (newBlock currentTip : Block) (forkChoice : ForkChoiceResult)
         (s : BlockchainManager.State Storage Consensus),
    let handleReorg :=
      BlockchainManager.handleReorg getChainTip deleteBlock getBlock storeBlock
        updateValidatorState calculateBlockHash calculateTransactionHash fuel newBlock in
    handleReorg (PoAConsensus.shouldReorg newBlock currentTip) s
      = (Throw (Error "Invalid fork choice for reorg"), s)
    /\ incl (poolHashes (BlockchainManager.txPool (snd (handleReorg forkChoice s))))
            (poolHashes (BlockchainManager.txPool s)).
Proof.
  intros. split.
  - subst handleReorg. unfold BlockchainManager.handleReorg, PoAConsensus.shouldReorg.
    destruct (Header.number (header newBlock) <=? Header.number (header currentTip));
      [reflexivity |].
    destruct (Header.number (header newBlock) >? Header.number (header currentTip) + 1);
      reflexivity.
  - apply ReorgFacts.shrinks_handleReorg.
Qed.

(* ================================================================== *)
(** * The pool: placement by nonce, and promotion *)
(* ================================================================== *)

Module PoolFacts.
Import Pool.

Lemma maxNonce_bounds (txs : list PoolTransaction) :
  forall init,
    init <= fold_left (fun maxNonce tx => if nonce tx >? maxNonce then nonce tx else maxNonce)
                      txs init
    /\ forall e, In e txs ->
         nonce e <= fold_left (fun maxNonce tx => if nonce tx >? maxNonce then nonce tx
                                                  else maxNonce) txs init.
Proof.
  induction txs as [| tx rest IH]; intros init; simpl.
  - split; [lia | intros e []].
  - destruct (IH (if nonce tx >? init then nonce tx else init)) as [Hinit Hall].
    assert (Hstep : init <= (if nonce tx >? init then nonce tx else init)
                    /\ nonce tx <= (if nonce tx >? init then nonce tx else init)).
    { destruct (nonce tx >? init) eqn:E; rewrite Z.gtb_ltb in E;
        [apply Z.ltb_lt in E | apply Z.ltb_ge in E]; lia. }
    split; [lia |].
    intros e [<- | Hin]; [lia | auto].
Qed.

(** Every entry a sender has in the pool lies below [getCurrentNonce]. *)
Lemma below_current_nonce (sender_ : Address) (p : TransactionPool) (e : PoolTransaction) :
  In e (accountTxsOf (bytesToHex sender_) p) -> nonce e < getCurrentNonce sender_ p.
Proof.
  intros Hin. unfold getCurrentNonce.
  destruct (accountTxsOf (bytesToHex sender_) p) as [| tx rest] eqn:E; [destruct Hin |].
  pose proof (maxNonce_bounds (tx :: rest) 0) as [_ Hall].
  specialize (Hall e Hin). lia.
Qed.

Lemma filter_none {A : Type} (f : A -> bool) (l : list A) :
  (forall x, In x l -> f x = false) -> filter f l = [].
Proof.
  induction l as [| x l IH]; intros Hf; simpl; [reflexivity |].
  rewrite (Hf x (or_introl eq_refl)). apply IH. intros y Hy. apply Hf. now right.
Qed.

(** So the promotion pass finds nothing to move. *)
Lemma promote_finds_nothing (sender_ : Address) (p : TransactionPool) :
  promoteQueuedTransactions sender_ p = p.
Proof.
  unfold promoteQueuedTransactions. rewrite filter_none; [reflexivity |].
  intros e Hin. apply below_current_nonce in Hin.
  apply andb_false_iff. right. apply Z.eqb_neq. lia.
Qed.


Lemma enforce_within_limit (p : TransactionPool) :
  JsMap.size (pending p) + JsMap.size (queued p) <= maxPoolSize (config p) ->
  enforcePoolSizeLimit p = p.
Proof.
  intros Hle. unfold enforcePoolSizeLimit.
  destruct (JsMap.size (pending p) + JsMap.size (queued p) <=? maxPoolSize (config p)) eqn:E;
    [reflexivity | apply Z.leb_gt in E; lia].
Qed.

Lemma place_by_nonce (tx : Tx.t) (h : string) (now : Z) (p : TransactionPool) :
  len (accountTxsOf (bytesToHex (Tx.from tx)) p) < maxAccountTransactions (config p) ->
  place tx h now p =
  if Tx.nonce tx =? getCurrentNonce (Tx.from tx) p
  then (mkAdd true None, enforcePoolSizeLimit (withEntry true tx h now p))
  else if Tx.nonce tx >? getCurrentNonce (Tx.from tx) p
  then (mkAdd true None, enforcePoolSizeLimit (withEntry false tx h now p))
  else (mkAdd false (Some "Transaction nonce too old"),
        mkPool (config p) (pending p) (queued p) (accountTransactions p) (nextPriority p + 1)).
Proof.
  intros Hroom. unfold place.
  change (accountTxsOf (bytesToHex (Tx.from tx))
            (mkPool (config p) (pending p) (queued p) (accountTransactions p)
                    (nextPriority p + 1)))
    with (accountTxsOf (bytesToHex (Tx.from tx)) p).
  change (getCurrentNonce (Tx.from tx)
            (mkPool (config p) (pending p) (queued p) (accountTransactions p)
                    (nextPriority p + 1)))
    with (getCurrentNonce (Tx.from tx) p).
  cbn [config].
  destruct (len (accountTxsOf (bytesToHex (Tx.from tx)) p) >=? maxAccountTransactions (config p))
    eqn:E; [apply Z.geb_le in E; lia |].
  reflexivity.
Qed.

(** [removeTransactions] takes entries out of the two maps and puts none
    in. *)
Lemma removeTransaction_deletes (h : string) (p : TransactionPool) :
  pending (removeTransaction h p) = JsMap.delete h (pending p)
  /\ queued (removeTransaction h p) = JsMap.delete h (queued p).
Proof.
  unfold removeTransaction.
  destruct (JsMap.get h (pending p)) as [tx |] eqn:Hp.
  - rewrite promote_finds_nothing. split; reflexivity.
  - destruct (JsMap.get h (queued p)) as [tx |] eqn:Hq.
    + rewrite promote_finds_nothing. split; reflexivity.
    + now rewrite !JsMapFacts.delete_absent.
Qed.

Lemma removeTransactions_deletes (hashes : list string) :
  forall p,
    pending (removeTransactions hashes p)
    = fold_left (fun m h => JsMap.delete h m) hashes (pending p)
    /\ queued (removeTransactions hashes p)
       = fold_left (fun m h => JsMap.delete h m) hashes (queued p).
Proof.
  unfold removeTransactions. induction hashes as [| h hashes IH]; intros p; simpl; [auto |].
  destruct (IH (removeTransaction h p)) as [-> ->].
  now destruct (removeTransaction_deletes h p) as [-> ->].
Qed.

(** With room for one more entry, the size limit changes nothing. *)
Lemma enforce_with_room (inPending : bool) (tx : Tx.t) (h : string) (now : Z)
      (p : TransactionPool) :
  JsMap.has h (pending p) || JsMap.has h (queued p) = false ->
  JsMap.size (pending p) + JsMap.size (queued p) < maxPoolSize (config p) ->
  enforcePoolSizeLimit (withEntry inPending tx h now p) = withEntry inPending tx h now p.
Proof.
  intros Hnew Hroom. apply orb_false_iff in Hnew. destruct Hnew as [Hp Hq].
  apply JsMapFacts.has_none in Hp. apply JsMapFacts.has_none in Hq.
  apply enforce_within_limit. unfold withEntry. cbn [pending queued config].
  destruct inPending; rewrite JsMapFacts.size_set_absent by assumption; lia.
Qed.

End PoolFacts.

(** C9 (as the code has it).  The nonce the pool expects of a sender is
    [getCurrentNonce]: 0 for a sender with no entry in the pool, and
    otherwise more than the nonce of every entry the sender has, pending or
    queued.  A transaction that passes the pool's checks (validation, no
    entry with its hash, room in the sender's list) while the pool has room
    is put in pending when its nonce is that nonce, in queued when it is
    greater, and is refused as too old when it is smaller.  So once a sender
    has an entry, a transaction of the sender with that nonce or a smaller
    one is refused: the gap below a queued entry cannot be filled.  And a
    queued entry stays queued: [promoteQueuedTransactions] changes no pool,
    and [removeTransactions] takes the hashes it is given out of the two
    maps and moves nothing from one to the other. *)
Theorem nonce_gap_is_never_filled
        (keccak_256 : Bytes -> Bytes) (tx : Tx.t) (now : Z) (p : Pool.TransactionPool)
        (txHash : Hash) :
  let h := bytesToHex txHash in
  let senderHex := bytesToHex (Tx.from tx) in
  let expected := Pool.getCurrentNonce (Tx.from tx) p in
  Pool.validateTransaction (Pool.config p) tx = None ->
  Serialize.calculateTransactionHash keccak_256 tx p = (Ok txHash, p) ->
  JsMap.has h (Pool.pending p) || JsMap.has h (Pool.queued p) = false ->
  len (Pool.accountTxsOf senderHex p) < Pool.maxAccountTransactions (Pool.config p) ->
  JsMap.size (Pool.pending p) + JsMap.size (Pool.queued p) < Pool.maxPoolSize (Pool.config p) ->
  (Pool.accountTxsOf senderHex p = [] -> expected = 0)
  /\ (forall e, In e (Pool.accountTxsOf senderHex p) -> Pool.nonce e < expected)
  /\ (Tx.nonce tx = expected ->
      Pool.addTransaction keccak_256 tx now p
      = (Ok (Pool.mkAdd true None), withEntry true tx h now p))
  /\ (Tx.nonce tx > expected ->
      Pool.addTransaction keccak_256 tx now p
      = (Ok (Pool.mkAdd true None), withEntry false tx h now p))
  /\ (forall e, In e (Pool.accountTxsOf senderHex p) -> Tx.nonce tx <= Pool.nonce e ->
      Pool.addTransaction keccak_256 tx now p
      = (Ok (Pool.mkAdd false (Some "Transaction nonce too old")),
         Pool.mkPool (Pool.config p) (Pool.pending p) (Pool.queued p)
                     (Pool.accountTransactions p) (Pool.nextPriority p + 1)))
  /\ (forall sender_, Pool.promoteQueuedTransactions sender_ p = p)
  /\ (forall hashes,
        Pool.pending (Pool.removeTransactions hashes p)
        = fold_left (fun m h => JsMap.delete h m) hashes (Pool.pending p)
        /\ Pool.queued (Pool.removeTransactions hashes p)
           = fold_left (fun m h => JsMap.delete h m) hashes (Pool.queued p)).
Proof.
  intros h senderHex expected Hvalid Hhash Hnew Hroom Hsize.
  assert (Hadd : Pool.addTransaction keccak_256 tx now p
                 = (Ok (fst (Pool.place tx h now p)), snd (Pool.place tx h now p))).
  { unfold Pool.addTransaction, try_catch, bind, get. rewrite Hvalid, Hhash.
    fold h. rewrite Hnew. destruct (Pool.place tx h now p). reflexivity. }
  rewrite (@PoolFacts.place_by_nonce tx h now p Hroom) in Hadd. fold expected in Hadd.
  assert (Hbelow : forall e, In e (Pool.accountTxsOf senderHex p) -> Pool.nonce e < expected)
    by (intros e; apply PoolFacts.below_current_nonce).
  split; [| split; [exact Hbelow | split; [| split; [| split; [| split]]]]].
  - intros Hnone. unfold expected, Pool.getCurrentNonce. fold senderHex. now rewrite Hnone.
  - intros Heq.
    assert (E : (Tx.nonce tx =? expected) = true) by (apply Z.eqb_eq; exact Heq).
    rewrite E in Hadd. cbn [fst snd] in Hadd.
    now rewrite (@PoolFacts.enforce_with_room true tx h now p Hnew Hsize) in Hadd.
  - intros Hgt.
    assert (E : (Tx.nonce tx =? expected) = false) by (apply Z.eqb_neq; lia).
    assert (E' : (Tx.nonce tx >? expected) = true)
      by (rewrite Z.gtb_ltb; apply Z.ltb_lt; lia).
    rewrite E, E' in Hadd. cbn [fst snd] in Hadd.
    now rewrite (@PoolFacts.enforce_with_room false tx h now p Hnew Hsize) in Hadd.
  - intros e Hin Hle. specialize (Hbelow e Hin).
    assert (E : (Tx.nonce tx =? expected) = false) by (apply Z.eqb_neq; lia).
    assert (E' : (Tx.nonce tx >? expected) = false)
      by (rewrite Z.gtb_ltb; apply Z.ltb_ge; lia).
    rewrite E, E' in Hadd. exact Hadd.
  - intros sender_. apply PoolFacts.promote_finds_nothing.
  - intros hashes. apply PoolFacts.removeTransactions_deletes.
Qed.

(* ================================================================== *)
(** * The pool keeps the gas limits of its transactions *)
(* ================================================================== *)

(** The empty pool is consistent, and adding and removing transactions keep
    it so: the entries block creation selects record the gas limit of their
    transactions. *)
Module PoolInvariant.
Import Pool.

Lemma consistent_newPool (cfg : TxPoolConfig) : poolConsistent (newPool cfg).
Proof. split; constructor. Qed.

Lemma consistent_promote_step (h : string) (p : TransactionPool) :
  poolConsistent p ->
  poolConsistent
    (match JsMap.get h (queued p) with
     | Some tx => with_pending (with_queued p (JsMap.delete h (queued p)))
                               (JsMap.set h tx (pending p))
     | None => p
     end).
Proof.
  intros [Hp Hq]. destruct (JsMap.get h (queued p)) as [tx |] eqn:Hg; [| now split].
  split; simpl.
  - apply JsMapFacts.Forall_set; [exact Hp |].
    apply JsMapFacts.get_In in Hg. rewrite Forall_forall in Hq. exact (Hq _ Hg).
  - now apply JsMapFacts.Forall_delete.
Qed.

Lemma consistent_promote (sender_ : Address) (p : TransactionPool) :
  poolConsistent p -> poolConsistent (promoteQueuedTransactions sender_ p).
Proof.
  unfold promoteQueuedTransactions.
  generalize (map hash
                (filter (fun tx => JsMap.has (hash tx) (queued p)
                                   && (nonce tx =? getCurrentNonce sender_ p))
                        (accountTxsOf (bytesToHex sender_) p))).
  intros toPromote. revert p.
  induction toPromote as [| h rest IH]; intros p Hp; simpl; [exact Hp |].
  apply IH. now apply consistent_promote_step.
Qed.

Lemma consistent_removeTransaction (h : string) (p : TransactionPool) :
  poolConsistent p -> poolConsistent (removeTransaction h p).
Proof.
  intros [Hp Hq]. unfold removeTransaction.
  destruct (match JsMap.get h (pending p) with
            | Some tx => Some tx
            | None => JsMap.get h (queued p)
            end) as [tx |]; [| now split].
  apply consistent_promote. split; simpl; now apply JsMapFacts.Forall_delete.
Qed.

Lemma consistent_removeTransactions (hashes : list string) :
  forall p, poolConsistent p -> poolConsistent (removeTransactions hashes p).
Proof.
  unfold removeTransactions.
  induction hashes as [| h rest IH]; intros p Hp; simpl; [exact Hp |].
  apply IH. now apply consistent_removeTransaction.
Qed.

Lemma consistent_evict (tx : PoolTransaction) (p : TransactionPool) :
  poolConsistent p -> poolConsistent (evict tx p).
Proof.
  intros [Hp Hq]. unfold evict.
  match goal with |- context [match ?x with Some _ => _ | None => _ end] => destruct x end;
    (split; simpl; now apply JsMapFacts.Forall_delete).
Qed.

Lemma consistent_enforcePoolSizeLimit (p : TransactionPool) :
  poolConsistent p -> poolConsistent (enforcePoolSizeLimit p).
Proof.
  intros Hp. unfold enforcePoolSizeLimit.
  destruct (JsMap.size (pending p) + JsMap.size (queued p) <=? maxPoolSize (config p));
    [exact Hp |].
  generalize (firstn (Z.to_nat (JsMap.size (pending p) + JsMap.size (queued p)
                                - maxPoolSize (config p)))
                     (jsSort evictionOrder (JsMap.values (pending p) ++ JsMap.values (queued p)))).
  intros victims. revert p Hp.
  induction victims as [| tx rest IH]; intros p Hp; simpl; [exact Hp |].
  apply IH. now apply consistent_evict.
Qed.

Lemma consistent_place (tx : Tx.t) (h : string) (now : Z) (p : TransactionPool) :
  poolConsistent p -> poolConsistent (snd (place tx h now p)).
Proof.
  intros [Hp Hq]. unfold place.
  repeat match goal with
         | |- context [if ?b then _ else _] => destruct b
         end; cbn [snd];
    try apply consistent_enforcePoolSizeLimit;
    (split; simpl;
     first [assumption | apply JsMapFacts.Forall_set; [assumption | reflexivity]]).
Qed.

Lemma consistent_addTransaction (keccak_256 : Bytes -> Bytes) (tx : Tx.t) (now : Z)
      (p : TransactionPool) :
  poolConsistent p -> poolConsistent (snd (addTransaction keccak_256 tx now p)).
Proof.
  intros Hp. unfold addTransaction, try_catch, bind, get, ret.
  destruct (validateTransaction (config p) tx); [exact Hp |].
  pose proof (@PreservesFacts.unchanged_bigintToBytes TransactionPool) as Hsame.
  assert (Hhash : snd (Serialize.calculateTransactionHash keccak_256 tx p) = p).
  { unfold Serialize.calculateTransactionHash, Serialize.serializeTransaction, bind, ret.
    repeat match goal with
           | |- context [bigintToBytes ?v ?n ?s] =>
               let H := fresh in
               destruct (Hsame v n s) as [_ H];
               destruct (bigintToBytes v n s) as [[? | ? |] ?]; simpl in H; subst;
               try reflexivity
           end. }
  destruct (Serialize.calculateTransactionHash keccak_256 tx p) as [[txHash | e |] p1];
    simpl in Hhash; subst p1; try exact Hp.
  destruct (JsMap.has (bytesToHex txHash) (pending p)
            || JsMap.has (bytesToHex txHash) (queued p)); [exact Hp |].
  pose proof (consistent_place tx (bytesToHex txHash) now Hp) as Hplaced.
  destruct (place tx (bytesToHex txHash) now p). exact Hplaced.
Qed.

Lemma consistent_pending_values (p : TransactionPool) :
  poolConsistent p -> Forall consistentEntry (JsMap.values (pending p)).
Proof. intros [Hp _]. unfold JsMap.values. now apply Forall_map. Qed.
End PoolInvariant.

(* ================================================================== *)
(** * Block creation: gas accounting *)
(* ================================================================== *)

Module ProcessorFacts.
Section ProcessorFacts.
Import BlockProcessor.
Variable keccak_256 : Bytes -> Bytes.
Variable options : BlockProcessingOptions.

(** A transaction result is either a success that reports half of the gas
    limit and carries a receipt, or a failure that reports no gas and has no
    receipt; [executeTransaction] itself never throws. *)
Lemma executeTransaction_cases (tx : Tx.t) (blockNumber : Z) (w : InMemoryWorldState) :
  exists r w',
    executeTransaction keccak_256 tx blockNumber w = (Ok r, w')
    /\ ((TxResult.success r = true /\ counted r = true
         /\ TxResult.gasUsed r = Some (Z.quot (Tx.gasLimit tx) 2))
        \/ (TxResult.success r = false /\ counted r = false
            /\ TxResult.gasUsed r = Some 0)).
Proof.
  unfold executeTransaction, try_catch, bind, get, ret, modify, simulateTransactionExecution.
  destruct (World.snapshot w) as [[snapshotId | e |] w1] eqn:Hsnap;
    [| eexists; eexists; split; [reflexivity | right; repeat split]
     | unfold World.snapshot in Hsnap;
       destruct (World.copyEntries (accounts w) (objs w) (objs_next w)) as [[? ?] ?];
       destruct (World.copyEntries (storages w) (maps w) (maps_next w)) as [[? ?] ?];
       discriminate ].
  destruct (negb (Tx.nonce tx =? World.getNonce (Tx.from tx) w1)).
  { destruct (World.revert snapshotId w1) as [[[] | e |] w2] eqn:Hrev;
      [| | exfalso; exact (ReturnsFacts.returns_revert snapshotId w1 (f_equal fst Hrev))];
      eexists; eexists; (split; [reflexivity | right; repeat split]). }
  destruct (World.getBalance (Tx.from tx) w1 <? Tx.gasLimit tx * Tx.gasPrice tx + Tx.value tx).
  { destruct (World.revert snapshotId w1) as [[[] | e |] w2] eqn:Hrev;
      [| | exfalso; exact (ReturnsFacts.returns_revert snapshotId w1 (f_equal fst Hrev))];
      eexists; eexists; (split; [reflexivity | right; repeat split]). }
  destruct (World.subBalance (Tx.from tx) (Tx.gasLimit tx * Tx.gasPrice tx) w1)
    as [[[] | e |] w2] eqn:Hsub;
    [| eexists; eexists; split; [reflexivity | right; repeat split]
     | exfalso; exact (ReturnsFacts.returns_subBalance _ _ w1 (f_equal fst Hsub)) ].
  destruct (Serialize.calculateTransactionHash keccak_256 tx
              (World.incrementNonce (Tx.from tx) w2)) as [[txHash | e |] w3] eqn:Hhash;
    [| eexists; eexists; split; [reflexivity | right; repeat split]
     | exfalso;
       exact (ReturnsFacts.returns_calculateTransactionHash keccak_256 tx _ (f_equal fst Hhash)) ].
  destruct (Tx.to tx); cbn;
    eexists; eexists; (split; [reflexivity | left; repeat split]).
Qed.


Lemma sumReportedGas_app (xs ys : list TxResult.t) :
  sumReportedGas (xs ++ ys) = sumReportedGas xs + sumReportedGas ys.
Proof. induction xs as [| x xs IH]; simpl; [reflexivity | rewrite IH; lia]. Qed.

Lemma sumCountedGas_app (xs ys : list TxResult.t) :
  sumCountedGas (xs ++ ys) = sumCountedGas xs + sumCountedGas ys.
Proof. induction xs as [| x xs IH]; simpl; [reflexivity | rewrite IH; lia]. Qed.





Lemma Forall_insertSorted {A : Type} (P : A -> Prop) (compare : A -> A -> Z) (x : A)
      (sorted : list A) :
  P x -> Forall P sorted -> Forall P (insertSorted compare x sorted).
Proof.
  intros Hx. induction 1 as [| y rest Hy Hrest IH]; simpl.
  - constructor; [exact Hx | constructor].
  - destruct (compare y x >? 0); repeat constructor; assumption.
Qed.

Lemma Forall_jsSort {A : Type} (P : A -> Prop) (compare : A -> A -> Z) (l : list A) :
  Forall P l -> Forall P (jsSort compare l).
Proof.
  unfold jsSort. intros Hl.
  assert (Hgen : forall acc, Forall P acc ->
                   Forall P (fold_left (fun acc x => insertSorted compare x acc) l acc)).
  { induction Hl as [| x rest Hx Hrest IH]; intros acc Hacc; simpl; [exact Hacc |].
    apply IH. apply Forall_insertSorted; assumption. }
  apply Hgen. constructor.
Qed.



Lemma signBlockHeader_gasUsed {S : Type} (h h' : Header.t) (signer : Address) (st st' : S) :
  PoAConsensus.signBlockHeader keccak_256 h signer st = (Ok h', st') ->
  Header.gasUsed h' = Header.gasUsed h.
Proof.
  unfold PoAConsensus.signBlockHeader, bind, ret.
  destruct (Header.number h =? 0); [intros [= <- _]; reflexivity |].
  destruct (Serialize.serializeBlockHeader h st) as [[headerBytes | e |] st1]; try discriminate.
  destruct (typedArraySet (zeros 65) (keccak_256 headerBytes) 0 st1) as [[sig | e |] st2];
    try discriminate.
  intros [= <- _]. reflexivity.
Qed.



End ProcessorFacts.
End ProcessorFacts.



(* ================================================================== *)
(** * The theorems at concrete inputs *)
(* ================================================================== *)

(** The world of the 'revert isolation' scenario, a snapshot, four changes,
    and the way back. *)
Lemma snapshot_mutate_revert_or_commit_witness :
  wellFormed Examples.world0
  /\ exists id w1,
       World.snapshot Examples.world0 = (Ok id, w1)
       /\ exists w3,
            World.revert id
              (applyMutations [AddBalance Examples.alice 5;
                               SetStorage Examples.contract (BigInt 0) (BigInt 42);
                               IncrementNonce Examples.alice;
                               SetCode Examples.contract [0]] w1) = (Ok tt, w3)
            /\ World.observable w3 = World.observable Examples.world0.
Proof.
  assert (Hwf : wellFormed Examples.world0).
  { unfold Examples.world0.
    apply WorldFacts.wellFormed_putAccount, WorldFacts.wellFormed_putAccount,
          WorldFacts.wellFormed_emptyWorld. }
  split; [exact Hwf |].
  destruct (@snapshot_mutate_revert_or_commit Examples.world0
              [AddBalance Examples.alice 5; SetStorage Examples.contract (BigInt 0) (BigInt 42);
               IncrementNonce Examples.alice; SetCode Examples.contract [0]] Hwf)
    as (id & w1 & Hsnap & Hrevert & _).
  exists id, w1. split; [exact Hsnap | exact Hrevert].
Defined.

(** 300 and 5 on the stack. *)
Lemma word_arithmetic_witness :
  isWord 300 /\ isWord 5
  /\ pushes Evm.op_ADD 3 [300; 5] ((300 + 5) mod 2 ^ 256)
  /\ pushes Evm.op_SHL 3 [300; 5] 0
  /\ pushes Evm.op_EXP 10 [300; 5] (300 ^ 5 mod 2 ^ 256).
Proof.
  assert (Ha : isWord 300) by (split; [discriminate | reflexivity]).
  assert (Hb : isWord 5) by (split; [discriminate | reflexivity]).
  split; [exact Ha |]. split; [exact Hb |].
  destruct (@word_arithmetic 300 5 Ha Hb) as (Hadd & _ & _ & _ & _ & Hshift & Hexp).
  split; [exact Hadd |]. split; [| exact Hexp].
  assert (Hbig : 256 <= 300) by discriminate.
  exact (proj1 (Hshift Hbig)).
Defined.

(** The example code with 4 on the stack and the program counter on JUMP. *)
Lemma jump_target_is_checked_by_byte_witness :
  Ctx.stack (Ctx.with_stack
               (Ctx.new Examples.jumpIntoPushData emptyWorld Examples.exampleEnv 100 []) [BigInt 4])
    = [BigInt 4]
  /\ Evm.op_JUMP (Ctx.with_stack
                    (Ctx.new Examples.jumpIntoPushData emptyWorld Examples.exampleEnv 100 [])
                    [BigInt 4])
     = (Ok tt,
        Ctx.with_pc
          (Ctx.with_stack
             (Ctx.with_gasLeft
                (Ctx.with_stack
                   (Ctx.new Examples.jumpIntoPushData emptyWorld Examples.exampleEnv 100 [])
                   [BigInt 4]) 92) []) 4).
Proof.
  split; [reflexivity |].
  assert (Hgas : 8 <= Ctx.gasLeft
                        (Ctx.with_stack
                           (Ctx.new Examples.jumpIntoPushData emptyWorld Examples.exampleEnv
                                    100 []) [BigInt 4])) by discriminate.
  exact (proj1 (@jump_target_is_checked_by_byte
                  (Ctx.with_stack
                     (Ctx.new Examples.jumpIntoPushData emptyWorld Examples.exampleEnv 100 [])
                     [BigInt 4]) 4 [] eq_refl) Hgas).
Defined.

(** The 'nonce gap queue' scenario.  The transaction with nonce 1 has
    been queued; the one with nonce 0, which would fill the gap, is refused
    as too old; a block has nothing to take from the pool, and after a
    removal the transaction with nonce 1 is queued as before and nothing is
    pending. *)
Lemma nonce_gap_is_never_filled_witness :
  Pool.addTransaction Examples.stubHashOfEnd Examples.nonceOneTx 1000
                      (Pool.newPool Examples.poolConfig)
  = (Ok (Pool.mkAdd true None), Examples.gapPool)
  /\ Pool.pending Examples.gapPool = []
  /\ map (fun e => Pool.transaction (snd e)) (Pool.queued Examples.gapPool)
     = [Examples.nonceOneTx]
  /\ fst (Pool.addTransaction Examples.stubHashOfEnd Examples.nonceZeroTx 1001
                              Examples.gapPool)
     = Ok (Pool.mkAdd false (Some "Transaction nonce too old"%string))
  /\ Pool.getTransactionsForBlock 30000000 Examples.gapPool = []
  /\ Pool.pending
       (Pool.removeTransactions [bytesToHex (Examples.hashOf Examples.nonceZeroTx)]
                                Examples.gapPool) = []
  /\ map (fun e => Pool.transaction (snd e))
         (Pool.queued
            (Pool.removeTransactions [bytesToHex (Examples.hashOf Examples.nonceZeroTx)]
                                     Examples.gapPool))
     = [Examples.nonceOneTx].
Proof.
  assert (Hcode : (Pool.validateTransaction (Pool.config Examples.gapPool)
                     Examples.nonceZeroTx = None)
                  /\ (Serialize.calculateTransactionHash Examples.stubHashOfEnd
                        Examples.nonceZeroTx Examples.gapPool
                      = (Ok (Examples.hashOf Examples.nonceZeroTx), Examples.gapPool))
                  /\ (JsMap.has (bytesToHex (Examples.hashOf Examples.nonceZeroTx))
                                (Pool.pending Examples.gapPool)
                      || JsMap.has (bytesToHex (Examples.hashOf Examples.nonceZeroTx))
                                   (Pool.queued Examples.gapPool) = false)
                  /\ (len (Pool.accountTxsOf (bytesToHex (Tx.from Examples.nonceZeroTx))
                                             Examples.gapPool)
                      < Pool.maxAccountTransactions (Pool.config Examples.gapPool))
                  /\ (JsMap.size (Pool.pending Examples.gapPool)
                      + JsMap.size (Pool.queued Examples.gapPool)
                      < Pool.maxPoolSize (Pool.config Examples.gapPool))).
  { repeat split; vm_compute; reflexivity. }
  destruct Hcode as (Hvalid & Hhash & Hnew & Hroom & Hsize).
  pose proof (@nonce_gap_is_never_filled Examples.stubHashOfEnd Examples.nonceZeroTx 1001
                Examples.gapPool (Examples.hashOf Examples.nonceZeroTx)
                Hvalid Hhash Hnew Hroom Hsize) as H.
  cbv zeta in H. destruct H as (_ & _ & _ & _ & Hold & _ & Hremoved).
  split; [vm_compute; reflexivity |]. split; [vm_compute; reflexivity |].
  split; [vm_compute; reflexivity |]. split.
  - rewrite (Hold (Pool.mkPoolTx Examples.nonceOneTx
                     (bytesToHex (Examples.hashOf Examples.nonceOneTx)) 1000 1 21000
                     Examples.alice 1 0)); [reflexivity | | ].
    + vm_compute. left. reflexivity.
    + vm_compute. discriminate.
  - split; [vm_compute; reflexivity |].
    destruct (Hremoved [bytesToHex (Examples.hashOf Examples.nonceZeroTx)]) as [-> ->].
    split; vm_compute; reflexivity.
Defined.

(** The 'revert isolation' call once more, with a byte-length limit of
    [2^32] and a contract-address function that is not called. *)
Lemma failed_execution_charges_nothing_witness :
  wellFormed Examples.world0
  /\ exists result w',
       TransactionExecutor.executeTransaction 4294967296 (fun _ _ => zeros 20)
         Examples.callTx 1 1 (zeros 20) 30000000 1 Examples.world0
       = (Ok result, w')
       /\ success result = false
       /\ World.getNonce Examples.alice w' = 0
       /\ World.getBalance Examples.alice w' = 1000000.
Proof.
  assert (Hwf : wellFormed Examples.world0).
  { unfold Examples.world0.
    apply WorldFacts.wellFormed_putAccount, WorldFacts.wellFormed_putAccount,
          WorldFacts.wellFormed_emptyWorld. }
  split; [exact Hwf |].
  destruct (@failed_execution_charges_nothing 4294967296 (fun _ _ => zeros 20)
              Examples.callTx 1 1 (zeros 20) 30000000 1 Examples.world0 Hwf)
    as (result & w' & Hrun & Hfail).
  exists result, w'. split; [exact Hrun |].
  assert (Hres : success result = false).
  { vm_compute in Hrun. injection Hrun as <- _. reflexivity. }
  split; [exact Hres |].
  destruct (Hfail Hres) as (_ & Hnonce & Hbalance).
  split; [etransitivity; [exact Hnonce | reflexivity]
         | etransitivity; [exact Hbalance | reflexivity]].
Defined.

(* ================================================================== *)
(** * Hexadecimal strings and back *)
(* ================================================================== *)

Module HexFacts.

Ltac digit_cases d H :=
  assert (d = 0 \/ d = 1 \/ d = 2 \/ d = 3 \/ d = 4 \/ d = 5 \/ d = 6 \/ d = 7 \/ d = 8
          \/ d = 9 \/ d = 10 \/ d = 11 \/ d = 12 \/ d = 13 \/ d = 14 \/ d = 15) as H by lia;
  repeat (destruct H as [H | H]; [subst d |]); [.. | subst d].

(** What [hexDigit] writes, [hexVal] reads, and it is no white space, no
    sign and no [x]. *)
Lemma hexVal_hexDigit (d : Z) :
  0 <= d < 16 ->
  hexVal (hexDigit d) = Some d
  /\ isWhitespace (hexDigit d) = false
  /\ Ascii.eqb (hexDigit d) "-" = false
  /\ Ascii.eqb (hexDigit d) "+" = false
  /\ Ascii.eqb (hexDigit d) "x" = false
  /\ Ascii.eqb (hexDigit d) "X" = false.
Proof. intros Hd. digit_cases d H; repeat split; reflexivity. Qed.

Lemma parseHexPair_digits (d1 d2 : Z) :
  0 <= d1 < 16 -> 0 <= d2 < 16 ->
  parseHexPair (hexDigit d1) (hexDigit d2) = Some (16 * d1 + d2).
Proof.
  intros H1 H2. unfold parseHexPair.
  destruct (hexVal_hexDigit H1) as (V1 & _ & M1 & P1 & _ & _).
  destruct (hexVal_hexDigit H2) as (V2 & _ & _ & _ & X2 & XX2).
  rewrite M1, P1, V1, V2, X2, XX2. rewrite andb_false_r. reflexivity.
Qed.

Lemma byte_digits (b : Z) :
  isByte b -> 0 <= b / 16 < 16 /\ 0 <= b mod 16 < 16 /\ 16 * (b / 16) + b mod 16 = b.
Proof.
  unfold isByte. intros Hb. split; [| split].
  - split; [apply Z.div_pos; lia | apply Z.div_lt_upper_bound; lia].
  - apply Z.mod_pos_bound. lia.
  - symmetry. apply Z.div_mod. lia.
Qed.

Lemma removeWhitespace_hexOfBytes (bytes : Bytes) :
  Forall isByte bytes -> removeWhitespace (hexOfBytes bytes) = hexOfBytes bytes.
Proof.
  induction 1 as [| b bs Hb Hbs IH]; [reflexivity |].
  destruct (byte_digits Hb) as (Hhi & Hlo & _).
  destruct (hexVal_hexDigit Hhi) as (_ & W1 & _).
  destruct (hexVal_hexDigit Hlo) as (_ & W2 & _).
  cbn [hexOfBytes byteToHex append removeWhitespace]. rewrite W1, W2, IH. reflexivity.
Qed.

Lemma length_hexOfBytes (bytes : Bytes) :
  String.length (hexOfBytes bytes) = (2 * List.length bytes)%nat.
Proof.
  induction bytes as [| b bs IH]; [reflexivity |].
  cbn [hexOfBytes byteToHex append String.length List.length]. rewrite IH. lia.
Qed.

Lemma parseHexPairs_hexOfBytes {S : Type} (bytes : Bytes) :
  Forall isByte bytes ->
  forall (pos : Z) (st : S), parseHexPairs pos (hexOfBytes bytes) st = (Ok bytes, st).
Proof.
  induction 1 as [| b bs Hb Hbs IH]; intros pos st; [reflexivity |].
  destruct (byte_digits Hb) as (Hhi & Hlo & Hsum).
  cbn [hexOfBytes byteToHex append parseHexPairs].
  rewrite (parseHexPair_digits Hhi Hlo), IH, Hsum.
  rewrite Z.mod_small by exact Hb. reflexivity.
Qed.

Lemma stripHexPrefix_hexOfBytes (bytes : Bytes) :
  Forall isByte bytes -> stripHexPrefix (hexOfBytes bytes) = hexOfBytes bytes.
Proof.
  intros Hbytes. destruct Hbytes as [| b bs Hb Hbs]; [reflexivity |].
  destruct (byte_digits Hb) as (Hhi & Hlo & _).
  destruct (hexVal_hexDigit Hlo) as (_ & _ & _ & _ & X2 & _).
  cbn [hexOfBytes byteToHex append]. unfold stripHexPrefix.
  destruct (hexDigit (b / 16)) as [[] [] [] [] [] [] [] []]; try reflexivity.
  destruct (hexDigit (b mod 16)) as [[] [] [] [] [] [] [] []]; try reflexivity.
  discriminate X2.
Qed.
End HexFacts.

(** X1.  [hexToBytes(bytesToHex(bytes))] gives [bytes] back, for every byte
    array; and so does [hexToBytes] on the digits without the [0x] in
    front. *)
Theorem hexToBytes_bytesToHex {S : Type} (bytes : Bytes) (st : S) :
  Forall isByte bytes ->
  hexToBytes (bytesToHex bytes) st = (Ok bytes, st)
  /\ hexToBytes (hexOfBytes bytes) st = (Ok bytes, st).
Proof.
  intros Hbytes.
  assert (Hbody : parseHexPairs 0
                    (if Nat.even (String.length (removeWhitespace (hexOfBytes bytes)))
                     then removeWhitespace (hexOfBytes bytes)
                     else String "0" (removeWhitespace (hexOfBytes bytes))) st
                  = (Ok bytes, st)).
  { rewrite (HexFacts.removeWhitespace_hexOfBytes Hbytes), HexFacts.length_hexOfBytes.
    replace (Nat.even (2 * List.length bytes)) with true
      by (symmetry; apply Nat.even_spec; exists (List.length bytes); lia).
    now apply HexFacts.parseHexPairs_hexOfBytes. }
  split; unfold hexToBytes, bytesToHex.
  - change (stripHexPrefix ("0x" ++ hexOfBytes bytes)) with (hexOfBytes bytes). exact Hbody.
  - rewrite (HexFacts.stripHexPrefix_hexOfBytes Hbytes). exact Hbody.
Qed.

Lemma hexToBytes_bytesToHex_witness :
  Forall isByte [0; 171; 255]
  /\ hexToBytes (bytesToHex [0; 171; 255]) tt = (Ok [0; 171; 255], tt).
Proof.
  assert (H : Forall isByte [0; 171; 255]) by (repeat constructor; unfold isByte; lia).
  split; [exact H |]. exact (proj1 (@hexToBytes_bytesToHex unit [0; 171; 255] tt H)).
Defined.

(* ================================================================== *)
(** * Numbers as bytes and back *)
(* ================================================================== *)

Module BigintFacts.

Lemma lowerHex_head (c : ascii) (s : string) :
  lowerHex (String c s) ->
  exists d, 0 <= d < 16 /\ c = hexDigit d /\ hexVal c = Some d /\ isWhitespace c = false
            /\ Ascii.eqb c "x" = false.
Proof.
  intros [(d & Hd & ->) _]. exists d.
  destruct (HexFacts.hexVal_hexDigit Hd) as (V & W & _ & _ & X & _). auto.
Qed.

(** The digits [hexOfPos] writes in front of [acc]: there are [k] of them,
    as few as the number allows, and they denote the number. *)
Lemma hexOfPos_spec (n : Z) (acc : string) :
  0 <= n -> lowerHex acc ->
  lowerHex (hexOfPos n acc)
  /\ exists k : nat,
       (1 <= k)%nat
       /\ String.length (hexOfPos n acc) = (k + String.length acc)%nat
       /\ (forall j : nat, n < 16 ^ Z.of_nat j -> (1 <= j)%nat -> (k <= j)%nat)
       /\ forall a, hexNumber a (hexOfPos n acc) = hexNumber (a * 16 ^ Z.of_nat k + n) acc.
Proof.
  functional induction (hexOfPos n acc) as [n acc Hsmall | n acc Hbig IH]; intros Hn Hacc.
  - apply Z.ltb_lt in Hsmall.
    destruct (@HexFacts.hexVal_hexDigit n) as (V & _); [lia |].
    split; [split; [exists n; split; [lia | reflexivity] | exact Hacc] |].
    exists 1%nat. split; [lia |]. split; [reflexivity |]. split; [intros; lia |].
    intros a. cbn [hexNumber]. rewrite V. reflexivity.
  - apply Z.ltb_ge in Hbig.
    assert (Hdiv : 0 <= n / 16) by (apply Z.div_pos; lia).
    assert (Hmod : 0 <= n mod 16 < 16) by (apply Z.mod_pos_bound; lia).
    destruct (HexFacts.hexVal_hexDigit Hmod) as (V & _).
    destruct IH as (Hlow & k & Hk & Hlen & Hmin & Hval);
      [exact Hdiv | split; [exists (n mod 16); auto | exact Hacc] |].
    split; [exact Hlow |]. exists (S k). split; [| split; [| split]].
    + lia.
    + rewrite Hlen. cbn [String.length]. lia.
    + intros j Hj Hj1. destruct j as [| j]; [lia |].
      destruct j as [| j]; [change (16 ^ Z.of_nat 1) with 16 in Hj; lia |].
      apply le_n_S. apply Hmin; [| lia].
      apply Z.div_lt_upper_bound; [lia |].
      replace (Z.of_nat (S (S j))) with (Z.of_nat (S j) + 1) in Hj by lia.
      rewrite Z.pow_add_r in Hj by lia. lia.
    + intros a. rewrite Hval. cbn [hexNumber]. rewrite V. f_equal.
      replace (Z.of_nat (S k)) with (Z.of_nat k + 1) by lia.
      rewrite Z.pow_add_r by lia. rewrite (Z.div_mod n 16) at 3 by lia. ring.
Qed.

Lemma repeatChar_zero (m : nat) (s : string) :
  lowerHex s ->
  lowerHex (repeatChar "0" m ++ s)
  /\ String.length (repeatChar "0" m ++ s) = (m + String.length s)%nat
  /\ hexNumber 0 (repeatChar "0" m ++ s) = hexNumber 0 s.
Proof.
  intros Hs. induction m as [| m (IH1 & IH2 & IH3)]; [auto |].
  cbn [repeatChar append lowerHex String.length hexNumber].
  split; [split; [exists 0; split; [lia | reflexivity] | exact IH1] |]. split; [lia | exact IH3].
Qed.

Lemma lowerHex_clean (s : string) :
  lowerHex s -> stripHexPrefix s = s /\ removeWhitespace s = s.
Proof.
  intros Hs. split.
  - destruct s as [| c1 s']; [reflexivity |]. unfold stripHexPrefix.
    destruct c1 as [[] [] [] [] [] [] [] []]; try reflexivity.
    destruct s' as [| c2 rest]; [reflexivity |].
    destruct (@lowerHex_head _ _ (proj2 Hs)) as (d & _ & _ & _ & _ & X).
    destruct c2 as [[] [] [] [] [] [] [] []]; try reflexivity. discriminate X.
  - induction s as [| c rest IH]; [reflexivity |].
    destruct (@lowerHex_head _ _ Hs) as (d & _ & _ & _ & W & _).
    cbn [removeWhitespace]. rewrite W, (IH (proj2 Hs)). reflexivity.
Qed.

(** Reading the digits two at a time gives the bytes of the same number. *)
Lemma parseHexPairs_lowerHex {S : Type} (s : string) :
  lowerHex s -> Nat.even (String.length s) = true ->
  forall (pos : Z) (st : S),
  exists bytes,
    parseHexPairs pos s st = (Ok bytes, st)
    /\ Forall isByte bytes
    /\ (2 * List.length bytes = String.length s)%nat
    /\ forall a, beValue a bytes = hexNumber a s.
Proof.
  induction s as [| c | c1 c2 rest IH] using ReturnsFacts.string_pairs_ind;
    intros Hs Heven pos st.
  - exists []. split; [reflexivity |]. split; [constructor |]. split; reflexivity.
  - discriminate Heven.
  - destruct Hs as [(d1 & Hd1 & ->) [(d2 & Hd2 & ->) Hrest]].
    destruct (IH Hrest Heven (pos + 2) st) as (bytes & Hrun & Hbytes & Hlen & Hval).
    assert (Hb : isByte (16 * d1 + d2)) by (unfold isByte; lia).
    exists (16 * d1 + d2 :: bytes).
    cbn [parseHexPairs]. rewrite (HexFacts.parseHexPair_digits Hd1 Hd2), Hrun.
    rewrite Z.mod_small by exact Hb.
    split; [reflexivity |]. split; [now constructor |].
    split; [cbn [List.length String.length]; lia |].
    intros a. cbn [beValue hexNumber]. rewrite Hval.
    destruct (HexFacts.hexVal_hexDigit Hd1) as (-> & _).
    destruct (HexFacts.hexVal_hexDigit Hd2) as (-> & _). f_equal. ring.
Qed.

Lemma hexToBytes_lowerHex {S : Type} (s : string) (st : S) :
  lowerHex s ->
  exists bytes,
    hexToBytes s st = (Ok bytes, st)
    /\ Forall isByte bytes
    /\ (String.length s <= 2 * List.length bytes <= String.length s + 1)%nat
    /\ beValue 0 bytes = hexNumber 0 s.
Proof.
  intros Hs. unfold hexToBytes.
  destruct (@lowerHex_clean s Hs) as [-> ->].
  destruct (Nat.even (String.length s)) eqn:Heven.
  - destruct (@parseHexPairs_lowerHex S s Hs Heven 0 st) as (bytes & Hrun & Hb & Hlen & Hval).
    exists bytes. split; [exact Hrun |]. split; [exact Hb |]. split; [lia | apply Hval].
  - assert (Hs' : lowerHex (String "0" s))
      by (split; [exists 0; split; [lia | reflexivity] | exact Hs]).
    assert (Heven' : Nat.even (String.length (String "0" s)) = true).
    { cbn [String.length]. rewrite Nat.even_succ, <- Nat.negb_even, Heven. reflexivity. }
    destruct (@parseHexPairs_lowerHex S _ Hs' Heven' 0 st) as (bytes & Hrun & Hb & Hlen & Hval).
    exists bytes. cbn [String.length] in Hlen.
    split; [exact Hrun |]. split; [exact Hb |]. split; [lia |]. rewrite Hval. reflexivity.
Qed.

Lemma beValue_zeros (n : nat) (bytes : Bytes) :
  beValue 0 (zeros n ++ bytes) = beValue 0 bytes.
Proof. induction n as [| n IH]; [reflexivity | exact IH]. Qed.

(** The 32 bytes of a word. *)
Lemma word_bytes {S : Type} (value : Word) (st : S) :
  isWord value ->
  exists bytes,
    bigintToBytes value 32 st = (Ok bytes, st)
    /\ List.length bytes = 32%nat
    /\ beValue 0 bytes = value.
Proof.
  intros [Hvalue Hfits]. unfold bigintToBytes, toString16, padStart0.
  replace (value <? 0) with false by (symmetry; apply Z.ltb_ge; exact Hvalue).
  destruct (@hexOfPos_spec value EmptyString Hvalue I) as (Hlow & k & Hk & Hlen & Hmin & Hval).
  cbn [String.length] in Hlen.
  set (digits := hexOfPos value EmptyString) in *.
  destruct (@repeatChar_zero (32 * 2 - String.length digits) digits Hlow)
    as (Hpad & Hpadlen & Hpadval).
  destruct (@hexToBytes_lowerHex S _ st Hpad) as (bytes & Hrun & _ & Hsize & Hnum).
  exists bytes. rewrite Hpadlen in Hsize. rewrite Hpadval, (Hval 0) in Hnum.
  cbn [hexNumber] in Hnum. rewrite Z.mul_0_l, Z.add_0_l in Hnum.
  split; [exact Hrun |]. split; [| exact Hnum].
  assert (Hk64 : (k <= 64)%nat).
  { apply Hmin; [| lia]. change (16 ^ Z.of_nat 64) with (2 ^ 256). exact Hfits. }
  lia.
Qed.

End BigintFacts.

(** X2.  [bigintToBytes(value, length)] of a number that is not negative
    gives bytes that [bytesToBigint] reads back as [value].  There are at
    least [length] of them, and exactly [length] when [value] fits in that
    many bytes. *)
Theorem bytesToBigint_bigintToBytes {S : Type} (value : Z) (length : nat) (st : S) :
  0 <= value ->
  exists bytes,
    bigintToBytes value length st = (Ok bytes, st)
    /\ Forall isByte bytes
    /\ bytesToBigint bytes st = (Ok value, st)
    /\ (length <= List.length bytes)%nat
    /\ ((1 <= length)%nat -> value < 256 ^ Z.of_nat length -> List.length bytes = length).
Proof.
  intros Hvalue. unfold bigintToBytes, toString16, padStart0.
  replace (value <? 0) with false by (symmetry; apply Z.ltb_ge; exact Hvalue).
  destruct (@BigintFacts.hexOfPos_spec value EmptyString Hvalue I)
    as (Hlow & k & Hk & Hlen & Hmin & Hval).
  cbn [String.length] in Hlen.
  set (digits := hexOfPos value EmptyString) in *.
  destruct (@BigintFacts.repeatChar_zero (length * 2 - String.length digits) digits Hlow)
    as (Hpad & Hpadlen & Hpadval).
  destruct (@BigintFacts.hexToBytes_lowerHex S _ st Hpad) as (bytes & Hrun & Hbytes & Hsize & Hnum).
  exists bytes. rewrite Hpadlen in Hsize. rewrite Hpadval, (Hval 0) in Hnum.
  cbn [hexNumber] in Hnum. rewrite Z.mul_0_l, Z.add_0_l in Hnum.
  split; [exact Hrun |]. split; [exact Hbytes |]. split; [| split; [lia |]].
  - unfold bytesToBigint. destruct bytes as [| b bs]; [cbn [List.length] in Hsize; lia |].
    unfold ret. rewrite Hnum. reflexivity.
  - intros Hone Hfits.
    assert (Hk2 : (k <= 2 * length)%nat).
    { apply Hmin; [| lia]. rewrite Nat2Z.inj_mul, Z.pow_mul_r by lia. exact Hfits. }
    lia.
Qed.


Lemma bytesToBigint_bigintToBytes_witness :
  exists bytes,
    bigintToBytes 4660 32 tt = (Ok bytes, tt)
    /\ bytesToBigint bytes tt = (Ok 4660, tt)
    /\ List.length bytes = 32%nat.
Proof.
  destruct (@bytesToBigint_bigintToBytes unit 4660 32 tt) as (bytes & Hrun & _ & Hback & _ & Hlen);
    [lia |].
  exists bytes. repeat split; [exact Hrun | exact Hback |].
  apply Hlen; [lia | reflexivity].
Defined.

(* ================================================================== *)
(** * The world state keeps its maps in order *)
(* ================================================================== *)

Module MapLaws.
Section MapLaws.
Context {K V : Type} `{EqKey K}.

Lemma keqb_neq (a b : K) : a <> b -> keqb a b = false.
Proof.
  intros Hne. destruct (keqb a b) eqn:E; [| reflexivity].
  apply keqb_spec in E. contradiction.
Qed.

Lemma get_set_other (k k' : K) (v : V) (m : list (K * V)) :
  k' <> k -> JsMap.get k' (JsMap.set k v m) = JsMap.get k' m.
Proof.
  intros Hne. induction m as [| [k0 v0] m IH]; simpl.
  - now rewrite keqb_neq.
  - destruct (keqb k k0) eqn:E; simpl; [| now rewrite IH].
    apply keqb_spec in E. subst k0. now rewrite keqb_neq.
Qed.

Lemma get_delete_other (k k' : K) (m : list (K * V)) :
  k' <> k -> JsMap.get k' (JsMap.delete k m) = JsMap.get k' m.
Proof.
  intros Hne. induction m as [| [k0 v0] m IH]; simpl; [reflexivity |].
  destruct (keqb k k0) eqn:E; simpl; [| now rewrite IH].
  apply keqb_spec in E. subst k0. now rewrite keqb_neq.
Qed.

Lemma get_none_keys (k : K) (m : list (K * V)) :
  ~ In k (JsMap.keys m) -> JsMap.get k m = None.
Proof.
  induction m as [| [k0 v0] m IH]; simpl; [reflexivity |].
  intros Hnot. rewrite keqb_neq by (intros ->; apply Hnot; now left).
  apply IH. intros Hin. apply Hnot. now right.
Qed.

Lemma get_delete_same (k : K) (m : list (K * V)) :
  NoDup (JsMap.keys m) -> JsMap.get k (JsMap.delete k m) = None.
Proof.
  induction m as [| [k0 v0] m IH]; simpl; [reflexivity |].
  intros Hnodup. inversion Hnodup as [| ? ? Hnot Hrest]; subst.
  destruct (keqb k k0) eqn:E.
  - apply keqb_spec in E. subst k0. now apply get_none_keys.
  - simpl. rewrite E. now apply IH.
Qed.

Lemma set_absent (k : K) (v : V) (m : list (K * V)) :
  JsMap.get k m = None -> JsMap.set k v m = m ++ [(k, v)].
Proof.
  induction m as [| [k0 v0] m IH]; simpl; [reflexivity |].
  destruct (keqb k k0); [discriminate |]. intros Hnone. now rewrite IH.
Qed.

Lemma keys_set_present (k : K) (v v0 : V) (m : list (K * V)) :
  JsMap.get k m = Some v0 -> JsMap.keys (JsMap.set k v m) = JsMap.keys m.
Proof.
  induction m as [| [k1 v1] m IH]; simpl; [discriminate |].
  destruct (keqb k k1); [reflexivity |]. intros Hget. simpl. f_equal. now apply IH.
Qed.

Lemma NoDup_keys_set (k : K) (v : V) (m : list (K * V)) :
  NoDup (JsMap.keys m) -> NoDup (JsMap.keys (JsMap.set k v m)).
Proof.
  intros Hm. destruct (JsMap.get k m) as [v0 |] eqn:Hget.
  - now rewrite (@keys_set_present k v v0 m Hget).
  - rewrite (@set_absent k v m Hget). unfold JsMap.keys. rewrite map_app. simpl.
    apply NoDup_app; [exact Hm | repeat constructor; auto |].
    intros a Hin [<- | []].
    unfold JsMap.keys in Hin. apply in_map_iff in Hin. destruct Hin as ([k1 v1] & <- & Hin).
    simpl in Hget. clear Hm. induction m as [| [k2 v2] m IH]; [contradiction |].
    simpl in Hget. destruct (keqb k1 k2) eqn:E; [discriminate |].
    destruct Hin as [[= -> ->] | Hin]; [| now apply IH].
    rewrite JsMapFacts.keqb_refl in E. discriminate.
Qed.

Lemma NoDup_keys_delete (k : K) (m : list (K * V)) :
  NoDup (JsMap.keys m) -> NoDup (JsMap.keys (JsMap.delete k m)).
Proof.
  induction m as [| [k0 v0] m IH]; simpl; [auto |].
  intros Hnodup. inversion Hnodup as [| ? ? Hnot Hrest]; subst.
  destruct (keqb k k0); [exact Hrest |]. simpl. constructor; [| now apply IH].
  intros Hin. apply Hnot. now apply (@JsMapFacts.keys_delete _ _ _ k m).
Qed.

End MapLaws.

(** Two keys of a map of references with distinct references name different
    objects. *)
Lemma get_distinct (k1 k2 : string) (l : loc) (m : list (string * loc)) :
  distinctRefs m -> JsMap.get k1 m = Some l -> JsMap.get k2 m = Some l -> k1 = k2.
Proof.
  unfold distinctRefs. induction m as [| [k0 l0] m IH]; simpl; [discriminate |].
  intros Hnodup. inversion Hnodup as [| ? ? Hnot Hrest]; subst.
  assert (Hin : forall k, JsMap.get k m = Some l0 -> False).
  { intros k Hget. apply Hnot. apply JsMapFacts.get_In in Hget.
    change l0 with (snd (k, l0)). now apply in_map. }
  destruct (String.eqb k1 k0) eqn:E1, (String.eqb k2 k0) eqn:E2.
  - apply String.eqb_eq in E1, E2. congruence.
  - intros [= ->] Hget. destruct (Hin _ Hget).
  - intros Hget [= ->]. destruct (Hin _ Hget).
  - now apply IH.
Qed.

End MapLaws.

Module CoherentFacts.
Import World.

Lemma keyed_ext (h h' : loc -> Account) (m : list (string * loc)) :
  (forall e, In e m -> h' (snd e) = h (snd e)) ->
  keyedByAddress h m -> keyedByAddress h' m.
Proof.
  unfold keyedByAddress. rewrite !Forall_forall. intros Hsame Hm e Hin.
  rewrite (Hsame e Hin). now apply Hm.
Qed.

Lemma keyed_below (h : loc -> Account) (a : Account) (next : loc) (m : list (string * loc)) :
  refsBelow next m -> keyedByAddress h m -> keyedByAddress (upd h next a) m.
Proof.
  intros Hrefs. apply keyed_ext. intros e Hin.
  unfold refsBelow in Hrefs. rewrite Forall_forall in Hrefs. specialize (Hrefs e Hin).
  cbv beta in Hrefs. apply WorldFacts.upd_other. unfold loc in *. lia.
Qed.

Lemma keyed_in_place (h : loc -> Account) (a : Account) (l : loc) (m : list (string * loc)) :
  address a = address (h l) -> keyedByAddress h m -> keyedByAddress (upd h l a) m.
Proof.
  unfold keyedByAddress. rewrite !Forall_forall. intros Haddr Hm e Hin.
  unfold upd. destruct (Nat.eqb (snd e) l) eqn:E.
  - apply Nat.eqb_eq in E. rewrite Haddr, <- E. now apply Hm.
  - now apply Hm.
Qed.

Lemma keyed_deref (h : loc -> Account) (m : list (string * loc)) :
  keyedByAddress h m
  <-> Forall (fun p => fst p = addressToKey (address (snd p)))
             (map (fun e => (fst e, h (snd e))) m).
Proof. unfold keyedByAddress. rewrite Forall_map. reflexivity. Qed.

Lemma copyEntries_refs {A : Type} (src : list (string * loc)) :
  forall (h : loc -> A) (next : loc),
    map snd (fst (fst (copyEntries src h next))) = seq next (List.length src).
Proof.
  induction src as [| [key l] rest IH]; intros h next; simpl; [reflexivity |].
  specialize (IH (upd h next (h l)) (S next)).
  destruct (copyEntries rest (upd h next (h l)) (S next)) as [[copied h'] next'].
  simpl in *. now rewrite IH.
Qed.

Lemma copyEntries_pointwise {A : Type} (P : A -> Prop) (src : list (string * loc)) :
  forall (h : loc -> A) (next : loc),
    (forall l, P (h l)) -> forall l, P (snd (fst (copyEntries src h next)) l).
Proof.
  induction src as [| [key l0] rest IH]; intros h next Hh l; simpl; [apply Hh |].
  specialize (IH (upd h next (h l0)) (S next)).
  destruct (copyEntries rest (upd h next (h l0)) (S next)) as [[copied h'] next'].
  simpl in *. apply IH. intros l1. unfold upd. destruct (Nat.eqb l1 next); apply Hh.
Qed.

Lemma coherent_emptyWorld : coherent emptyWorld.
Proof.
  split; [apply WorldFacts.wellFormed_emptyWorld |].
  split; [constructor |]. split; [constructor |]. split; [constructor |].
  intros l. constructor.
Qed.

Lemma coherent_putAccount (a : Account) (w : InMemoryWorldState) :
  coherent w -> coherent (putAccount a w).
Proof.
  intros (Hwf & Hacc & Hsto & Hsnaps & Hmaps).
  split; [now apply WorldFacts.wellFormed_putAccount |].
  destruct Hwf as (Hrefs & _ & Hsrefs).
  split; [| split; [exact Hsto | split; [| exact Hmaps]]]; simpl.
  - apply JsMapFacts.Forall_set.
    + now apply keyed_below.
    + simpl. now rewrite WorldFacts.upd_same.
  - rewrite Forall_forall in *. intros e Hin. destruct (Hsnaps e Hin) as [Hk Hd].
    split; [| exact Hd]. apply keyed_below; [| exact Hk]. apply (Hsrefs e Hin).
Qed.

Lemma coherent_writeObj (l : loc) (a : Account) (w : InMemoryWorldState) :
  address a = address (objs w l) -> coherent w -> coherent (writeObj l a w).
Proof.
  intros Haddr (Hwf & Hacc & Hsto & Hsnaps & Hmaps).
  split; [now apply WorldFacts.wellFormed_writeObj |].
  split; [| split; [exact Hsto | split; [| exact Hmaps]]]; simpl.
  - now apply keyed_in_place.
  - rewrite Forall_forall in *. intros e Hin. destruct (Hsnaps e Hin) as [Hk Hd].
    split; [| exact Hd]. now apply keyed_in_place.
Qed.

Lemma coherent_newStorageMap (key : string) (w : InMemoryWorldState) :
  JsMap.has key (storages w) = false -> coherent w -> coherent (newStorageMap key w).
Proof.
  intros Hhas (Hwf & Hacc & Hsto & Hsnaps & Hmaps).
  assert (Hnone : JsMap.get key (storages w) = None).
  { unfold JsMap.has in Hhas. destruct (JsMap.get key (storages w)); [discriminate | reflexivity]. }
  destruct Hwf as (Hrefs & Hmrefs & Hsrefs).
  split; [| split; [exact Hacc | split; [| split]]]; simpl.
  - split; [exact Hrefs | split]; simpl.
    + apply JsMapFacts.Forall_set; [| simpl; lia].
      apply (WorldFacts.refsBelow_mono (n := maps_next w)); auto.
    + apply (WorldFacts.snapshotsBelow_mono (n := objs_next w) (k := maps_next w)); auto.
  - unfold distinctRefs. rewrite (@MapLaws.set_absent _ _ _ key (maps_next w) (storages w) Hnone), map_app. simpl.
    apply NoDup_app; [exact Hsto | repeat constructor; auto |].
    intros l Hin [<- | []].
    apply in_map_iff in Hin. destruct Hin as (e & He & Hin).
    unfold refsBelow in Hmrefs. rewrite Forall_forall in Hmrefs.
    specialize (Hmrefs e Hin). cbv beta in Hmrefs. unfold loc in *. lia.
  - exact Hsnaps.
  - intros l. unfold upd. destruct (Nat.eqb l (maps_next w)); [constructor | apply Hmaps].
Qed.

Lemma coherent_writeMap (l : loc) (m : list (string * Value)) (w : InMemoryWorldState) :
  NoDup (JsMap.keys m) -> coherent w -> coherent (writeMap l m w).
Proof.
  intros Hm (Hwf & Hacc & Hsto & Hsnaps & Hmaps).
  split; [destruct Hwf as (? & ? & ?); repeat split; assumption |].
  split; [exact Hacc | split; [exact Hsto | split; [exact Hsnaps |]]].
  intros l'. simpl. unfold upd. destruct (Nat.eqb l' l); [exact Hm | apply Hmaps].
Qed.

Lemma coherent_setStorageAt (addr : Address) (storageKey : string) (value : Value)
      (w : InMemoryWorldState) :
  coherent w -> coherent (setStorageAt addr storageKey value w).
Proof.
  intros Hw. unfold setStorageAt.
  set (w1 := if JsMap.has (addressToKey addr) (storages w) then w
             else newStorageMap (addressToKey addr) w).
  assert (Hw1 : coherent w1).
  { subst w1. destruct (JsMap.has (addressToKey addr) (storages w)) eqn:Hhas; [exact Hw |].
    now apply coherent_newStorageMap. }
  clearbody w1.
  destruct (JsMap.get (addressToKey addr) (storages w1)) as [l |]; [| exact Hw1].
  pose proof (proj2 (proj2 (proj2 (proj2 Hw1))) l) as Hl.
  destruct (isBigZero value); apply coherent_writeMap; auto.
  - now apply MapLaws.NoDup_keys_delete.
  - now apply MapLaws.NoDup_keys_set.
Qed.

Lemma coherent_setStorage (addr : Address) (key value : Word) (w : InMemoryWorldState) :
  coherent w -> coherent (setStorage addr key value w).
Proof. apply coherent_setStorageAt. Qed.

Lemma coherent_setStorageAny (addr : Address) (key value : Value) (w : InMemoryWorldState) :
  coherent w -> coherent (snd (setStorageAny addr key value w)).
Proof.
  intros Hw. unfold setStorageAny.
  destruct (storageKeyToStringAny key); [now apply coherent_setStorageAt | exact Hw].
Qed.

Ltac in_place :=
  apply coherent_putAccount; apply coherent_writeObj; [reflexivity | assumption].

Lemma coherent_applyMutation (m : Mutation) (w : InMemoryWorldState) :
  coherent w -> coherent (applyMutation m w).
Proof.
  intros Hw. destruct m as [a | addr amount | addr amount | addr | addr n | addr c
                           | addr key value]; simpl.
  - now apply coherent_putAccount.
  - unfold addBalance. destruct (amount =? 0); [exact Hw |].
    destruct (getAccount addr w) as [l |]; [in_place | now apply coherent_putAccount].
  - unfold subBalance. destruct (amount =? 0); [exact Hw |].
    destruct (getAccount addr w) as [l |]; [| exact Hw].
    destruct (balance (objs w l) <? amount); [exact Hw |]. simpl. in_place.
  - unfold incrementNonce.
    destruct (getAccount addr w) as [l |]; [in_place | now apply coherent_putAccount].
  - unfold setNonce.
    destruct (getAccount addr w) as [l |]; [in_place | now apply coherent_putAccount].
  - unfold setCode.
    destruct (getAccount addr w) as [l |]; [in_place | now apply coherent_putAccount].
  - now apply coherent_setStorageAny.
Qed.

Lemma coherent_applyMutations (ms : list Mutation) :
  forall w, coherent w -> coherent (applyMutations ms w).
Proof.
  unfold applyMutations.
  induction ms as [| m ms IH]; intros w Hw; simpl; [exact Hw |].
  apply IH. now apply coherent_applyMutation.
Qed.

Lemma coherent_snapshot (w : InMemoryWorldState) :
  coherent w -> coherent (snd (snapshot w)).
Proof.
  intros (Hwf & Hacc & Hsto & Hsnaps & Hmaps).
  split; [now apply WorldFacts.wellFormed_snapshot |].
  pose proof Hwf as (Hrefs & Hmrefs & Hsrefs). unfold snapshot.
  pose proof (@WorldFacts.copyEntries_spec _ (accounts w) (objs w) (objs_next w) Hrefs) as Ha.
  pose proof (@copyEntries_refs _ (storages w) (maps w) (maps_next w)) as Hr.
  pose proof (@copyEntries_pointwise _ (fun m => NoDup (JsMap.keys m)) (storages w)
                (maps w) (maps_next w) Hmaps) as Hp.
  destruct (copyEntries (accounts w) (objs w) (objs_next w)) as [[accountsCopy objs'] on'].
  destruct (copyEntries (storages w) (maps w) (maps_next w)) as [[storagesCopy maps'] mn'].
  destruct Ha as (Hon & Harange & Haold & Haview). simpl in Hr, Hp. simpl.
  assert (Hold : forall m, refsBelow (objs_next w) m ->
                           keyedByAddress (objs w) m -> keyedByAddress objs' m).
  { intros m Hm. apply keyed_ext. intros e Hin. apply Haold.
    unfold refsBelow in Hm. rewrite Forall_forall in Hm. now apply Hm. }
  split; [now apply Hold | split; [exact Hsto | split; [| exact Hp]]].
  apply JsMapFacts.Forall_set.
  - rewrite Forall_forall in *. intros e Hin. destruct (Hsnaps e Hin) as [Hk Hd].
    split; [| exact Hd]. apply Hold; [apply (Hsrefs e Hin) | exact Hk].
  - simpl. split.
    + apply keyed_deref. rewrite Haview. now apply keyed_deref.
    + unfold distinctRefs. rewrite Hr. apply seq_NoDup.
Qed.

Lemma coherent_revert (id : Z) (w : InMemoryWorldState) :
  coherent w -> coherent (snd (revert id w)).
Proof.
  intros Hw. pose proof Hw as (Hwf & Hacc & Hsto & Hsnaps & Hmaps).
  split; [now apply WorldFacts.wellFormed_revert |]. unfold revert.
  destruct (JsMap.get id (snapshots w)) as [snap |] eqn:Hg; [| apply Hw]. simpl.
  apply JsMapFacts.get_In in Hg. rewrite Forall_forall in Hsnaps.
  destruct (Hsnaps _ Hg) as [Hk Hd].
  split; [exact Hk | split; [exact Hd | split; [| exact Hmaps]]].
  rewrite Forall_forall. intros e Hin. apply filter_In in Hin. apply Hsnaps, Hin.
Qed.

Lemma coherent_commit (id : option Z) (w : InMemoryWorldState) :
  coherent w -> coherent (commit id w).
Proof.
  intros Hw. pose proof Hw as (Hwf & Hacc & Hsto & Hsnaps & Hmaps).
  split; [now apply WorldFacts.wellFormed_commit |]. unfold commit.
  destruct id as [id |].
  - split; [exact Hacc | split; [exact Hsto | split; [| exact Hmaps]]]. simpl.
    rewrite Forall_forall in *. intros e Hin. apply filter_In in Hin. apply Hsnaps, Hin.
  - destruct (currentSnapshotId w); [| apply Hw].
    split; [exact Hacc | split; [exact Hsto | split; [| exact Hmaps]]]. simpl.
    now apply JsMapFacts.Forall_delete.
Qed.

End CoherentFacts.

(** X3.  The maps of the world state stay in order.  The empty world state
    has every account under the key of its own address, no inner storage
    [Map] under two keys and no key twice in a [Map]; and every operation
    of the interface, however it ends, leaves a world state that has this
    again. *)
Theorem world_state_stays_coherent :
  coherent emptyWorld
  /\ forall w, coherent w ->
       (forall m, coherent (applyMutation m w))
       /\ coherent (snd (World.snapshot w))
       /\ (forall id, coherent (snd (World.revert id w)))
       /\ (forall id, coherent (World.commit id w)).
Proof.
  split; [apply CoherentFacts.coherent_emptyWorld |].
  intros w Hw. split; [| split; [| split]].
  - intros m. now apply CoherentFacts.coherent_applyMutation.
  - now apply CoherentFacts.coherent_snapshot.
  - intros id. now apply CoherentFacts.coherent_revert.
  - intros id. now apply CoherentFacts.coherent_commit.
Qed.

(* ================================================================== *)
(** * Storage: what is written is read back, and nothing else changes *)
(* ================================================================== *)

Module StorageFacts.
Import World.

(** The key string of a word denotes the word. *)
Lemma storageKey_number (key : Word) :
  0 <= key -> hexNumber 0 (storageKeyToString key) = key.
Proof.
  intros Hkey. unfold storageKeyToString, toString16, padStart0.
  replace (key <? 0) with false by (symmetry; apply Z.ltb_ge; exact Hkey).
  destruct (@BigintFacts.hexOfPos_spec key EmptyString Hkey I) as (Hlow & k & _ & _ & _ & Hval).
  destruct (@BigintFacts.repeatChar_zero
              (64 - String.length (hexOfPos key EmptyString)) _ Hlow) as (_ & _ & ->).
  rewrite (Hval 0). cbn [hexNumber]. lia.
Qed.

Lemma storageKey_inj (key key' : Word) :
  0 <= key -> 0 <= key' -> storageKeyToString key = storageKeyToString key' -> key = key'.
Proof.
  intros H1 H2 Heq. rewrite <- (storageKey_number H1), <- (storageKey_number H2), Heq.
  reflexivity.
Qed.

Lemma has_get {V : Type} (k : string) (m : list (string * V)) :
  JsMap.has k m = false <-> JsMap.get k m = None.
Proof. unfold JsMap.has. destruct (JsMap.get k m); split; congruence. Qed.

(** The first step of [setStorage]: the address gets an inner [Map] when it
    has none, and every slot reads as before. *)
Lemma ensure_storage (key : string) (w : InMemoryWorldState) :
  coherent w ->
  let w1 := if JsMap.has key (storages w) then w else newStorageMap key w in
  coherent w1
  /\ (exists l, JsMap.get key (storages w1) = Some l)
  /\ (forall a k, getStorageAt a k w1 = getStorageAt a k w)
  /\ observableAccounts w1 = observableAccounts w.
Proof.
  intros Hw. destruct (JsMap.has key (storages w)) eqn:Hhas; cbv zeta.
  - split; [exact Hw |]. split; [| split; reflexivity].
    unfold JsMap.has in Hhas. destruct (JsMap.get key (storages w)) as [l |]; [| discriminate].
    now exists l.
  - split; [now apply CoherentFacts.coherent_newStorageMap |].
    split; [exists (maps_next w); apply JsMapFacts.get_set_same |].
    split; [| reflexivity].
    apply has_get in Hhas. destruct Hw as ((_ & Hmrefs & _) & _).
    intros a k. unfold getStorageAt. cbn [storages maps newStorageMap].
    destruct (String.eqb (addressToKey a) key) eqn:E.
    + apply String.eqb_eq in E. rewrite E, JsMapFacts.get_set_same, Hhas.
      now rewrite WorldFacts.upd_same.
    + apply String.eqb_neq in E. rewrite (MapLaws.get_set_other _ _ E).
      destruct (JsMap.get (addressToKey a) (storages w)) as [l |] eqn:Hget; [| reflexivity].
      rewrite WorldFacts.upd_other; [reflexivity |].
      apply JsMapFacts.get_In in Hget. unfold refsBelow in Hmrefs.
      rewrite Forall_forall in Hmrefs. specialize (Hmrefs _ Hget). simpl in Hmrefs. lia.
Qed.

(** The second step: the inner [Map] of the address is changed in place. *)
Lemma getStorageAt_writeMap (addr a : Address) (l : loc) (m : list (string * Value))
      (k : string) (w : InMemoryWorldState) :
  coherent w -> JsMap.get (addressToKey addr) (storages w) = Some l ->
  getStorageAt a k (writeMap l m w)
  = if String.eqb (addressToKey a) (addressToKey addr)
    then orZero (JsMap.get k m)
    else getStorageAt a k w.
Proof.
  intros (_ & _ & Hsto & _) Hget. unfold getStorageAt. cbn [storages maps writeMap].
  destruct (String.eqb (addressToKey a) (addressToKey addr)) eqn:E.
  - apply String.eqb_eq in E. rewrite E, Hget. now rewrite WorldFacts.upd_same.
  - apply String.eqb_neq in E.
    destruct (JsMap.get (addressToKey a) (storages w)) as [l' |] eqn:Hget'; [| reflexivity].
    rewrite WorldFacts.upd_other; [reflexivity |].
    intros ->. apply E. exact (@MapLaws.get_distinct _ _ _ _ Hsto Hget' Hget).
Qed.

(** What [getStorage] finds after [setStorage], by the key strings: the
    value that was set when it is a bigint, and [0n] when it is not. *)
Lemma setStorageAt_reads (addr a : Address) (key k : string) (value : Value)
      (w : InMemoryWorldState) :
  coherent w ->
  getStorageAt a k (setStorageAt addr key value w)
  = if String.eqb (addressToKey a) (addressToKey addr) && String.eqb k key
    then orZero (Some value)
    else getStorageAt a k w.
Proof.
  intros Hw. unfold setStorageAt.
  destruct (ensure_storage (addressToKey addr) Hw) as (Hw1 & (l & Hget) & Hsame & _).
  set (w1 := if JsMap.has (addressToKey addr) (storages w) then w
             else newStorageMap (addressToKey addr) w) in *.
  clearbody w1. rewrite Hget.
  pose proof (proj2 (proj2 (proj2 (proj2 Hw1))) l) as Hnodup.
  assert (Hread : forall m,
             orZero (JsMap.get key m) = orZero (Some value) ->
             (forall sk, sk <> key -> JsMap.get sk m = JsMap.get sk (maps w1 l)) ->
             getStorageAt a k (writeMap l m w1)
             = if String.eqb (addressToKey a) (addressToKey addr) && String.eqb k key
               then orZero (Some value)
               else getStorageAt a k w).
  { intros m Hkey Hrest. rewrite (@getStorageAt_writeMap addr a l m k w1 Hw1 Hget), Hsame.
    destruct (String.eqb (addressToKey a) (addressToKey addr)) eqn:E; [| reflexivity].
    apply String.eqb_eq in E. cbn [andb].
    destruct (String.eqb k key) eqn:Ek.
    - apply String.eqb_eq in Ek. rewrite Ek. exact Hkey.
    - apply String.eqb_neq in Ek. rewrite (Hrest _ Ek), <- Hsame.
      unfold getStorageAt. rewrite E, Hget. reflexivity. }
  destruct (isBigZero value) eqn:Hzero; apply Hread.
  - rewrite (@MapLaws.get_delete_same _ _ _ _ _ Hnodup).
    destruct value as [n | | |]; try discriminate.
    cbn [isBigZero] in Hzero. apply Z.eqb_eq in Hzero. now subst n.
  - intros sk Hsk. now apply MapLaws.get_delete_other.
  - now rewrite JsMapFacts.get_set_same.
  - intros sk Hsk. now apply MapLaws.get_set_other.
Qed.

Lemma setStorage_reads (addr a : Address) (key value k : Word) (w : InMemoryWorldState) :
  coherent w ->
  getStorage a k (setStorage addr key value w)
  = if String.eqb (addressToKey a) (addressToKey addr)
       && String.eqb (storageKeyToString k) (storageKeyToString key)
    then value
    else getStorage a k w.
Proof. intros Hw. unfold getStorage, setStorage. now rewrite setStorageAt_reads. Qed.

Lemma setStorageAt_accounts (addr : Address) (key : string) (value : Value)
      (w : InMemoryWorldState) :
  accounts (setStorageAt addr key value w) = accounts w
  /\ objs (setStorageAt addr key value w) = objs w.
Proof.
  unfold setStorageAt.
  destruct (JsMap.has (addressToKey addr) (storages w)); cbn [storages newStorageMap];
    match goal with |- context [match ?x with _ => _ end] => destruct x end;
    try destruct (isBigZero value); split; reflexivity.
Qed.

Lemma setStorage_accounts (addr : Address) (key value : Word) (w : InMemoryWorldState) :
  accounts (setStorage addr key value w) = accounts w
  /\ objs (setStorage addr key value w) = objs w.
Proof. apply setStorageAt_accounts. Qed.

(** [setStorage] with any value as key: one write under the key's string, or
    no change at all when the key has none. *)
Lemma setStorageAny_cases (addr : Address) (key value : Value) (w : InMemoryWorldState) :
  (storageKeyToStringAny key = None
   /\ exists e, setStorageAny addr key value w = (Throw e, w))
  \/ exists storageKey,
      storageKeyToStringAny key = Some storageKey
      /\ setStorageAny addr key value w = (Ok tt, setStorageAt addr storageKey value w).
Proof.
  unfold setStorageAny. destruct (storageKeyToStringAny key) as [storageKey |].
  - right. now exists storageKey.
  - left. split; [reflexivity |]. eexists. reflexivity.
Qed.

End StorageFacts.

(** X4.  In a world state whose maps are in order, [getStorage] after
    [setStorage(address, key, value)] gives [value] for that slot, also when
    [value] is zero and the slot is deleted; every other slot, of this or of
    another address, reads as before; and no account changes. *)
Theorem storage_write_then_read (addr : Address) (key value : Word) (w : InMemoryWorldState) :
  coherent w ->
  World.getStorage addr key (World.setStorage addr key value w) = value
  /\ (forall addr' key',
        0 <= key -> 0 <= key' ->
        World.addressToKey addr' <> World.addressToKey addr \/ key' <> key ->
        World.getStorage addr' key' (World.setStorage addr key value w)
        = World.getStorage addr' key' w)
  /\ World.observableAccounts (World.setStorage addr key value w)
     = World.observableAccounts w.
Proof.
  intros Hw. split; [| split].
  - rewrite (StorageFacts.setStorage_reads addr addr key value key Hw).
    now rewrite !String.eqb_refl.
  - intros addr' key' Hkey Hkey' Hdiff.
    rewrite (StorageFacts.setStorage_reads addr addr' key value key' Hw).
    destruct (String.eqb (World.addressToKey addr') (World.addressToKey addr)) eqn:E;
      [| reflexivity].
    destruct (String.eqb (storageKeyToString key') (storageKeyToString key)) eqn:Ek;
      [| reflexivity].
    apply String.eqb_eq in E, Ek. apply StorageFacts.storageKey_inj in Ek; [| lia | lia].
    destruct Hdiff; contradiction.
  - unfold World.observableAccounts.
    destruct (StorageFacts.setStorage_accounts addr key value w) as [-> ->]. reflexivity.
Qed.

Lemma storage_write_then_read_witness :
  coherent emptyWorld
  /\ World.getStorage [1] 7 (World.setStorage [1] 7 0 emptyWorld) = 0
  /\ World.getStorage [1] 8 (World.setStorage [1] 7 9 emptyWorld)
     = World.getStorage [1] 8 emptyWorld.
Proof.
  split; [exact CoherentFacts.coherent_emptyWorld |]. split.
  - exact (proj1 (@storage_write_then_read [1] 7 0 emptyWorld
                    CoherentFacts.coherent_emptyWorld)).
  - apply (proj1 (proj2 (@storage_write_then_read [1] 7 9 emptyWorld
                           CoherentFacts.coherent_emptyWorld))); [lia | lia |].
    right. lia.
Defined.

(* ================================================================== *)
(** * Accounts: what is written is read back, and nothing else changes *)
(* ================================================================== *)

Module AccountFacts.
Import World.

Lemma getBalance_accountAt (addr : Address) (w : InMemoryWorldState) :
  getBalance addr w = match accountAt addr w with Some a => balance a | None => 0 end.
Proof. unfold getBalance, accountAt. now destruct (getAccount addr w). Qed.

Lemma getNonce_accountAt (addr : Address) (w : InMemoryWorldState) :
  getNonce addr w = match accountAt addr w with Some a => nonce a | None => 0 end.
Proof. unfold getNonce, accountAt. now destruct (getAccount addr w). Qed.

Lemma getCode_accountAt (addr : Address) (w : InMemoryWorldState) :
  getCode addr w = match accountAt addr w with Some a => code a | None => [] end.
Proof. unfold getCode, accountAt. now destruct (getAccount addr w). Qed.

Lemma accountExists_accountAt (addr : Address) (w : InMemoryWorldState) :
  accountExists addr w = match accountAt addr w with Some _ => true | None => false end.
Proof. unfold accountExists, JsMap.has, accountAt, getAccount. now destruct (JsMap.get _ _). Qed.

(** After the update the address holds the changed account: the fetched
    object was changed in place, so this is so under whatever key the copy
    went. *)
Lemma updateAccount_reads (addr : Address) (f : Account -> Account) (w : InMemoryWorldState) :
  (forall a, address (f a) = address a) ->
  accountAt addr (updateAccount addr f w) = Some (f (orFresh addr w)).
Proof.
  intros Hf. unfold updateAccount, orFresh, accountAt.
  destruct (getAccount addr w) as [l |] eqn:Hget; cbn [option_map].
  - unfold getAccount, putAccount, writeObj. cbn [accounts objs objs_next].
    destruct (String.eqb (addressToKey addr) (addressToKey (address (f (objs w l))))) eqn:E.
    + apply String.eqb_eq in E. rewrite E, JsMapFacts.get_set_same. cbn [option_map].
      now rewrite WorldFacts.upd_same.
    + apply String.eqb_neq in E. rewrite (MapLaws.get_set_other _ _ E).
      unfold getAccount in Hget. rewrite Hget. cbn [option_map]. f_equal.
      unfold upd. destruct (Nat.eqb l (objs_next w)); [reflexivity |].
      now rewrite Nat.eqb_refl.
  - unfold getAccount, putAccount. cbn [accounts objs objs_next].
    rewrite Hf. cbn [freshAccount address].
    rewrite JsMapFacts.get_set_same. cbn [option_map]. now rewrite WorldFacts.upd_same.
Qed.

Lemma putAccount_reads (account : Account) (w : InMemoryWorldState) :
  accountAt (address account) (putAccount account w) = Some account.
Proof.
  unfold accountAt, getAccount, putAccount. cbn [accounts objs objs_next].
  rewrite JsMapFacts.get_set_same. cbn [option_map]. now rewrite WorldFacts.upd_same.
Qed.

(** Another address is not touched. *)
Lemma putAccount_frame (account : Account) (other : Address) (w : InMemoryWorldState) :
  coherent w -> addressToKey other <> addressToKey (address account) ->
  accountAt other (putAccount account w) = accountAt other w.
Proof.
  intros ((Hrefs & _) & _) Hne. unfold accountAt, getAccount, putAccount.
  cbn [accounts objs objs_next]. rewrite (MapLaws.get_set_other _ _ Hne).
  destruct (JsMap.get (addressToKey other) (accounts w)) as [l |] eqn:Hget; [| reflexivity].
  cbn [option_map]. f_equal. apply WorldFacts.upd_other.
  apply JsMapFacts.get_In in Hget. unfold refsBelow in Hrefs.
  rewrite Forall_forall in Hrefs. specialize (Hrefs _ Hget). simpl in Hrefs. lia.
Qed.

Lemma found_under_own_key (addr : Address) (l : loc) (w : InMemoryWorldState) :
  coherent w -> getAccount addr w = Some l ->
  addressToKey (address (objs w l)) = addressToKey addr.
Proof.
  intros (_ & Hkeyed & _) Hget. apply JsMapFacts.get_In in Hget.
  unfold keyedByAddress in Hkeyed. rewrite Forall_forall in Hkeyed.
  symmetry. exact (Hkeyed _ Hget).
Qed.

Lemma updateAccount_frame (addr other : Address) (f : Account -> Account)
      (w : InMemoryWorldState) :
  (forall a, address (f a) = address a) ->
  coherent w -> addressToKey other <> addressToKey addr ->
  accountAt other (updateAccount addr f w) = accountAt other w.
Proof.
  intros Hf Hw Hne. unfold updateAccount.
  destruct (getAccount addr w) as [l |] eqn:Hget.
  - pose proof (found_under_own_key addr Hw Hget) as Hkey.
    rewrite putAccount_frame.
    + unfold accountAt, getAccount, writeObj. cbn [accounts objs].
      destruct (JsMap.get (addressToKey other) (accounts w)) as [l' |] eqn:Hget';
        [| reflexivity].
      cbn [option_map]. f_equal. apply WorldFacts.upd_other. intros ->.
      apply Hne. rewrite <- Hkey. symmetry. exact (found_under_own_key other Hw Hget').
    + apply CoherentFacts.coherent_writeObj; [apply Hf | exact Hw].
    + rewrite Hf. congruence.
  - apply putAccount_frame; [exact Hw |]. rewrite Hf. exact Hne.
Qed.

Lemma updateAccount_storage (addr : Address) (f : Account -> Account) (w : InMemoryWorldState) :
  storages (updateAccount addr f w) = storages w /\ maps (updateAccount addr f w) = maps w.
Proof. unfold updateAccount. destruct (getAccount addr w); split; reflexivity. Qed.

(** The mutators, as updates. *)
Lemma addBalance_update (addr : Address) (amount : Z) (w : InMemoryWorldState) :
  addBalance addr amount w
  = if amount =? 0 then w
    else updateAccount addr (fun a => set_balance a (balance a + amount)) w.
Proof. reflexivity. Qed.

Lemma subBalance_update (addr : Address) (amount : Z) (w : InMemoryWorldState) :
  subBalance addr amount w
  = if amount =? 0 then (Ok tt, w)
    else if accountExists addr w && negb (getBalance addr w <? amount)
         then (Ok tt, updateAccount addr (fun a => set_balance a (balance a - amount)) w)
         else (Throw (Error "Insufficient balance"), w).
Proof.
  unfold subBalance, accountExists, JsMap.has, getBalance, updateAccount, getAccount.
  destruct (amount =? 0); [reflexivity |].
  destruct (JsMap.get (addressToKey addr) (accounts w)) as [l |]; [| reflexivity].
  cbn [andb]. now destruct (balance (objs w l) <? amount).
Qed.

Lemma incrementNonce_update (addr : Address) (w : InMemoryWorldState) :
  incrementNonce addr w = updateAccount addr (fun a => set_nonce a (nonce a + 1)) w.
Proof. reflexivity. Qed.

Lemma setNonce_update (addr : Address) (n : Z) (w : InMemoryWorldState) :
  setNonce addr n w = updateAccount addr (fun a => set_nonce a n) w.
Proof. reflexivity. Qed.

Lemma setCode_update (addr : Address) (c : Bytes) (w : InMemoryWorldState) :
  setCode addr c w = updateAccount addr (fun a => set_code a c) w.
Proof. reflexivity. Qed.

(** One mutation, seen from an address it is not aimed at. *)
Lemma applyMutation_frame (m : Mutation) (other : Address) (w : InMemoryWorldState) :
  coherent w -> addressToKey other <> addressToKey (target m) ->
  accountAt other (applyMutation m w) = accountAt other w.
Proof.
  intros Hw Hne. destruct m as [a | addr amount | addr amount | addr | addr n | addr c
                               | addr key value]; cbn [applyMutation target] in *.
  - now apply putAccount_frame.
  - rewrite addBalance_update. destruct (amount =? 0); [reflexivity |].
    now apply updateAccount_frame.
  - rewrite subBalance_update. destruct (amount =? 0); [reflexivity |].
    destruct (accountExists addr w && negb (getBalance addr w <? amount)); [| reflexivity].
    now apply updateAccount_frame.
  - rewrite incrementNonce_update. now apply updateAccount_frame.
  - rewrite setNonce_update. now apply updateAccount_frame.
  - rewrite setCode_update. now apply updateAccount_frame.
  - destruct (StorageFacts.setStorageAny_cases addr key value w)
      as [(_ & e & ->) | (storageKey & _ & ->)]; [reflexivity |].
    unfold accountAt, getAccount. cbn [snd].
    destruct (StorageFacts.setStorageAt_accounts addr storageKey value w) as [-> ->].
    reflexivity.
Qed.

Lemma applyMutation_storage_frame (m : Mutation) (other : Address) (key : Word)
      (w : InMemoryWorldState) :
  coherent w -> addressToKey other <> addressToKey (target m) ->
  getStorage other key (applyMutation m w) = getStorage other key w.
Proof.
  intros Hw Hne.
  assert (Hupd : forall addr f, getStorage other key (updateAccount addr f w)
                                = getStorage other key w).
  { intros addr f. unfold getStorage, getStorageAt.
    destruct (updateAccount_storage addr f w) as [-> ->]. reflexivity. }
  destruct m as [a | addr amount | addr amount | addr | addr n | addr c
                | addr k value]; cbn [applyMutation target] in *.
  - reflexivity.
  - rewrite addBalance_update. destruct (amount =? 0); [reflexivity | apply Hupd].
  - rewrite subBalance_update. destruct (amount =? 0); [reflexivity |].
    destruct (accountExists addr w && negb (getBalance addr w <? amount));
      [apply Hupd | reflexivity].
  - rewrite incrementNonce_update. apply Hupd.
  - rewrite setNonce_update. apply Hupd.
  - rewrite setCode_update. apply Hupd.
  - destruct (StorageFacts.setStorageAny_cases addr k value w)
      as [(_ & e & ->) | (storageKey & _ & ->)]; [reflexivity |].
    cbn [snd]. unfold getStorage.
    rewrite (@StorageFacts.setStorageAt_reads addr other storageKey _ value w Hw).
    apply String.eqb_neq in Hne. now rewrite Hne.
Qed.

(** What the getters read at the address of an update. *)
Lemma orFresh_getters (addr : Address) (w : InMemoryWorldState) :
  getBalance addr w = balance (orFresh addr w)
  /\ getNonce addr w = nonce (orFresh addr w)
  /\ getCode addr w = code (orFresh addr w).
Proof.
  rewrite getBalance_accountAt, getNonce_accountAt, getCode_accountAt. unfold orFresh.
  destruct (accountAt addr w); repeat split.
Qed.

Lemma updateAccount_getters (addr : Address) (f : Account -> Account) (w : InMemoryWorldState) :
  (forall a, address (f a) = address a) ->
  getBalance addr (updateAccount addr f w) = balance (f (orFresh addr w))
  /\ getNonce addr (updateAccount addr f w) = nonce (f (orFresh addr w))
  /\ getCode addr (updateAccount addr f w) = code (f (orFresh addr w))
  /\ accountExists addr (updateAccount addr f w) = true.
Proof.
  intros Hf.
  rewrite getBalance_accountAt, getNonce_accountAt, getCode_accountAt,
    accountExists_accountAt, (@updateAccount_reads addr f w Hf).
  repeat split.
Qed.

(** The getters read the account that is found. *)
Lemma same_account (a : Address) (w w' : InMemoryWorldState) :
  accountAt a w' = accountAt a w ->
  getBalance a w' = getBalance a w
  /\ getNonce a w' = getNonce a w
  /\ getCode a w' = getCode a w
  /\ accountExists a w' = accountExists a w.
Proof.
  intros Hsame.
  rewrite !getBalance_accountAt, !getNonce_accountAt, !getCode_accountAt,
    !accountExists_accountAt, Hsame.
  repeat split.
Qed.

Lemma applyMutation_snapshots (m : Mutation) (w : InMemoryWorldState) :
  snapshots (applyMutation m w) = snapshots w.
Proof.
  destruct m as [a | addr amount | addr amount | addr | addr n | addr c
                | addr key value]; cbn [applyMutation].
  - reflexivity.
  - unfold addBalance. destruct (amount =? 0); [reflexivity |].
    now destruct (getAccount addr w).
  - unfold subBalance. destruct (amount =? 0); [reflexivity |].
    destruct (getAccount addr w) as [l |]; [| reflexivity].
    now destruct (balance (objs w l) <? amount).
  - unfold incrementNonce. now destruct (getAccount addr w).
  - unfold setNonce. now destruct (getAccount addr w).
  - unfold setCode. now destruct (getAccount addr w).
  - destruct (StorageFacts.setStorageAny_cases addr key value w)
      as [(_ & e & ->) | (storageKey & _ & ->)]; [reflexivity |].
    cbn [snd]. unfold setStorageAt.
    destruct (JsMap.has (addressToKey addr) (storages w)); cbn [storages newStorageMap];
      match goal with |- context [match ?x with _ => _ end] => destruct x end;
      try destruct (isBigZero value); reflexivity.
Qed.

End AccountFacts.

(** X5.  A change aimed at one address leaves every other address alone:
    in a world state whose maps are in order, the account found at another
    address, its balance, nonce and code, whether it exists, and each of its
    storage slots are after the change what they were before. *)
Theorem mutation_stays_at_its_address (m : Mutation) (other : Address)
        (w : InMemoryWorldState) :
  coherent w -> World.addressToKey other <> World.addressToKey (target m) ->
  accountAt other (applyMutation m w) = accountAt other w
  /\ World.getBalance other (applyMutation m w) = World.getBalance other w
  /\ World.getNonce other (applyMutation m w) = World.getNonce other w
  /\ World.getCode other (applyMutation m w) = World.getCode other w
  /\ World.accountExists other (applyMutation m w) = World.accountExists other w
  /\ forall key, World.getStorage other key (applyMutation m w)
                 = World.getStorage other key w.
Proof.
  intros Hw Hne. pose proof (AccountFacts.applyMutation_frame m other Hw Hne) as Hframe.
  split; [exact Hframe |].
  rewrite !AccountFacts.getBalance_accountAt, !AccountFacts.getNonce_accountAt,
    !AccountFacts.getCode_accountAt, !AccountFacts.accountExists_accountAt, Hframe.
  repeat split. intros key. now apply AccountFacts.applyMutation_storage_frame.
Qed.

Lemma mutation_stays_at_its_address_witness :
  World.getBalance [2] (applyMutation (AddBalance [1] 5) emptyWorld)
  = World.getBalance [2] emptyWorld.
Proof.
  refine (proj1 (proj2 (@mutation_stays_at_its_address (AddBalance [1] 5) [2] emptyWorld
                          CoherentFacts.coherent_emptyWorld _))).
  discriminate.
Defined.

(** X6.  What a mutator of one account writes is what the getters then
    read at that address, and the fields it does not write stay.
    [addBalance] adds to the balance; [subBalance] of a positive amount
    throws 'Insufficient balance' and changes nothing when the balance is
    short, and takes the amount off otherwise; [incrementNonce] adds one to
    the nonce; [setNonce] and [setCode] store their argument. *)
Theorem account_change_reads_back (addr : Address) (w : InMemoryWorldState) :
  (forall amount,
      let w' := World.addBalance addr amount w in
      World.getBalance addr w' = World.getBalance addr w + amount
      /\ World.getNonce addr w' = World.getNonce addr w
      /\ World.getCode addr w' = World.getCode addr w)
  /\ (forall amount, 0 < amount ->
        if World.getBalance addr w <? amount
        then World.subBalance addr amount w = (Throw (Error "Insufficient balance"), w)
        else exists w',
               World.subBalance addr amount w = (Ok tt, w')
               /\ World.getBalance addr w' = World.getBalance addr w - amount
               /\ World.getNonce addr w' = World.getNonce addr w
               /\ World.getCode addr w' = World.getCode addr w)
  /\ (let w' := World.incrementNonce addr w in
      World.getNonce addr w' = World.getNonce addr w + 1
      /\ World.getBalance addr w' = World.getBalance addr w
      /\ World.getCode addr w' = World.getCode addr w)
  /\ (forall n,
        let w' := World.setNonce addr n w in
        World.getNonce addr w' = n
        /\ World.getBalance addr w' = World.getBalance addr w
        /\ World.getCode addr w' = World.getCode addr w)
  /\ (forall c,
        let w' := World.setCode addr c w in
        World.getCode addr w' = c
        /\ World.getBalance addr w' = World.getBalance addr w
        /\ World.getNonce addr w' = World.getNonce addr w).
Proof.
  assert (Hread : forall f, (forall a, address (f a) = address a) ->
            let w' := updateAccount addr f w in
            World.getBalance addr w' = balance (f (orFresh addr w))
            /\ World.getNonce addr w' = nonce (f (orFresh addr w))
            /\ World.getCode addr w' = code (f (orFresh addr w))).
  { intros f Hf w'. subst w'.
    destruct (@AccountFacts.updateAccount_getters addr f w Hf) as (Hb & Hn & Hc & _). auto. }
  destruct (AccountFacts.orFresh_getters addr w) as (Hb & Hn & Hc).
  split; [| split; [| split; [| split]]].
  - intros amount w'. subst w'. rewrite AccountFacts.addBalance_update.
    destruct (amount =? 0) eqn:Hzero.
    + apply Z.eqb_eq in Hzero. subst amount. rewrite Z.add_0_r. repeat split.
    + destruct (Hread (fun a => set_balance a (balance a + amount))) as (-> & -> & ->);
        [reflexivity |]. cbn [set_balance balance nonce code]. rewrite Hb, Hn, Hc. repeat split.
  - intros amount Hpos. rewrite AccountFacts.subBalance_update.
    replace (amount =? 0) with false by (symmetry; apply Z.eqb_neq; lia).
    destruct (World.getBalance addr w <? amount) eqn:Hshort.
    + now rewrite andb_false_r.
    + replace (World.accountExists addr w) with true.
      * cbn [andb negb]. eexists. split; [reflexivity |].
        destruct (Hread (fun a => set_balance a (balance a - amount))) as (-> & -> & ->);
          [reflexivity |]. cbn [set_balance balance nonce code]. rewrite Hb, Hn, Hc.
        repeat split.
      * apply Z.ltb_ge in Hshort. rewrite AccountFacts.accountExists_accountAt.
        rewrite AccountFacts.getBalance_accountAt in Hshort.
        destruct (accountAt addr w); [reflexivity | lia].
  - intros w'. subst w'. rewrite AccountFacts.incrementNonce_update.
    destruct (Hread (fun a => set_nonce a (nonce a + 1))) as (-> & -> & ->); [reflexivity |].
    cbn [set_nonce balance nonce code]. rewrite Hb, Hn, Hc. repeat split.
  - intros n w'. subst w'. rewrite AccountFacts.setNonce_update.
    destruct (Hread (fun a => set_nonce a n)) as (-> & -> & ->); [reflexivity |].
    cbn [set_nonce balance nonce code]. rewrite Hb, Hc. repeat split.
  - intros c w'. subst w'. rewrite AccountFacts.setCode_update.
    destruct (Hread (fun a => set_code a c)) as (-> & -> & ->); [reflexivity |].
    cbn [set_code balance nonce code]. rewrite Hb, Hn. repeat split.
Qed.

(* ================================================================== *)
(** * A second revert to the same snapshot *)
(* ================================================================== *)

Module RevertFacts.
Import World.

Lemma get_filter_keep {V : Type} (f : Z * V -> bool) (k : Z) (m : list (Z * V)) :
  (forall v, f (k, v) = true) -> JsMap.get k (filter f m) = JsMap.get k m.
Proof.
  intros Hf. induction m as [| [k' v'] m IH]; simpl; [reflexivity |].
  destruct (Z.eqb k k') eqn:E.
  - apply Z.eqb_eq in E. subst k'. rewrite Hf. simpl. now rewrite Z.eqb_refl.
  - destruct (f (k', v')); [simpl; rewrite E |]; exact IH.
Qed.

(** [revert(id)] keeps the snapshot it reverts to. *)
Lemma revert_keeps_snapshot (id : Z) (snap : Snapshot) (w : InMemoryWorldState) :
  JsMap.get id (snapshots w) = Some snap ->
  revert id w
  = (Ok tt, mkWorld (objs w) (objs_next w) (maps w) (maps_next w)
                    (snap_accounts snap) (snap_storages snap)
                    (filter (fun e => negb (fst e >? id)) (snapshots w))
                    (snap_nextSnapshotId snap) (Some id))
  /\ JsMap.get id (snapshots (snd (revert id w))) = Some snap.
Proof.
  intros Hget. unfold revert. rewrite Hget. split; [reflexivity |]. simpl.
  rewrite get_filter_keep; [exact Hget |].
  intros v. simpl. rewrite Z.gtb_ltb, Z.ltb_irrefl. reflexivity.
Qed.

End RevertFacts.

(** X7.  A snapshot is good for one revert only.  After [revert(id)] the
    live map holds the very account objects of the snapshot, and the
    mutators change the object they fetch in place: so [snapshot()],
    [revert(id)], [addBalance(address, amount)] on an existing account and
    [revert(id)] again leaves the balance with [amount] added, not the
    balance the snapshot was taken at. *)
Theorem second_revert_keeps_the_change (addr : Address) (amount : Z) (w : InMemoryWorldState) :
  wellFormed w -> World.accountExists addr w = true -> amount <> 0 ->
  exists id w1 w2 w4,
    World.snapshot w = (Ok id, w1)
    /\ World.revert id w1 = (Ok tt, w2)
    /\ World.getBalance addr w2 = World.getBalance addr w
    /\ World.revert id (World.addBalance addr amount w2) = (Ok tt, w4)
    /\ World.getBalance addr w4 = World.getBalance addr w + amount.
Proof.
  intros Hwf Hexists Hamount.
  destruct (WorldFacts.snapshot_spec Hwf)
    as (w1 & snap & Hsnap & Hget & _ & Ha & _ & Hva & _ & _).
  destruct (@RevertFacts.revert_keeps_snapshot _ _ _ Hget) as [Hrev Hkept].
  rewrite Hrev in Hkept. cbn [snd] in Hkept.
  set (w2 := mkWorld (objs w1) (objs_next w1) (maps w1) (maps_next w1)
                     (snap_accounts snap) (snap_storages snap)
                     (filter (fun e => negb (fst e >? nextSnapshotId w)) (snapshots w1))
                     (snap_nextSnapshotId snap) (Some (nextSnapshotId w))) in *.
  (* the account the snapshot holds for the address *)
  unfold World.accountExists, JsMap.has in Hexists.
  destruct (JsMap.get (World.addressToKey addr) (accounts w)) as [l |] eqn:Hl; [| discriminate].
  assert (Hcopy : option_map (objs w1) (JsMap.get (World.addressToKey addr) (snap_accounts snap))
                  = Some (objs w l)).
  { rewrite <- ObservableFacts.get_map_snd. fold (derefAccounts w1 (snap_accounts snap)).
    rewrite Hva. unfold World.observableAccounts. rewrite ObservableFacts.get_map_snd, Hl.
    reflexivity. }
  destruct (JsMap.get (World.addressToKey addr) (snap_accounts snap)) as [l' |] eqn:Hl';
    [| discriminate].
  injection Hcopy as Hcopy.
  assert (Hbefore : World.getBalance addr w = balance (objs w l)).
  { unfold World.getBalance, World.getAccount. now rewrite Hl. }
  assert (Hbelow : (l' < objs_next w1)%nat).
  { apply JsMapFacts.get_In in Hl'. rewrite Forall_forall in Ha.
    specialize (Ha _ Hl'). simpl in Ha. lia. }
  (* the change is made to the object of the snapshot *)
  set (changed := set_balance (objs w1 l') (balance (objs w1 l') + amount)).
  assert (Hw3 : World.addBalance addr amount w2
                = World.putAccount changed (World.writeObj l' changed w2)).
  { unfold World.addBalance.
    replace (amount =? 0) with false by (symmetry; now apply Z.eqb_neq).
    unfold World.getAccount. cbn [accounts w2]. rewrite Hl'. reflexivity. }
  assert (Hkept3 : JsMap.get (nextSnapshotId w)
                             (snapshots (World.addBalance addr amount w2)) = Some snap).
  { rewrite Hw3. exact Hkept. }
  destruct (@RevertFacts.revert_keeps_snapshot _ _ _ Hkept3) as [Hrev3 _].
  exists (nextSnapshotId w), w1, w2. eexists.
  split; [exact Hsnap |]. split; [exact Hrev |]. split; [| split; [exact Hrev3 |]].
  - rewrite Hbefore. unfold World.getBalance, World.getAccount. cbn [accounts objs w2].
    rewrite Hl', Hcopy. reflexivity.
  - rewrite Hbefore. unfold World.getBalance, World.getAccount. cbn [accounts objs].
    rewrite Hl', Hw3. cbn [objs World.putAccount World.writeObj objs_next w2].
    rewrite WorldFacts.upd_other by lia. rewrite WorldFacts.upd_same.
    subst changed. cbn [set_balance balance]. rewrite Hcopy. reflexivity.
Qed.

Lemma second_revert_keeps_the_change_witness :
  exists id w1 w2 w4,
    World.snapshot Examples.world0 = (Ok id, w1)
    /\ World.revert id w1 = (Ok tt, w2)
    /\ World.getBalance Examples.alice w2 = World.getBalance Examples.alice Examples.world0
    /\ World.revert id (World.addBalance Examples.alice 5 w2) = (Ok tt, w4)
    /\ World.getBalance Examples.alice w4
       = World.getBalance Examples.alice Examples.world0 + 5.
Proof.
  apply (@second_revert_keeps_the_change Examples.alice 5 Examples.world0).
  - repeat split; repeat constructor.
  - reflexivity.
  - discriminate.
Defined.

(* ================================================================== *)
(** * The virtual machine inside one frame *)
(* ================================================================== *)

Module FrameFacts.

Lemma applyWrites_app (addr : Address) (ws1 ws2 : list (string * Value)) (w : InMemoryWorldState) :
  applyWrites addr (ws1 ++ ws2) w = applyWrites addr ws2 (applyWrites addr ws1 w).
Proof. unfold applyWrites. apply fold_left_app. Qed.

Lemma len_app {A : Type} (l1 l2 : list A) : len (l1 ++ l2) = len l1 + len l2.
Proof. unfold len. rewrite length_app. lia. Qed.

#[global] Instance frameReach_PreOrder : PreOrder frameReach.
Proof.
  split.
  - intros ctx. split; [reflexivity |]. split; [reflexivity |]. split; [reflexivity |].
    split; [auto |]. exists []. split; [reflexivity | simpl; lia].
  - intros c1 c2 c3 (Hc1 & Hd1 & He1 & Hs1 & ws1 & Hw1 & Hg1)
                    (Hc2 & Hd2 & He2 & Hs2 & ws2 & Hw2 & Hg2).
    split; [congruence |]. split; [congruence |]. split; [congruence |].
    split; [auto |]. exists (ws1 ++ ws2). split.
    + rewrite applyWrites_app, <- Hw1, <- He1. exact Hw2.
    + rewrite len_app. lia.
Qed.

(** A step that only moves the program counter, the memory, the return
    data or the flags, and takes gas. *)
Lemma frameReach_same (ctx ctx' : Ctx.t) :
  Ctx.code ctx' = Ctx.code ctx -> Ctx.calldata ctx' = Ctx.calldata ctx ->
  Ctx.env ctx' = Ctx.env ctx -> Ctx.stack ctx' = Ctx.stack ctx ->
  Ctx.stackMinus1 ctx' = Ctx.stackMinus1 ctx ->
  Ctx.world ctx' = Ctx.world ctx -> Ctx.gasLeft ctx' <= Ctx.gasLeft ctx ->
  frameReach ctx ctx'.
Proof.
  intros Hc Hd He Hs Hm Hw Hg. split; [exact Hc |]. split; [exact Hd |]. split; [exact He |].
  split; [unfold legalContext; rewrite Hs, Hm; auto |].
  exists []. split; [exact Hw | simpl; lia].
Qed.

(** A step that changes the stack only. *)
Lemma frameReach_stack (ctx : Ctx.t) (stack : list Value) :
  (legalContext ctx -> legalStack stack) ->
  frameReach ctx (Ctx.with_stack ctx stack).
Proof.
  intros Hs. split; [reflexivity |]. split; [reflexivity |]. split; [reflexivity |].
  split; [intros Hl; split; [exact (Hs Hl) | exact (proj2 Hl)] |].
  exists []. split; [reflexivity | simpl; lia].
Qed.

Ltac same_frame :=
  intros ctx;
  repeat match goal with
         | |- context [if ?b then _ else _] => destruct b
         | |- context [match ?x with _ => _ end] => destruct x
         end;
  (split; [discriminate | first [reflexivity | apply frameReach_same; reflexivity]]).

Lemma legal_tail (v : Value) (rest : list Value) : legalStack (v :: rest) -> legalStack rest.
Proof.
  intros [Hlen Hwords]. split; [| now inversion Hwords].
  rewrite EvmFacts.len_cons in Hlen. lia.
Qed.

Lemma legal_in_range (value : Value) : Ctx.outOfRange value = false -> legalValue value.
Proof.
  destruct value as [n | | |]; cbn [Ctx.outOfRange legalValue]; [| exact (fun _ => I) ..].
  intros Hrange. apply orb_false_iff in Hrange. destruct Hrange as [Hneg Hbig].
  apply Z.ltb_ge in Hneg. rewrite Z.gtb_ltb in Hbig. apply Z.ltb_ge in Hbig.
  unfold isWord. rewrite EvmFacts.mask_value in Hbig. lia.
Qed.

Lemma frame_push (value : Value) : preserves frameReach (Ctx.push value).
Proof.
  intros ctx. unfold Ctx.push.
  destruct (len (Ctx.stack ctx) >=? 1024) eqn:Hfull; [split; [discriminate | reflexivity] |].
  destruct (Ctx.outOfRange value) eqn:Hrange; [split; [discriminate | reflexivity] |].
  split; [discriminate |]. apply frameReach_stack. intros [[Hlen Hwords] _].
  rewrite Z.geb_leb in Hfull. apply Z.leb_gt in Hfull.
  split; [rewrite EvmFacts.len_cons; lia |].
  constructor; [now apply legal_in_range | exact Hwords].
Qed.

Lemma frame_pop : preserves frameReach Ctx.pop.
Proof.
  intros ctx. unfold Ctx.pop.
  destruct (Ctx.stack ctx) as [| v rest] eqn:Hst; [split; [discriminate | reflexivity] |].
  split; [discriminate |]. apply frameReach_stack.
  intros [Hl _]. rewrite Hst in Hl. exact (legal_tail Hl).
Qed.

Lemma frame_swap (index : Z) : preserves frameReach (Ctx.swap index).
Proof.
  intros ctx. unfold Ctx.swap.
  destruct (index >=? len (Ctx.stack ctx)); [split; [discriminate | reflexivity] |].
  destruct (Ctx.stack ctx) as [| top below] eqn:Hst; [split; [discriminate | reflexivity] |].
  destruct (nth_error below (Z.to_nat index)) as [target |] eqn:Hnth.
  - split; [discriminate |]. apply frameReach_stack. unfold legalContext. rewrite Hst.
    intros [[Hlen Hwords] _].
    destruct (nth_error_split below (Z.to_nat index) Hnth) as (l1 & l2 & Hbelow & Hl1).
    assert (Hfirst : firstn (Z.to_nat index) below = l1).
    { rewrite Hbelow, <- Hl1. rewrite firstn_app, Nat.sub_diag, firstn_all. simpl.
      apply app_nil_r. }
    assert (Hskip : skipn (S (Z.to_nat index)) below = l2).
    { rewrite Hbelow, <- Hl1.
      change (l1 ++ target :: l2) with (l1 ++ [target] ++ l2). rewrite app_assoc.
      replace (S (List.length l1)) with (List.length (l1 ++ [target]))
        by (rewrite length_app; simpl; lia).
      now rewrite skipn_app, skipn_all, Nat.sub_diag. }
    rewrite Hfirst, Hskip. rewrite Hbelow in Hlen, Hwords.
    inversion Hwords as [| ? ? Htop Hrest]; subst.
    apply Forall_app in Hrest. destruct Hrest as [H1 H2].
    inversion H2 as [| ? ? Htarget Hl2]; subst.
    split.
    + unfold len in *. cbn [List.length] in *. rewrite length_app in *.
      cbn [List.length] in *. lia.
    + constructor; [exact Htarget |]. apply Forall_app. split; [exact H1 |].
      constructor; assumption.
  - split; [discriminate |]. cbn [snd].
    split; [reflexivity |]. split; [reflexivity |]. split; [reflexivity |]. split.
    + unfold legalContext. rewrite Hst. cbn [Ctx.stack Ctx.stackMinus1 Ctx.with_stack
                                               Ctx.with_stackMinus1].
      intros [[Hlen Hwords] Hminus]. inversion Hwords as [| ? ? Htop Hrest]; subst.
      split; [split |]; [| now constructor | exact Htop].
      rewrite EvmFacts.len_cons in *. exact Hlen.
    + exists []. split; [reflexivity | simpl; lia].
Qed.

Lemma frame_dup (index : Z) : preserves frameReach (Ctx.dup index).
Proof.
  intros ctx. unfold Ctx.dup.
  destruct (index >=? len (Ctx.stack ctx)); [| apply frame_push].
  split; [discriminate | reflexivity].
Qed.

Lemma frame_useGas (amount : Z) : preserves frameReach (Ctx.useGas amount).
Proof.
  intros ctx. unfold Ctx.useGas.
  destruct (amount <? 0) eqn:Hneg; [split; [discriminate | reflexivity] |].
  destruct (Ctx.gasLeft ctx <? amount) eqn:Hshort; [split; [discriminate | reflexivity] |].
  apply Z.ltb_ge in Hneg. split; [discriminate |].
  apply frameReach_same; try reflexivity. simpl. lia.
Qed.

Lemma frame_jump (destination : Z) : preserves frameReach (Ctx.jump destination).
Proof. unfold Ctx.jump. same_frame. Qed.

Lemma frame_jumpAny (destination : option Z) :
  preserves frameReach (Ctx.jumpAny destination).
Proof. unfold Ctx.jumpAny, Ctx.jump, throw. same_frame. Qed.

Lemma frame_getStorageAny (addr : Address) (key : Value) :
  preserves frameReach (Ctx.onWorld (World.getStorageAny addr key)).
Proof.
  intros ctx. unfold Ctx.onWorld, World.getStorageAny, gets, throw.
  destruct (storageKeyToStringAny key);
    (split; [discriminate | apply frameReach_same; reflexivity]).
Qed.

Lemma frame_stop (data : Bytes) : preserves frameReach (Ctx.stop data).
Proof. unfold Ctx.stop, modify. same_frame. Qed.

Lemma frame_revert (data : Bytes) : preserves frameReach (Ctx.revert data).
Proof. unfold Ctx.revert, modify. same_frame. Qed.

Lemma frame_readBytes (count : Z) : preserves frameReach (Ctx.readBytes count).
Proof. unfold Ctx.readBytes. same_frame. Qed.

Lemma frame_readPushData : preserves frameReach Ctx.readPushData.
Proof. unfold Ctx.readPushData, Ctx.readBytes. same_frame. Qed.

Lemma frame_bytesToBigint (bytes : Bytes) :
  preserves frameReach (bytesToBigint (S := Ctx.t) bytes).
Proof.
  apply PreservesFacts.preserves_unchanged; try exact _.
  apply PreservesFacts.unchanged_bytesToBigint.
Qed.

Lemma frame_with_pc (ctx : Ctx.t) (pc : Z) : frameReach ctx (Ctx.with_pc ctx pc).
Proof. apply frameReach_same; reflexivity. Qed.

(** Apply a rule of [PreservesFacts] at [frameReach]. *)
Tactic Notation "framed" uconstr(lemma) := apply lemma; try exact _.

Section Memory.
Variable maxByteLength : Z.

Lemma frame_newUint8Array (n : Z) :
  preserves frameReach (Ctx.newUint8Array maxByteLength n).
Proof. unfold Ctx.newUint8Array, throw, ret. same_frame. Qed.

Lemma frame_expandMemory (requiredSize : Z) :
  preserves frameReach (Ctx.expandMemory maxByteLength requiredSize).
Proof. unfold Ctx.expandMemory, Ctx.newUint8Array, throw, ret. same_frame. Qed.

Lemma frame_readMemory (offset size : Z) :
  preserves frameReach (Ctx.readMemory maxByteLength offset size).
Proof.
  unfold Ctx.readMemory.
  destruct (size =? 0); [framed PreservesFacts.preserves_ret |].
  framed PreservesFacts.preserves_bind; [apply frame_expandMemory |].
  intros _ ctx. split; [discriminate | reflexivity].
Qed.

Lemma frame_writeMemory (offset : Z) (data : Bytes) :
  preserves frameReach (Ctx.writeMemory maxByteLength offset data).
Proof.
  unfold Ctx.writeMemory.
  destruct (len data =? 0); [framed PreservesFacts.preserves_ret |].
  framed PreservesFacts.preserves_bind; [apply frame_expandMemory |].
  intros _. framed PreservesFacts.preserves_modify.
  intros ctx. apply frameReach_same; reflexivity.
Qed.

Lemma frame_readMemoryAny (offset size : option Z) :
  preserves frameReach (Ctx.readMemoryAny maxByteLength offset size).
Proof.
  unfold Ctx.readMemoryAny.
  destruct offset as [offset |]; [destruct size as [size |] |];
    [apply frame_readMemory | framed PreservesFacts.preserves_ret ..].
Qed.

Lemma frame_writeMemoryAny (offset : option Z) (data : Bytes) :
  preserves frameReach (Ctx.writeMemoryAny maxByteLength offset data).
Proof.
  unfold Ctx.writeMemoryAny. destruct offset as [offset |]; [apply frame_writeMemory |].
  unfold ret. same_frame.
Qed.

Lemma frame_writeMemoryWordAny (offset : option Z) (value : Value) :
  preserves frameReach (Ctx.writeMemoryWordAny maxByteLength offset value).
Proof.
  unfold Ctx.writeMemoryWordAny.
  framed PreservesFacts.preserves_bind.
  - framed PreservesFacts.preserves_unchanged.
    apply PreservesFacts.unchanged_bigintToBytesAny.
  - intros bytes. apply frame_writeMemoryAny.
Qed.

Lemma frame_writeMemoryWord (offset : Z) (value : Word) :
  preserves frameReach (Ctx.writeMemoryWord maxByteLength offset value).
Proof.
  unfold Ctx.writeMemoryWord.
  framed PreservesFacts.preserves_bind.
  - framed PreservesFacts.preserves_unchanged.
    apply PreservesFacts.unchanged_bigintToBytes.
  - intros bytes. apply frame_writeMemory.
Qed.

Lemma frame_useGasOf (opcode : Z) : preserves frameReach (Evm.useGasOf opcode).
Proof.
  unfold Evm.useGasOf. destruct (GAS_COSTS opcode); [apply frame_useGas |].
  framed PreservesFacts.preserves_throw.
Qed.

Lemma frame_popNumber : preserves frameReach Evm.popNumber.
Proof.
  unfold Evm.popNumber. framed PreservesFacts.preserves_bind; [apply frame_pop |].
  intros value. framed PreservesFacts.preserves_ret.
Qed.

Lemma frame_mixedTypes {A : Type} : preserves frameReach (Evm.mixedTypes (A := A)).
Proof. unfold Evm.mixedTypes. framed PreservesFacts.preserves_throw. Qed.

Lemma frame_truth (b : bool) : preserves frameReach (Evm.truth b).
Proof. unfold Evm.truth. framed PreservesFacts.preserves_ret. Qed.

Create HintDb frame.
#[local] Hint Resolve frame_push frame_pop frame_swap frame_dup frame_useGas frame_jump
  frame_stop frame_revert frame_readBytes frame_readPushData frame_newUint8Array
  frame_expandMemory frame_readMemory frame_writeMemory frame_writeMemoryWord
  frame_useGasOf frame_bytesToBigint frame_with_pc frame_jumpAny frame_getStorageAny
  frame_readMemoryAny frame_writeMemoryAny frame_writeMemoryWordAny frame_popNumber
  frame_mixedTypes frame_truth : frame.

Ltac in_frame :=
  repeat match goal with
         | |- preserves _ (bind _ _) => framed PreservesFacts.preserves_bind; [| intros ?]
         | |- preserves _ (ret _) => framed PreservesFacts.preserves_ret
         | |- preserves _ (throw _) => framed PreservesFacts.preserves_throw
         | |- preserves _ get => framed PreservesFacts.preserves_get
         | |- preserves _ (modify _) => framed PreservesFacts.preserves_modify; intros ?
         | |- preserves _ (if ?b then _ else _) => destruct b
         | |- preserves _ (match ?x with _ => _ end) => destruct x
         | |- _ => solve [auto with frame]
         end.

(** [SSTORE]: 20000 units of gas, then the write. *)
Lemma frame_SSTORE : preserves frameReach Evm.op_SSTORE.
Proof.
  intros ctx. unfold Evm.op_SSTORE, bind, Ctx.useGas, Ctx.pop, get.
  cbn [Z.ltb Z.compare].
  destruct (Ctx.gasLeft ctx <? 20000) eqn:Hgas; [split; [discriminate | reflexivity] |].
  cbn [Ctx.stack Ctx.with_gasLeft].
  destruct (Ctx.stack ctx) as [| key [| value rest]] eqn:Hst.
  - split; [discriminate |]. apply frameReach_same; try reflexivity. simpl. lia.
  - cbn [Ctx.stack Ctx.with_stack]. split; [discriminate |]. cbn [snd].
    split; [reflexivity |]. split; [reflexivity |]. split; [reflexivity |]. split.
    + unfold legalContext. cbn [Ctx.stack Ctx.stackMinus1]. rewrite Hst.
      intros [H Hm]. split; [exact (legal_tail H) | exact Hm].
    + exists []. split; [reflexivity | simpl; lia].
  - unfold Ctx.onWorld. cbn [Ctx.stack Ctx.with_stack Ctx.world Ctx.env Ctx.with_gasLeft].
    assert (Hlegal : forall c,
               Ctx.stack c = rest -> Ctx.stackMinus1 c = Ctx.stackMinus1 ctx ->
               legalContext ctx -> legalContext c).
    { intros c Hs Hm. unfold legalContext. rewrite Hs, Hm, Hst.
      intros [H Hm']. split; [exact (legal_tail (legal_tail H)) | exact Hm']. }
    destruct (StorageFacts.setStorageAny_cases (Env.address (Ctx.env ctx)) key value
                (Ctx.world ctx)) as [(_ & e & Hrun) | (storageKey & _ & Hrun)];
      rewrite Hrun; (split; [discriminate |]); cbn [snd];
      (split; [reflexivity |]); (split; [reflexivity |]); (split; [reflexivity |]);
      (split; [apply Hlegal; reflexivity |]).
    + exists []. split; [reflexivity | simpl; lia].
    + exists [(storageKey, value)]. split; [reflexivity |]. unfold len. simpl. lia.
Qed.

Lemma frame_handler (opcode : Z) (handler : M Ctx.t unit) :
  Evm.opcodeHandlers maxByteLength opcode = Some handler -> preserves frameReach handler.
Proof.
  unfold Evm.opcodeHandlers.
  destruct ((OPCODES.PUSH1 <=? opcode) && (opcode <=? OPCODES.PUSH32));
    [intros [= <-]; unfold Evm.op_PUSH; in_frame |].
  destruct ((OPCODES.DUP1 <=? opcode) && (opcode <=? OPCODES.DUP16));
    [intros [= <-]; unfold Evm.op_DUP; in_frame |].
  destruct ((OPCODES.SWAP1 <=? opcode) && (opcode <=? OPCODES.SWAP16));
    [intros [= <-]; unfold Evm.op_SWAP; in_frame |].
  destruct opcode as [| p | p]; try discriminate;
    [intros [= <-]; unfold Evm.op_STOP; in_frame |].
  do 8 (try (destruct p as [p | p |]; try discriminate));
    intros [= <-]; try apply frame_SSTORE;
    unfold Evm.op_ADD, Evm.op_MUL, Evm.op_SUB, Evm.op_DIV, Evm.op_MOD, Evm.op_EXP, Evm.op_LT,
           Evm.op_GT, Evm.op_EQ, Evm.op_ISZERO, Evm.op_AND, Evm.op_OR, Evm.op_XOR, Evm.op_NOT,
           Evm.op_SHL, Evm.op_SHR, Evm.op_SAR, Evm.op_ADDRESS, Evm.op_CALLER,
           Evm.op_CALLVALUE, Evm.op_CALLDATALOAD, Evm.op_CALLDATASIZE, Evm.op_CALLDATACOPY,
           Evm.op_CODESIZE, Evm.op_CODECOPY, Evm.op_POP, Evm.op_MLOAD, Evm.op_MSTORE,
           Evm.op_MSTORE8, Evm.op_SLOAD, Evm.op_JUMP, Evm.op_JUMPI, Evm.op_PC,
           Evm.op_MSIZE, Evm.op_GAS, Evm.op_JUMPDEST, Evm.op_PUSH0, Evm.op_RETURN,
           Evm.op_REVERT, Evm.binaryOp, Evm.masked, Evm.unlessZero, Evm.bitwise;
    in_frame.
Qed.

Lemma frame_step : preserves frameReach (Evm.step maxByteLength).
Proof.
  intros ctx. unfold Evm.step.
  destruct (Evm.opcodeHandlers maxByteLength (Ctx.getCurrentOpcode ctx)) as [handler |] eqn:Hh.
  - destruct (frame_handler _ Hh ctx) as [Hfuel Hreach].
    destruct (handler ctx) as [[[] | e |] ctx1]; simpl in *; try congruence.
    + match goal with |- context [if ?b then _ else _] => destruct b end;
        (split; [discriminate |]); simpl; [| exact Hreach].
      etransitivity; [exact Hreach | apply frame_with_pc].
    + split; [discriminate | exact Hreach].
  - split; [discriminate | apply frameReach_same; reflexivity].
Qed.

Lemma frame_loop (fuel : nat) :
  forall ctx, frameReach ctx (snd (Evm.loop maxByteLength fuel ctx)).
Proof.
  induction fuel as [| fuel IH]; intros ctx; cbn [Evm.loop];
    destruct (negb (Ctx.stopped ctx) && (Ctx.pc ctx <? len (Ctx.code ctx)));
    try reflexivity.
  destruct (frame_step ctx) as [_ Hreach].
  destruct (Evm.step maxByteLength ctx) as [[[|] | e |] ctx1]; simpl in *; try exact Hreach.
  etransitivity; [exact Hreach | apply IH].
Qed.

(** [execute] returns, within its gas, having written storage only. *)
Lemma execute_frame (code : Bytes) (env : Env.t) (gasLimit : Z) (calldata : Bytes)
      (world : InMemoryWorldState) :
  0 <= gasLimit ->
  exists result writes,
    Evm.execute maxByteLength code env gasLimit calldata world
    = (Ok result, applyWrites (Env.address env) writes world)
    /\ 0 <= gasUsed result <= gasLimit
    /\ 20000 * len writes <= gasUsed result.
Proof.
  intros Hlimit. unfold Evm.execute.
  set (ctx := Ctx.new code world env gasLimit calldata).
  assert (Hfuel : fst (Evm.loop maxByteLength (S (Z.to_nat gasLimit)) ctx) <> OutOfFuel).
  { apply ReachFacts.loop_returns. rewrite Nat2Z.inj_succ. subst ctx.
    cbn [Ctx.new Ctx.gasLeft]. rewrite Z2Nat.id; lia. }
  pose proof (ReachFacts.loop_reach maxByteLength (S (Z.to_nat gasLimit)) ctx)
    as (Hless & Hnn & _).
  pose proof (frame_loop (S (Z.to_nat gasLimit)) ctx)
    as (_ & _ & _ & _ & writes & Hworld & Hpaid).
  subst ctx. cbn [Ctx.new Ctx.gasLeft Ctx.world Ctx.env] in *.
  specialize (Hnn Hlimit).
  destruct (Evm.loop maxByteLength (S (Z.to_nat gasLimit))
                     (Ctx.new code world env gasLimit calldata)) as [[[] | e |] ctx'];
    cbn [fst snd] in *; [| | congruence];
    eexists; exists writes; rewrite Hworld; (split; [reflexivity |]);
    cbn [gasUsed]; split; lia.
Qed.

End Memory.

Lemma setStorageAt_snapshots (addr : Address) (key : string) (value : Value)
      (w : InMemoryWorldState) :
  snapshots (World.setStorageAt addr key value w) = snapshots w.
Proof.
  unfold World.setStorageAt.
  destruct (JsMap.has (World.addressToKey addr) (storages w));
    cbn [storages World.newStorageMap];
    match goal with |- context [match ?x with _ => _ end] => destruct x end;
    try destruct (isBigZero value); reflexivity.
Qed.

Lemma applyWrites_accounts (addr : Address) (writes : list (string * Value)) :
  forall w, accounts (applyWrites addr writes w) = accounts w
            /\ objs (applyWrites addr writes w) = objs w
            /\ snapshots (applyWrites addr writes w) = snapshots w.
Proof.
  unfold applyWrites. induction writes as [| [k v] writes IH]; intros w; simpl; [auto |].
  destruct (IH (World.setStorageAt addr k v w)) as (-> & -> & ->).
  destruct (StorageFacts.setStorageAt_accounts addr k v w) as [-> ->].
  now rewrite setStorageAt_snapshots.
Qed.

Lemma coherent_applyWrites (addr : Address) (writes : list (string * Value)) :
  forall w, coherent w -> coherent (applyWrites addr writes w).
Proof.
  unfold applyWrites. induction writes as [| [k v] writes IH]; intros w Hw; simpl; [exact Hw |].
  apply IH. now apply CoherentFacts.coherent_setStorageAt.
Qed.

End FrameFacts.

(** X8.  [Evm.execute] with a gas limit that is not negative always returns
    a result; the gas it reports lies between zero and the limit; what it
    did to the world is a sequence of storage writes to the executing
    address, each of them of the value [SSTORE] popped, bigint or not, under
    the string of the key it popped, and each of which cost 20000 units of
    the gas reported; and no account and no snapshot has changed, whether
    the run succeeded or not. *)
Theorem execute_pays_for_its_writes (maxByteLength : Z) (code : Bytes) (env : Env.t)
        (gasLimit : Z) (calldata : Bytes) (world : InMemoryWorldState) :
  0 <= gasLimit ->
  exists result world' writes,
    Evm.execute maxByteLength code env gasLimit calldata world = (Ok result, world')
    /\ 0 <= gasUsed result <= gasLimit
    /\ world' = applyWrites (Env.address env) writes world
    /\ 20000 * len writes <= gasUsed result
    /\ World.observableAccounts world' = World.observableAccounts world
    /\ snapshots world' = snapshots world.
Proof.
  intros Hlimit.
  destruct (@FrameFacts.execute_frame maxByteLength code env gasLimit calldata world Hlimit)
    as (result & writes & Hrun & Hgas & Hpaid).
  exists result, (applyWrites (Env.address env) writes world), writes.
  destruct (FrameFacts.applyWrites_accounts (Env.address env) writes world)
    as (Hacc & Hobjs & Hsnaps).
  split; [exact Hrun |]. split; [exact Hgas |]. split; [reflexivity |].
  split; [exact Hpaid |]. split; [| exact Hsnaps].
  unfold World.observableAccounts. now rewrite Hacc, Hobjs.
Qed.

Lemma execute_pays_for_its_writes_witness :
  exists result world' writes,
    Evm.execute 1000 Examples.revertingCode Examples.exampleEnv 30000 [] Examples.world0
    = (Ok result, world')
    /\ 0 <= gasUsed result <= 30000
    /\ world' = applyWrites (Env.address Examples.exampleEnv) writes Examples.world0
    /\ 20000 * len writes <= gasUsed result
    /\ World.observableAccounts world' = World.observableAccounts Examples.world0
    /\ snapshots world' = snapshots Examples.world0.
Proof.
  apply (@execute_pays_for_its_writes 1000 Examples.revertingCode Examples.exampleEnv
           30000 [] Examples.world0).
  lia.
Defined.

(** X9.  The operand stack stays within its limits.  From a context whose
    stack has at most 1024 entries, every bigint among the entries and in
    the property [-1] of the stack array being a word, one turn of the
    loop, and the whole loop however long it runs and however it ends,
    leave such a stack and such a property; the code, the call data and the
    environment of the context are never changed.  An entry need not be a
    bigint: [SWAP] can bring [undefined] onto the stack. *)
Theorem stack_stays_legal (maxByteLength : Z) (fuel : nat) (ctx : Ctx.t) :
  legalContext ctx ->
  legalContext (snd (Evm.step maxByteLength ctx))
  /\ legalContext (snd (Evm.loop maxByteLength fuel ctx))
  /\ Ctx.code (snd (Evm.loop maxByteLength fuel ctx)) = Ctx.code ctx
  /\ Ctx.calldata (snd (Evm.loop maxByteLength fuel ctx)) = Ctx.calldata ctx
  /\ Ctx.env (snd (Evm.loop maxByteLength fuel ctx)) = Ctx.env ctx.
Proof.
  intros Hlegal.
  destruct (FrameFacts.frame_step maxByteLength ctx) as (_ & _ & _ & _ & Hstep & _).
  destruct (FrameFacts.frame_loop maxByteLength fuel ctx) as (Hc & Hd & He & Hloop & _).
  split; [exact (Hstep Hlegal) |]. split; [exact (Hloop Hlegal) |]. auto.
Qed.

Lemma stack_stays_legal_witness :
  legalContext (snd (Evm.loop 1000 20
       (Ctx.new Examples.revertingCode Examples.world0 Examples.exampleEnv 30000 []))).
Proof.
  refine (proj1 (proj2 (@stack_stays_legal 1000 20
       (Ctx.new Examples.revertingCode Examples.world0 Examples.exampleEnv 30000 []) _))).
  split; [split; [unfold len; simpl; lia | constructor] | exact I].
Defined.

(* ================================================================== *)
(** * Memory: a word stored is the word loaded *)
(* ================================================================== *)

Module MemoryFacts.

Lemma length_setBytes (target data : Bytes) (offset : Z) :
  0 <= offset -> offset + len data <= len target ->
  List.length (setBytes target data offset) = List.length target.
Proof.
  unfold setBytes, len. intros Hoff Hfits.
  rewrite !length_app, length_firstn, length_skipn. lia.
Qed.

Lemma slice_setBytes (target data : Bytes) (offset : Z) :
  0 <= offset -> offset + len data <= len target ->
  slice (setBytes target data offset) offset (offset + len data) = data.
Proof.
  unfold setBytes, slice, len. intros Hoff Hfits.
  assert (Hfirst : List.length (firstn (Z.to_nat offset) target) = Z.to_nat offset)
    by (rewrite length_firstn; lia).
  rewrite skipn_app, Hfirst, Nat.sub_diag, skipn_all2 by lia. cbn [skipn app].
  replace (Z.to_nat (offset + Z.of_nat (List.length data) - offset))
    with (List.length data) by lia.
  rewrite firstn_app, Nat.sub_diag, firstn_all. cbn [firstn]. apply app_nil_r.
Qed.

Lemma len_zeros (n : Z) : 0 <= n -> len (zeros (Z.to_nat n)) = n.
Proof. intros Hn. unfold len, zeros. rewrite repeat_length. lia. Qed.

Section Memory.
Variable maxByteLength : Z.

(** After [expandMemory(size)] has returned, the memory has [size] bytes
    or more, and nothing else has changed. *)
Lemma expandMemory_ok (size : Z) (ctx : Ctx.t) :
  0 <= size <= maxByteLength ->
  exists memory,
    Ctx.expandMemory maxByteLength size ctx = (Ok tt, Ctx.with_memory ctx memory)
    /\ size <= len memory
    /\ (size <= len (Ctx.memory ctx) -> memory = Ctx.memory ctx).
Proof.
  intros [Hsize Hmax]. unfold Ctx.expandMemory, Ctx.newUint8Array.
  destruct (len (Ctx.memory ctx) <? size) eqn:Hshort.
  - apply Z.ltb_lt in Hshort.
    replace (size >? maxByteLength) with false by (symmetry; rewrite Z.gtb_ltb; now apply Z.ltb_ge).
    unfold ret. eexists. split; [reflexivity |]. split; [| lia].
    unfold len. rewrite length_setBytes; fold (len (zeros (Z.to_nat size)));
      rewrite ?len_zeros; lia.
  - apply Z.ltb_ge in Hshort. exists (Ctx.memory ctx).
    split; [now destruct ctx | split; [exact Hshort | reflexivity]].
Qed.

(** [MSTORE] on a stack that holds an offset and a word. *)
Lemma MSTORE_spec (ctx : Ctx.t) (offset value : Word) (rest : list Value) :
  Ctx.stack ctx = BigInt offset :: BigInt value :: rest ->
  isWord value -> 0 <= offset -> offset + 32 <= maxByteLength -> 3 <= Ctx.gasLeft ctx ->
  exists memory,
    Evm.op_MSTORE maxByteLength ctx
    = (Ok tt, Ctx.with_memory
                (Ctx.with_stack (Ctx.with_gasLeft ctx (Ctx.gasLeft ctx - 3)) rest) memory)
    /\ offset + 32 <= len memory
    /\ List.length (slice memory offset (offset + 32)) = 32%nat
    /\ beValue 0 (slice memory offset (offset + 32)) = value.
Proof.
  intros Hst Hword Hoff Hmax Hgas.
  unfold Evm.op_MSTORE, Evm.useGasOf. change (GAS_COSTS OPCODES.MSTORE) with (Some 3).
  unfold Evm.popNumber, bind. rewrite EvmFacts.useGas_ok by lia.
  rewrite (@EvmFacts.pop_cons _ (BigInt offset) (BigInt value :: rest)) by exact Hst.
  unfold ret. cbn [toNumber].
  rewrite (@EvmFacts.pop_cons _ (BigInt value) rest) by reflexivity.
  unfold Ctx.writeMemoryWordAny, bind.
  change (bigintToBytesAny (S := Ctx.t) (BigInt value) 32)
    with (bigintToBytes (S := Ctx.t) value 32).
  match goal with |- context [bigintToBytes value 32 ?c] =>
    destruct (@BigintFacts.word_bytes Ctx.t value c Hword) as (bytes & -> & Hlen & Hval)
  end.
  assert (Hlen32 : len bytes = 32) by (unfold len; rewrite Hlen; reflexivity).
  unfold Ctx.writeMemoryAny, Ctx.writeMemory. rewrite Hlen32. change (32 =? 0) with false. cbv iota. unfold bind.
  match goal with |- context [Ctx.expandMemory _ _ ?c] =>
    destruct (@expandMemory_ok (offset + 32) c) as (mem1 & -> & Hsize & _); [lia |]
  end.
  unfold modify. cbn [Ctx.memory Ctx.with_memory].
  exists (setBytes mem1 bytes offset). split; [reflexivity |].
  assert (Hslice : slice (setBytes mem1 bytes offset) offset (offset + 32) = bytes)
    by (rewrite <- Hlen32; apply slice_setBytes; lia).
  rewrite Hslice. split; [| split; [exact Hlen | exact Hval]].
  unfold len. rewrite length_setBytes; [exact Hsize | lia | lia].
Qed.

(** [MLOAD] of 32 bytes that are there. *)
Lemma MLOAD_spec (ctx : Ctx.t) (offset : Word) (rest : list Value) :
  Ctx.stack ctx = BigInt offset :: rest ->
  offset + 32 <= len (Ctx.memory ctx) -> 3 <= Ctx.gasLeft ctx -> len rest < 1024 ->
  List.length (slice (Ctx.memory ctx) offset (offset + 32)) = 32%nat ->
  isWord (beValue 0 (slice (Ctx.memory ctx) offset (offset + 32))) ->
  Evm.op_MLOAD maxByteLength ctx
  = (Ok tt, Ctx.with_stack (Ctx.with_gasLeft ctx (Ctx.gasLeft ctx - 3))
                           (BigInt (beValue 0 (slice (Ctx.memory ctx) offset (offset + 32)))
                              :: rest)).
Proof.
  intros Hst Hsize Hgas Hdepth Hlen Hword.
  unfold Evm.op_MLOAD, Evm.useGasOf. change (GAS_COSTS OPCODES.MLOAD) with (Some 3).
  unfold Evm.popNumber, bind. rewrite EvmFacts.useGas_ok by lia.
  rewrite (@EvmFacts.pop_cons _ (BigInt offset) rest) by exact Hst.
  unfold ret at 1. cbn [toNumber].
  unfold Ctx.readMemoryAny, Ctx.readMemory. change (32 =? 0) with false. cbv iota. unfold bind, Ctx.expandMemory.
  cbn [Ctx.memory Ctx.with_stack Ctx.with_gasLeft].
  replace (len (Ctx.memory ctx) <? offset + 32) with false
    by (symmetry; now apply Z.ltb_ge).
  cbn [Ctx.memory Ctx.with_stack Ctx.with_gasLeft].
  set (bytes := slice (Ctx.memory ctx) offset (offset + 32)) in *.
  assert (Hpad : padBytes bytes 32 = bytes) by (unfold padBytes; rewrite Hlen; reflexivity).
  rewrite Hpad. unfold bytesToBigint.
  destruct bytes as [| b bs] eqn:Hbytes; [discriminate Hlen |]. rewrite <- Hbytes in *.
  unfold ret. rewrite EvmFacts.push_ok; [reflexivity | | exact Hword].
  cbn [Ctx.stack Ctx.with_stack]. exact Hdepth.
Qed.

End Memory.
End MemoryFacts.

(** X10.  A word stored is the word loaded.  [MSTORE] with [offset] and a
    word [value] on the stack, and enough gas, stores 32 bytes; an [MLOAD]
    at the same [offset] afterwards, on whatever stack of legal depth,
    pushes [value].  The offset is not negative and [offset + 32] is within
    what a [Uint8Array] can hold. *)
Theorem mstore_then_mload (maxByteLength : Z) (ctx : Ctx.t) (offset value : Word)
        (rest rest' : list Value) :
  Ctx.stack ctx = BigInt offset :: BigInt value :: rest ->
  isWord value -> 0 <= offset -> offset + 32 <= maxByteLength ->
  6 <= Ctx.gasLeft ctx -> len rest' < 1024 ->
  exists ctx1 ctx2,
    Evm.op_MSTORE maxByteLength ctx = (Ok tt, ctx1)
    /\ Ctx.stack ctx1 = rest
    /\ Evm.op_MLOAD maxByteLength (Ctx.with_stack ctx1 (BigInt offset :: rest'))
       = (Ok tt, ctx2)
    /\ Ctx.stack ctx2 = BigInt value :: rest'
    /\ Ctx.gasLeft ctx2 = Ctx.gasLeft ctx - 6
    /\ Ctx.memory ctx2 = Ctx.memory ctx1.
Proof.
  intros Hst Hword Hoff Hmax Hgas Hdepth.
  destruct (@MemoryFacts.MSTORE_spec maxByteLength ctx offset value rest Hst Hword Hoff Hmax)
    as (memory & Hstore & Hsize & Hlen & Hval); [lia |].
  set (ctx1 := Ctx.with_memory
                 (Ctx.with_stack (Ctx.with_gasLeft ctx (Ctx.gasLeft ctx - 3)) rest) memory) in *.
  pose proof (@MemoryFacts.MLOAD_spec maxByteLength
                (Ctx.with_stack ctx1 (BigInt offset :: rest'))
                offset rest' eq_refl) as Hload.
  cbn [Ctx.memory Ctx.gasLeft Ctx.with_stack Ctx.with_memory Ctx.with_gasLeft ctx1] in Hload.
  rewrite Hval in Hload.
  specialize (Hload Hsize ltac:(lia) Hdepth Hlen Hword).
  exists ctx1. eexists. split; [exact Hstore |]. split; [reflexivity |].
  split; [exact Hload |]. split; [reflexivity |]. split; [| reflexivity].
  cbn [Ctx.gasLeft Ctx.with_stack Ctx.with_gasLeft]. lia.
Qed.

Lemma mstore_then_mload_witness :
  exists ctx1 ctx2,
    Evm.op_MSTORE 1000
      (Ctx.mk [] 0 [BigInt 64; BigInt 7] Undefined [] 10 [] [] emptyWorld
              Examples.exampleEnv false false)
    = (Ok tt, ctx1)
    /\ Ctx.stack ctx1 = []
    /\ Evm.op_MLOAD 1000 (Ctx.with_stack ctx1 [BigInt 64]) = (Ok tt, ctx2)
    /\ Ctx.stack ctx2 = [BigInt 7]
    /\ Ctx.gasLeft ctx2 = 10 - 6
    /\ Ctx.memory ctx2 = Ctx.memory ctx1.
Proof.
  apply (@mstore_then_mload 1000
           (Ctx.mk [] 0 [BigInt 64; BigInt 7] Undefined [] 10 [] [] emptyWorld
                   Examples.exampleEnv false false)
           64 7 [] []); try reflexivity; try (unfold isWord; lia); simpl; lia.
Defined.

(* ================================================================== *)
(** * A call that succeeds: who pays what *)
(* ================================================================== *)

Module CallFacts.
Import World.

Lemma changed_by (m : Mutation) (db dn : Z) (v : InMemoryWorldState) :
  coherent v ->
  getBalance (target m) (applyMutation m v) = getBalance (target m) v + db ->
  getNonce (target m) (applyMutation m v) = getNonce (target m) v + dn ->
  getCode (target m) (applyMutation m v) = getCode (target m) v ->
  (accountExists (target m) v = true -> accountExists (target m) (applyMutation m v) = true) ->
  changed (target m) db dn v (applyMutation m v).
Proof.
  intros Hv Hb Hn Hc He.
  split; [now apply CoherentFacts.coherent_applyMutation |].
  split; [apply AccountFacts.applyMutation_snapshots |].
  split; [exact Hb |]. split; [exact Hn |]. split; [exact Hc |]. split; [exact He |].
  intros a Hne. now apply AccountFacts.applyMutation_frame.
Qed.

Lemma changed_addBalance (addr : Address) (amount : Z) (v : InMemoryWorldState) :
  coherent v -> changed addr amount 0 v (addBalance addr amount v).
Proof.
  intros Hv.
  destruct (AccountFacts.orFresh_getters addr v) as (Hb & Hn & Hc).
  apply (@changed_by (AddBalance addr amount) amount 0 v Hv);
    cbn [target applyMutation]; rewrite AccountFacts.addBalance_update;
    destruct (amount =? 0) eqn:Hzero;
    try (apply Z.eqb_eq in Hzero; subst amount);
    try (destruct (@AccountFacts.updateAccount_getters addr
                     (fun a => set_balance a (balance a + amount)) v)
           as (Hb' & Hn' & Hc' & He'); [reflexivity |]);
    rewrite ?Hb', ?Hn', ?Hc', ?He'; cbn [set_balance balance nonce code]; auto; lia.
Qed.

Lemma changed_incrementNonce (addr : Address) (v : InMemoryWorldState) :
  coherent v -> changed addr 0 1 v (incrementNonce addr v).
Proof.
  intros Hv.
  destruct (AccountFacts.orFresh_getters addr v) as (Hb & Hn & Hc).
  destruct (@AccountFacts.updateAccount_getters addr (fun a => set_nonce a (nonce a + 1)) v)
    as (Hb' & Hn' & Hc' & He'); [reflexivity |].
  apply (@changed_by (IncrementNonce addr) 0 1 v Hv);
    cbn [target applyMutation]; rewrite AccountFacts.incrementNonce_update;
    rewrite ?Hb', ?Hn', ?Hc', ?He'; cbn [set_nonce balance nonce code]; auto; lia.
Qed.

Lemma changed_subBalance (addr : Address) (amount : Z) (v : InMemoryWorldState) :
  coherent v -> accountExists addr v = true ->
  amount = 0 \/ amount <= getBalance addr v ->
  exists v', subBalance addr amount v = (Ok tt, v') /\ changed addr (- amount) 0 v v'.
Proof.
  intros Hv Hexists Hcan.
  destruct (AccountFacts.orFresh_getters addr v) as (Hb & Hn & Hc).
  assert (Hrun : subBalance addr amount v
                 = (Ok tt, if amount =? 0 then v
                           else updateAccount addr (fun a => set_balance a (balance a - amount)) v)).
  { rewrite AccountFacts.subBalance_update.
    destruct (amount =? 0) eqn:Hzero; [reflexivity |].
    apply Z.eqb_neq in Hzero. rewrite Hexists.
    replace (getBalance addr v <? amount) with false; [reflexivity |].
    symmetry. apply Z.ltb_ge. destruct Hcan; [contradiction | assumption]. }
  eexists. split; [exact Hrun |].
  assert (Happ : applyMutation (SubBalance addr amount) v
                 = if amount =? 0 then v
                   else updateAccount addr (fun a => set_balance a (balance a - amount)) v).
  { cbn [applyMutation]. now rewrite Hrun. }
  rewrite <- Happ.
  destruct (@AccountFacts.updateAccount_getters addr
              (fun a => set_balance a (balance a - amount)) v)
    as (Hb' & Hn' & Hc' & He'); [reflexivity |].
  apply (@changed_by (SubBalance addr amount) (- amount) 0 v Hv);
    cbn [target]; rewrite Happ;
    destruct (amount =? 0) eqn:Hzero;
    try (apply Z.eqb_eq in Hzero; subst amount);
    rewrite ?Hb', ?Hn', ?Hc', ?He'; cbn [set_balance balance nonce code]; auto; lia.
Qed.

(** Steps at one address, one after the other; and seen from another
    address. *)
Lemma changed_trans (addr : Address) (db1 dn1 db2 dn2 : Z) (v1 v2 v3 : InMemoryWorldState) :
  changed addr db1 dn1 v1 v2 -> changed addr db2 dn2 v2 v3 ->
  changed addr (db1 + db2) (dn1 + dn2) v1 v3.
Proof.
  intros (_ & Hs1 & Hb1 & Hn1 & Hc1 & He1 & Hf1) (Hv & Hs2 & Hb2 & Hn2 & Hc2 & He2 & Hf2).
  split; [exact Hv |]. split; [congruence |]. split; [lia |]. split; [lia |].
  split; [congruence |]. split; [auto |].
  intros a Hne. rewrite Hf2, Hf1; auto.
Qed.

(** Seen from another address, a step changes nothing. *)
Lemma changed_elsewhere (addr other : Address) (db dn : Z) (v v' : InMemoryWorldState) :
  addressToKey other <> addressToKey addr -> changed addr db dn v v' ->
  getBalance other v' = getBalance other v
  /\ getNonce other v' = getNonce other v
  /\ getCode other v' = getCode other v
  /\ accountExists other v' = accountExists other v.
Proof.
  intros Hne (_ & _ & _ & _ & _ & _ & Hf).
  exact (@AccountFacts.same_account other v v' (Hf other Hne)).
Qed.

(** [snapshot()] from the outside: a new snapshot, and all accounts as
    before. *)
Lemma snapshot_accounts (w : InMemoryWorldState) :
  coherent w ->
  exists w1 snap,
    snapshot w = (Ok (nextSnapshotId w), w1)
    /\ coherent w1
    /\ JsMap.get (nextSnapshotId w) (snapshots w1) = Some snap
    /\ forall a, accountAt a w1 = accountAt a w.
Proof.
  intros Hw. pose proof (CoherentFacts.coherent_snapshot Hw) as Hw1.
  destruct (WorldFacts.snapshot_spec (proj1 Hw))
    as (w1 & snap & Hsnap & Hget & _ & _ & _ & _ & _ & Hobs).
  rewrite Hsnap in Hw1. exists w1, snap.
  split; [exact Hsnap |]. split; [exact Hw1 |]. split; [exact Hget |].
  intros a. unfold accountAt. rewrite !ObservableFacts.account_observable.
  unfold observable in Hobs. now injection Hobs as -> _.
Qed.

(** What [commit] and the storage writes of a run leave of the accounts. *)
Lemma accountAt_applyWrites (addr a : Address) (writes : list (string * Value))
      (w : InMemoryWorldState) :
  accountAt a (applyWrites addr writes w) = accountAt a w.
Proof.
  unfold accountAt, getAccount.
  destruct (FrameFacts.applyWrites_accounts addr writes w) as (-> & -> & _). reflexivity.
Qed.

End CallFacts.

Section SuccessfulCall.
Variable maxByteLength : Z.
Variable generateContractAddress : Address -> Z -> Address.

(** X11.  A call that goes through.  For a transaction to an address other
    than the sender's, whose sender exists, whose nonce is the sender's,
    whose value is not negative, whose gas limit is positive and which the
    sender can pay for, [executeTransaction] returns a result that reports
    gas between zero and the gas limit.  When the result is a success the
    sender has paid the value and the gas used at the gas price, and no
    more; the recipient has received the value; the nonce of the sender has
    gone up by one; and no other account has changed.  When the recipient
    has no code the result is a success with no gas used: a plain transfer
    costs no gas at all. *)
Theorem successful_call_costs_gas_used (tx : Tx.t) (to : Address)
        (block_number block_timestamp : Z) (block_coinbase : Address)
        (block_gasLimit chainId : Z) (w : InMemoryWorldState) :
  coherent w ->
  Tx.to tx = Some to ->
  World.addressToKey to <> World.addressToKey (Tx.from tx) ->
  World.accountExists (Tx.from tx) w = true ->
  Tx.nonce tx = World.getNonce (Tx.from tx) w ->
  0 <= Tx.value tx -> 0 < Tx.gasLimit tx ->
  Tx.value tx + Tx.gasLimit tx * Tx.gasPrice tx <= World.getBalance (Tx.from tx) w ->
  exists result w',
    TransactionExecutor.executeTransaction maxByteLength generateContractAddress tx
      block_number block_timestamp block_coinbase block_gasLimit chainId w
    = (Ok result, w')
    /\ 0 <= gasUsed result <= Tx.gasLimit tx
    /\ (len (World.getCode to w) = 0 -> result = mkResult true 0 [])
    /\ (success result = true ->
        World.getBalance (Tx.from tx) w'
        = World.getBalance (Tx.from tx) w - Tx.value tx - gasUsed result * Tx.gasPrice tx
        /\ World.getBalance to w' = World.getBalance to w + Tx.value tx
        /\ World.getNonce (Tx.from tx) w' = World.getNonce (Tx.from tx) w + 1
        /\ forall a, World.addressToKey a <> World.addressToKey (Tx.from tx) ->
                     World.addressToKey a <> World.addressToKey to ->
                     accountAt a w' = accountAt a w).
Proof.
  intros Hw Hto Hne Hexists Hnonce Hvalue Hlimit Hfunds.
  set (from := Tx.from tx) in *.
  assert (Hne' : World.addressToKey from <> World.addressToKey to) by congruence.
  (* the snapshot *)
  destruct (@CallFacts.snapshot_accounts w Hw) as (w1 & snap & Hsnap & Hw1 & Hget1 & Hsame1).
  destruct (@AccountFacts.same_account from w w1 (Hsame1 from)) as (Hb1 & Hn1 & _ & He1).
  destruct (@AccountFacts.same_account to w w1 (Hsame1 to)) as (Htb1 & _ & Htc1 & _).
  (* validation *)
  assert (Hvalid : TransactionExecutor.validateTransaction tx w1 = (Ok tt, w1)).
  { unfold TransactionExecutor.validateTransaction. fold from.
    rewrite <- He1 in Hexists. unfold World.accountExists, JsMap.has in Hexists.
    unfold World.getBalance, World.getNonce, World.getAccount in *.
    destruct (JsMap.get (World.addressToKey from) (accounts w1)) as [l |]; [| discriminate].
    replace (Tx.nonce tx =? nonce (objs w1 l)) with true
      by (symmetry; apply Z.eqb_eq; congruence).
    cbn [negb].
    replace (balance (objs w1 l) <? Tx.value tx + Tx.gasLimit tx * Tx.gasPrice tx) with false
      by (symmetry; apply Z.ltb_ge; lia).
    replace (Tx.gasLimit tx <=? 0) with false by (symmetry; apply Z.leb_gt; lia).
    reflexivity. }
  (* the gas is taken *)
  set (gasCost := Tx.gasLimit tx * Tx.gasPrice tx) in *.
  destruct (@CallFacts.changed_subBalance from gasCost w1 Hw1)
    as (w2 & Hrun2 & Hch2); [congruence | right; lia |].
  pose proof Hch2 as (Hw2 & Hs2 & Hb2 & Hn2 & _ & He2 & Hf2).
  destruct (@CallFacts.changed_elsewhere _ _ _ _ _ _ Hne Hch2) as (Htb2 & _ & Htc2 & _).
  (* the value moves *)
  assert (Hmove : exists w3,
             (if Tx.value tx >? 0
              then bind (World.subBalance from (Tx.value tx))
                        (fun _ => modify (World.addBalance to (Tx.value tx)))
              else ret tt) w2 = (Ok tt, w3)
             /\ coherent w3 /\ snapshots w3 = snapshots w2
             /\ World.getBalance from w3 = World.getBalance from w2 - Tx.value tx
             /\ World.getNonce from w3 = World.getNonce from w2
             /\ World.getBalance to w3 = World.getBalance to w2 + Tx.value tx
             /\ World.getCode to w3 = World.getCode to w2
             /\ forall a, World.addressToKey a <> World.addressToKey from ->
                          World.addressToKey a <> World.addressToKey to ->
                          accountAt a w3 = accountAt a w2).
  { destruct (Tx.value tx >? 0) eqn:Hpos.
    - destruct (@CallFacts.changed_subBalance from (Tx.value tx) w2 Hw2)
        as (v & Hrun & Hch); [apply He2; congruence | right; lia |].
      pose proof Hch as (Hv & Hs & Hb & Hn & _ & _ & Hf).
      destruct (@CallFacts.changed_elsewhere _ _ _ _ _ _ Hne Hch) as (Htb & _ & Htc & _).
      pose proof (@CallFacts.changed_addBalance to (Tx.value tx) v Hv) as Hch'.
      pose proof Hch' as (Hv' & Hs' & Hb' & _ & Hc' & _ & Hf').
      destruct (@CallFacts.changed_elsewhere _ _ _ _ _ _ Hne' Hch') as (Hfb & Hfn & _ & _).
      exists (World.addBalance to (Tx.value tx) v).
      split; [unfold bind; rewrite Hrun; reflexivity |].
      split; [exact Hv' |]. split; [congruence |]. split; [lia |]. split; [lia |].
      split; [lia |]. split; [congruence |].
      intros a Ha1 Ha2. rewrite Hf', Hf; auto.
    - exists w2. rewrite Z.gtb_ltb in Hpos. apply Z.ltb_ge in Hpos.
      split; [reflexivity |]. split; [exact Hw2 |]. split; [reflexivity |].
      split; [lia |]. split; [reflexivity |]. split; [lia |]. split; [reflexivity |].
      reflexivity. }
  destruct Hmove as (w3 & Hrun3 & Hw3 & Hs3 & Hb3 & Hn3 & Htb3 & Htc3 & Hf3).
  (* the nonce goes up *)
  pose proof (@CallFacts.changed_incrementNonce from w3 Hw3) as Hch4.
  set (w4 := World.incrementNonce from w3) in *.
  pose proof Hch4 as (Hw4 & Hs4 & Hb4 & Hn4 & _ & _ & Hf4).
  destruct (@CallFacts.changed_elsewhere _ _ _ _ _ _ Hne Hch4) as (Htb4 & _ & Htc4 & _).
  (* the call *)
  set (env := Env.mk to from from (Tx.value tx) (Tx.gasPrice tx) block_number
                     block_timestamp block_coinbase block_gasLimit chainId).
  assert (Hcode : World.getCode to w4 = World.getCode to w) by congruence.
  assert (Hcall : exists result w5,
             TransactionExecutor.executeCall maxByteLength tx env w4 = (Ok result, w5)
             /\ 0 <= gasUsed result <= Tx.gasLimit tx
             /\ (len (World.getCode to w) = 0 -> result = mkResult true 0 [])
             /\ coherent w5 /\ snapshots w5 = snapshots w4
             /\ forall a, accountAt a w5 = accountAt a w4).
  { unfold TransactionExecutor.executeCall, bind, get. rewrite Hto, Hcode.
    destruct (len (World.getCode to w) =? 0) eqn:Hempty.
    - exists (mkResult true 0 []), w4. split; [reflexivity |]. cbn [gasUsed].
      split; [lia |]. split; [reflexivity |]. split; [exact Hw4 |]. split; reflexivity.
    - destruct (@FrameFacts.execute_frame maxByteLength (World.getCode to w) env
                  (Tx.gasLimit tx) (Tx.data tx) w4) as (result & writes & Hrun & Hgas & _);
        [lia |].
      exists result, (applyWrites (Env.address env) writes w4).
      split; [exact Hrun |]. split; [exact Hgas |].
      split; [intros Hz; apply Z.eqb_neq in Hempty; contradiction |].
      split; [now apply FrameFacts.coherent_applyWrites |].
      split; [apply FrameFacts.applyWrites_accounts |].
      intros a. apply CallFacts.accountAt_applyWrites. }
  destruct Hcall as (result & w5 & Hrun5 & Hgas5 & Hplain & Hw5 & Hs5 & Hsame5).
  destruct (@AccountFacts.same_account from w4 w5 (Hsame5 from)) as (Hb5 & Hn5 & _ & _).
  destruct (@AccountFacts.same_account to w4 w5 (Hsame5 to)) as (Htb5 & _ & _ & _).
  (* the refund *)
  set (gasRefund := (Tx.gasLimit tx - gasUsed result) * Tx.gasPrice tx).
  pose proof (@CallFacts.changed_addBalance from gasRefund w5 Hw5) as Hch6.
  set (w6 := World.addBalance from gasRefund w5) in *.
  pose proof Hch6 as (Hw6 & Hs6 & Hb6 & Hn6 & _ & _ & Hf6).
  destruct (@CallFacts.changed_elsewhere _ _ _ _ _ _ Hne Hch6) as (Htb6 & _ & _ & _).
  (* commit or revert *)
  assert (Hget6 : JsMap.get (nextSnapshotId w) (snapshots w6) = Some snap) by congruence.
  assert (Hend : exists w7,
             (if success result
              then modify (World.commit (Some (nextSnapshotId w)))
              else World.revert (nextSnapshotId w)) w6 = (Ok tt, w7)
             /\ (success result = true -> forall a, accountAt a w7 = accountAt a w6)).
  { destruct (success result).
    - eexists. split; [reflexivity |]. intros _ a. reflexivity.
    - destruct (@RevertFacts.revert_keeps_snapshot _ _ _ Hget6) as [Hrev _].
      eexists. split; [exact Hrev |]. discriminate. }
  destruct Hend as (w7 & Hrun7 & Hsame7).
  exists result, w7. split.
  - unfold TransactionExecutor.executeTransaction, bind. rewrite Hsnap.
    unfold try_catch, TransactionExecutor.executeTransaction_try, bind.
    fold from. fold gasCost. unfold bind in Hrun3. rewrite Hvalid, Hrun2, Hto, Hrun3.
    unfold modify at 1. fold w4. fold env. rewrite Hrun5.
    unfold modify at 1. fold gasRefund. fold w6. rewrite Hrun7. reflexivity.
  - split; [exact Hgas5 |]. split; [exact Hplain |].
    intros Hok. specialize (Hsame7 Hok).
    destruct (@AccountFacts.same_account from w6 w7 (Hsame7 from)) as (Hb7 & Hn7 & _ & _).
    destruct (@AccountFacts.same_account to w6 w7 (Hsame7 to)) as (Htb7 & _ & _ & _).
    split; [subst gasRefund gasCost; nia |]. split; [lia |]. split; [lia |].
    intros a Ha1 Ha2.
    rewrite Hsame7, Hf6, Hsame5, Hf4, Hf3, Hf2, Hsame1; auto.
Qed.

End SuccessfulCall.

Lemma successful_call_costs_gas_used_witness :
  exists result w',
    TransactionExecutor.executeTransaction 1000 (fun _ _ => [])
      (Tx.mk Examples.alice (Some (repeat 0xbb 20)) 5 21000 1 0 [])
      1 1 (zeros 20) 1 1 Examples.world0
    = (Ok result, w')
    /\ result = mkResult true 0 []
    /\ World.getBalance Examples.alice w' = World.getBalance Examples.alice Examples.world0 - 5
    /\ World.getBalance (repeat 0xbb 20) w' = 5.
Proof.
  assert (Hworld : coherent Examples.world0)
    by (do 2 apply CoherentFacts.coherent_putAccount; exact CoherentFacts.coherent_emptyWorld).
  destruct (@successful_call_costs_gas_used 1000 (fun _ _ => [])
              (Tx.mk Examples.alice (Some (repeat 0xbb 20)) 5 21000 1 0 [])
              (repeat 0xbb 20) 1 1 (zeros 20) 1 1 Examples.world0 Hworld eq_refl)
    as (result & w' & Hrun & _ & Hplain & Hpaid);
    try reflexivity; try (vm_compute; discriminate).
  specialize (Hplain eq_refl). subst result.
  destruct (Hpaid eq_refl) as (Hfrom & Hto & _).
  cbn [Tx.from Tx.value Tx.gasPrice gasUsed] in Hfrom, Hto.
  exists (mkResult true 0 []), w'. split; [exact Hrun |]. split; [reflexivity |].
  split; [rewrite Hfrom; reflexivity | rewrite Hto; reflexivity].
Defined.

(* ================================================================== *)
(** * The pool: what goes into a block *)
(* ================================================================== *)

Module SelectionFacts.
Import Pool.

Lemma insertSorted_permutation {A : Type} (compare : A -> A -> Z) (x : A) (l : list A) :
  Permutation (insertSorted compare x l) (x :: l).
Proof.
  induction l as [| y rest IH]; simpl; [apply Permutation_refl |].
  destruct (compare y x >? 0); [apply Permutation_refl |].
  rewrite IH. apply perm_swap.
Qed.

Lemma jsSort_permutation {A : Type} (compare : A -> A -> Z) (l : list A) :
  Permutation (jsSort compare l) l.
Proof.
  unfold jsSort.
  assert (Hgen : forall acc,
             Permutation (fold_left (fun acc x => insertSorted compare x acc) l acc)
                         (acc ++ l)).
  { induction l as [| x rest IH]; intros acc; simpl.
    - rewrite app_nil_r. apply Permutation_refl.
    - rewrite IH, insertSorted_permutation. apply Permutation_middle. }
  apply (Hgen []).
Qed.

(** The comparator of [getTransactionsForBlock] says which gas price is
    higher. *)
Lemma blockOrder_price (a b : PoolTransaction) :
  ((blockOrder a b >? 0) = true -> byPriceDown b a)
  /\ ((blockOrder a b >? 0) = false -> byPriceDown a b).
Proof.
  unfold blockOrder, byPriceDown.
  destruct (gasPrice a =? gasPrice b) eqn:Heq; cbn [negb].
  - apply Z.eqb_eq in Heq. split; intros _; lia.
  - apply Z.eqb_neq in Heq. destruct (gasPrice b >? gasPrice a) eqn:Hgt;
      rewrite Z.gtb_ltb in Hgt; [apply Z.ltb_lt in Hgt | apply Z.ltb_ge in Hgt];
      split; intros H; try discriminate H; lia.
Qed.

Lemma insertSorted_sorted (x : PoolTransaction) (l : list PoolTransaction) :
  StronglySorted byPriceDown l -> StronglySorted byPriceDown (insertSorted blockOrder x l).
Proof.
  induction 1 as [| y rest Hrest IH Hy]; simpl; [repeat constructor |].
  destruct (blockOrder_price y x) as [Hbefore Hafter].
  destruct (blockOrder y x >? 0).
  - specialize (Hbefore eq_refl). constructor; [constructor; assumption |].
    constructor; [exact Hbefore |].
    eapply Forall_impl; [| exact Hy]. unfold byPriceDown in *. intros z Hz. lia.
  - constructor; [exact IH |].
    apply ProcessorFacts.Forall_insertSorted; [exact (Hafter eq_refl) | exact Hy].
Qed.

Lemma jsSort_sorted (l : list PoolTransaction) :
  StronglySorted byPriceDown (jsSort blockOrder l).
Proof.
  unfold jsSort.
  assert (Hgen : forall acc, StronglySorted byPriceDown acc ->
             StronglySorted byPriceDown
               (fold_left (fun acc x => insertSorted blockOrder x acc) l acc)).
  { induction l as [| x rest IH]; intros acc Hacc; simpl; [exact Hacc |].
    apply IH. now apply insertSorted_sorted. }
  apply Hgen. constructor.
Qed.

(** The loop takes a prefix, as long as the next one fits. *)
Lemma takeWhileGasFits_prefix (sorted : list PoolTransaction) (limit : Z) :
  forall total,
    total <= limit ->
    exists rest,
      sorted = takeWhileGasFits sorted total limit ++ rest
      /\ total + sumGasLimit (takeWhileGasFits sorted total limit) <= limit
      /\ match rest with
         | [] => True
         | tx :: _ =>
             limit < total + sumGasLimit (takeWhileGasFits sorted total limit) + gasLimit tx
         end.
Proof.
  induction sorted as [| tx sorted IH]; intros total Htotal; simpl.
  - exists []. simpl. repeat split; lia.
  - destruct (total + gasLimit tx >? limit) eqn:Hfits; rewrite Z.gtb_ltb in Hfits.
    + apply Z.ltb_lt in Hfits. exists (tx :: sorted). simpl. repeat split; lia.
    + apply Z.ltb_ge in Hfits.
      destruct (IH (total + gasLimit tx) Hfits) as (rest & Heq & Hsum & Hnext).
      exists rest. simpl. split; [now rewrite <- Heq |]. split; [lia |].
      destruct rest; [exact I | lia].
Qed.

End SelectionFacts.

(** X12.  What [getTransactionsForBlock(gasLimit)] hands to a block, for a
    gas limit that is not negative.  The pending transactions, sorted by gas
    price with the highest first, are cut in two: the selection and the
    rest.  The gas limits of the selection add up to at most [gasLimit],
    and the first transaction of the rest, when there is one, would not
    have fitted: the loop stops at the first transaction that does not fit
    and does not look for a smaller one behind it. *)
Theorem block_selection_fits (gasLimit_ : Z) (p : Pool.TransactionPool) :
  0 <= gasLimit_ ->
  exists rest,
    Permutation (Pool.getTransactionsForBlock gasLimit_ p ++ rest)
                (JsMap.values (Pool.pending p))
    /\ StronglySorted byPriceDown (Pool.getTransactionsForBlock gasLimit_ p ++ rest)
    /\ sumGasLimit (Pool.getTransactionsForBlock gasLimit_ p) <= gasLimit_
    /\ match rest with
       | [] => True
       | tx :: _ =>
           gasLimit_ < sumGasLimit (Pool.getTransactionsForBlock gasLimit_ p) + Pool.gasLimit tx
       end.
Proof.
  intros Hlimit. unfold Pool.getTransactionsForBlock.
  set (sorted := jsSort Pool.blockOrder (JsMap.values (Pool.pending p))).
  destruct (@SelectionFacts.takeWhileGasFits_prefix sorted gasLimit_ 0 Hlimit)
    as (rest & Heq & Hsum & Hnext).
  exists rest. rewrite <- Heq. split; [apply SelectionFacts.jsSort_permutation |].
  split; [apply SelectionFacts.jsSort_sorted |]. split; [lia |].
  destruct rest; [exact I | lia].
Qed.

Lemma block_selection_fits_witness :
  exists rest,
    Permutation (Pool.getTransactionsForBlock 100 Examples.blockPool ++ rest)
                (JsMap.values (Pool.pending Examples.blockPool))
    /\ sumGasLimit (Pool.getTransactionsForBlock 100 Examples.blockPool) <= 100.
Proof.
  destruct (@block_selection_fits 100 Examples.blockPool) as (rest & Hperm & _ & Hsum & _);
    [lia |].
  exists rest. split; assumption.
Defined.

(* ================================================================== *)
(** * The pool: added, and evicted at once *)
(* ================================================================== *)

Module EvictionFacts.
Import Pool.

Lemma delete_set_absent {V : Type} (k : string) (v : V) (m : list (string * V)) :
  JsMap.get k m = None -> JsMap.delete k (JsMap.set k v m) = m.
Proof.
  induction m as [| [k' v'] m IH]; simpl.
  - now rewrite String.eqb_refl.
  - destruct (String.eqb k k') eqn:E; [discriminate |]. intros Hnone. simpl.
    rewrite E. now rewrite IH.
Qed.

Lemma values_set_absent {V : Type} (k : string) (v : V) (m : list (string * V)) :
  JsMap.get k m = None -> JsMap.values (JsMap.set k v m) = JsMap.values m ++ [v].
Proof.
  intros Hnone. rewrite (@MapLaws.set_absent _ _ _ k v m Hnone).
  unfold JsMap.values. now rewrite map_app.
Qed.

(** The entry with the lowest gas price comes first in the order of
    eviction, wherever it stood. *)
Lemma cheapest_first (x0 : PoolTransaction) (l1 l2 : list PoolTransaction) :
  (forall y, In y (l1 ++ l2) -> gasPrice x0 < gasPrice y) ->
  exists rest, jsSort evictionOrder (l1 ++ x0 :: l2) = x0 :: rest.
Proof.
  intros Hcheap. unfold jsSort.
  assert (Hbefore : forall y, gasPrice x0 < gasPrice y -> (evictionOrder y x0 >? 0) = true).
  { intros y Hy. unfold evictionOrder.
    replace (gasPrice y =? gasPrice x0) with false by (symmetry; apply Z.eqb_neq; lia).
    replace (gasPrice y >? gasPrice x0) with true
      by (symmetry; rewrite Z.gtb_ltb; apply Z.ltb_lt; lia).
    reflexivity. }
  assert (Hafter : forall y, gasPrice x0 < gasPrice y -> (evictionOrder x0 y >? 0) = false).
  { intros y Hy. unfold evictionOrder.
    replace (gasPrice x0 =? gasPrice y) with false by (symmetry; apply Z.eqb_neq; lia).
    replace (gasPrice x0 >? gasPrice y) with false
      by (symmetry; rewrite Z.gtb_ltb; apply Z.ltb_ge; lia).
    reflexivity. }
  rewrite fold_left_app. cbn [fold_left].
  set (acc := fold_left (fun acc x => insertSorted evictionOrder x acc) l1 []).
  assert (Hacc : Forall (fun y => gasPrice x0 < gasPrice y) acc).
  { subst acc. apply (@ProcessorFacts.Forall_jsSort _ _ evictionOrder l1).
    apply Forall_forall. intros y Hy. apply Hcheap. apply in_or_app. now left. }
  assert (Hhead : exists rest, insertSorted evictionOrder x0 acc = x0 :: rest).
  { destruct acc as [| y acc']; [now exists [] |]. simpl.
    rewrite Hbefore by (now inversion Hacc). eauto. }
  destruct Hhead as (rest & ->). clear acc Hacc.
  assert (Hl2 : Forall (fun y => gasPrice x0 < gasPrice y) l2).
  { apply Forall_forall. intros y Hy. apply Hcheap. apply in_or_app. now right. }
  revert rest. induction Hl2 as [| y l2' Hy Hrest IH]; intros rest; simpl; [eauto |].
  rewrite (Hafter y Hy). apply IH.
  intros z Hz. apply Hcheap. apply in_app_or in Hz. apply in_or_app.
  destruct Hz; [now left | right; now right].
Qed.

End EvictionFacts.

(** X13.  [added: true] does not say that the transaction is in the pool.
    When the pool is full and every transaction it holds offers a higher
    gas price than the new one, [addTransaction] files the new transaction,
    finds the pool one too large, evicts the cheapest, which is the new
    one, and still answers [{ added: true }]: the pending and the queued
    map are afterwards exactly what they were. *)
Theorem added_yet_evicted (keccak_256 : Bytes -> Bytes) (tx : Tx.t) (now : Z)
        (txHash : Bytes) (p : Pool.TransactionPool) :
  Pool.validateTransaction (Pool.config p) tx = None ->
  Serialize.calculateTransactionHash keccak_256 tx p = (Ok txHash, p) ->
  JsMap.has (bytesToHex txHash) (Pool.pending p) = false ->
  JsMap.has (bytesToHex txHash) (Pool.queued p) = false ->
  len (Pool.accountTxsOf (bytesToHex (Tx.from tx)) p)
  < Pool.maxAccountTransactions (Pool.config p) ->
  Pool.getCurrentNonce (Tx.from tx) p <= Tx.nonce tx ->
  JsMap.size (Pool.pending p) + JsMap.size (Pool.queued p) = Pool.maxPoolSize (Pool.config p) ->
  (forall e, In e (JsMap.values (Pool.pending p) ++ JsMap.values (Pool.queued p)) ->
             Tx.gasPrice tx < Pool.gasPrice e) ->
  exists p',
    Pool.addTransaction keccak_256 tx now p = (Ok (Pool.mkAdd true None), p')
    /\ Pool.pending p' = Pool.pending p
    /\ Pool.queued p' = Pool.queued p.
Proof.
  intros Hvalid Hhash Hpending Hqueued Hroom Hnonce Hfull Hcheap.
  set (h := bytesToHex txHash) in *.
  apply JsMapFacts.has_none in Hpending. apply JsMapFacts.has_none in Hqueued.
  assert (Hplace : exists p', Pool.place tx h now p = (Pool.mkAdd true None, p')
                              /\ Pool.pending p' = Pool.pending p
                              /\ Pool.queued p' = Pool.queued p).
  { rewrite (PoolFacts.place_by_nonce tx h now p Hroom).
    set (entry := entryFor tx h now p).
    assert (Hevict : forall inPending,
               exists p', Pool.enforcePoolSizeLimit (withEntry inPending tx h now p) = p'
                          /\ Pool.pending p' = Pool.pending p
                          /\ Pool.queued p' = Pool.queued p).
    { intros inPending. unfold Pool.enforcePoolSizeLimit.
      assert (Hsize : JsMap.size (Pool.pending (withEntry inPending tx h now p))
                      + JsMap.size (Pool.queued (withEntry inPending tx h now p))
                      = Pool.maxPoolSize (Pool.config p) + 1).
      { unfold withEntry. cbn [Pool.pending Pool.queued]. fold entry.
        destruct inPending; rewrite JsMapFacts.size_set_absent by assumption; lia. }
      rewrite Hsize. change (Pool.config (withEntry inPending tx h now p)) with (Pool.config p).
      replace (Pool.maxPoolSize (Pool.config p) + 1 <=? Pool.maxPoolSize (Pool.config p))
        with false by (symmetry; apply Z.leb_gt; lia).
      replace (Pool.maxPoolSize (Pool.config p) + 1 - Pool.maxPoolSize (Pool.config p))
        with 1 by lia.
      assert (Hsorted : exists rest,
                 jsSort Pool.evictionOrder
                   (JsMap.values (Pool.pending (withEntry inPending tx h now p))
                    ++ JsMap.values (Pool.queued (withEntry inPending tx h now p)))
                 = entry :: rest).
      { unfold withEntry. cbn [Pool.pending Pool.queued]. fold entry.
        destruct inPending; rewrite EvictionFacts.values_set_absent by assumption.
        - rewrite <- app_assoc. apply EvictionFacts.cheapest_first. exact Hcheap.
        - rewrite app_assoc. apply EvictionFacts.cheapest_first.
          rewrite app_nil_r. exact Hcheap. }
      destruct Hsorted as (rest & ->). change (Z.to_nat 1) with 1%nat.
      cbn [firstn fold_left]. eexists. split; [reflexivity |].
      unfold Pool.evict. change (Pool.hash entry) with h.
      set (p1 := Pool.with_queued _ _).
      assert (Hp1 : Pool.pending p1 = Pool.pending p /\ Pool.queued p1 = Pool.queued p).
      { subst p1. unfold withEntry. cbn [Pool.pending Pool.queued Pool.with_queued
                                          Pool.with_pending]. fold entry.
        destruct inPending.
        - rewrite EvictionFacts.delete_set_absent, JsMapFacts.delete_absent by assumption.
          split; reflexivity.
        - rewrite EvictionFacts.delete_set_absent, JsMapFacts.delete_absent by assumption.
          split; reflexivity. }
      clearbody p1.
      destruct (JsMap.get (bytesToHex (Pool.sender entry)) (Pool.accountTransactions p1));
        [| exact Hp1].
      destruct (Pool.spliceByHash h l); exact Hp1. }
    destruct (Tx.nonce tx =? Pool.getCurrentNonce (Tx.from tx) p) eqn:Heq.
    - destruct (Hevict true) as (p' & <- & Hp & Hq). eauto.
    - replace (Tx.nonce tx >? Pool.getCurrentNonce (Tx.from tx) p) with true
        by (symmetry; rewrite Z.gtb_ltb; apply Z.ltb_lt; apply Z.eqb_neq in Heq; lia).
      destruct (Hevict false) as (p' & <- & Hp & Hq). eauto. }
  destruct Hplace as (p' & Hplace & Hp & Hq).
  exists p'. split; [| split; assumption].
  unfold Pool.addTransaction, try_catch, bind, get. rewrite Hvalid, Hhash. fold h.
  rewrite (JsMapFacts.none_has _ _ Hpending), (JsMapFacts.none_has _ _ Hqueued).
  cbn [orb]. rewrite Hplace. reflexivity.
Qed.

Lemma added_yet_evicted_witness :
  exists p',
    Pool.addTransaction Examples.stubHash Examples.poorTx 1001 Scenarios.fullPool
    = (Ok (Pool.mkAdd true None), p')
    /\ Pool.pending p' = Pool.pending Scenarios.fullPool
    /\ Pool.queued p' = Pool.queued Scenarios.fullPool.
Proof.
  apply (@added_yet_evicted Examples.stubHash Examples.poorTx 1001
           (match fst (Serialize.calculateTransactionHash Examples.stubHash Examples.poorTx
                         Scenarios.fullPool) with
            | Ok txHash => txHash
            | _ => []
            end));
    try (vm_compute; reflexivity); try (vm_compute; discriminate).
  intros e Hin. vm_compute in Hin. destruct Hin as [<- | []]. reflexivity.
Defined.

(* ================================================================== *)
(** * The block processor runs a transaction *)
(* ================================================================== *)

Module HashFacts.

(** A number that is not negative has its bytes. *)
Lemma bigintToBytes_returns {S : Type} (value : Z) (length : nat) (st : S) :
  0 <= value -> exists bytes, bigintToBytes value length st = (Ok bytes, st).
Proof.
  intros Hvalue. unfold bigintToBytes, toString16, padStart0.
  replace (value <? 0) with false by (symmetry; apply Z.ltb_ge; exact Hvalue).
  destruct (@BigintFacts.hexOfPos_spec value EmptyString Hvalue I) as (Hlow & _).
  destruct (@BigintFacts.repeatChar_zero
              (length * 2 - String.length (hexOfPos value EmptyString)) _ Hlow) as (Hpad & _).
  destruct (@BigintFacts.hexToBytes_lowerHex S _ st Hpad) as (bytes & Hrun & _).
  now exists bytes.
Qed.

Lemma calculateTransactionHash_returns {S : Type} (keccak_256 : Bytes -> Bytes) (tx : Tx.t)
      (st : S) :
  0 <= Tx.value tx -> 0 <= Tx.gasLimit tx -> 0 <= Tx.gasPrice tx -> 0 <= Tx.nonce tx ->
  exists txHash, Serialize.calculateTransactionHash keccak_256 tx st = (Ok txHash, st).
Proof.
  intros Hv Hl Hp Hn.
  unfold Serialize.calculateTransactionHash, Serialize.serializeTransaction, bind, ret.
  destruct (@bigintToBytes_returns S (Tx.value tx) 32 st Hv) as (b1 & ->).
  destruct (@bigintToBytes_returns S (Tx.gasLimit tx) 32 st Hl) as (b2 & ->).
  destruct (@bigintToBytes_returns S (Tx.gasPrice tx) 32 st Hp) as (b3 & ->).
  destruct (@bigintToBytes_returns S (Tx.nonce tx) 32 st Hn) as (b4 & ->).
  eexists. reflexivity.
Qed.

End HashFacts.

(** X14.  The block processor charges for gas and moves nothing else.  For
    a transaction whose nonce is the sender's, whose sender exists and can
    pay the gas limit at the gas price plus the value, and whose numbers are
    not negative, [BlockProcessor.executeTransaction] reports success and
    half of the gas limit as gas used.  The sender has then paid that half
    at the gas price and nothing for the value; its nonce has gone up by
    one; every other account, the recipient's too, is as it was; and the
    snapshot taken at the start is still there. *)
Theorem processor_charges_gas_only (keccak_256 : Bytes -> Bytes) (tx : Tx.t) (blockNumber : Z)
        (w : InMemoryWorldState) :
  coherent w ->
  World.accountExists (Tx.from tx) w = true ->
  Tx.nonce tx = World.getNonce (Tx.from tx) w ->
  0 <= Tx.nonce tx -> 0 <= Tx.value tx -> 0 <= Tx.gasLimit tx -> 0 <= Tx.gasPrice tx ->
  Tx.gasLimit tx * Tx.gasPrice tx + Tx.value tx <= World.getBalance (Tx.from tx) w ->
  exists r w',
    BlockProcessor.executeTransaction keccak_256 tx blockNumber w = (Ok r, w')
    /\ TxResult.success r = true
    /\ TxResult.gasUsed r = Some (Z.quot (Tx.gasLimit tx) 2)
    /\ World.getBalance (Tx.from tx) w'
       = World.getBalance (Tx.from tx) w - Z.quot (Tx.gasLimit tx) 2 * Tx.gasPrice tx
    /\ World.getNonce (Tx.from tx) w' = World.getNonce (Tx.from tx) w + 1
    /\ (forall a, World.addressToKey a <> World.addressToKey (Tx.from tx) ->
                  accountAt a w' = accountAt a w)
    /\ JsMap.has (nextSnapshotId w) (snapshots w') = true.
Proof.
  intros Hw Hexists Hnonce Hn Hvalue Hlimit Hprice Hfunds.
  set (from := Tx.from tx) in *.
  destruct (@CallFacts.snapshot_accounts w Hw) as (w1 & snap & Hsnap & Hw1 & Hget1 & Hsame1).
  destruct (@AccountFacts.same_account from w w1 (Hsame1 from)) as (Hb1 & Hn1 & _ & He1).
  set (gasCost := Tx.gasLimit tx * Tx.gasPrice tx) in *.
  destruct (@CallFacts.changed_subBalance from gasCost w1 Hw1)
    as (w2 & Hrun2 & Hch2); [congruence | right; lia |].
  pose proof Hch2 as (Hw2 & Hs2 & Hb2 & Hn2 & _ & _ & Hf2).
  pose proof (@CallFacts.changed_incrementNonce from w2 Hw2) as Hch3.
  set (w3 := World.incrementNonce from w2) in *.
  pose proof Hch3 as (Hw3 & Hs3 & Hb3 & Hn3 & _ & _ & Hf3).
  destruct (@HashFacts.calculateTransactionHash_returns _ keccak_256 tx w3 Hvalue Hlimit
              Hprice Hn) as (txHash & Hhash).
  set (refund := (Tx.gasLimit tx - Z.quot (Tx.gasLimit tx) 2) * Tx.gasPrice tx).
  pose proof (@CallFacts.changed_addBalance from refund w3 Hw3) as Hch4.
  set (w4 := World.addBalance from refund w3) in *.
  pose proof Hch4 as (Hw4 & Hs4 & Hb4 & Hn4 & _ & _ & Hf4).
  assert (Hsim : BlockProcessor.simulateTransactionExecution tx (Tx.gasLimit tx)
                 = BlockProcessor.mkSimulated true (Z.quot (Tx.gasLimit tx) 2)
                     (match Tx.to tx with
                      | Some _ => None
                      | None => Some (BlockProcessor.generateContractAddress from (Tx.nonce tx))
                      end) None None).
  { unfold BlockProcessor.simulateTransactionExecution. now destruct (Tx.to tx). }
  eexists. exists w4. split.
  - unfold BlockProcessor.executeTransaction, try_catch, bind, get. rewrite Hsnap.
    fold from. fold gasCost.
    replace (Tx.nonce tx =? World.getNonce from w1) with true
      by (symmetry; apply Z.eqb_eq; congruence).
    cbn [negb].
    replace (World.getBalance from w1 <? gasCost + Tx.value tx) with false
      by (symmetry; apply Z.ltb_ge; lia).
    rewrite Hrun2. unfold modify at 1. fold w3. rewrite Hhash, Hsim.
    cbn [BlockProcessor.sim_success BlockProcessor.sim_gasUsed negb].
    unfold modify, ret. fold refund. fold w4. reflexivity.
  - split; [reflexivity |]. split; [reflexivity |].
    split; [subst refund gasCost; nia |]. split; [lia |]. split.
    + intros a Ha. rewrite Hf4, Hf3, Hf2, Hsame1; auto.
    + unfold JsMap.has. rewrite Hs4, Hs3, Hs2, Hget1. reflexivity.
Qed.

Lemma processor_charges_gas_only_witness :
  exists r w',
    BlockProcessor.executeTransaction Examples.stubHash Examples.richTx 1 Examples.blockWorld
    = (Ok r, w')
    /\ TxResult.success r = true
    /\ World.getBalance Examples.rich w'
       = World.getBalance Examples.rich Examples.blockWorld - 10500 * 2.
Proof.
  assert (Hworld : coherent Examples.blockWorld)
    by (do 2 apply CoherentFacts.coherent_putAccount; exact CoherentFacts.coherent_emptyWorld).
  destruct (@processor_charges_gas_only Examples.stubHash Examples.richTx 1
              Examples.blockWorld Hworld)
    as (r & w' & Hrun & Hok & _ & Hpaid & _);
    try reflexivity; try (vm_compute; discriminate).
  exists r, w'. split; [exact Hrun |]. split; [exact Hok | exact Hpaid].
Defined.

(* ================================================================== *)
(** * SWAP at the bottom of the stack *)
(* ================================================================== *)

Module SwapFacts.

Lemma swap_cost (opcode : Z) :
  OPCODES.SWAP1 <= opcode <= OPCODES.SWAP16 -> GAS_COSTS opcode = Some 3.
Proof.
  unfold OPCODES.SWAP1, OPCODES.SWAP16, GAS_COSTS. intros Hop.
  replace ((0x60 <=? opcode) && (opcode <=? 0x7f)) with false
    by (symmetry; apply andb_false_iff; right; apply Z.leb_gt; lia).
  replace ((0x80 <=? opcode) && (opcode <=? 0x9f)) with true
    by (symmetry; apply andb_true_iff; split; apply Z.leb_le; lia).
  reflexivity.
Qed.

Lemma swap_handler (maxByteLength opcode : Z) :
  OPCODES.SWAP1 <= opcode <= OPCODES.SWAP16 ->
  Evm.opcodeHandlers maxByteLength opcode = Some (Evm.op_SWAP opcode).
Proof.
  intros Hop. unfold Evm.opcodeHandlers.
  replace ((OPCODES.PUSH1 <=? opcode) && (opcode <=? OPCODES.PUSH32)) with false
    by (symmetry; apply andb_false_iff; right; apply Z.leb_gt;
        unfold OPCODES.SWAP1, OPCODES.PUSH32 in *; lia).
  replace ((OPCODES.DUP1 <=? opcode) && (opcode <=? OPCODES.DUP16)) with false
    by (symmetry; apply andb_false_iff; right; apply Z.leb_gt;
        unfold OPCODES.SWAP1, OPCODES.DUP16 in *; lia).
  replace ((OPCODES.SWAP1 <=? opcode) && (opcode <=? OPCODES.SWAP16)) with true
    by (symmetry; apply andb_true_iff; split; apply Z.leb_le; lia).
  reflexivity.
Qed.

(** [op_SWAP] with gas for it: three units are taken, then [swap] runs. *)
Lemma op_SWAP_runs (opcode : Z) (ctx : Ctx.t) :
  OPCODES.SWAP1 <= opcode <= OPCODES.SWAP16 -> 3 <= Ctx.gasLeft ctx ->
  Evm.op_SWAP opcode ctx
  = Ctx.swap (opcode - OPCODES.SWAP1) (Ctx.with_gasLeft ctx (Ctx.gasLeft ctx - 3)).
Proof.
  intros Hop Hgas. unfold Evm.op_SWAP, Evm.useGasOf. rewrite (swap_cost Hop).
  unfold bind. now rewrite EvmFacts.useGas_ok by lia.
Qed.

Lemma nth_error_middle {A : Type} (l1 l2 : list A) (x : A) :
  nth_error (l1 ++ x :: l2) (List.length l1) = Some x
  /\ firstn (List.length l1) (l1 ++ x :: l2) = l1
  /\ skipn (S (List.length l1)) (l1 ++ x :: l2) = l2.
Proof.
  split; [| split].
  - rewrite nth_error_app2 by lia. now rewrite Nat.sub_diag.
  - rewrite firstn_app, Nat.sub_diag, firstn_all. simpl. apply app_nil_r.
  - change (l1 ++ x :: l2) with (l1 ++ [x] ++ l2). rewrite app_assoc.
    replace (S (List.length l1)) with (List.length (l1 ++ [x]))
      by (rewrite length_app; simpl; lia).
    now rewrite skipn_app, skipn_all, Nat.sub_diag.
Qed.

End SwapFacts.

(** X15.  [SWAPn], for [n] from 1 to 16, on a stack that is not empty and
    with three units of gas.  With more than [n] entries it exchanges the
    top with the entry [n] places below it.  With fewer than [n] entries it
    fails with 'Stack underflow'.  With exactly [n] entries it does not
    fail: the index it computes for the other entry is [-1], so the top of
    the stack takes what the property [-1] of the stack array holds, which
    is [undefined] until a [SWAP] has written it, and the property takes
    the old top; the frame goes on with a stack of the same depth.  In
    each case the three units of gas are gone. *)
Theorem swap_reaches_below_the_stack (maxByteLength opcode : Z) (ctx : Ctx.t) (top : Value)
        (below : list Value) :
  OPCODES.SWAP1 <= opcode <= OPCODES.SWAP16 ->
  Ctx.stack ctx = top :: below ->
  3 <= Ctx.gasLeft ctx ->
  let n := opcode - OPCODES.SWAP1 + 1 in
  let paid := Ctx.with_gasLeft ctx (Ctx.gasLeft ctx - 3) in
  Evm.opcodeHandlers maxByteLength opcode = Some (Evm.op_SWAP opcode)
  /\ (forall l1 target l2,
        below = l1 ++ target :: l2 -> len l1 = n - 1 ->
        Evm.op_SWAP opcode ctx
        = (Ok tt, Ctx.with_stack paid (target :: l1 ++ top :: l2)))
  /\ (len below < n - 1 ->
      Evm.op_SWAP opcode ctx = (Throw (Error "Stack underflow"), paid))
  /\ (len below = n - 1 ->
      Evm.op_SWAP opcode ctx
      = (Ok tt, Ctx.with_stackMinus1 (Ctx.with_stack paid (Ctx.stackMinus1 ctx :: below))
                                     top)).
Proof.
  intros Hop Hst Hgas n paid.
  split; [now apply SwapFacts.swap_handler |].
  rewrite (SwapFacts.op_SWAP_runs ctx Hop Hgas). fold paid.
  assert (Hpaid : Ctx.stack paid = top :: below) by exact Hst.
  unfold Ctx.swap. rewrite Hpaid, EvmFacts.len_cons.
  split; [| split].
  - intros l1 target l2 Hbelow Hlen.
    assert (Hindex : Z.to_nat (opcode - OPCODES.SWAP1) = List.length l1)
      by (unfold len in Hlen; subst n; lia).
    replace (opcode - OPCODES.SWAP1 >=? len below + 1) with false.
    + rewrite Hindex, Hbelow.
      destruct (SwapFacts.nth_error_middle l1 l2 target) as (-> & -> & ->). reflexivity.
    + symmetry. rewrite Z.geb_leb. apply Z.leb_gt. rewrite Hbelow. unfold len in *.
      rewrite length_app. cbn [List.length]. subst n. lia.
  - intros Hshort.
    replace (opcode - OPCODES.SWAP1 >=? len below + 1) with true; [reflexivity |].
    symmetry. rewrite Z.geb_leb. apply Z.leb_le. subst n. lia.
  - intros Hexact.
    replace (opcode - OPCODES.SWAP1 >=? len below + 1) with false
      by (symmetry; rewrite Z.geb_leb; apply Z.leb_gt; subst n; lia).
    replace (nth_error below (Z.to_nat (opcode - OPCODES.SWAP1))) with (@None Value);
      [reflexivity |].
    symmetry. apply nth_error_None. unfold len in Hexact. subst n. lia.
Qed.

(** [PUSH1 5; SWAP1; PUSH1 0; SSTORE; STOP]: the [SWAP1] finds one entry,
    leaves [undefined] on the stack, and the frame ends as a success after
    20009 units of gas; slot 0 then holds [undefined], which reads as 0. *)
Lemma swap_reaches_below_the_stack_witness :
  Evm.op_SWAP 0x90
    (Ctx.mk [0x60; 0x05; 0x90; 0x60; 0x00; 0x55; 0x00] 2 [BigInt 5] Undefined [] 29997 [] []
            Examples.world0 Examples.exampleEnv false false)
  = (Ok tt,
     Ctx.mk [0x60; 0x05; 0x90; 0x60; 0x00; 0x55; 0x00] 2 [Undefined] (BigInt 5) [] 29994 [] []
            Examples.world0 Examples.exampleEnv false false)
  /\ exists world',
       Evm.execute 1000 [0x60; 0x05; 0x90; 0x60; 0x00; 0x55; 0x00] Examples.exampleEnv 30000 []
                   Examples.world0
       = (Ok (mkResult true 20009 []), world')
       /\ World.getStorage (Env.address Examples.exampleEnv) 0 world' = 0.
Proof.
  split.
  - refine (proj2 (proj2 (proj2
             (@swap_reaches_below_the_stack 1000 0x90
                (Ctx.mk [0x60; 0x05; 0x90; 0x60; 0x00; 0x55; 0x00] 2 [BigInt 5] Undefined []
                        29997 [] [] Examples.world0 Examples.exampleEnv false false)
                (BigInt 5) [] _ eq_refl _))) _).
    + unfold OPCODES.SWAP1, OPCODES.SWAP16. lia.
    + simpl. lia.
    + reflexivity.
  - eexists. split; vm_compute; reflexivity.
Defined.

(* ================================================================== *)
(** * Block validation: what a valid block is *)
(* ================================================================== *)

Module ValidationFacts.
Section ValidationFacts.
Variable keccak_256 : Bytes -> Bytes.

Lemma unchanged_calculateTransactionHash {S : Type} (tx : Tx.t) :
  preserves eq (Serialize.calculateTransactionHash (S := S) keccak_256 tx).
Proof.
  unfold Serialize.calculateTransactionHash, Serialize.serializeTransaction.
  repeat (apply PreservesFacts.preserves_bind;
          [exact _ | try apply PreservesFacts.unchanged_bigintToBytes | intros ?]);
    apply PreservesFacts.preserves_ret; exact _.
Qed.

Lemma unchanged_calculateBlockHash {S : Type} (block : Block) :
  preserves eq (Serialize.calculateBlockHash (S := S) keccak_256 block).
Proof.
  unfold Serialize.calculateBlockHash, Serialize.serializeBlockHeader.
  repeat (apply PreservesFacts.preserves_bind;
          [exact _ | try apply PreservesFacts.unchanged_bigintToBytes | intros ?]);
    apply PreservesFacts.preserves_ret; exact _.
Qed.

Lemma unchanged_concatSerialized {S : Type} (txs : list Tx.t) :
  forall acc, preserves eq (Serialize.concatSerialized (S := S)
                              Serialize.serializeTransaction txs acc).
Proof.
  induction txs as [| tx rest IH]; intros acc; cbn [Serialize.concatSerialized].
  - apply PreservesFacts.preserves_ret; exact _.
  - apply PreservesFacts.preserves_bind; [exact _ | | intros bytes; apply IH].
    unfold Serialize.serializeTransaction.
    repeat (apply PreservesFacts.preserves_bind;
            [exact _ | try apply PreservesFacts.unchanged_bigintToBytes | intros ?]);
      apply PreservesFacts.preserves_ret; exact _.
Qed.

Lemma unchanged_calculateTransactionsRoot {S : Type} (txs : list Tx.t) :
  preserves eq (Serialize.calculateTransactionsRoot (S := S) keccak_256 txs).
Proof.
  unfold Serialize.calculateTransactionsRoot. destruct txs as [| tx rest].
  - apply PreservesFacts.preserves_ret; exact _.
  - apply PreservesFacts.preserves_bind; [exact _ | apply unchanged_concatSerialized |].
    intros ?. apply PreservesFacts.preserves_ret; exact _.
Qed.

Lemma valid_payable (tx : Tx.t) (blockNumber : Z) (w : InMemoryWorldState) :
  valid (BlockValidation.validateTransactionAgainstState tx blockNumber w) = true ->
  payable tx w.
Proof.
  unfold BlockValidation.validateTransactionAgainstState, payable.
  destruct (World.accountExists (Tx.from tx) w); [| discriminate]. cbn [negb].
  destruct (Tx.nonce tx =? World.getNonce (Tx.from tx) w) eqn:Hnonce; [| discriminate].
  cbn [negb].
  destruct (World.getBalance (Tx.from tx) w <? Tx.gasLimit tx * Tx.gasPrice tx + Tx.value tx)
    eqn:Hbalance; [discriminate |].
  destruct (negb (Tx.gasLimit tx =? 0) && (Tx.gasLimit tx <=? 0)) eqn:Hlimit; [discriminate |].
  intros _. apply Z.eqb_eq in Hnonce. apply Z.ltb_ge in Hbalance.
  repeat split; auto.
  apply andb_false_iff in Hlimit. destruct Hlimit as [H | H].
  - apply negb_false_iff, Z.eqb_eq in H. lia.
  - apply Z.leb_gt in H. lia.
Qed.

Ltac stops := eexists; split; [reflexivity |]; split; [discriminate | intros ? [=]].

(** The loop over the transactions: it returns, it changes nothing, and
    when it runs to its end every transaction was payable in the state the
    loop started in and the total is the sum of the gas limits. *)
Lemma validateTransactions_spec (txs : list Tx.t) (blockNumber : Z) :
  forall (i totalGasUsed : Z) (hashes : list string) (s : BlockProcessor.State),
  exists out,
    BlockValidation.validateTransactions keccak_256 txs i blockNumber totalGasUsed hashes s
    = (out, s)
    /\ out <> OutOfFuel
    /\ forall total,
         out = Ok (inr total) ->
         total = totalGasUsed + sumTxGasLimit txs
         /\ Forall (fun tx => payable tx (BlockProcessor.worldState s)) txs.
Proof.
  induction txs as [| tx rest IH]; intros i totalGasUsed hashes s;
    cbn [BlockValidation.validateTransactions].
  - eexists. split; [reflexivity |]. split; [discriminate |].
    intros total [= <-]. cbn. split; [lia | constructor].
  - unfold bind at 1.
    destruct (unchanged_calculateTransactionHash (S := BlockProcessor.State) tx s)
      as [Hfuel Hsame].
    destruct (Serialize.calculateTransactionHash keccak_256 tx s) as [[txHash | e |] s1];
      cbn [fst snd] in *; subst s1;
      [| stops | congruence].
    destruct (existsb (String.eqb (bytesToHex txHash)) hashes); [stops |].
    unfold bind at 1, get at 1.
    destruct (valid (BlockValidation.validateTransactionAgainstState tx blockNumber
                       (BlockProcessor.worldState s))) eqn:Hvalid; cbn [negb];
      [| stops].
    destruct (IH (i + 1) (totalGasUsed + Tx.gasLimit tx) (hashes ++ [bytesToHex txHash]) s)
      as (out & Hrun & Hf & Hend).
    exists out. split; [exact Hrun |]. split; [exact Hf |].
    intros total Htotal. destruct (Hend total Htotal) as [Hsum Hall].
    split; [cbn [sumTxGasLimit fold_right]; fold (sumTxGasLimit rest); lia |].
    constructor; [| exact Hall]. exact (@valid_payable tx blockNumber _ Hvalid).
Qed.

(** [validateBlock] returns, changes nothing, and says [valid] only after
    it has seen what follows. *)
Lemma validateBlock_sound (consensus : Consensus.ConsensusState) (now : Z) (block : Block)
      (parentBlock : option Block) (s : BlockProcessor.State) :
  exists r,
    BlockValidation.validateBlock keccak_256 consensus now block parentBlock s = (Ok r, s)
    /\ (bv_valid r = true ->
        valid (Consensus.validateBlockHeader (header block) (option_map header parentBlock)
                                             now consensus) = true
        /\ Header.gasUsed (header block) = sumTxGasLimit (transactions block)
        /\ sumTxGasLimit (transactions block) <= Header.gasLimit (header block)
        /\ Forall (fun tx => payable tx (BlockProcessor.worldState s)) (transactions block)
        /\ bv_gasUsed r = Some (Header.gasUsed (header block))).
Proof.
  unfold BlockValidation.validateBlock, try_catch.
  destruct (valid (Consensus.validateBlockHeader (header block)
                     (option_map header parentBlock) now consensus)) eqn:Hheader; cbn [negb];
    [| eexists; split; [reflexivity | discriminate]].
  unfold bind at 1.
  destruct (unchanged_calculateBlockHash (S := BlockProcessor.State) block s) as [Hfuel Hsame].
  destruct (Serialize.calculateBlockHash keccak_256 block s) as [[blockHash | e |] s1];
    cbn [fst snd] in *; subst s1;
    [| eexists; split; [reflexivity | discriminate] | congruence].
  unfold bind at 1.
  destruct (validateTransactions_spec (transactions block) (Header.number (header block))
              0 0 [] s) as (out & Hrun & Hf & Hend).
  rewrite Hrun. destruct out as [[why | total] | e |];
    [eexists; split; [reflexivity | discriminate] | |
     eexists; split; [reflexivity | discriminate] | congruence].
  destruct (Hend total eq_refl) as [Hsum Hall]. rewrite Z.add_0_l in Hsum.
  destruct (total =? Header.gasUsed (header block)) eqn:Hused; cbn [negb];
    [| eexists; split; [reflexivity | discriminate]].
  destruct (total >? Header.gasLimit (header block)) eqn:Hlimit;
    [eexists; split; [reflexivity | discriminate] |].
  unfold bind at 1.
  destruct (unchanged_calculateTransactionsRoot (S := BlockProcessor.State)
              (transactions block) s) as [Hfuel' Hsame'].
  destruct (Serialize.calculateTransactionsRoot keccak_256 (transactions block) s)
    as [[root | e |] s1]; cbn [fst snd] in *; subst s1;
    [| eexists; split; [reflexivity | discriminate] | congruence].
  destruct (String.eqb (bytesToHex (Header.transactionsRoot (header block))) (bytesToHex root));
    cbn [negb]; [| eexists; split; [reflexivity | discriminate]].
  eexists. split; [reflexivity |]. intros _.
  apply Z.eqb_eq in Hused. rewrite Z.gtb_ltb in Hlimit. apply Z.ltb_ge in Hlimit.
  cbn [bv_gasUsed]. repeat split; auto; congruence || lia.
Qed.

End ValidationFacts.
End ValidationFacts.

(** X16.  What [validateBlock] has checked when it says [valid].  It
    always returns and changes neither the world state nor the pool.  When
    the answer is [valid], the consensus engine has accepted the header, the
    gas used in the header is the sum of the gas limits of the
    transactions, not of the gas they used, and is within the gas limit of
    the block, and every transaction is payable in the state as it is
    before the block: no transaction is executed in between, so two
    transactions of one sender in a valid block carry the same nonce. *)
Theorem valid_block_means (keccak_256 : Bytes -> Bytes) (consensus : Consensus.ConsensusState)
        (now : Z) (block : Block) (parentBlock : option Block) (s : BlockProcessor.State) :
  exists r,
    BlockValidation.validateBlock keccak_256 consensus now block parentBlock s = (Ok r, s)
    /\ (bv_valid r = true ->
        valid (Consensus.validateBlockHeader (header block) (option_map header parentBlock)
                                             now consensus) = true
        /\ Header.gasUsed (header block) = sumTxGasLimit (transactions block)
        /\ Header.gasUsed (header block) <= Header.gasLimit (header block)
        /\ Forall (fun tx => payable tx (BlockProcessor.worldState s)) (transactions block)
        /\ forall tx1 tx2,
             In tx1 (transactions block) -> In tx2 (transactions block) ->
             Tx.from tx1 = Tx.from tx2 -> Tx.nonce tx1 = Tx.nonce tx2).
Proof.
  destruct (ValidationFacts.validateBlock_sound keccak_256 consensus now block parentBlock s)
    as (r & Hrun & Hvalid).
  exists r. split; [exact Hrun |]. intros Hr.
  destruct (Hvalid Hr) as (Hheader & Hused & Hlimit & Hall & _).
  split; [exact Hheader |]. split; [exact Hused |]. split; [lia |]. split; [exact Hall |].
  intros tx1 tx2 H1 H2 Hfrom. rewrite Forall_forall in Hall.
  destruct (Hall tx1 H1) as (_ & Hn1 & _). destruct (Hall tx2 H2) as (_ & Hn2 & _).
  congruence.
Qed.

(* ================================================================== *)
(** * A block the processor creates against the processor's validation *)
(* ================================================================== *)

Module RejectionFacts.
Section RejectionFacts.
Import BlockProcessor.
Variable keccak_256 : Bytes -> Bytes.
Variable options : BlockProcessingOptions.

(** The loop of [createBlock] adds at most half of the gas limit of each
    transaction to the total, whatever the pool entries say. *)
Lemma executeAll_at_most_half (poolTransactions : list Pool.PoolTransaction)
      (blockNumber : Z) :
  forall (results : list TxResult.t) (receipts : list Receipt.t) (total : Z)
         (w : InMemoryWorldState),
  exists results' receipts' total' w',
    executeAll keccak_256 options poolTransactions blockNumber results receipts total w
    = (Ok (results', receipts', total'), w')
    /\ total' <= total + halfGas (map Pool.transaction poolTransactions).
Proof.
  induction poolTransactions as [| poolTx rest IH]; intros results receipts total w;
    cbn [executeAll map halfGas fold_right].
  - eexists _, _, _, _. split; [reflexivity |]. lia.
  - fold (halfGas (map Pool.transaction rest)).
    pose proof (Z.le_max_l 0 (Z.quot (Tx.gasLimit (Pool.transaction poolTx)) 2)) as Hmax0.
    pose proof (Z.le_max_r 0 (Z.quot (Tx.gasLimit (Pool.transaction poolTx)) 2)) as Hmax.
    assert (Hrest : 0 <= halfGas (map Pool.transaction rest)).
    { clear. induction rest as [| e rest IH]; cbn; [lia |].
      fold (halfGas (map Pool.transaction rest)). lia. }
    destruct (total + Pool.gasLimit poolTx >? gasLimit options).
    + eexists _, _, _, _. split; [reflexivity |]. lia.
    + destruct (ProcessorFacts.executeTransaction_cases keccak_256
                  (Pool.transaction poolTx) blockNumber w)
        as (r & w1 & Hrun & Hcases).
      unfold bind at 1. rewrite Hrun.
      destruct Hcases as [(Hs & Hc & Hg) | (Hs & Hc & Hg)]; rewrite Hs.
      * unfold counted in Hc. rewrite Hs in Hc.
        destruct (TxResult.receipt r) as [receipt |]; [| discriminate]. rewrite Hg.
        destruct (IH (results ++ [r]) (receipts ++ [receipt])
                     (total + Z.quot (Tx.gasLimit (Pool.transaction poolTx)) 2) w1)
          as (results' & receipts' & total' & w' & Hall & Hle).
        exists results', receipts', total', w'. split; [exact Hall | lia].
      * destruct (IH (results ++ [r]) receipts total w1)
          as (results' & receipts' & total' & w' & Hall & Hle).
        exists results', receipts', total', w'. split; [exact Hall | lia].
Qed.

(** The block of [createBlock] lists the selected transactions and has in
    its header the total of the loop. *)
Lemma createBlock_header (parentBlock : Block) (validator : Address) (now : Z)
      (s s' : State) (r : BlockResult.t) (block : Block) :
  createBlock keccak_256 options parentBlock validator now s = (Ok r, s') ->
  BlockResult.block r = Some block ->
  Header.gasUsed (header block) <= halfGas (transactions block).
Proof.
  destruct (ReturnsFacts.snapshot_returns_id (worldState s)) as (w1 & Hsnap).
  destruct (executeAll_at_most_half
              (Pool.getTransactionsForBlock (gasLimit options) (txPool s))
              (Header.number (header parentBlock) + 1) [] [] 0 w1)
    as (results & receipts & total & w2 & Hall & Hle).
  unfold createBlock, try_catch.
  unfold bind at 1. unfold get at 1. unfold bind at 1. unfold liftWorld at 1.
  rewrite Hsnap. cbn [worldState txPool].
  unfold bind at 1. unfold liftWorld at 1. cbn [worldState txPool].
  rewrite Hall.
  unfold bind at 1.
  match goal with
  | |- context [Serialize.calculateBlockHash ?k ?b ?st] =>
      destruct (Serialize.calculateBlockHash k b st) as [[parentHash | e |] s1] eqn:H1;
      [| cbn; intros [= <- _]; discriminate
       | exfalso; exact (ReturnsFacts.returns_calculateBlockHash k b st (f_equal fst H1))]
  end.
  unfold bind at 1.
  match goal with
  | |- context [Serialize.calculateTransactionsRoot ?k ?b ?st] =>
      destruct (Serialize.calculateTransactionsRoot k b st)
        as [[transactionsRoot | e |] s2] eqn:H2;
      [| cbn; intros [= <- _]; discriminate
       | exfalso;
         exact (ReturnsFacts.returns_calculateTransactionsRoot k b st (f_equal fst H2))]
  end.
  unfold bind at 1.
  match goal with
  | |- context [calculateReceiptsRoot ?k ?b ?st] =>
      destruct (calculateReceiptsRoot k b st) as [[receiptsRoot | e |] s3] eqn:H3;
      [| cbn; intros [= <- _]; discriminate
       | exfalso; exact (ReturnsFacts.returns_calculateReceiptsRoot k b st (f_equal fst H3))]
  end.
  unfold bind at 1.
  match goal with
  | |- context [PoAConsensus.signBlockHeader ?k ?h ?v ?st] =>
      destruct (PoAConsensus.signBlockHeader k h v st) as [[signedHeader | e |] s4] eqn:H4;
      [| cbn; intros [= <- _]; discriminate
       | exfalso; exact (ReturnsFacts.returns_signBlockHeader k h v st (f_equal fst H4))]
  end.
  apply ProcessorFacts.signBlockHeader_gasUsed in H4. cbn [Header.gasUsed] in H4.
  cbn. intros [= <- _] [= <-]. cbn [header transactions]. rewrite H4, Z.add_0_l in *.
  exact Hle.
Qed.

(** Among transactions with gas limits that are not negative, half of the
    gas is less than the gas limits together as soon as one limit is not 0. *)
Lemma halfGas_less (txs : list Tx.t) :
  Forall (fun tx => 0 <= Tx.gasLimit tx) txs ->
  halfGas txs <= sumTxGasLimit txs
  /\ ((exists tx, In tx txs /\ Tx.gasLimit tx <> 0) -> halfGas txs < sumTxGasLimit txs).
Proof.
  induction 1 as [| tx rest Htx Hrest IH]; cbn [halfGas sumTxGasLimit fold_right].
  - split; [lia |]. intros (tx & [] & _).
  - fold (halfGas rest); fold (sumTxGasLimit rest). destruct IH as [IHle IHlt].
    assert (Hhalf : Z.max 0 (Z.quot (Tx.gasLimit tx) 2) <= Tx.gasLimit tx
                    /\ (Tx.gasLimit tx <> 0 ->
                        Z.max 0 (Z.quot (Tx.gasLimit tx) 2) < Tx.gasLimit tx)).
    { rewrite Z.quot_div_nonneg by lia.
      assert (0 <= Tx.gasLimit tx / 2) by (apply Z.div_pos; lia).
      rewrite Z.max_r by lia.
      split; [apply Z.div_le_upper_bound; lia |].
      intros Hnz. apply Z.div_lt_upper_bound; lia. }
    destruct Hhalf as [Hle Hlt]. split; [lia |].
    intros (tx' & [-> | Hin] & Hnz).
    + specialize (Hlt Hnz). lia.
    + assert (halfGas rest < sumTxGasLimit rest) by (apply IHlt; exists tx'; auto). lia.
Qed.

End RejectionFacts.
End RejectionFacts.

(** X17.  A block that [createBlock] has made does not pass [validateBlock]
    of the same processor as soon as it lists a transaction whose gas limit
    is not 0.  [createBlock] writes in the header the gas the transactions
    used, which is at most half of their gas limits; [validateBlock] wants
    the header to have the sum of the gas limits.  This holds for every
    consensus state, time, parent block and state in which the block is
    validated. *)
Theorem created_block_is_rejected (keccak_256 : Bytes -> Bytes)
        (options : BlockProcessor.BlockProcessingOptions) (parentBlock : Block)
        (validator : Address) (now : Z) (s s' : BlockProcessor.State)
        (r : BlockResult.t) (block : Block) :
  BlockProcessor.createBlock keccak_256 options parentBlock validator now s = (Ok r, s') ->
  BlockResult.block r = Some block ->
  (exists tx, In tx (transactions block) /\ Tx.gasLimit tx <> 0) ->
  forall (consensus : Consensus.ConsensusState) (now' : Z) (parent : option Block)
         (s1 : BlockProcessor.State),
  exists v,
    BlockValidation.validateBlock keccak_256 consensus now' block parent s1 = (Ok v, s1)
    /\ bv_valid v = false.
Proof.
  intros Hcreate Hblock Hgas consensus now' parent s1.
  destruct (ValidationFacts.validateBlock_sound keccak_256 consensus now' block parent s1)
    as (v & Hrun & Hvalid).
  exists v. split; [exact Hrun |].
  destruct (bv_valid v) eqn:Hv; [exfalso | reflexivity].
  destruct (Hvalid eq_refl) as (_ & Hused & _ & Hall & _).
  pose proof (@RejectionFacts.createBlock_header keccak_256 options parentBlock validator now
                s s' r block Hcreate Hblock) as Hhalf.
  assert (Hnonneg : Forall (fun tx => 0 <= Tx.gasLimit tx) (transactions block)).
  { eapply Forall_impl; [| exact Hall]. intros tx (_ & _ & _ & H). exact H. }
  destruct (RejectionFacts.halfGas_less Hnonneg) as [_ Hlt].
  specialize (Hlt Hgas). lia.
Qed.

Lemma created_block_is_rejected_witness :
  exists r s' block v,
    BlockProcessor.createBlock Examples.stubHash Examples.blockOptions Examples.genesis
                               Examples.validator 1010 Examples.blockState = (Ok r, s')
    /\ BlockResult.block r = Some block
    /\ In Examples.richTx (transactions block)
    /\ BlockValidation.validateBlock Examples.stubHash
         (Consensus.new [Examples.validator] 5) 1010 block (Some Examples.genesis) s'
       = (Ok v, s')
    /\ bv_valid v = false.
Proof.
  pose (out := BlockProcessor.createBlock Examples.stubHash Examples.blockOptions
                 Examples.genesis Examples.validator 1010 Examples.blockState).
  pose (r := match fst out with
             | Ok r => r
             | _ => BlockResult.mk false None None None None None
             end).
  pose (block := match BlockResult.block r with Some b => b | None => Examples.genesis end).
  assert (Hcreate : BlockProcessor.createBlock Examples.stubHash Examples.blockOptions
                      Examples.genesis Examples.validator 1010 Examples.blockState
                    = (Ok r, snd out)) by (vm_compute; reflexivity).
  assert (Hblock : BlockResult.block r = Some block) by (vm_compute; reflexivity).
  assert (Hin : In Examples.richTx (transactions block)) by (vm_compute; auto).
  assert (Hgas : exists tx, In tx (transactions block) /\ Tx.gasLimit tx <> 0).
  { exists Examples.richTx. split; [exact Hin | vm_compute; discriminate]. }
  destruct (@created_block_is_rejected Examples.stubHash Examples.blockOptions
              Examples.genesis Examples.validator 1010 Examples.blockState (snd out) r block
              Hcreate Hblock Hgas (Consensus.new [Examples.validator] 5) 1010
              (Some Examples.genesis) (snd out)) as (v & Hrun & Hv).
  exists r, (snd out), block, v.
  split; [exact Hcreate |]. split; [exact Hblock |]. split; [exact Hin |].
  split; [exact Hrun | exact Hv].
Defined.
